(** * Tree-structured multi-GPU gradient synchronisation (caffe/parallel.cpp)

    A shallow embedding of [src/caffe/parallel.cpp] and the properties its
    specification states about it.

    - [Pairing]: [DevicePair::compute], the topology pairer.
    - [Batch]:   [P2PSync::divide_batch_size].
    - [Mirror]:  [apply_buffers], [total_size], [GPUParams::configure].
    - [Sync]:    the [GPUParams] / [P2PSync] constructors and destructor,
                 the two solver callbacks [on_start] and [on_gradients_ready],
                 and the loops of [P2PSync::run] that build the worker tree.

    Conventions.  The GPU build ([#ifndef CPU_ONLY]) is the one modelled.
    [CHECK], [CHECK_EQ] and [CUDA_CHECK] end the process through
    [LOG(FATAL)]: a failed check is the outcome [Fatal].  Logging ([LOG],
    [DLOG]) and timers have no effect on the modelled state and are left out. *)

From Stdlib Require Import ZArith QArith Lia SpecFloat.
From stdpp Require Import base list.

Local Open Scope Z_scope.

(** ** Outcomes of a call *)

Inductive fatal : Type :=
| cuda_error      (* CUDA_CHECK saw an error code *)
| check_failed    (* CHECK / CHECK_EQ did not hold *)
| memory_fault.   (* access outside an allocation, division by zero *)

Inductive result (A : Type) : Type :=
| Ok (a : A)          (* the call returned *)
| Fatal (f : fatal)   (* the process was aborted *)
| Blocked.            (* the thread waits in BlockingQueue::pop *)
Arguments Ok {A} a.
Arguments Fatal {A} f.
Arguments Blocked {A}.

Definition rbind {A B} (r : result A) (k : A -> result B) : result B :=
  match r with
  | Ok a => k a
  | Fatal f => Fatal f
  | Blocked => Blocked
  end.

Notation "'let*' x ':=' r 'in' k" := (rbind r (fun x => k))
  (at level 10, x pattern, r at level 100, k at level 200, only parsing).

(** [CHECK(cond)] *)
Definition CHECK (cond : bool) : result unit :=
  if cond then Ok tt else Fatal check_failed.

(** [CUDA_CHECK(call)] for a call that yields a value on success. *)
Definition CUDA_CHECK {A} (call : option A) : result A :=
  match call with
  | Some a => Ok a
  | None => Fatal cuda_error
  end.

Lemma rbind_Ok {A B} (r : result A) (k : A -> result B) b :
  rbind r k = Ok b -> exists a, r = Ok a /\ k a = Ok b.
Proof. destruct r; simpl; intros; try discriminate; eauto. Qed.

Lemma CHECK_Ok cond : CHECK cond = Ok tt <-> cond = true.
Proof. destruct cond; simpl; split; intros; congruence. Qed.

(** ** 1. The topology pairer: [DevicePair::compute] *)

Module Pairing.

(** [class DevicePair { int parent_; int device_; }] *)
Record DevicePair : Type := mkDevicePair { parent : Z; device : Z }.

(** The two fields of [cudaDeviceProp] that [compute] reads. *)
Record cudaDeviceProp : Type :=
  { isMultiGpuBoard : Z; multiGpuBoardGroupID : Z }.

Section Compute.

(** The CUDA runtime: each query yields its value, or [None] for an error
    code (an invalid device ordinal, say). *)
Variable cudaGetDeviceProperties : Z -> option cudaDeviceProp.
Variable cudaDeviceCanAccessPeer : Z -> Z -> option Z.

(** The three tests on [remaining[i]], [remaining[j]], one per pass. *)

(* lines 125-129 *)
Definition same_board (ri rj : Z) : result bool :=
  let* a := CUDA_CHECK (cudaGetDeviceProperties ri) in
  let* b := CUDA_CHECK (cudaGetDeviceProperties rj) in
  Ok (negb (isMultiGpuBoard a =? 0) && negb (isMultiGpuBoard b =? 0)
      && (multiGpuBoardGroupID a =? multiGpuBoardGroupID b)).

(* lines 147-149 *)
Definition p2p_access (ri rj : Z) : result bool :=
  let* access := CUDA_CHECK (cudaDeviceCanAccessPeer ri rj) in
  Ok (negb (access =? 0)).

(* lines 165-166: the last pass pairs without a test *)
Definition any_two (ri rj : Z) : result bool := Ok true.

(** The loop over [j = i + 1 .. remaining.size() - 1] for a fixed [i].
    [rest] is [remaining[i+1 ..]].  On the first [j] that passes the test it
    yields [remaining[j]] and [rest] with that element erased
    ([remaining.erase(remaining.begin() + j); break;]); [None] when the loop
    runs off the end. *)
Fixpoint inner_loop (test : Z -> Z -> result bool) (ri : Z) (rest : list Z)
  : result (option (Z * list Z)) :=
  match rest with
  | [] => Ok None
  | rj :: rest' =>
      let* matched := test ri rj in
      if (matched : bool) then Ok (Some (rj, rest'))
      else
        let* found := inner_loop test ri rest' in
        match found with
        | Some (rk, rest'') => Ok (Some (rk, rj :: rest''))
        | None => Ok None
        end
  end.

(** The loop over [i].  [todo] is [remaining[i ..]]; the elements before
    index [i] are never read or erased again, so the loop is a recursion on
    what is left from [i] on.  It yields the pairs pushed, in order, and the
    part of [remaining] from [i] on as it is when the loop ends.  Each turn
    keeps [remaining[i]] and erases at most one later element, so
    [length todo] turns are enough; [fuel] counts them. *)
Fixpoint outer_loop (fuel : nat) (test : Z -> Z -> result bool) (todo : list Z)
  : result (list DevicePair * list Z) :=
  match fuel, todo with
  | S fuel', ri :: rest =>
      let* found := inner_loop test ri rest in
      match found with
      | Some (rj, rest') =>
          let* (ps, rem) := outer_loop fuel' test rest' in
          Ok (mkDevicePair ri rj :: ps, ri :: rem)
      | None =>
          let* (ps, rem) := outer_loop fuel' test rest in
          Ok (ps, ri :: rem)
      end
  | _, _ => Ok ([], todo)
  end.

(** One pass: the pairs it pushes and [remaining] after it. *)
Definition pass (test : Z -> Z -> result bool) (remaining : list Z)
  : result (list DevicePair * list Z) :=
  outer_loop (length remaining) test remaining.

(** Lines 120-171: the three passes.  [pairs] is the vector the caller hands
    in, pairs are appended to it. *)
Definition pairing_passes (devices : list Z) (pairs : list DevicePair)
  : result (list DevicePair * list Z) :=
  let* (p1, r1) := pass same_board devices in
  let* (p2, r2) := pass p2p_access r1 in
  let* (p3, r3) := pass any_two r2 in
  Ok (pairs ++ p1 ++ p2 ++ p3, r3).

(** Lines 176-181: every pair has [parent != device], and no two pairs have
    the same [device]. *)
Fixpoint check_pairs (pairs : list DevicePair) : bool :=
  match pairs with
  | [] => true
  | p :: rest =>
      negb (parent p =? device p)
      && forallb (fun q => negb (device p =? device q)) rest
      && check_pairs rest
  end.

(** [DevicePair::compute(devices, &pairs)] *)
Definition compute (devices : list Z) (pairs : list DevicePair)
  : result (list DevicePair) :=
  let* (pairs1, remaining) := pairing_passes devices pairs in
  let* _ := CHECK (length remaining =? 1)%nat in
  let pairs2 := mkDevicePair (-1) (nth 0 remaining 0) :: pairs1 in
  let* _ := CHECK (length pairs2 =? length devices)%nat in
  let* _ := CHECK (check_pairs pairs2) in
  Ok pairs2.

(** *** Facts about one pass *)

(** What a pass does to [remaining]: the devices it erases are the [device]
    sides of the pairs it pushes and nothing else, in the order kept; the
    [parent] side of every pair stays in [remaining]. *)
Definition pass_effect (before : list Z) (ps : list DevicePair) (after : list Z)
  : Prop :=
  before ≡ₚ after ++ map device ps
  /\ sublist after before
  /\ hd_error after = hd_error before
  /\ Forall (fun p => In (parent p) after) ps.

Lemma inner_loop_Some test ri rest rj rest' :
  inner_loop test ri rest = Ok (Some (rj, rest')) ->
  exists l1 l2, rest = l1 ++ rj :: l2 /\ rest' = l1 ++ l2
                /\ test ri rj = Ok true
                /\ Forall (fun x => test ri x = Ok false) l1.
Proof.
  revert rest'. induction rest as [|x rest IH]; simpl; intros rest' H.
  - discriminate.
  - destruct (test ri x) as [[|]| |] eqn:Ht; simpl in H; try discriminate.
    + inversion H; subst. exists [], rest'. repeat split; auto.
    + destruct (inner_loop test ri rest) as [[[rk r'']|]| |] eqn:Hi;
        simpl in H; try discriminate.
      inversion H; subst.
      destruct (IH r'' eq_refl) as (l1 & l2 & -> & -> & Hj & Hl1).
      exists (x :: l1), l2. repeat split; auto.
Qed.

Lemma inner_loop_None test ri rest :
  inner_loop test ri rest = Ok None ->
  Forall (fun x => test ri x = Ok false) rest.
Proof.
  induction rest as [|x rest IH]; simpl; intros H; [constructor|].
  destruct (test ri x) as [[|]| |] eqn:Ht; simpl in H; try discriminate.
  destruct (inner_loop test ri rest) as [[[rk r'']|]| |] eqn:Hi;
    simpl in H; try discriminate.
  constructor; auto.
Qed.

Lemma outer_loop_effect test fuel : forall todo ps rem,
  (length todo <= fuel)%nat ->
  outer_loop fuel test todo = Ok (ps, rem) ->
  pass_effect todo ps rem.
Proof.
  unfold pass_effect.
  induction fuel as [|fuel IH]; intros todo ps rem Hlen H.
  - destruct todo; simpl in *; [|lia]. inversion H; subst; simpl.
    repeat split; auto.
  - destruct todo as [|ri rest]; simpl in H.
    { inversion H; subst; simpl. repeat split; auto. }
    simpl in Hlen.
    destruct (inner_loop test ri rest) as [[[rj rest']|]| |] eqn:Hi;
      simpl in H; try discriminate.
    + apply inner_loop_Some in Hi as (l1 & l2 & -> & -> & _ & _).
      destruct (outer_loop fuel test (l1 ++ l2)) as [[ps0 rem0]| |] eqn:Ho;
        simpl in H; try discriminate.
      inversion H; subst; clear H.
      apply IH in Ho as (Hp & Hs & _ & Hf);
        [|rewrite length_app in *; simpl in *; lia].
      repeat split.
      * simpl. constructor.
        rewrite <- !Permutation_middle. constructor. exact Hp.
      * apply sublist_skip. etrans; [exact Hs|].
        apply sublist_app; [reflexivity|]. apply sublist_cons. reflexivity.
      * constructor; [left; reflexivity|].
        eapply Forall_impl; [exact Hf|]. intros p Hin. right. exact Hin.
    + destruct (outer_loop fuel test rest) as [[ps0 rem0]| |] eqn:Ho;
        simpl in H; try discriminate.
      inversion H; subst; clear H.
      apply IH in Ho as (Hp & Hs & _ & Hf); [|lia].
      repeat split.
      * simpl. constructor. exact Hp.
      * apply sublist_skip. exact Hs.
      * eapply Forall_impl; [exact Hf|]. intros p Hin. right. exact Hin.
Qed.

Lemma pass_pass_effect test remaining ps rem :
  pass test remaining = Ok (ps, rem) -> pass_effect remaining ps rem.
Proof. apply outer_loop_effect. reflexivity. Qed.

Lemma pass_effect_length before ps after :
  pass_effect before ps after ->
  length before = (length after + length ps)%nat.
Proof.
  intros (Hp & _). apply Permutation_length in Hp.
  rewrite length_app, length_map in Hp. exact Hp.
Qed.

Lemma pass_effect_parent_ne_device before ps after :
  NoDup before -> pass_effect before ps after ->
  NoDup after /\ Forall (fun p => parent p <> device p) ps.
Proof.
  intros Hnd (Hp & _ & _ & Hf).
  rewrite Hp in Hnd. apply NoDup_app in Hnd as (Ha & Hdis & _).
  split; [exact Ha|].
  rewrite Forall_forall in *. intros p Hin Heq.
  apply (Hdis (parent p)).
  - apply list_elem_of_In, Hf, Hin.
  - rewrite Heq. apply list_elem_of_In, in_map, list_elem_of_In, Hin.
Qed.

Lemma pass_effect_parent_in before ps after :
  pass_effect before ps after -> Forall (fun p => In (parent p) before) ps.
Proof.
  intros (Hp & _ & _ & Hf). eapply Forall_impl; [exact Hf|].
  intros p Hin. eapply Permutation_in; [symmetry; exact Hp|].
  apply in_or_app. left. exact Hin.
Qed.

Lemma pass_effect_after_in before ps after x :
  pass_effect before ps after -> In x after -> In x before.
Proof.
  intros (Hp & _). intros Hin. eapply Permutation_in; [symmetry; exact Hp|].
  apply in_or_app. left. exact Hin.
Qed.

(** *** The checks of lines 176-181 as a predicate *)

Lemma check_pairs_true pairs :
  check_pairs pairs = true <->
  Forall (fun p => parent p <> device p) pairs /\ NoDup (map device pairs).
Proof.
  induction pairs as [|p rest IH]; simpl.
  - split; [intros _; split; constructor | reflexivity].
  - rewrite !andb_true_iff, negb_true_iff, Z.eqb_neq, IH, forallb_forall.
    rewrite Forall_cons, NoDup_cons. split.
    + intros ((Hne & Hall) & Hf & Hnd). repeat split; auto.
      intros Hin. apply list_elem_of_In, in_map_iff in Hin as (q & Hq & Hin).
      specialize (Hall q Hin). apply negb_true_iff, Z.eqb_neq in Hall. auto.
    + intros ((Hne & Hf) & Hnin & Hnd). repeat split; auto.
      intros q Hin. apply negb_true_iff, Z.eqb_neq. intros Heq.
      apply Hnin. rewrite Heq. apply list_elem_of_In, in_map, Hin.
Qed.

Lemma pairing_passes_Ok devices pairs ps rem :
  pairing_passes devices pairs = Ok (ps, rem) ->
  exists p1 r1 p2 r2 p3,
    pass same_board devices = Ok (p1, r1)
    /\ pass p2p_access r1 = Ok (p2, r2)
    /\ pass any_two r2 = Ok (p3, rem)
    /\ ps = pairs ++ p1 ++ p2 ++ p3.
Proof.
  unfold pairing_passes. intros H.
  apply rbind_Ok in H as ([p1 r1] & H1 & H).
  apply rbind_Ok in H as ([p2 r2] & H2 & H).
  apply rbind_Ok in H as ([p3 r3] & H3 & H).
  inversion H; subst. exists p1, r1, p2, r2, p3. auto.
Qed.

Lemma compute_Ok devices pairs0 pairs :
  compute devices pairs0 = Ok pairs ->
  exists ps root,
    pairing_passes devices pairs0 = Ok (ps, [root])
    /\ pairs = mkDevicePair (-1) root :: ps
    /\ length pairs = length devices
    /\ check_pairs pairs = true.
Proof.
  unfold compute. intros H.
  apply rbind_Ok in H as ([ps rem] & Hp & H).
  apply rbind_Ok in H as ([] & H1 & H). apply CHECK_Ok, Nat.eqb_eq in H1.
  apply rbind_Ok in H as ([] & H2 & H). apply CHECK_Ok, Nat.eqb_eq in H2.
  apply rbind_Ok in H as ([] & H3 & H). apply CHECK_Ok in H3.
  inversion H; subst; clear H.
  destruct rem as [|root [|? ?]]; simpl in H1; try discriminate.
  exists ps, root. simpl. auto.
Qed.

(** *** The pair list of a completed [compute] *)

(** X30.  The pair list when the passes leave one device.  Take a device
    list without duplicates in which -1 is not a device id, and on which the
    three passes complete and leave exactly one device [root].  Then
    [compute] returns; the returned list is the root
    pair (-1, root) followed by the pairs the passes pushed; [root] is the
    first device of the input; the list is as long as the input; the root
    pair is the only one with parent -1; no pair has its own device as
    parent; and the [device] fields are the input devices, each once. *)
Theorem compute_pairs_spec (devices : list Z) (ps : list DevicePair) (root : Z) :
  NoDup devices ->
  ~ In (-1) devices ->
  pairing_passes devices [] = Ok (ps, [root]) ->
  exists pairs,
    compute devices [] = Ok pairs
    /\ pairs = mkDevicePair (-1) root :: ps
    /\ hd_error devices = Some root
    /\ length pairs = length devices
    /\ Forall (fun p => parent p <> -1) ps
    /\ Forall (fun p => parent p <> device p) pairs
    /\ map device pairs ≡ₚ devices.
Proof.
  intros Hnd Hm1 Hpass.
  destruct (pairing_passes_Ok _ _ _ _ Hpass)
    as (p1 & r1 & p2 & r2 & p3 & H1 & H2 & H3 & Hps).
  simpl in Hps.
  apply pass_pass_effect in H1, H2, H3.
  destruct (pass_effect_parent_ne_device _ _ _ Hnd H1) as (Hnd1 & Hne1).
  destruct (pass_effect_parent_ne_device _ _ _ Hnd1 H2) as (Hnd2 & Hne2).
  destruct (pass_effect_parent_ne_device _ _ _ Hnd2 H3) as (_ & Hne3).
  assert (Hperm : root :: map device ps ≡ₚ devices).
  { destruct H1 as (P1 & _), H2 as (P2 & _), H3 as (P3 & _).
    rewrite P1, P2, P3, Hps, !map_app. simpl.
    constructor.
    rewrite (Permutation_app_comm (map device p3 ++ map device p2)).
    apply Permutation_app_head, Permutation_app_comm. }
  assert (Hroot : In root devices).
  { eapply Permutation_in; [exact Hperm|]. left. reflexivity. }
  assert (Hparents : Forall (fun p => In (parent p) devices) ps).
  { subst ps. rewrite !Forall_app. repeat split.
    - eapply pass_effect_parent_in; eauto.
    - eapply Forall_impl; [eapply pass_effect_parent_in; eauto|].
      intros p Hin. eapply pass_effect_after_in; eauto.
    - eapply Forall_impl; [eapply pass_effect_parent_in; eauto|].
      intros p Hin. do 2 (eapply pass_effect_after_in; eauto). }
  assert (Hlen : S (length ps) = length devices).
  { apply Permutation_length in Hperm. simpl in Hperm.
    rewrite length_map in Hperm. exact Hperm. }
  assert (Hchk : check_pairs (mkDevicePair (-1) root :: ps) = true).
  { apply check_pairs_true. split.
    - constructor; [simpl; intros <-; contradiction|].
      subst ps. rewrite !Forall_app. auto.
    - simpl. rewrite Hperm. exact Hnd. }
  exists (mkDevicePair (-1) root :: ps). repeat split.
  - unfold compute. rewrite Hpass. cbn -[Nat.eqb check_pairs].
    rewrite (proj2 (Nat.eqb_eq _ _) Hlen), Hchk. reflexivity.
  - destruct H1 as (_ & _ & <- & _), H2 as (_ & _ & <- & _),
      H3 as (_ & _ & <- & _). reflexivity.
  - simpl. exact Hlen.
  - eapply Forall_impl; [exact Hparents|]. intros p Hin Heq. simpl in Hin.
    rewrite Heq in Hin. contradiction.
  - apply check_pairs_true in Hchk. apply Hchk.
  - simpl. exact Hperm.
Qed.

(** C4 (as amended).  When the three passes complete, each of them erases
    from [remaining] the [device] (second) side of every pair it pushes and
    nothing else, and keeps the [parent] (first) side in [remaining], where
    the following passes find it again.  When moreover [compute] returns,
    exactly one device was left after the three passes; it is the first
    device of the input and is given the parent -1. *)
Theorem passes_erase_child_only (devices : list Z) (ps : list DevicePair)
    (rem : list Z) :
  pairing_passes devices [] = Ok (ps, rem) ->
  exists p1 r1 p2 r2 p3,
    pass same_board devices = Ok (p1, r1)
    /\ pass p2p_access r1 = Ok (p2, r2)
    /\ pass any_two r2 = Ok (p3, rem)
    /\ ps = p1 ++ p2 ++ p3
    /\ pass_effect devices p1 r1
    /\ pass_effect r1 p2 r2
    /\ pass_effect r2 p3 rem
    /\ forall pairs, compute devices [] = Ok pairs ->
         exists root, rem = [root] /\ hd_error devices = Some root
                      /\ pairs = mkDevicePair (-1) root :: ps.
Proof.
  intros Hpass.
  destruct (pairing_passes_Ok _ _ _ _ Hpass)
    as (p1 & r1 & p2 & r2 & p3 & H1 & H2 & H3 & Hps).
  exists p1, r1, p2, r2, p3.
  pose proof (pass_pass_effect _ _ _ _ H1) as E1.
  pose proof (pass_pass_effect _ _ _ _ H2) as E2.
  pose proof (pass_pass_effect _ _ _ _ H3) as E3.
  do 7 (split; [assumption|]).
  intros pairs Hc.
  apply compute_Ok in Hc as (ps' & root & Hpass' & -> & _).
  rewrite Hpass in Hpass'. inversion Hpass'; subst ps' rem.
  exists root. repeat split; auto.
  destruct E1 as (_ & _ & <- & _), E2 as (_ & _ & <- & _),
    E3 as (_ & _ & <- & _). reflexivity.
Qed.

(** *** Lists that are rejected *)

(** The passes only move devices from [remaining] to the [device] side of a
    pair. *)
Lemma pairing_passes_devices devices ps rem :
  pairing_passes devices [] = Ok (ps, rem) ->
  rem ++ map device ps ≡ₚ devices.
Proof.
  intros Hpass.
  destruct (pairing_passes_Ok _ _ _ _ Hpass)
    as (p1 & r1 & p2 & r2 & p3 & H1 & H2 & H3 & ->).
  apply pass_pass_effect in H1, H2, H3.
  destruct H1 as (P1 & _), H2 as (P2 & _), H3 as (P3 & _).
  rewrite P1, P2, P3.
  simpl. rewrite !map_app, <- !app_assoc. apply Permutation_app_head.
  rewrite (Permutation_app_comm (map device p1) (map device p2 ++ map device p3)).
  rewrite (Permutation_app_comm (map device p2) (map device p3)).
  rewrite <- app_assoc. reflexivity.
Qed.

(** A list for which [compute] returns names no device twice: the checks of
    lines 176-181 reject every other list. *)
Lemma compute_Ok_NoDup devices pairs :
  compute devices [] = Ok pairs -> NoDup devices.
Proof.
  intros H. apply compute_Ok in H as (ps & root & Hpass & -> & _ & Hchk).
  apply check_pairs_true in Hchk as (_ & Hnd). simpl in Hnd.
  apply pairing_passes_devices in Hpass. rewrite <- Hpass. exact Hnd.
Qed.

(** *** The last pass *)

(** The last pass always completes, and leaves every other device of what it
    is given: [remaining[0]], [remaining[2]], ... *)
Lemma last_pass_halves fuel : forall todo,
  (length todo <= fuel)%nat ->
  exists ps rem,
    outer_loop fuel any_two todo = Ok (ps, rem)
    /\ length rem = Nat.div2 (S (length todo)).
Proof.
  induction fuel as [|fuel IH]; intros todo Hlen.
  - destruct todo; simpl in *; [|lia]. eauto.
  - destruct todo as [|ri [|rj rest]]; simpl.
    + eauto.
    + destruct fuel; simpl; eauto.
    + destruct (IH rest) as (ps & rem & -> & Hrem); [simpl in Hlen; lia|].
      simpl. eexists _, _. split; [reflexivity|]. simpl. rewrite Hrem.
      reflexivity.
Qed.

(** So [compute] returns only if at most two devices reach the last pass:
    with three or more, [CHECK_EQ(remaining.size(), 1)] fails. *)
Lemma compute_aborts_when_three_are_left devices pairs p1 r1 p2 r2 :
  pass same_board devices = Ok (p1, r1) ->
  pass p2p_access r1 = Ok (p2, r2) ->
  (3 <= length r2)%nat ->
  compute devices pairs = Fatal check_failed.
Proof.
  intros H1 H2 Hlen.
  destruct (last_pass_halves (length r2) r2) as (p3 & r3 & H3 & Hrem);
    [reflexivity|].
  unfold compute, pairing_passes. rewrite H1. simpl. rewrite H2. simpl.
  unfold pass. rewrite H3. simpl.
  destruct r2 as [|a [|b [|c r2]]]; simpl in Hlen; try lia.
  simpl in Hrem.
  destruct r3 as [|x [|y r3]]; simpl in Hrem; try discriminate Hrem.
  reflexivity.
Qed.

(** A pass keeps at least every other device, whatever its test: each
    turn of the loop over [i] keeps [remaining[i]] and erases at most one
    device. *)
Lemma outer_loop_keeps_half test fuel : forall todo ps rem,
  outer_loop fuel test todo = Ok (ps, rem) ->
  (length todo <= 2 * length rem)%nat.
Proof.
  induction fuel as [|fuel IH]; intros todo ps rem H.
  - simpl in H. destruct todo; inversion H; subst; simpl; lia.
  - destruct todo as [|ri rest]; simpl in H.
    { inversion H; subst. simpl. lia. }
    destruct (inner_loop test ri rest) as [[[rj rest']|]| |] eqn:Hi;
      simpl in H; try discriminate.
    + apply inner_loop_Some in Hi as (l1 & l2 & -> & -> & _ & _).
      destruct (outer_loop fuel test (l1 ++ l2)) as [[ps0 rem0]| |] eqn:Ho;
        simpl in H; try discriminate.
      inversion H; subst; clear H. apply IH in Ho.
      rewrite length_app in *. simpl in *. rewrite length_app. simpl. lia.
    + destruct (outer_loop fuel test rest) as [[ps0 rem0]| |] eqn:Ho;
        simpl in H; try discriminate.
      inversion H; subst; clear H. apply IH in Ho. simpl. lia.
Qed.

(** So three passes bring at most eight devices down to one: for nine or
    more devices [compute] returns no pair list, whatever the boards and
    the peer links are. *)
Lemma compute_returns_at_most_eight devices pairs0 pairs :
  compute devices pairs0 = Ok pairs -> (length devices <= 8)%nat.
Proof.
  unfold compute. intros H.
  apply rbind_Ok in H as ([ps rem] & Hp & H).
  apply rbind_Ok in H as ([] & H1 & _). apply CHECK_Ok, Nat.eqb_eq in H1.
  unfold pairing_passes in Hp.
  apply rbind_Ok in Hp as ([p1 r1] & Hp1 & Hp).
  apply rbind_Ok in Hp as ([p2 r2] & Hp2 & Hp).
  apply rbind_Ok in Hp as ([p3 r3] & Hp3 & Hp).
  inversion Hp; subst; clear Hp.
  apply outer_loop_keeps_half in Hp1, Hp2, Hp3. lia.
Qed.

Lemma last_pass_shape fuel : forall todo,
  (length todo <= fuel)%nat ->
  exists ps rem,
    outer_loop fuel any_two todo = Ok (ps, rem)
    /\ length ps = Nat.div2 (length todo)
    /\ (forall i, rem !! i = todo !! (i + i)%nat)
    /\ (forall i a b, todo !! (i + i)%nat = Some a ->
          todo !! S (i + i) = Some b -> ps !! i = Some (mkDevicePair a b)).
Proof.
  induction fuel as [|fuel IH]; intros todo Hlen.
  - destruct todo; simpl in *; [|lia]. exists [], []. repeat split; auto.
    intros i a b H. rewrite lookup_nil in H. discriminate.
  - destruct todo as [|ri [|rj rest]].
    + exists [], []. repeat split; auto.
      intros i a b H. rewrite lookup_nil in H. discriminate.
    + exists [], [ri]. simpl.
      assert (outer_loop fuel any_two [] = Ok ([], [])) as ->
        by (destruct fuel; reflexivity).
      repeat split; auto.
      * intros [|i]; [reflexivity|]. simpl. rewrite Nat.add_succ_r. reflexivity.
      * intros [|i] a b H1 H2; simpl in H2; discriminate.
    + destruct (IH rest) as (ps & rem & Ho & Hps & Hrem & Hpair);
        [simpl in Hlen; lia|].
      exists (mkDevicePair ri rj :: ps), (ri :: rem).
      split; [simpl; rewrite Ho; reflexivity|].
      split; [simpl; rewrite Hps; reflexivity|]. split.
      * intros [|i]; [reflexivity|]. simpl. rewrite Nat.add_succ_r. simpl.
        apply Hrem.
      * intros [|i] a b H1 H2.
        -- simpl in H1, H2. inversion H1; inversion H2; subst. reflexivity.
        -- simpl in H1, H2. rewrite Nat.add_succ_r in H1, H2.
           simpl in H1, H2. simpl. eapply Hpair; eauto.
Qed.

(** X1.  The last pass makes no runtime query and cannot fail.  Of the
    devices d0, d1, d2, ... it is given, it pushes the pairs (d0, d1),
    (d2, d3), ... in that order and leaves d0, d2, ...: half of the devices,
    rounded up. *)
Theorem last_pass_pairs_neighbours (remaining : list Z) :
  exists ps rem,
    pass any_two remaining = Ok (ps, rem)
    /\ length ps = Nat.div2 (length remaining)
    /\ length rem = Nat.div2 (S (length remaining))
    /\ (forall i, rem !! i = remaining !! (2 * i)%nat)
    /\ (forall i a b, remaining !! (2 * i)%nat = Some a ->
          remaining !! S (2 * i) = Some b -> ps !! i = Some (mkDevicePair a b)).
Proof.
  destruct (last_pass_shape (length remaining) remaining)
    as (ps & rem & H & Hps & Hrem & Hpair); [reflexivity|].
  destruct (last_pass_halves (length remaining) remaining)
    as (ps' & rem' & H' & Hlen); [reflexivity|].
  rewrite H in H'. inversion H'; subst ps' rem'.
  exists ps, rem. split; [exact H|]. split; [exact Hps|].
  split; [exact Hlen|]. split.
  - intros i. replace (2 * i)%nat with (i + i)%nat by lia. apply Hrem.
  - intros i a b. replace (2 * i)%nat with (i + i)%nat by lia. apply Hpair.
Qed.

(** *** When [compute] returns *)

Lemma pairing_passes_app devices pairs ps rem :
  pairing_passes devices pairs = Ok (ps, rem) ->
  exists ps', ps = pairs ++ ps' /\ pairing_passes devices [] = Ok (ps', rem).
Proof.
  intros H.
  destruct (pairing_passes_Ok _ _ _ _ H)
    as (p1 & r1 & p2 & r2 & p3 & H1 & H2 & H3 & ->).
  exists (p1 ++ p2 ++ p3). split; [reflexivity|].
  unfold pairing_passes. rewrite H1. simpl. rewrite H2. simpl. rewrite H3.
  reflexivity.
Qed.

(** X2.  [compute] has to be handed an empty pair vector: it appends to what
    it is given, and [CHECK(pairs->size() == devices.size())] then fails for
    every vector that was not empty. *)
Theorem compute_needs_empty_pairs (devices : list Z)
    (pairs0 pairs : list DevicePair) :
  compute devices pairs0 = Ok pairs -> pairs0 = [].
Proof.
  intros H. apply compute_Ok in H as (ps & root & Hpass & -> & Hlen & _).
  apply pairing_passes_app in Hpass as (ps' & -> & Hpass).
  apply pairing_passes_devices, Permutation_length in Hpass.
  simpl in Hpass, Hlen. rewrite length_map in Hpass.
  rewrite length_app in Hlen.
  destruct pairs0; [reflexivity|]. simpl in Hlen. lia.
Qed.

(** X3.  Exactly when [compute] returns.  Let the first two passes complete
    and leave [r2].  Then [compute] returns if and only if one or two devices
    are left in [r2], no device is named twice in the input, and the first
    device of the input is not -1.  What it returns is the root pair for the
    first device followed by the pairs of the three passes. *)
Theorem compute_returns_iff (devices : list Z) (p1 p2 : list DevicePair)
    (r1 r2 : list Z) :
  pass same_board devices = Ok (p1, r1) ->
  pass p2p_access r1 = Ok (p2, r2) ->
  ((exists pairs, compute devices [] = Ok pairs)
   <-> ((1 <= length r2 <= 2)%nat /\ NoDup devices
        /\ hd_error devices <> Some (-1)))
  /\ forall pairs, compute devices [] = Ok pairs ->
       exists root p3,
         hd_error devices = Some root
         /\ pass any_two r2 = Ok (p3, [root])
         /\ pairs = mkDevicePair (-1) root :: p1 ++ p2 ++ p3.
Proof.
  intros H1 H2.
  destruct (last_pass_halves (length r2) r2) as (p3 & r3 & H3 & Hrem);
    [reflexivity|].
  fold (pass any_two r2) in H3.
  assert (Hpass : pairing_passes devices [] = Ok (p1 ++ p2 ++ p3, r3)).
  { unfold pairing_passes. rewrite H1. simpl. rewrite H2. simpl. rewrite H3.
    reflexivity. }
  pose proof (pass_pass_effect _ _ _ _ H1) as E1.
  pose proof (pass_pass_effect _ _ _ _ H2) as E2.
  pose proof (pass_pass_effect _ _ _ _ H3) as E3.
  assert (Hhd : hd_error r3 = hd_error devices).
  { destruct E1 as (_ & _ & <- & _), E2 as (_ & _ & <- & _),
      E3 as (_ & _ & <- & _). reflexivity. }
  assert (Hret : forall pairs, compute devices [] = Ok pairs ->
            exists root, r3 = [root] /\ root <> -1 /\ NoDup devices
              /\ pairs = mkDevicePair (-1) root :: p1 ++ p2 ++ p3).
  { intros pairs Hc. pose proof (compute_Ok_NoDup _ _ Hc) as Hnd.
    apply compute_Ok in Hc as (ps & root & Hpass' & -> & _ & Hchk).
    rewrite Hpass in Hpass'. inversion Hpass'; subst ps r3.
    exists root. repeat split; auto.
    apply check_pairs_true in Hchk as (Hne & _).
    apply Forall_cons in Hne as (Hne & _). simpl in Hne. congruence. }
  split; [split|].
  - intros (pairs & Hc). destruct (Hret pairs Hc) as (root & -> & Hne & Hnd & _).
    simpl in Hrem, Hhd. repeat split; auto.
    + destruct r2 as [|a r2]; [discriminate Hrem | simpl; lia].
    + destruct r2 as [|a [|b [|c r2]]]; simpl in *; try lia.
      discriminate Hrem.
    + rewrite <- Hhd. congruence.
  - intros ((Hge & Hle) & Hnd & Hm1).
    assert (Hone : exists root, r3 = [root]).
    { destruct r2 as [|a [|b [|c r2]]]; simpl in *; try lia;
        destruct r3 as [|x [|y r3]]; try discriminate Hrem; eauto. }
    destruct Hone as (root & ->). simpl in Hhd.
    destruct (pass_effect_parent_ne_device _ _ _ Hnd E1) as (Hnd1 & Hne1).
    destruct (pass_effect_parent_ne_device _ _ _ Hnd1 E2) as (Hnd2 & Hne2).
    destruct (pass_effect_parent_ne_device _ _ _ Hnd2 E3) as (_ & Hne3).
    pose proof (pairing_passes_devices _ _ _ Hpass) as Hperm. simpl in Hperm.
    exists (mkDevicePair (-1) root :: p1 ++ p2 ++ p3).
    unfold compute. rewrite Hpass. cbn -[Nat.eqb check_pairs].
    assert (Hlen : S (length (p1 ++ p2 ++ p3)) = length devices).
    { apply Permutation_length in Hperm. simpl in Hperm.
      rewrite length_map in Hperm. exact Hperm. }
    rewrite (proj2 (Nat.eqb_eq _ _) Hlen).
    assert (Hchk : check_pairs (mkDevicePair (-1) root :: p1 ++ p2 ++ p3) = true).
    { apply check_pairs_true. split.
      - constructor; [simpl; intros <-; apply Hm1; congruence|].
        rewrite !Forall_app. auto.
      - simpl. rewrite Hperm. exact Hnd. }
    rewrite Hchk. reflexivity.
  - intros pairs Hc. destruct (Hret pairs Hc) as (root & -> & _ & _ & ->).
    exists root, p3. simpl in Hhd. auto.
Qed.

(** X4.  A failed runtime query is fatal.  With two or more devices the first
    thing [compute] does is to query the properties of the first two; if
    either query reports an error, [CUDA_CHECK] aborts the run. *)
Theorem compute_cuda_error (a b : Z) (rest : list Z) (pairs : list DevicePair) :
  cudaGetDeviceProperties a = None \/ cudaGetDeviceProperties b = None ->
  compute (a :: b :: rest) pairs = Fatal cuda_error.
Proof.
  intros H. unfold compute, pairing_passes, pass. simpl. unfold same_board.
  destruct (cudaGetDeviceProperties a) as [pa|]; [|reflexivity]. simpl.
  destruct (cudaGetDeviceProperties b) as [pb|]; [|reflexivity].
  destruct H; discriminate.
Qed.

(** X5.  Two devices.  When no query reports an error, two different devices
    [a] (not -1) and [b] always end as root [a] with the single child [b],
    whether they share a board, are peers, or neither. *)
Theorem compute_two_devices (a b : Z) (pa pb : cudaDeviceProp) (access : Z) :
  cudaGetDeviceProperties a = Some pa ->
  cudaGetDeviceProperties b = Some pb ->
  cudaDeviceCanAccessPeer a b = Some access ->
  a <> b -> a <> -1 ->
  compute [a; b] [] = Ok [mkDevicePair (-1) a; mkDevicePair a b].
Proof.
  intros Ha Hb Hacc Hab Ha1.
  assert (Hchk : check_pairs [mkDevicePair (-1) a; mkDevicePair a b] = true).
  { apply check_pairs_true. split.
    - repeat constructor; simpl; congruence.
    - simpl. apply NoDup_cons. split; [|apply NoDup_singleton].
      intros Hin. apply list_elem_of_singleton in Hin. contradiction. }
  unfold compute, pairing_passes, pass, same_board, p2p_access.
  cbn -[check_pairs]. rewrite Ha. cbn -[check_pairs]. rewrite Hb.
  cbn -[check_pairs].
  destruct (_ && _); cbn -[check_pairs].
  - rewrite Hchk. reflexivity.
  - rewrite Hacc. cbn -[check_pairs].
    destruct (negb (access =? 0)); cbn -[check_pairs]; rewrite Hchk;
      reflexivity.
Qed.

(** X6.  Fewer than two devices: no runtime query is made.  The empty list
    is rejected ([remaining.size()] is 0, not 1); a single device [d] becomes
    the root, unless [d] is -1, which the check [parent != device] rejects. *)
Theorem compute_small_lists (d : Z) :
  compute [] [] = Fatal check_failed
  /\ compute [d] []
     = if d =? -1 then Fatal check_failed else Ok [mkDevicePair (-1) d].
Proof.
  split; [reflexivity|].
  unfold compute, pairing_passes, pass. cbn -[Z.eqb].
  rewrite (Z.eqb_sym (-1) d). destruct (d =? -1); reflexivity.
Qed.

(** *** The tree that the pairs describe *)

(** The parent the pair list gives device [d]: [pairs[i].parent()] for the
    first [i] with [pairs[i].device() == d]. *)
Definition parent_of (pairs : list DevicePair) (d : Z) : option Z :=
  match find (fun p => device p =? d) pairs with
  | Some p => Some (parent p)
  | None => None
  end.

(** The number of parent links from [d] up to a pair with parent -1, when
    there are fewer than [fuel] of them. *)
Fixpoint depth (fuel : nat) (pairs : list DevicePair) (d : Z) : option nat :=
  match fuel with
  | O => None
  | S fuel' =>
      match parent_of pairs d with
      | None => None
      | Some p =>
          if p =? -1 then Some O
          else match depth fuel' pairs p with
               | Some n => Some (S n)
               | None => None
               end
      end
  end.

Definition within (k : nat) (pairs : list DevicePair) (d : Z) : Prop :=
  forall fuel, (k < fuel)%nat ->
    exists n, depth fuel pairs d = Some n /\ (n <= k)%nat.

Lemma find_device pairs p :
  NoDup (map device pairs) -> In p pairs ->
  find (fun q => device q =? device p) pairs = Some p.
Proof.
  induction pairs as [|p0 rest IH]; simpl; intros Hnd Hin; [contradiction|].
  apply NoDup_cons in Hnd as (Hnin & Hnd).
  destruct Hin as [->|Hin]; [rewrite Z.eqb_refl; reflexivity|].
  destruct (device p0 =? device p) eqn:E; [|auto].
  apply Z.eqb_eq in E. exfalso. apply Hnin. rewrite E.
  apply list_elem_of_In, in_map, Hin.
Qed.

Lemma within_root pairs p :
  NoDup (map device pairs) -> In p pairs -> parent p = -1 ->
  within 0 pairs (device p).
Proof.
  intros Hnd Hin Hp [|fuel] Hlt; [lia|]. exists 0%nat. split; [|lia].
  simpl. unfold parent_of. rewrite (find_device _ _ Hnd Hin), Hp. reflexivity.
Qed.

Lemma within_step k pairs p :
  NoDup (map device pairs) -> In p pairs ->
  within k pairs (parent p) -> within (S k) pairs (device p).
Proof.
  intros Hnd Hin Hpar [|fuel] Hlt; [lia|].
  simpl. unfold parent_of. rewrite (find_device _ _ Hnd Hin).
  destruct (parent p =? -1); [exists 0%nat; split; [reflexivity|lia]|].
  destruct (Hpar fuel) as (n & -> & Hn); [lia|].
  exists (S n). split; [reflexivity|lia].
Qed.

Lemma within_mono k pairs d : within k pairs d -> within (S k) pairs d.
Proof.
  intros H fuel Hlt. destruct (H fuel) as (n & Hd & Hn); [lia|].
  exists n. split; [exact Hd|lia].
Qed.

(** X7.  The pairs [compute] returns form one tree of depth at most 3.  From
    every input device, following the [parent] fields of the pair list leads
    to a pair with parent -1 in at most three steps: the pairs of the last
    pass hang under the root, those of the P2P pass under the root or under
    a device paired in the last pass, those of the board pass under one of
    these. *)
Theorem compute_tree_depth (devices : list Z) (pairs : list DevicePair) :
  compute devices [] = Ok pairs ->
  forall d, In d devices ->
    exists n, depth 4 pairs d = Some n /\ (n <= 3)%nat.
Proof.
  intros Hc d Hd.
  apply compute_Ok in Hc as (ps & root & Hpass & -> & _ & Hchk).
  apply check_pairs_true in Hchk as (_ & Hnd).
  pose proof (pairing_passes_devices _ _ _ Hpass) as Hperm.
  destruct (pairing_passes_Ok _ _ _ _ Hpass)
    as (p1 & r1 & p2 & r2 & p3 & H1 & H2 & H3 & ->).
  simpl app in *.
  apply pass_pass_effect in H1, H2, H3.
  destruct H1 as (_ & _ & _ & F1), H2 as (P2 & _ & _ & F2),
    H3 as (P3 & _ & _ & F3).
  set (pairs := mkDevicePair (-1) root :: p1 ++ p2 ++ p3) in *.
  assert (Hin : forall p, In p (p1 ++ p2 ++ p3) -> In p pairs)
    by (intros p Hp; right; exact Hp).
  assert (Hroot : within 0 pairs root).
  { apply (within_root pairs (mkDevicePair (-1) root) Hnd);
      [left; reflexivity | reflexivity]. }
  assert (L3 : forall p, In p p3 -> within 1 pairs (device p)).
  { intros p Hp. apply within_step; [exact Hnd | apply Hin; auto with datatypes|].
    rewrite Forall_forall in F3.
    specialize (F3 p (proj2 (list_elem_of_In _ _) Hp)).
    destruct F3 as [<-|[]]. exact Hroot. }
  assert (R2 : forall x, In x r2 -> within 1 pairs x).
  { intros x Hx. eapply Permutation_in in Hx; [|exact P3].
    simpl in Hx. destruct Hx as [<-|Hx]; [apply within_mono, Hroot|].
    apply in_map_iff in Hx as (q & <- & Hq). apply L3, Hq. }
  assert (L2 : forall p, In p p2 -> within 2 pairs (device p)).
  { intros p Hp. apply within_step; [exact Hnd | apply Hin; auto with datatypes|].
    rewrite Forall_forall in F2.
    apply R2, F2, list_elem_of_In, Hp. }
  assert (R1 : forall x, In x r1 -> within 2 pairs x).
  { intros x Hx. eapply Permutation_in in Hx; [|exact P2].
    apply in_app_or in Hx as [Hx|Hx]; [apply within_mono, R2, Hx|].
    apply in_map_iff in Hx as (q & <- & Hq). apply L2, Hq. }
  assert (L1 : forall p, In p p1 -> within 3 pairs (device p)).
  { intros p Hp. apply within_step; [exact Hnd | apply Hin; auto with datatypes|].
    rewrite Forall_forall in F1.
    apply R1, F1, list_elem_of_In, Hp. }
  assert (Hall : within 3 pairs d).
  { eapply Permutation_in in Hd; [|symmetry; exact Hperm].
    simpl in Hd. destruct Hd as [<-|Hd]; [do 3 apply within_mono; exact Hroot|].
    apply in_map_iff in Hd as (q & <- & Hq).
    apply in_app_or in Hq as [Hq|Hq]; [apply L1, Hq|].
    apply in_app_or in Hq as [Hq|Hq]; [apply within_mono, L2, Hq|].
    do 2 apply within_mono. apply L3, Hq. }
  apply Hall. lia.
Qed.

End Compute.

(** Two runtimes used in the examples: one where no device is on a
    multi-GPU board and no two devices are peers, and one where every two
    devices are peers. *)
Definition plain_props (d : Z) : option cudaDeviceProp :=
  Some {| isMultiGpuBoard := 0; multiGpuBoardGroupID := 0 |}.
Definition no_peer (a b : Z) : option Z := Some 0.
Definition all_peers (a b : Z) : option Z := Some 1.

Lemma compute_pairs_spec_witness :
  exists pairs,
    compute plain_props all_peers [0; 1; 2; 3] [] = Ok pairs
    /\ pairs = mkDevicePair (-1) 0
               :: [mkDevicePair 0 1; mkDevicePair 2 3; mkDevicePair 0 2]
    /\ hd_error [0; 1; 2; 3] = Some 0
    /\ length pairs = length [0; 1; 2; 3]
    /\ Forall (fun p => parent p <> -1)
         [mkDevicePair 0 1; mkDevicePair 2 3; mkDevicePair 0 2]
    /\ Forall (fun p => parent p <> device p) pairs
    /\ map device pairs ≡ₚ [0; 1; 2; 3].
Proof.
  apply (compute_pairs_spec plain_props all_peers [0; 1; 2; 3]
           [mkDevicePair 0 1; mkDevicePair 2 3; mkDevicePair 0 2] 0).
  - apply (bool_decide_unpack _). vm_compute. reflexivity.
  - simpl. lia.
  - vm_compute. reflexivity.
Defined.

(** A list that names a device twice is rejected by the check of line 179
    (here after the last pass has paired device 0 with itself), so no pair
    list is returned for it. *)
Lemma compute_rejects_duplicates :
  length [0; 0] = 2%nat
  /\ compute plain_props no_peer [0; 0] [] = Fatal check_failed
  /\ ~ exists pairs, compute plain_props no_peer [0; 0] [] = Ok pairs.
Proof.
  split; [reflexivity|]. split; [vm_compute; reflexivity|].
  intros [pairs H]. vm_compute in H. discriminate.
Qed.

(** Why -1 is excluded as a device id: where devices 0 and 1 are peers and
    devices -1 and 2 are peers, [compute] returns a list in which two pairs
    have the parent -1. *)
Definition two_links (a b : Z) : option Z :=
  Some (if ((a =? 0) && (b =? 1)) || ((a =? -1) && (b =? 2)) then 1 else 0).

Example compute_device_minus_one :
  compute plain_props two_links [0; 1; -1; 2] []
  = Ok [mkDevicePair (-1) 0; mkDevicePair 0 1; mkDevicePair (-1) 2;
        mkDevicePair 0 (-1)].
Proof. vm_compute. reflexivity. Qed.

Lemma passes_erase_child_only_witness :
  exists p1 r1 p2 r2 p3,
    pass (same_board plain_props) [0; 1; 2; 3] = Ok (p1, r1)
    /\ pass (p2p_access all_peers) r1 = Ok (p2, r2)
    /\ pass any_two r2 = Ok (p3, [0])
    /\ [mkDevicePair 0 1; mkDevicePair 2 3; mkDevicePair 0 2] = p1 ++ p2 ++ p3
    /\ pass_effect [0; 1; 2; 3] p1 r1
    /\ pass_effect r1 p2 r2
    /\ pass_effect r2 p3 [0]
    /\ forall pairs, compute plain_props all_peers [0; 1; 2; 3] [] = Ok pairs ->
         exists root, [0] = [root] /\ hd_error [0; 1; 2; 3] = Some root
           /\ pairs = mkDevicePair (-1) root
                      :: [mkDevicePair 0 1; mkDevicePair 2 3; mkDevicePair 0 2].
Proof.
  apply (passes_erase_child_only plain_props all_peers [0; 1; 2; 3]).
  vm_compute. reflexivity.
Defined.

(** C4, as stated, fails: the last pass on [0; 1] matches the pair (0, 1) and
    erases device 1 only; device 0, one of the two matched devices, is still
    in [remaining] afterwards (and is the root). *)
Lemma matched_parent_stays_in_remaining :
  pass any_two [0; 1] = Ok ([mkDevicePair 0 1], [0])
  /\ In 0 [0]
  /\ compute plain_props no_peer [0; 1] []
     = Ok [mkDevicePair (-1) 0; mkDevicePair 0 1].
Proof. vm_compute. repeat split; auto. Qed.

(** C3: three devices, no two on one board and no two peers.  The claim
    promises a pair list of length 3.  The last pass pushes (0, 1) and leaves
    [0; 2]; nothing pairs device 2 with device 0 afterwards, and
    [CHECK_EQ(remaining.size(), 1)] aborts. *)
Lemma compute_three_unlinked_devices :
  length [0; 1; 2] = 3%nat /\ NoDup [0; 1; 2]
  /\ pairing_passes plain_props no_peer [0; 1; 2] []
     = Ok ([mkDevicePair 0 1], [0; 2])
  /\ compute plain_props no_peer [0; 1; 2] [] = Fatal check_failed
  /\ ~ exists pairs, compute plain_props no_peer [0; 1; 2] [] = Ok pairs.
Proof.
  split; [reflexivity|].
  split; [apply (bool_decide_unpack _); vm_compute; reflexivity|].
  split; [vm_compute; reflexivity|]. split; [vm_compute; reflexivity|].
  intros [pairs H]. vm_compute in H. discriminate.
Qed.

(** C5: four devices, no two on one board and no two peers.  The third pass
    pushes (0, 1) and (2, 3) and leaves [0; 2]; no further pass follows, and
    [CHECK_EQ(remaining.size(), 1)] aborts. *)
Lemma compute_four_unlinked_devices :
  pairing_passes plain_props no_peer [0; 1; 2; 3] []
  = Ok ([mkDevicePair 0 1; mkDevicePair 2 3], [0; 2])
  /\ compute plain_props no_peer [0; 1; 2; 3] [] = Fatal check_failed.
Proof. split; vm_compute; reflexivity. Qed.

(** *** Runs of the further facts *)

(** A runtime whose property query always reports an error. *)
Definition no_props (d : Z) : option cudaDeviceProp := None.

Lemma compute_needs_empty_pairs_witness :
  compute plain_props no_peer [0; 1] []
  = Ok [mkDevicePair (-1) 0; mkDevicePair 0 1]
  /\ @nil DevicePair = [].
Proof.
  split; [vm_compute; reflexivity|].
  apply (compute_needs_empty_pairs plain_props no_peer [0; 1] []
           [mkDevicePair (-1) 0; mkDevicePair 0 1]).
  vm_compute. reflexivity.
Defined.

(** The same two devices with a pair vector that holds one pair already. *)
Example compute_with_a_pair_given :
  compute plain_props no_peer [0; 1] [mkDevicePair 7 8] = Fatal check_failed.
Proof. vm_compute. reflexivity. Qed.

Lemma compute_returns_iff_witness :
  pass (same_board plain_props) [0; 1; 2; 3] = Ok ([], [0; 1; 2; 3])
  /\ pass (p2p_access all_peers) [0; 1; 2; 3]
     = Ok ([mkDevicePair 0 1; mkDevicePair 2 3], [0; 2])
  /\ ((exists pairs, compute plain_props all_peers [0; 1; 2; 3] [] = Ok pairs)
      <-> ((1 <= length [0; 2] <= 2)%nat /\ NoDup [0; 1; 2; 3]
           /\ hd_error [0; 1; 2; 3] <> Some (-1))).
Proof.
  split; [vm_compute; reflexivity|]. split; [vm_compute; reflexivity|].
  apply (compute_returns_iff plain_props all_peers [0; 1; 2; 3] []
           [mkDevicePair 0 1; mkDevicePair 2 3] [0; 1; 2; 3] [0; 2]);
    vm_compute; reflexivity.
Defined.

Lemma compute_cuda_error_witness :
  compute no_props no_peer [0; 1; 2] [] = Fatal cuda_error.
Proof.
  apply (compute_cuda_error no_props no_peer 0 1 [2] []).
  left. reflexivity.
Defined.

Lemma compute_two_devices_witness :
  compute plain_props no_peer [5; 3] []
  = Ok [mkDevicePair (-1) 5; mkDevicePair 5 3].
Proof.
  apply (compute_two_devices plain_props no_peer 5 3
           {| isMultiGpuBoard := 0; multiGpuBoardGroupID := 0 |}
           {| isMultiGpuBoard := 0; multiGpuBoardGroupID := 0 |} 0);
    try reflexivity; lia.
Defined.

Lemma compute_tree_depth_witness :
  exists n,
    depth 4 [mkDevicePair (-1) 0; mkDevicePair 0 1; mkDevicePair 2 3;
             mkDevicePair 0 2] 3 = Some n
    /\ (n <= 3)%nat.
Proof.
  apply (compute_tree_depth plain_props all_peers [0; 1; 2; 3]).
  - vm_compute. reflexivity.
  - simpl. lia.
Defined.

(** Device 3 hangs under device 2, which hangs under the root. *)
Example depth_of_device_3 :
  depth 4 [mkDevicePair (-1) 0; mkDevicePair 0 1; mkDevicePair 2 3;
           mkDevicePair 0 2] 3 = Some 2%nat.
Proof. reflexivity. Qed.

End Pairing.

(** ** 2. [P2PSync::divide_batch_size] *)

Module Batch.

(** [uint32_t] arithmetic. *)
Definition uint32 (z : Z) : Z := z mod 2 ^ 32.

(** The protobuf messages, reduced to the fields the function reads or
    writes.  An optional field that is not set ([has_batch_size()] false) is
    [None].  [prefetch()] is the getter's value (the default when not set). *)
Record DataParameter : Type :=
  { batch_size : option Z; prefetch : Z }.

(** [HDF5DataParameter], [ImageDataParameter], [MemoryDataParameter] and
    [WindowDataParameter]: only [batch_size] is touched. *)
Record BatchParameter : Type :=
  { batch_size' : option Z }.

Record LayerParameter : Type :=
  { data_param : option DataParameter;
    hdf5_data_param : option BatchParameter;
    image_data_param : option BatchParameter;
    memory_data_param : option BatchParameter;
    window_data_param : option BatchParameter }.

(** [NetParameter]: the repeated field [layer]. *)
Definition NetParameter : Type := list LayerParameter.

Section DivideBatchSize.

(** [int solver_count = Caffe::solver_count();] *)
Variable solver_count : Z.

(** [uint32_t batch = total / solver_count;
     CHECK(batch * solver_count == total) << m;]
    In both expressions the [int] operand is converted to [unsigned int].
    A zero divisor is a fault. *)
Definition divide (total : Z) : result Z :=
  let count := uint32 solver_count in
  if count =? 0 then Fatal memory_fault
  else
    let batch := total / count in
    let* _ := CHECK (uint32 (batch * count) =? total) in
    Ok batch.

(* lines 443-455 *)
Definition divide_data_param (l : LayerParameter) : result LayerParameter :=
  match data_param l with
  | Some p =>
      match batch_size p with
      | Some total =>
          let* batch := divide total in
          let prefetch' := uint32 (prefetch p * uint32 solver_count) in
          Ok {| data_param :=
                  Some {| batch_size := Some batch; prefetch := prefetch' |};
                hdf5_data_param := hdf5_data_param l;
                image_data_param := image_data_param l;
                memory_data_param := memory_data_param l;
                window_data_param := window_data_param l |}
      | None => Ok l
      end
  | None => Ok l
  end.

(** The four blocks of lines 456-490 differ in the field only. *)
Definition divide_batch_param (p : option BatchParameter)
  : result (option BatchParameter) :=
  match p with
  | Some q =>
      match batch_size' q with
      | Some total =>
          let* batch := divide total in
          Ok (Some {| batch_size' := Some batch |})
      | None => Ok p
      end
  | None => Ok p
  end.

(** The body of the loop, for [net->layer(i)]. *)
Definition divide_layer (l : LayerParameter) : result LayerParameter :=
  let* l1 := divide_data_param l in
  let* hdf5 := divide_batch_param (hdf5_data_param l1) in
  let* image := divide_batch_param (image_data_param l1) in
  let* memory := divide_batch_param (memory_data_param l1) in
  let* window := divide_batch_param (window_data_param l1) in
  Ok {| data_param := data_param l1;
        hdf5_data_param := hdf5;
        image_data_param := image;
        memory_data_param := memory;
        window_data_param := window |}.

(** [for (int i = 0; i < net->layer_size(); ++i)] *)
Fixpoint divide_batch_size (net : NetParameter) : result NetParameter :=
  match net with
  | [] => Ok []
  | l :: layers =>
      let* l' := divide_layer l in
      let* layers' := divide_batch_size layers in
      Ok (l' :: layers')
  end.

(** *** What the claim says, written out *)

(** The batch sizes a layer declares. *)
Definition declared (p : option BatchParameter) : list Z :=
  match p with
  | Some q => match batch_size' q with Some t => [t] | None => [] end
  | None => []
  end.

Definition declared_data (p : option DataParameter) : list Z :=
  match p with
  | Some q => match batch_size q with Some t => [t] | None => [] end
  | None => []
  end.

Definition batch_sizes (l : LayerParameter) : list Z :=
  declared_data (data_param l)
  ++ declared (hdf5_data_param l) ++ declared (image_data_param l)
  ++ declared (memory_data_param l) ++ declared (window_data_param l).

(** The layer with every declared batch size divided, and the prefetch
    count of a [data_param] that declares a batch size multiplied. *)
Definition divided (p : option BatchParameter) : option BatchParameter :=
  match p with
  | Some {| batch_size' := Some t |} =>
      Some {| batch_size' := Some (t / solver_count) |}
  | _ => p
  end.

Definition divided_data (p : option DataParameter) : option DataParameter :=
  match p with
  | Some {| batch_size := Some t; prefetch := n |} =>
      Some {| batch_size := Some (t / solver_count);
              prefetch := uint32 (n * solver_count) |}
  | _ => p
  end.

Definition divided_layer (l : LayerParameter) : LayerParameter :=
  {| data_param := divided_data (data_param l);
     hdf5_data_param := divided (hdf5_data_param l);
     image_data_param := divided (image_data_param l);
     memory_data_param := divided (memory_data_param l);
     window_data_param := divided (window_data_param l) |}.

Definition divisible (t : Z) : bool := t mod solver_count =? 0.

(** Field values are [uint32]. *)
Definition well_formed (net : NetParameter) : Prop :=
  Forall (fun l =>
    Forall (fun t => 0 <= t < 2 ^ 32) (batch_sizes l)
    /\ match data_param l with
       | Some p => 0 <= prefetch p < 2 ^ 32
       | None => True
       end) net.

(** *** Proofs *)

Hypothesis solver_count_range : 1 <= solver_count < 2 ^ 31.

Lemma uint32_solver_count : uint32 solver_count = solver_count.
Proof using solver_count_range. unfold uint32. apply Z.mod_small. lia. Qed.

Lemma divide_spec total :
  0 <= total < 2 ^ 32 ->
  divide total
  = if divisible total then Ok (total / solver_count) else Fatal check_failed.
Proof using solver_count_range.
  intros Ht. unfold divide, divisible. rewrite uint32_solver_count.
  destruct (solver_count =? 0) eqn:E0; [lia|].
  pose proof (Z.div_mod total solver_count ltac:(lia)) as Hdm.
  pose proof (Z.mod_pos_bound total solver_count ltac:(lia)) as Hmb.
  assert (Hq : 0 <= total / solver_count) by (apply Z.div_pos; lia).
  assert (Hle : total / solver_count * solver_count <= total) by nia.
  unfold uint32. rewrite Z.mod_small by nia.
  destruct (total mod solver_count =? 0) eqn:Em.
  - replace (total / solver_count * solver_count =? total) with true
      by (symmetry; apply Z.eqb_eq; lia).
    reflexivity.
  - replace (total / solver_count * solver_count =? total) with false
      by (symmetry; apply Z.eqb_neq; lia).
    reflexivity.
Qed.

Lemma divide_batch_param_spec p :
  Forall (fun t => 0 <= t < 2 ^ 32) (declared p) ->
  divide_batch_param p
  = if forallb divisible (declared p) then Ok (divided p)
    else Fatal check_failed.
Proof using solver_count_range.
  destruct p as [[[t|]]|]; simpl; intros H; try reflexivity.
  apply Forall_cons in H as [Ht _]. rewrite divide_spec by exact Ht.
  destruct (divisible t); reflexivity.
Qed.

Lemma divide_data_param_spec l :
  Forall (fun t => 0 <= t < 2 ^ 32) (declared_data (data_param l)) ->
  divide_data_param l
  = if forallb divisible (declared_data (data_param l))
    then Ok {| data_param := divided_data (data_param l);
               hdf5_data_param := hdf5_data_param l;
               image_data_param := image_data_param l;
               memory_data_param := memory_data_param l;
               window_data_param := window_data_param l |}
    else Fatal check_failed.
Proof using solver_count_range.
  unfold divide_data_param.
  destruct l as [[[[t|] n]|] h i m w]; simpl; intros H; try reflexivity.
  apply Forall_cons in H as [Ht _]. rewrite divide_spec by exact Ht.
  rewrite uint32_solver_count.
  destruct (divisible t); reflexivity.
Qed.

Lemma divide_layer_spec l :
  Forall (fun t => 0 <= t < 2 ^ 32) (batch_sizes l) ->
  divide_layer l
  = if forallb divisible (batch_sizes l) then Ok (divided_layer l)
    else Fatal check_failed.
Proof using solver_count_range.
  unfold batch_sizes, divide_layer. rewrite !Forall_app, !forallb_app.
  intros (Hd & Hh & Hi & Hm & Hw).
  rewrite divide_data_param_spec by exact Hd.
  destruct (forallb divisible (declared_data (data_param l))); [|reflexivity].
  cbn [rbind andb hdf5_data_param image_data_param memory_data_param
       window_data_param data_param].
  rewrite divide_batch_param_spec by exact Hh.
  destruct (forallb divisible (declared (hdf5_data_param l))); [|reflexivity].
  cbn [rbind andb].
  rewrite divide_batch_param_spec by exact Hi.
  destruct (forallb divisible (declared (image_data_param l))); [|reflexivity].
  cbn [rbind andb].
  rewrite divide_batch_param_spec by exact Hm.
  destruct (forallb divisible (declared (memory_data_param l))); [|reflexivity].
  cbn [rbind andb].
  rewrite divide_batch_param_spec by exact Hw.
  destruct (forallb divisible (declared (window_data_param l))); reflexivity.
Qed.

Lemma divide_batch_size_run net :
  well_formed net ->
  divide_batch_size net
  = if forallb (fun l => forallb divisible (batch_sizes l)) net
    then Ok (map divided_layer net) else Fatal check_failed.
Proof using solver_count_range.
  induction net as [|l net IH]; intros Hwf; [reflexivity|].
  apply Forall_cons in Hwf as [[Hl _] Hwf]. simpl.
  rewrite divide_layer_spec by exact Hl.
  destruct (forallb divisible (batch_sizes l)); [|reflexivity].
  simpl. rewrite IH by exact Hwf.
  destruct (forallb _ net); reflexivity.
Qed.

(** C10.  With a solver count in 1 .. 2^31 - 1 and [uint32] field values:
    - if every batch size declared by a layer of the net (in its data,
      hdf5_data, image_data, memory_data or window_data parameter) is
      divisible by the solver count, the call returns, and every layer has
      become [divided_layer] of itself: each declared batch size [t] is
      replaced by [t / solver_count], and the prefetch count of a data
      parameter that declares a batch size is multiplied by the solver count
      (in [uint32_t] arithmetic);
    - if some declared batch size is not divisible, the call aborts on the
      failed [CHECK];
    - a layer that declares no batch size is left as it is, and so are the
      prefetch counts of data parameters without a batch size;
    - the product of the new batch size and the solver count is the old
      batch size, and the new prefetch count is the exact product whenever
      that fits 32 bits. *)
Theorem divide_batch_size_spec (net : NetParameter) :
  well_formed net ->
  (Forall (fun l => Forall (fun t => t mod solver_count = 0) (batch_sizes l)) net ->
     divide_batch_size net = Ok (map divided_layer net))
  /\ (Exists (fun l => Exists (fun t => t mod solver_count <> 0) (batch_sizes l)) net ->
     divide_batch_size net = Fatal check_failed)
  /\ (forall l, batch_sizes l = [] -> divided_layer l = l)
  /\ (forall l p, data_param l = Some p -> batch_size p = None ->
        data_param (divided_layer l) = Some p)
  /\ (forall l p t, data_param l = Some p -> batch_size p = Some t ->
        t mod solver_count = 0 ->
        exists p', data_param (divided_layer l) = Some p'
          /\ batch_size p' = Some (t / solver_count)
          /\ t / solver_count * solver_count = t
          /\ prefetch p' = uint32 (prefetch p * solver_count)
          /\ (0 <= prefetch p * solver_count < 2 ^ 32 ->
              prefetch p' = prefetch p * solver_count)).
Proof using solver_count_range.
  intros Hwf. split; [|split; [|split; [|split]]].
  - intros Hall. rewrite divide_batch_size_run by exact Hwf.
    replace (forallb _ net) with true; [reflexivity|].
    symmetry. apply forallb_forall. intros l Hl.
    apply forallb_forall. intros t Ht.
    rewrite Forall_forall in Hall.
    specialize (Hall l (proj2 (list_elem_of_In _ _) Hl)).
    rewrite Forall_forall in Hall.
    apply Z.eqb_eq, Hall, list_elem_of_In, Ht.
  - intros Hex. rewrite divide_batch_size_run by exact Hwf.
    replace (forallb _ net) with false; [reflexivity|].
    symmetry. apply not_true_is_false. intros Hall.
    rewrite forallb_forall in Hall.
    apply Exists_exists in Hex as (l & Hl & Hex).
    apply Exists_exists in Hex as (t & Ht & Hnd).
    specialize (Hall l (proj1 (list_elem_of_In _ _) Hl)).
    rewrite forallb_forall in Hall.
    specialize (Hall t (proj1 (list_elem_of_In _ _) Ht)).
    apply Z.eqb_eq in Hall. contradiction.
  - intros [[[[t|] n]|] [[[?|]]|] [[[?|]]|] [[[?|]]|] [[[?|]]|]];
      unfold batch_sizes; simpl; intros H; try discriminate; reflexivity.
  - intros l p Hd Hb. destruct l; simpl in *. subst.
    destruct p as [b n]; simpl in *. subst. reflexivity.
  - intros l p t Hd Hb Hdiv. destruct l; simpl in *. subst.
    destruct p as [b n]; simpl in *. subst.
    eexists. split; [reflexivity|]. simpl. repeat split.
    + pose proof (Z.div_mod t solver_count ltac:(lia)). lia.
    + intros Hr. unfold uint32. apply Z.mod_small. exact Hr.
Qed.

End DivideBatchSize.

(** A net with one data layer of batch size 64 and prefetch 4, one layer
    without batch size and one image-data layer of batch size 32, for 4
    solvers. *)
Definition example_net : NetParameter :=
  [ {| data_param := Some {| batch_size := Some 64; prefetch := 4 |};
       hdf5_data_param := None; image_data_param := None;
       memory_data_param := None; window_data_param := None |};
    {| data_param := None;
       hdf5_data_param := None; image_data_param := None;
       memory_data_param := None; window_data_param := None |};
    {| data_param := None;
       hdf5_data_param := None;
       image_data_param := Some {| batch_size' := Some 32 |};
       memory_data_param := None; window_data_param := None |} ].

Example divide_example_net :
  divide_batch_size 4 example_net
  = Ok [ {| data_param := Some {| batch_size := Some 16; prefetch := 16 |};
            hdf5_data_param := None; image_data_param := None;
            memory_data_param := None; window_data_param := None |};
         {| data_param := None;
            hdf5_data_param := None; image_data_param := None;
            memory_data_param := None; window_data_param := None |};
         {| data_param := None;
            hdf5_data_param := None;
            image_data_param := Some {| batch_size' := Some 8 |};
            memory_data_param := None; window_data_param := None |} ]
  /\ divide_batch_size 3 example_net = Fatal check_failed.
Proof. split; vm_compute; reflexivity. Qed.

Lemma divide_batch_size_spec_witness :
  (1 <= 4 < 2 ^ 31)
  /\ well_formed example_net
  /\ Forall (fun l => Forall (fun t => t mod 4 = 0) (batch_sizes l)) example_net
  /\ divide_batch_size 4 example_net = Ok (map (divided_layer 4) example_net).
Proof.
  assert (Hsc : 1 <= 4 < 2 ^ 31) by lia.
  assert (Hwf : well_formed example_net).
  { unfold well_formed, example_net, batch_sizes.
    repeat constructor; simpl; lia. }
  assert (Hdiv : Forall (fun l => Forall (fun t => t mod 4 = 0) (batch_sizes l))
                   example_net).
  { unfold example_net, batch_sizes. repeat constructor. }
  split; [exact Hsc|]. split; [exact Hwf|]. split; [exact Hdiv|].
  exact (proj1 (divide_batch_size_spec 4 Hsc example_net Hwf) Hdiv).
Defined.

(** *** One solver, and dividing twice *)

Lemma divided_layer_1 l :
  match data_param l with
  | Some p => 0 <= prefetch p < 2 ^ 32
  | None => True
  end ->
  divided_layer 1 l = l.
Proof.
  destruct l as [d h i m w]. unfold divided_layer. simpl. intros Hp.
  f_equal.
  - destruct d as [[[t|] n]|]; simpl in *; try reflexivity.
    rewrite Z.div_1_r, Z.mul_1_r. unfold uint32.
    rewrite Z.mod_small by exact Hp. reflexivity.
  - destruct h as [[[t|]]|]; simpl; try reflexivity. rewrite Z.div_1_r. reflexivity.
  - destruct i as [[[t|]]|]; simpl; try reflexivity. rewrite Z.div_1_r. reflexivity.
  - destruct m as [[[t|]]|]; simpl; try reflexivity. rewrite Z.div_1_r. reflexivity.
  - destruct w as [[[t|]]|]; simpl; try reflexivity. rewrite Z.div_1_r. reflexivity.
Qed.

(** X8.  With a single solver the call checks nothing away and changes
    nothing: every batch size is divisible by 1, and the net comes back as it
    was, prefetch counts included. *)
Theorem divide_batch_size_one_solver (net : NetParameter) :
  well_formed net -> divide_batch_size 1 net = Ok net.
Proof.
  intros Hwf. rewrite (divide_batch_size_run 1 ltac:(lia) net Hwf).
  replace (forallb _ net) with true.
  - f_equal. induction net as [|l net IH]; [reflexivity|].
    apply Forall_cons in Hwf as [[_ Hp] Hwf]. simpl.
    rewrite (divided_layer_1 l Hp), (IH Hwf). reflexivity.
  - symmetry. apply forallb_forall. intros l _. apply forallb_forall.
    intros t _. unfold divisible. rewrite Z.mod_1_r. reflexivity.
Qed.

Lemma divide_batch_size_one_solver_witness :
  divide_batch_size 1 example_net = Ok example_net.
Proof.
  apply divide_batch_size_one_solver.
  unfold well_formed, example_net, batch_sizes.
  repeat constructor; simpl; lia.
Defined.

Lemma forallb_andb {A} (f g : A -> bool) l :
  forallb (fun x => f x && g x) l = forallb f l && forallb g l.
Proof.
  induction l as [|x l IH]; simpl; [reflexivity|]. rewrite IH.
  destruct (f x), (g x), (forallb f l); reflexivity.
Qed.

Lemma forallb_map_in {A B} (f : B -> bool) (h : A -> B) l :
  forallb f (map h l) = forallb (fun x => f (h x)) l.
Proof. induction l as [|x l IH]; simpl; [|rewrite IH]; reflexivity. Qed.

Lemma forallb_ext_eq {A} (f g : A -> bool) l :
  (forall x, f x = g x) -> forallb f l = forallb g l.
Proof.
  intros H. induction l as [|x l IH]; simpl; [|rewrite H, IH]; reflexivity.
Qed.

Lemma divisible_mul a b t :
  1 <= a -> 1 <= b ->
  divisible (a * b) t = divisible a t && divisible b (t / a).
Proof.
  intros Ha Hb. unfold divisible.
  rewrite Z.rem_mul_r by lia.
  pose proof (Z.mod_pos_bound t a ltac:(lia)) as H1.
  pose proof (Z.mod_pos_bound (t / a) b ltac:(lia)) as H2.
  destruct (t mod a =? 0) eqn:E1, ((t / a) mod b =? 0) eqn:E2; simpl;
    rewrite ?Z.eqb_eq, ?Z.eqb_neq in *; nia.
Qed.

Lemma declared_divided a p :
  declared (divided a p) = map (fun t => t / a) (declared p).
Proof. destruct p as [[[t|]]|]; reflexivity. Qed.

Lemma declared_data_divided a p :
  declared_data (divided_data a p) = map (fun t => t / a) (declared_data p).
Proof. destruct p as [[[t|] n]|]; reflexivity. Qed.

Lemma batch_sizes_divided a l :
  batch_sizes (divided_layer a l) = map (fun t => t / a) (batch_sizes l).
Proof.
  unfold batch_sizes, divided_layer. simpl.
  rewrite declared_data_divided, !declared_divided, !map_app. reflexivity.
Qed.

Lemma well_formed_divided a net :
  1 <= a -> well_formed net -> well_formed (map (divided_layer a) net).
Proof.
  intros Ha Hwf. unfold well_formed in *. apply Forall_map.
  eapply Forall_impl; [exact Hwf|]. intros l [Hb Hp]. split.
  - rewrite batch_sizes_divided. apply Forall_map.
    eapply Forall_impl; [exact Hb|]. intros t Ht. cbv beta in Ht |- *. split.
    + apply Z.div_pos; lia.
    + apply Z.le_lt_trans with t; [|lia].
      apply Z.div_le_upper_bound; nia.
  - simpl. destruct (data_param l) as [[[t|] n]|]; simpl; auto.
    unfold uint32. apply Z.mod_pos_bound. lia.
Qed.

Lemma divided_layer_twice a b l :
  1 <= a -> 1 <= b ->
  divided_layer b (divided_layer a l) = divided_layer (a * b) l.
Proof.
  intros Ha Hb. destruct l as [d h i m w]. unfold divided_layer. simpl.
  f_equal.
  - destruct d as [[[t|] n]|]; simpl; try reflexivity.
    rewrite Z.div_div by lia. unfold uint32.
    rewrite Z.mul_mod_idemp_l by lia. rewrite Z.mul_assoc. reflexivity.
  - destruct h as [[[t|]]|]; simpl; try reflexivity.
    rewrite Z.div_div by lia. reflexivity.
  - destruct i as [[[t|]]|]; simpl; try reflexivity.
    rewrite Z.div_div by lia. reflexivity.
  - destruct m as [[[t|]]|]; simpl; try reflexivity.
    rewrite Z.div_div by lia. reflexivity.
  - destruct w as [[[t|]]|]; simpl; try reflexivity.
    rewrite Z.div_div by lia. reflexivity.
Qed.

(** X9.  Dividing twice.  Dividing the batches of a net among [a] solvers
    and the result among [b] solvers is the same as dividing among [a * b]
    solvers at once: the same nets are rejected, and the same net comes
    back. *)
Theorem divide_batch_size_twice (a b : Z) (net : NetParameter) :
  1 <= a -> 1 <= b -> a * b < 2 ^ 31 ->
  well_formed net ->
  (let* net1 := divide_batch_size a net in divide_batch_size b net1)
  = divide_batch_size (a * b) net.
Proof.
  intros Ha Hb Hab Hwf.
  rewrite (divide_batch_size_run a ltac:(nia) net Hwf).
  rewrite (divide_batch_size_run (a * b) ltac:(nia) net Hwf).
  rewrite (forallb_ext_eq
             (fun l => forallb (divisible (a * b)) (batch_sizes l))
             (fun l => forallb (divisible a) (batch_sizes l)
                       && forallb (divisible b) (batch_sizes (divided_layer a l)))).
  2:{ intros l. rewrite batch_sizes_divided, forallb_map_in, <- forallb_andb.
      apply forallb_ext_eq. intros t. apply divisible_mul; assumption. }
  rewrite forallb_andb.
  destruct (forallb (fun l => forallb (divisible a) (batch_sizes l)) net);
    [|reflexivity].
  simpl.
  rewrite (divide_batch_size_run b ltac:(nia) _ (well_formed_divided a net Ha Hwf)).
  rewrite forallb_map_in.
  destruct (forallb _ net); [|reflexivity].
  rewrite map_map. f_equal. apply map_ext. intros l.
  apply divided_layer_twice; assumption.
Qed.

Lemma divide_batch_size_twice_witness :
  (let* net1 := divide_batch_size 2 example_net in divide_batch_size 4 net1)
  = divide_batch_size (2 * 4) example_net.
Proof.
  apply divide_batch_size_twice; try lia.
  unfold well_formed, example_net, batch_sizes.
  repeat constructor; simpl; lia.
Defined.

End Batch.

(** ** 3. The device parameter mirror: [apply_buffers], [total_size],
       [GPUParams::configure] *)

Module Mirror.

(** [Dtype] is [float] or [double] in the source: a binary floating-point
    number, with its zeros, infinities and NaN.  Which of the two formats it
    is matters to the arithmetic only, see [Dtype_format] in [Sync]. *)
Abbreviation Dtype := spec_float.

(** [Dtype(0)] *)
Definition Dtype_zero : Dtype := S754_zero false.

(** The [float] of an integer, for the examples. *)
Definition fl (n : Z) : Dtype := binary_normalize 24 128 n 0 false.

(** A [Dtype*]: an allocation and an index into it, counted in elements.
    [ptr += size] and [ptr - buffer] stay inside one allocation. *)
Record pointer : Type := mkPointer { block : nat; offset : Z }.

Definition ptr_add (p : pointer) (n : Z) : pointer :=
  {| block := block p; offset := offset p + n |}.
Definition ptr_diff (p q : pointer) : Z := offset p - offset q.

(** One [cudaMalloc]ed region: the device it lives on and its elements. *)
Record allocation : Type := mkAllocation { on_device : Z; cells : list Dtype }.

(** Device memory: allocation [b] is entry [b]; a freed one is [None]. *)
Abbreviation memory := (list (option allocation)).

(** Reading and writing [n] elements at [p]; [None] when any of them lies
    outside the allocation. *)
Definition mem_read (m : memory) (p : pointer) (n : Z) : option (list Dtype) :=
  match m !! block p with
  | Some (Some a) =>
      if (0 <=? offset p) && (0 <=? n)
         && (offset p + n <=? Z.of_nat (length (cells a)))
      then Some (take (Z.to_nat n) (drop (Z.to_nat (offset p)) (cells a)))
      else None
  | _ => None
  end.

Definition mem_write (m : memory) (p : pointer) (vals : list Dtype)
  : option memory :=
  match m !! block p with
  | Some (Some a) =>
      if (0 <=? offset p)
         && (offset p + Z.of_nat (length vals) <=? Z.of_nat (length (cells a)))
      then
        let cells' :=
          take (Z.to_nat (offset p)) (cells a) ++ vals
          ++ drop (Z.to_nat (offset p) + length vals) (cells a) in
        Some (<[block p := Some {| on_device := on_device a; cells := cells' |}]> m)
      else None
  | _ => None
  end.

(** Modelled from the spec: [SyncedMemory] is declared outside this file.
    The model/optimizer service has "an operation to overwrite a tensor's
    backing storage pointer for values and for gradients independently":
    [set_cpu_data] and [set_gpu_data] store the pointer they are given, and
    [cpu_data()] yields the host values. *)
Record SyncedMemory : Type :=
  mkSyncedMemory { host : list Dtype;
                   cpu_ptr_ : option pointer;
                   gpu_ptr_ : option pointer }.

Definition set_cpu_data (s : SyncedMemory) (p : pointer) : SyncedMemory :=
  {| host := host s; cpu_ptr_ := Some p; gpu_ptr_ := gpu_ptr_ s |}.
Definition set_gpu_data (s : SyncedMemory) (p : pointer) : SyncedMemory :=
  {| host := host s; cpu_ptr_ := cpu_ptr_ s; gpu_ptr_ := Some p |}.

(** A [Blob]: its [count()] and the two [shared_ptr<SyncedMemory>] that
    [data()] and [diff()] return, as indices into the store of
    [SyncedMemory] objects.  Two blobs may hold the same object. *)
Record Blob : Type := mkBlob { count : Z; data : nat; diff : nat }.

Record Heap : Type :=
  mkHeap { mem : memory; store : list SyncedMemory }.

(* lines 21-27 *)
Inductive Op : Type :=
| copy | replace_cpu | replace_gpu | replace_cpu_diff | replace_gpu_diff.

(** [blobs[i]->data()->set_..._data(ptr)] on object [id] of the store. *)
Definition update_store (id : nat) (f : SyncedMemory -> SyncedMemory) (h : Heap)
  : result Heap :=
  match store h !! id with
  | Some s => Ok {| mem := mem h; store := <[id := f s]> (store h) |}
  | None => Fatal memory_fault
  end.

(** [caffe_copy(size, cpu_data, ptr)] *)
Definition caffe_copy (size : Z) (id : nat) (ptr : pointer) (h : Heap)
  : result Heap :=
  match store h !! id with
  | Some s =>
      if (0 <=? size) && (size <=? Z.of_nat (length (host s))) then
        match mem_write (mem h) ptr (take (Z.to_nat size) (host s)) with
        | Some m => Ok {| mem := m; store := store h |}
        | None => Fatal memory_fault
        end
      else Fatal memory_fault
  | None => Fatal memory_fault
  end.

(** The [switch (op)] of lines 35-55 for one blob. *)
Definition apply_op (op : Op) (b : Blob) (ptr : pointer) (h : Heap)
  : result Heap :=
  match op with
  | copy => caffe_copy (count b) (data b) ptr h
  | replace_cpu => update_store (data b) (fun s => set_cpu_data s ptr) h
  | replace_gpu => update_store (data b) (fun s => set_gpu_data s ptr) h
  | replace_cpu_diff => update_store (diff b) (fun s => set_cpu_data s ptr) h
  | replace_gpu_diff => update_store (diff b) (fun s => set_gpu_data s ptr) h
  end.

(** Lines 33-57: the loop, from blob [i] on, with the current [ptr]. *)
Fixpoint apply_loop (op : Op) (blobs : list Blob) (ptr : pointer) (h : Heap)
  : result (pointer * Heap) :=
  match blobs with
  | [] => Ok (ptr, h)
  | b :: rest =>
      let* h' := apply_op op b ptr h in
      apply_loop op rest (ptr_add ptr (count b)) h'
  end.

(** [apply_buffers(blobs, buffer, total_size, op)].  [ptr - buffer] is
    counted in elements. *)
Definition apply_buffers (blobs : list Blob) (buffer : pointer)
    (total_size : Z) (op : Op) (h : Heap) : result Heap :=
  let* (ptr, h') := apply_loop op blobs buffer h in
  let* _ := CHECK (total_size =? ptr_diff ptr buffer) in
  Ok h'.

(** [size_t] arithmetic. *)
Definition size_t (z : Z) : Z := z mod 2 ^ 64.

(** [total_size(params)], lines 63-68 *)
Definition total_size (params : list Blob) : Z :=
  fold_left (fun size b => size_t (size + count b)) params 0.

(** [GPUParams::configure(solver)], with [net = solver->net()->params()] *)
Definition configure (data_ diff_ : pointer) (size_ : Z) (net : list Blob)
    (h : Heap) : result Heap :=
  let* h1 := apply_buffers net data_ size_ replace_gpu h in
  apply_buffers net diff_ size_ replace_gpu_diff h1.

(** *** Offsets *)

(** The sum of the element counts of the blobs. *)
Definition sum_counts (blobs : list Blob) : Z :=
  foldr (fun b acc => count b + acc) 0 blobs.

(** The offset of tensor [i]: the counts of tensors 0 .. i-1 summed. *)
Definition offset_of (blobs : list Blob) (i : nat) : Z :=
  sum_counts (take i blobs).

(** *** The walk of [apply_buffers] *)

Lemma ptr_add_0 p : ptr_add p 0 = p.
Proof. destruct p as [b o]. unfold ptr_add. simpl. f_equal. lia. Qed.

Lemma ptr_add_add p m n : ptr_add (ptr_add p m) n = ptr_add p (m + n).
Proof. unfold ptr_add. simpl. f_equal. lia. Qed.

Lemma ptr_diff_add p n : ptr_diff (ptr_add p n) p = n.
Proof. unfold ptr_diff, ptr_add. simpl. lia. Qed.

Lemma apply_op_not_Blocked op b ptr h : apply_op op b ptr h <> Blocked.
Proof.
  destruct op; simpl; unfold caffe_copy, update_store;
    repeat (match goal with |- context [match ?x with _ => _ end] =>
                              destruct x end); discriminate.
Qed.

Lemma apply_loop_not_Blocked op blobs : forall ptr h,
  apply_loop op blobs ptr h <> Blocked.
Proof.
  induction blobs as [|b rest IH]; intros ptr h; simpl; [discriminate|].
  destruct (apply_op op b ptr h) eqn:E; simpl; try discriminate.
  - apply IH.
  - exfalso. eapply apply_op_not_Blocked, E.
Qed.

(** When the loop ends, [ptr] has moved by the sum of the counts. *)
Lemma apply_loop_ptr op blobs : forall ptr h ptr' h',
  apply_loop op blobs ptr h = Ok (ptr', h') ->
  ptr' = ptr_add ptr (sum_counts blobs).
Proof.
  induction blobs as [|b rest IH]; intros ptr h ptr' h' H; simpl in *.
  - inversion H; subst. symmetry. apply ptr_add_0.
  - apply rbind_Ok in H as (h1 & _ & H). apply IH in H.
    rewrite H. apply ptr_add_add.
Qed.

(** What keeps the walk inside the objects it touches: the blobs hold
    [SyncedMemory] objects of the store; and for [copy], every blob has
    [count()] host values, and the allocation [buffer] points into has room
    for all of them. *)
Definition walk_ok (op : Op) (blobs : list Blob) (buffer : pointer) (h : Heap)
  : Prop :=
  match op with
  | copy =>
      Forall (fun b => exists s, store h !! data b = Some s
                /\ 0 <= count b <= Z.of_nat (length (host s))) blobs
      /\ exists a, mem h !! block buffer = Some (Some a)
           /\ 0 <= offset buffer
           /\ offset buffer + sum_counts blobs <= Z.of_nat (length (cells a))
  | replace_cpu | replace_gpu =>
      Forall (fun b => is_Some (store h !! data b)) blobs
  | replace_cpu_diff | replace_gpu_diff =>
      Forall (fun b => is_Some (store h !! diff b)) blobs
  end.

Lemma update_store_Ok id f h :
  is_Some (store h !! id) ->
  exists h', update_store id f h = Ok h'
    /\ mem h' = mem h /\ length (store h') = length (store h).
Proof.
  intros [s Hs]. unfold update_store. rewrite Hs. eexists. split; [reflexivity|].
  simpl. split; [reflexivity|]. apply length_insert.
Qed.

Lemma is_Some_lookup_length {A} (l l' : list A) i :
  length l' = length l -> is_Some (l !! i) -> is_Some (l' !! i).
Proof. rewrite !lookup_lt_is_Some. lia. Qed.

Lemma replace_loop_Ok (sel : Blob -> nat)
    (set : SyncedMemory -> pointer -> SyncedMemory) op :
  (forall b ptr h, apply_op op b ptr h
                   = update_store (sel b) (fun s => set s ptr) h) ->
  forall blobs ptr h,
    Forall (fun b => is_Some (store h !! sel b)) blobs ->
    exists ptr' h', apply_loop op blobs ptr h = Ok (ptr', h').
Proof.
  intros Hop. induction blobs as [|b rest IH]; intros ptr h Hall; simpl.
  - eauto.
  - apply Forall_cons in Hall as [Hb Hrest]. rewrite Hop.
    destruct (update_store_Ok (sel b) (fun s => set s ptr) h Hb)
      as (h1 & -> & _ & Hlen).
    simpl. apply IH. eapply Forall_impl; [exact Hrest|].
    intros b'. apply is_Some_lookup_length. exact Hlen.
Qed.

Lemma mem_write_Some m p vals a :
  m !! block p = Some (Some a) ->
  0 <= offset p ->
  offset p + Z.of_nat (length vals) <= Z.of_nat (length (cells a)) ->
  exists m', mem_write m p vals = Some m'
    /\ exists a', m' !! block p = Some (Some a')
         /\ length (cells a') = length (cells a).
Proof.
  intros Hm Ho Hl. unfold mem_write. rewrite Hm.
  replace (0 <=? offset p) with true by (symmetry; apply Z.leb_le; lia).
  replace (_ <=? _) with true by (symmetry; apply Z.leb_le; lia).
  simpl. eexists. split; [reflexivity|]. eexists. split.
  - apply list_lookup_insert_eq. apply lookup_lt_is_Some. eauto.
  - simpl. rewrite !length_app, length_take, length_drop. lia.
Qed.

Lemma copy_loop_Ok : forall blobs ptr h a,
  Forall (fun b => exists s, store h !! data b = Some s
            /\ 0 <= count b <= Z.of_nat (length (host s))) blobs ->
  mem h !! block ptr = Some (Some a) ->
  0 <= offset ptr ->
  offset ptr + sum_counts blobs <= Z.of_nat (length (cells a)) ->
  exists ptr' h', apply_loop copy blobs ptr h = Ok (ptr', h').
Proof.
  induction blobs as [|b rest IH]; intros ptr h a Hall Hm Ho Hl; simpl.
  - eauto.
  - apply Forall_cons in Hall as [(s & Hs & Hc) Hrest].
    assert (Hsum : 0 <= sum_counts rest).
    { clear -Hrest. induction Hrest as [|b' l (s' & _ & Hc') _ IH']; simpl; lia. }
    simpl in Hl. unfold caffe_copy. rewrite Hs.
    replace (0 <=? count b) with true by (symmetry; apply Z.leb_le; lia).
    replace (count b <=? _) with true by (symmetry; apply Z.leb_le; lia).
    simpl.
    destruct (mem_write_Some (mem h) ptr (take (Z.to_nat (count b)) (host s)) a)
      as (m' & -> & a' & Hm' & Hlen); auto.
    { rewrite length_take. lia. }
    simpl. eapply (IH _ _ a'); simpl; auto; lia.
Qed.

Lemma walk_ok_loop op blobs buffer h :
  walk_ok op blobs buffer h ->
  exists ptr' h', apply_loop op blobs buffer h = Ok (ptr', h').
Proof.
  destruct op; simpl.
  - intros (Hall & a & Hm & Ho & Hl). eapply copy_loop_Ok; eauto.
  - apply (replace_loop_Ok data set_cpu_data). reflexivity.
  - apply (replace_loop_Ok data set_gpu_data). reflexivity.
  - apply (replace_loop_Ok diff set_cpu_data). reflexivity.
  - apply (replace_loop_Ok diff set_gpu_data). reflexivity.
Qed.

(** C6.  [apply_buffers] returns only when the element counts of the blobs
    walked over sum to exactly [total_size]:
    - if the sum differs from [total_size] the call is fatal, whatever the
      operation and the heap, and when the walk itself stays inside the
      objects it is the [CHECK_EQ] of line 58 that fails;
    - if the sum equals [total_size] and the walk stays inside the objects,
      the call returns;
    - conversely a call that returns had equal sums. *)
Theorem apply_buffers_size_check (blobs : list Blob) (buffer : pointer)
    (total_size : Z) (op : Op) (h : Heap) :
  (sum_counts blobs <> total_size ->
     (exists f, apply_buffers blobs buffer total_size op h = Fatal f)
     /\ (walk_ok op blobs buffer h ->
         apply_buffers blobs buffer total_size op h = Fatal check_failed))
  /\ (sum_counts blobs = total_size -> walk_ok op blobs buffer h ->
     exists h', apply_buffers blobs buffer total_size op h = Ok h')
  /\ (forall h', apply_buffers blobs buffer total_size op h = Ok h' ->
     sum_counts blobs = total_size).
Proof.
  unfold apply_buffers.
  destruct (apply_loop op blobs buffer h) as [[ptr' h1]|f|] eqn:Hloop.
  - apply apply_loop_ptr in Hloop as ->. simpl. rewrite ptr_diff_add.
    destruct (total_size =? sum_counts blobs) eqn:E; simpl.
    + apply Z.eqb_eq in E. repeat split; intros; try congruence; eauto.
    + apply Z.eqb_neq in E. repeat split; intros; try congruence; eauto.
  - simpl. repeat split; intros; try discriminate; eauto.
    + apply walk_ok_loop in H0 as (? & ? & ?). congruence.
    + apply walk_ok_loop in H0 as (? & ? & ?). congruence.
  - exfalso. eapply apply_loop_not_Blocked, Hloop.
Qed.

(** *** Reading back what was written *)

Lemma mem_read_length m p n v :
  mem_read m p n = Some v -> length v = Z.to_nat n.
Proof.
  unfold mem_read. destruct (m !! block p) as [[a|]|]; try discriminate.
  destruct (_ && _) eqn:E; [|discriminate]. intros H. inversion H; subst.
  apply andb_true_iff in E as (E & E3). apply andb_true_iff in E as (E1 & E2).
  apply Z.leb_le in E1, E2, E3.
  rewrite length_take, length_drop. lia.
Qed.

Lemma mem_write_read_same m p vals m' :
  mem_write m p vals = Some m' ->
  mem_read m' p (Z.of_nat (length vals)) = Some vals.
Proof.
  unfold mem_write, mem_read.
  destruct (m !! block p) as [[a|]|] eqn:Hm; try discriminate.
  destruct (_ && _) eqn:E; [|discriminate]. intros H. inversion H; subst.
  apply andb_true_iff in E as (E1 & E2). apply Z.leb_le in E1, E2.
  rewrite list_lookup_insert_eq by (apply lookup_lt_is_Some; eauto). simpl.
  rewrite !length_app, length_take, length_drop.
  replace (0 <=? offset p) with true by (symmetry; apply Z.leb_le; lia).
  replace (0 <=? Z.of_nat (length vals)) with true
    by (symmetry; apply Z.leb_le; lia).
  replace (_ <=? _) with true by (symmetry; apply Z.leb_le; lia).
  simpl. f_equal.
  rewrite drop_app_length'
    by (rewrite length_take; lia).
  rewrite Nat2Z.id. apply take_app_length.
Qed.

Lemma mem_write_read_other m p vals m' q n :
  mem_write m p vals = Some m' ->
  block q <> block p ->
  mem_read m' q n = mem_read m q n.
Proof.
  unfold mem_write, mem_read.
  destruct (m !! block p) as [[a|]|] eqn:Hm; try discriminate.
  destruct (_ && _); [|discriminate]. intros H Hne. inversion H; subst.
  rewrite list_lookup_insert_ne by auto. reflexivity.
Qed.

(** The spec's failure scenario: tensors of 4 and 6 elements, walked with a
    declared size of 12, and with the right size 10. *)
Definition example_heap : Heap :=
  {| mem := [Some {| on_device := 0; cells := repeat Dtype_zero 12 |}];
     store := [ mkSyncedMemory (repeat (fl 1) 4) None None;
                mkSyncedMemory (repeat Dtype_zero 4) None None;
                mkSyncedMemory (repeat (fl 2) 6) None None;
                mkSyncedMemory (repeat Dtype_zero 6) None None ] |}.
Definition example_blobs : list Blob := [mkBlob 4 0 1; mkBlob 6 2 3].

Lemma apply_buffers_size_check_witness :
  sum_counts example_blobs = 10
  /\ apply_buffers example_blobs (mkPointer 0 0) 12 copy example_heap
     = Fatal check_failed
  /\ exists h', apply_buffers example_blobs (mkPointer 0 0) 10 copy example_heap
                = Ok h'.
Proof.
  assert (Hok : walk_ok copy example_blobs (mkPointer 0 0) example_heap).
  { split.
    - repeat constructor; eexists; (split; [reflexivity|simpl; lia]).
    - eexists. split; [reflexivity|]. simpl. lia. }
  split; [reflexivity|]. split.
  - apply (proj1 (apply_buffers_size_check example_blobs (mkPointer 0 0) 12
                    copy example_heap)); [simpl; lia | exact Hok].
  - apply (proj1 (proj2 (apply_buffers_size_check example_blobs (mkPointer 0 0)
                           10 copy example_heap))); [reflexivity | exact Hok].
Defined.

(** *** The pointers [configure] installs *)

Lemma offset_of_0 blobs : offset_of blobs 0 = 0.
Proof. reflexivity. Qed.

Lemma offset_of_S b blobs i :
  offset_of (b :: blobs) (S i) = count b + offset_of blobs i.
Proof. reflexivity. Qed.

(** The offsets are a function of the element counts alone. *)
Lemma offset_of_counts blobs1 blobs2 i :
  map count blobs1 = map count blobs2 ->
  offset_of blobs1 i = offset_of blobs2 i.
Proof.
  revert blobs2 i. induction blobs1 as [|b1 l1 IH]; intros [|b2 l2] i H;
    simpl in H; try discriminate; [reflexivity|].
  inversion H. destruct i; [reflexivity|].
  rewrite !offset_of_S. f_equal; auto.
Qed.

Section ReplaceLoop.

(** The four [replace_...] operations: which object of the blob they act
    on, the pointer they set, and how it is read back. *)
Variable op : Op.
Variable sel : Blob -> nat.
Variable set : SyncedMemory -> pointer -> SyncedMemory.
Variable get : SyncedMemory -> option pointer.
Hypothesis apply_op_replace : forall b ptr h,
  apply_op op b ptr h = update_store (sel b) (fun s => set s ptr) h.
Hypothesis get_set : forall s p, get (set s p) = Some p.

Lemma replace_loop_frame : forall blobs ptr h ptr' h',
  apply_loop op blobs ptr h = Ok (ptr', h') ->
  mem h' = mem h
  /\ forall id, ~ In id (map sel blobs) -> store h' !! id = store h !! id.
Proof using apply_op_replace.
  induction blobs as [|b rest IH]; intros ptr h ptr' h' H; simpl in H.
  - inversion H; subst. auto.
  - apply rbind_Ok in H as (h1 & H1 & H). rewrite apply_op_replace in H1.
    unfold update_store in H1. destruct (store h !! sel b) as [s|] eqn:Hs;
      [|discriminate].
    inversion H1; subst h1; clear H1.
    apply IH in H as (Hmem & Hframe). simpl in *. split; [exact Hmem|].
    intros id Hid. rewrite Hframe by tauto.
    apply list_lookup_insert_ne. intros Heq. tauto.
Qed.

Lemma replace_loop_pointer : forall blobs ptr h ptr' h',
  apply_loop op blobs ptr h = Ok (ptr', h') ->
  forall i b, blobs !! i = Some b ->
    (forall j b', (i < j)%nat -> blobs !! j = Some b' -> sel b' <> sel b) ->
    exists s, store h' !! sel b = Some s
      /\ get s = Some (ptr_add ptr (offset_of blobs i)).
Proof using apply_op_replace get_set.
  induction blobs as [|b0 rest IH]; intros ptr h ptr' h' H i b Hi Hlater.
  - discriminate.
  - simpl in H. apply rbind_Ok in H as (h1 & H1 & H).
    rewrite apply_op_replace in H1. unfold update_store in H1.
    destruct (store h !! sel b0) as [s|] eqn:Hs; [|discriminate].
    inversion H1; subst h1; clear H1.
    destruct i as [|i]; simpl in Hi.
    + inversion Hi; subst b0; clear Hi.
      apply replace_loop_frame in H as (_ & Hframe).
      exists (set s ptr). rewrite offset_of_0, ptr_add_0, get_set.
      split; [|reflexivity]. rewrite Hframe.
      * simpl. apply list_lookup_insert_eq. apply lookup_lt_is_Some. eauto.
      * intros Hin. apply in_map_iff in Hin as (b' & Heq & Hin).
        apply list_elem_of_In, list_elem_of_lookup in Hin as (j & Hj).
        apply (Hlater (S j) b'); [lia | exact Hj | exact Heq].
    + destruct (IH _ _ _ _ H i b Hi) as (s' & Hs' & Hget).
      { intros j b' Hlt Hj. apply (Hlater (S j) b'); [lia | exact Hj]. }
      exists s'. split; [exact Hs'|].
      rewrite Hget, ptr_add_add, offset_of_S. reflexivity.
Qed.

End ReplaceLoop.

Lemma apply_buffers_Ok blobs buffer total_size op h h' :
  apply_buffers blobs buffer total_size op h = Ok h' ->
  exists ptr', apply_loop op blobs buffer h = Ok (ptr', h').
Proof.
  unfold apply_buffers. intros H.
  apply rbind_Ok in H as ([ptr' h1] & Hloop & H).
  apply rbind_Ok in H as (_ & _ & H). inversion H; subst. eauto.
Qed.

(** C7 (as amended).  Let the [SyncedMemory] objects held by the tensors of
    the solver's net be pairwise distinct.  After [configure] has returned,
    for every tensor [i] the pointer of its value storage is [data_] plus the
    summed element counts of tensors 0 .. i-1, and the pointer of its
    gradient storage is [diff_] plus the same offset.  The offset is the
    same for every net with the same element counts, whatever the buffers
    and the heap. *)
Theorem configure_layout (data_ diff_ : pointer) (size_ : Z) (net : list Blob)
    (h h' : Heap) :
  NoDup (map data net ++ map diff net) ->
  configure data_ diff_ size_ net h = Ok h' ->
  forall i b, net !! i = Some b ->
    (exists sd sg,
       store h' !! data b = Some sd
       /\ gpu_ptr_ sd = Some (ptr_add data_ (offset_of net i))
       /\ store h' !! diff b = Some sg
       /\ gpu_ptr_ sg = Some (ptr_add diff_ (offset_of net i)))
    /\ forall net', map count net' = map count net ->
         offset_of net' i = offset_of net i.
Proof.
  intros Hnd Hc i b Hi. split; [|intros net'; apply offset_of_counts].
  unfold configure in Hc.
  apply rbind_Ok in Hc as (h1 & H1 & H2).
  apply apply_buffers_Ok in H1 as (p1 & H1).
  apply apply_buffers_Ok in H2 as (p2 & H2).
  apply NoDup_app in Hnd as (Hnd1 & Hdisj & Hnd2).
  assert (Hdistinct : forall (sel : Blob -> nat), NoDup (map sel net) ->
            forall j b', (i < j)%nat -> net !! j = Some b' -> sel b' <> sel b).
  { intros sel Hsel j b' Hlt Hj Heq.
    assert (Hij : i = j); [|lia].
    eapply NoDup_lookup; [exact Hsel| |].
    - rewrite list_lookup_fmap, Hi. reflexivity.
    - rewrite list_lookup_fmap, Hj. simpl. f_equal. exact Heq. }
  destruct (replace_loop_pointer replace_gpu data set_gpu_data gpu_ptr_
              ltac:(reflexivity) ltac:(reflexivity) _ _ _ _ _ H1 i b Hi)
    as (sd & Hsd & Hgd); [apply Hdistinct, Hnd1|].
  destruct (replace_loop_pointer replace_gpu_diff diff set_gpu_data gpu_ptr_
              ltac:(reflexivity) ltac:(reflexivity) _ _ _ _ _ H2 i b Hi)
    as (sg & Hsg & Hgg); [apply Hdistinct, Hnd2|].
  exists sd, sg. repeat split; auto.
  destruct (replace_loop_frame replace_gpu_diff diff set_gpu_data
              ltac:(reflexivity) _ _ _ _ _ H2) as (_ & Hframe).
  rewrite Hframe; [exact Hsd|].
  intros Hin. apply (Hdisj (data b)).
  - apply list_elem_of_In, in_map, list_elem_of_In.
    eapply list_elem_of_lookup_2, Hi.
  - apply list_elem_of_In, Hin.
Qed.

(** A mirror of 10 elements configured on the two tensors of
    [example_blobs]. *)
Lemma configure_layout_witness :
  exists h', configure (mkPointer 0 0) (mkPointer 1 0) 10 example_blobs
               example_heap = Ok h'
    /\ forall i b, example_blobs !! i = Some b ->
         (exists sd sg,
            store h' !! data b = Some sd
            /\ gpu_ptr_ sd
               = Some (ptr_add (mkPointer 0 0) (offset_of example_blobs i))
            /\ store h' !! diff b = Some sg
            /\ gpu_ptr_ sg
               = Some (ptr_add (mkPointer 1 0) (offset_of example_blobs i)))
         /\ forall net', map count net' = map count example_blobs ->
              offset_of net' i = offset_of example_blobs i.
Proof.
  eexists. split; [vm_compute; reflexivity|].
  apply (configure_layout (mkPointer 0 0) (mkPointer 1 0) 10 example_blobs
           example_heap).
  - apply (bool_decide_unpack _). vm_compute. reflexivity.
  - vm_compute. reflexivity.
Defined.

(** C7, as stated, fails when two tensors hold the same storage object (a
    shared weight): both [set_gpu_data] calls act on that one object and the
    second pointer stays.  Tensor 0 then has its values at offset 4, not at
    offset 0. *)
Definition shared_blobs : list Blob := [mkBlob 4 0 1; mkBlob 4 0 2].
Definition shared_heap : Heap :=
  {| mem := [];
     store := [ mkSyncedMemory (repeat (fl 1) 4) None None;
                mkSyncedMemory (repeat Dtype_zero 4) None None;
                mkSyncedMemory (repeat Dtype_zero 4) None None ] |}.

Lemma configure_shared_storage :
  exists h' b sd,
    configure (mkPointer 0 0) (mkPointer 1 0) 8 shared_blobs shared_heap = Ok h'
    /\ shared_blobs !! 0%nat = Some b
    /\ store h' !! data b = Some sd
    /\ offset_of shared_blobs 0 = 0
    /\ gpu_ptr_ sd = Some (ptr_add (mkPointer 0 0) 4)
    /\ gpu_ptr_ sd <> Some (ptr_add (mkPointer 0 0) (offset_of shared_blobs 0)).
Proof.
  eexists _, _, _. split; [vm_compute; reflexivity|].
  split; [reflexivity|]. split; [reflexivity|]. split; [reflexivity|].
  split; [reflexivity|]. vm_compute. discriminate.
Qed.

(** *** The size of a mirror *)

Lemma sum_counts_nonneg blobs :
  Forall (fun b => 0 <= count b) blobs -> 0 <= sum_counts blobs.
Proof. induction 1; simpl; lia. Qed.

Lemma total_size_from blobs : forall acc,
  Forall (fun b => 0 <= count b) blobs ->
  0 <= acc -> acc + sum_counts blobs < 2 ^ 64 ->
  fold_left (fun size b => size_t (size + count b)) blobs acc
  = acc + sum_counts blobs.
Proof.
  induction blobs as [|b rest IH]; intros acc Hall Hacc Hlt; simpl in *.
  - lia.
  - apply Forall_cons in Hall as [Hb Hrest].
    pose proof (sum_counts_nonneg rest Hrest).
    unfold size_t at 2. rewrite Z.mod_small by lia.
    rewrite IH by (auto; lia). lia.
Qed.

(** X10.  A mirror of [total_size(params)] elements fits its tensors: with
    element counts that are not negative and sum to less than 2^64,
    [total_size] is the sum of the counts, and every [apply_buffers] walk over
    these tensors with that size passes the final [CHECK_EQ]. *)
Theorem total_size_passes_check (blobs : list Blob) (buffer : pointer)
    (op : Op) (h : Heap) :
  Forall (fun b => 0 <= count b) blobs ->
  sum_counts blobs < 2 ^ 64 ->
  total_size blobs = sum_counts blobs
  /\ (walk_ok op blobs buffer h ->
      exists h', apply_buffers blobs buffer (total_size blobs) op h = Ok h').
Proof.
  intros Hall Hlt.
  assert (Hts : total_size blobs = sum_counts blobs).
  { unfold total_size. rewrite total_size_from by (auto; lia). lia. }
  split; [exact Hts|]. intros Hw.
  destruct (walk_ok_loop _ _ _ _ Hw) as (ptr' & h' & Hloop).
  exists h'. unfold apply_buffers. rewrite Hloop. simpl.
  apply apply_loop_ptr in Hloop as ->.
  rewrite ptr_diff_add, Hts, Z.eqb_refl. reflexivity.
Qed.

Lemma total_size_passes_check_witness :
  total_size example_blobs = sum_counts example_blobs
  /\ (walk_ok replace_gpu example_blobs (mkPointer 0 0) example_heap ->
      exists h', apply_buffers example_blobs (mkPointer 0 0)
                   (total_size example_blobs) replace_gpu example_heap = Ok h').
Proof.
  apply (total_size_passes_check example_blobs (mkPointer 0 0) replace_gpu
           example_heap).
  - repeat constructor; simpl; lia.
  - simpl. lia.
Defined.

(** *** What [copy] leaves in the buffer *)

(** A write leaves the elements before it as they were. *)
Lemma mem_write_read_before m p vals m' q n :
  mem_write m p vals = Some m' ->
  block q = block p ->
  offset q + n <= offset p ->
  mem_read m' q n = mem_read m q n.
Proof.
  unfold mem_write, mem_read. intros H Hb Hle. rewrite Hb.
  destruct (m !! block p) as [[a|]|] eqn:Hm; try discriminate.
  destruct (_ && _) eqn:E; [|discriminate]. inversion H; subst; clear H.
  apply andb_true_iff in E as (E1 & E2). apply Z.leb_le in E1, E2.
  rewrite list_lookup_insert_eq by (apply lookup_lt_is_Some; eauto). simpl.
  rewrite !length_app, length_take, length_drop.
  replace (Z.of_nat (_ + _)) with (Z.of_nat (length (cells a))) by lia.
  destruct (_ && _) eqn:G; [|reflexivity].
  apply andb_true_iff in G as (G & G3). apply andb_true_iff in G as (G1 & G2).
  apply Z.leb_le in G1, G2, G3. f_equal.
  rewrite drop_app_le by (rewrite length_take; lia).
  rewrite take_app_le by (rewrite length_drop, length_take; lia).
  rewrite !take_drop_commute, take_take, Nat.min_l by lia. reflexivity.
Qed.

Lemma caffe_copy_Ok size id ptr h h' :
  caffe_copy size id ptr h = Ok h' ->
  exists s, store h !! id = Some s
    /\ 0 <= size <= Z.of_nat (length (host s))
    /\ mem_write (mem h) ptr (take (Z.to_nat size) (host s)) = Some (mem h')
    /\ store h' = store h.
Proof.
  unfold caffe_copy. destruct (store h !! id) as [s|]; [|discriminate].
  destruct (_ && _) eqn:E; [|discriminate].
  apply andb_true_iff in E as (E1 & E2). apply Z.leb_le in E1, E2.
  destruct (mem_write _ _ _) as [m|] eqn:Hw; [|discriminate].
  intros H. inversion H; subst. exists s. simpl. repeat split; auto.
Qed.

Lemma mem_write_offset m p vals m' :
  mem_write m p vals = Some m' -> 0 <= offset p.
Proof.
  unfold mem_write. destruct (m !! block p) as [[a|]|]; try discriminate.
  destruct (_ && _) eqn:E; [|discriminate]. intros _.
  apply andb_true_iff in E as (E1 & _). apply Z.leb_le in E1. exact E1.
Qed.

Lemma copy_loop_content : forall blobs ptr h ptr' h',
  apply_loop copy blobs ptr h = Ok (ptr', h') ->
  store h' = store h
  /\ (forall i b s, blobs !! i = Some b -> store h !! data b = Some s ->
        mem_read (mem h') (ptr_add ptr (offset_of blobs i)) (count b)
        = Some (take (Z.to_nat (count b)) (host s)))
  /\ (forall q n, block q = block ptr -> offset q + n <= offset ptr ->
        mem_read (mem h') q n = mem_read (mem h) q n)
  /\ (forall q n, block q <> block ptr ->
        mem_read (mem h') q n = mem_read (mem h) q n).
Proof.
  induction blobs as [|b rest IH]; intros ptr h ptr' h' H; simpl in H.
  - inversion H; subst. repeat split; auto. intros i b s Hi. discriminate.
  - apply rbind_Ok in H as (h1 & H1 & H). simpl in H1.
    apply caffe_copy_Ok in H1 as (s0 & Hs0 & Hc & Hw & Hst).
    apply IH in H as (Hst' & Hread & Hbefore & Hother).
    split; [congruence|]. split; [|split].
    + intros [|i] b' s Hi Hs.
      * simpl in Hi. inversion Hi; subst b'; clear Hi.
        rewrite Hs0 in Hs. inversion Hs; subst s0; clear Hs.
        rewrite offset_of_0, ptr_add_0.
        rewrite Hbefore by (simpl; lia).
        replace (count b) with (Z.of_nat (length (take (Z.to_nat (count b)) (host s))))
          at 1 by (rewrite length_take; lia).
        eapply mem_write_read_same, Hw.
      * simpl in Hi. rewrite offset_of_S, <- ptr_add_add.
        apply Hread; [exact Hi|]. rewrite Hst. exact Hs.
    + intros q n Hb Hle. rewrite Hbefore by (simpl; lia).
      eapply mem_write_read_before; eauto.
    + intros q n Hne. rewrite Hother by (simpl; exact Hne).
      eapply mem_write_read_other; eauto.
Qed.

(** X11.  What the [copy] walk leaves behind (the constructor's
    "Init buffer to current values of blobs").  When it returns, the flat
    buffer holds, for every tensor [i], the tensor's [count()] host values at
    the offset of tensor [i]; the storage objects are as before (no pointer
    is rewired); and no other allocation has changed. *)
Theorem copy_fills_buffer (blobs : list Blob) (buffer : pointer)
    (total_size : Z) (h h' : Heap) :
  apply_buffers blobs buffer total_size copy h = Ok h' ->
  store h' = store h
  /\ (forall i b s, blobs !! i = Some b -> store h !! data b = Some s ->
        mem_read (mem h') (ptr_add buffer (offset_of blobs i)) (count b)
        = Some (take (Z.to_nat (count b)) (host s)))
  /\ (forall q n, block q <> block buffer ->
        mem_read (mem h') q n = mem_read (mem h) q n).
Proof.
  intros H. apply apply_buffers_Ok in H as (ptr' & H).
  apply copy_loop_content in H as (Hst & Hread & _ & Hother). auto.
Qed.

Lemma copy_fills_buffer_witness :
  exists h',
    apply_buffers example_blobs (mkPointer 0 0) 10 copy example_heap = Ok h'
    /\ mem_read (mem h') (mkPointer 0 0) 4 = Some (repeat (fl 1) 4)
    /\ mem_read (mem h') (mkPointer 0 4) 6 = Some (repeat (fl 2) 6).
Proof.
  eexists. split; [vm_compute; reflexivity|].
  match goal with
  | |- mem_read (mem ?h') _ _ = _ /\ _ =>
      destruct (copy_fills_buffer example_blobs (mkPointer 0 0) 10 example_heap
                  h' ltac:(vm_compute; reflexivity)) as (_ & Hread & _)
  end.
  split.
  - exact (Hread 0%nat (mkBlob 4 0 1) (mkSyncedMemory (repeat (fl 1) 4) None None)
             eq_refl eq_refl).
  - exact (Hread 1%nat (mkBlob 6 2 3) (mkSyncedMemory (repeat (fl 2) 6) None None)
             eq_refl eq_refl).
Defined.

(** *** What [configure] leaves alone *)

Lemma replace_gpu_loop_keeps op (sel : Blob -> nat) :
  (forall b ptr h, apply_op op b ptr h
                   = update_store (sel b) (fun s => set_gpu_data s ptr) h) ->
  forall blobs ptr h ptr' h',
    apply_loop op blobs ptr h = Ok (ptr', h') ->
    mem h' = mem h
    /\ length (store h') = length (store h)
    /\ forall id s', store h' !! id = Some s' ->
         exists s, store h !! id = Some s
           /\ host s' = host s /\ cpu_ptr_ s' = cpu_ptr_ s
           /\ (~ In id (map sel blobs) -> s' = s).
Proof.
  intros Hop. induction blobs as [|b rest IH]; intros ptr h ptr' h' H;
    simpl in H.
  - inversion H; subst. repeat split; auto. intros id s' Hs. eauto.
  - apply rbind_Ok in H as (h1 & H1 & H). rewrite Hop in H1.
    unfold update_store in H1.
    destruct (store h !! sel b) as [s0|] eqn:Hs0; [|discriminate].
    inversion H1; subst h1; clear H1.
    apply IH in H as (Hm & Hlen & Hkeep). simpl in *.
    split; [exact Hm|]. split; [rewrite Hlen; apply length_insert|].
    intros id s' Hs'. destruct (Hkeep id s' Hs') as (s1 & Hs1 & Hh & Hc & Hsame).
    destruct (decide (id = sel b)) as [->|Hne].
    + rewrite list_lookup_insert_eq in Hs1
        by (apply lookup_lt_is_Some; eauto).
      inversion Hs1; subst s1; clear Hs1.
      exists s0. repeat split; auto; intros Hnot; exfalso; apply Hnot; auto.
    + rewrite list_lookup_insert_ne in Hs1 by auto.
      exists s1. repeat split; auto; intros Hnot; apply Hsame; tauto.
Qed.

(** X12.  [configure] only rewires.  When it returns, device memory is as
    before (nothing is copied), the element counts sum to [size_], and every
    storage object has the host values and the host pointer it had; an object
    that no tensor of the net holds is untouched. *)
Theorem configure_only_rewires (data_ diff_ : pointer) (size_ : Z)
    (net : list Blob) (h h' : Heap) :
  configure data_ diff_ size_ net h = Ok h' ->
  mem h' = mem h
  /\ sum_counts net = size_
  /\ length (store h') = length (store h)
  /\ forall id s', store h' !! id = Some s' ->
       exists s, store h !! id = Some s
         /\ host s' = host s /\ cpu_ptr_ s' = cpu_ptr_ s
         /\ (~ In id (map data net ++ map diff net) -> s' = s).
Proof.
  intros Hc. unfold configure in Hc.
  apply rbind_Ok in Hc as (h1 & H1 & H2).
  assert (Hsum : sum_counts net = size_).
  { unfold apply_buffers in H1.
    apply rbind_Ok in H1 as ([p1 h1'] & Hloop & H1).
    apply rbind_Ok in H1 as ([] & Hchk & _).
    apply CHECK_Ok, Z.eqb_eq in Hchk.
    apply apply_loop_ptr in Hloop as ->. rewrite ptr_diff_add in Hchk. auto. }
  apply apply_buffers_Ok in H1 as (p1 & H1).
  apply apply_buffers_Ok in H2 as (p2 & H2).
  apply (replace_gpu_loop_keeps replace_gpu data ltac:(reflexivity)) in H1
    as (Hm1 & Hl1 & K1).
  apply (replace_gpu_loop_keeps replace_gpu_diff diff ltac:(reflexivity)) in H2
    as (Hm2 & Hl2 & K2).
  split; [congruence|]. split; [exact Hsum|]. split; [congruence|].
  intros id s' Hs'.
  destruct (K2 id s' Hs') as (s1 & Hs1 & Hh2 & Hc2 & Hsame2).
  destruct (K1 id s1 Hs1) as (s & Hs & Hh1 & Hc1 & Hsame1).
  exists s. split; [exact Hs|]. split; [congruence|]. split; [congruence|].
  intros Hnot. rewrite Hsame2, Hsame1; auto;
    intros Hin; apply Hnot; apply in_or_app; auto.
Qed.

Lemma configure_only_rewires_witness :
  exists h',
    configure (mkPointer 0 0) (mkPointer 1 0) 10 example_blobs example_heap
    = Ok h'
    /\ mem h' = mem example_heap
    /\ sum_counts example_blobs = 10.
Proof.
  eexists. split; [vm_compute; reflexivity|].
  match goal with
  | |- mem ?h' = _ /\ _ =>
      destruct (configure_only_rewires (mkPointer 0 0) (mkPointer 1 0) 10
                  example_blobs example_heap h' ltac:(vm_compute; reflexivity))
        as (Hm & Hs & _)
  end.
  split; [exact Hm | exact Hs].
Defined.

(** X13.  Shared storage: the last tensor wins.  Let tensors [i] and [j] of
    the net hold the same value storage object, let no tensor after [j] hold
    it, and let it be no tensor's gradient storage.  After [configure] the
    object's device pointer is [data_] plus the offset of tensor [j]: the
    pointer set for tensor [i] has been overwritten. *)
Theorem configure_last_holder (data_ diff_ : pointer) (size_ : Z)
    (net : list Blob) (h h' : Heap) (i j : nat) (bi bj : Blob) :
  configure data_ diff_ size_ net h = Ok h' ->
  net !! i = Some bi -> net !! j = Some bj ->
  data bj = data bi ->
  (forall k bk, (j < k)%nat -> net !! k = Some bk -> data bk <> data bi) ->
  ~ In (data bi) (map diff net) ->
  exists sd, store h' !! data bi = Some sd
    /\ gpu_ptr_ sd = Some (ptr_add data_ (offset_of net j)).
Proof.
  intros Hc Hi Hj Heq Hlast Hnd. unfold configure in Hc.
  apply rbind_Ok in Hc as (h1 & H1 & H2).
  apply apply_buffers_Ok in H1 as (p1 & H1).
  apply apply_buffers_Ok in H2 as (p2 & H2).
  destruct (replace_loop_pointer replace_gpu data set_gpu_data gpu_ptr_
              ltac:(reflexivity) ltac:(reflexivity) _ _ _ _ _ H1 j bj Hj)
    as (sd & Hsd & Hgd).
  { intros k bk Hlt Hk. rewrite Heq. eapply Hlast; eauto. }
  destruct (replace_loop_frame replace_gpu_diff diff set_gpu_data
              ltac:(reflexivity) _ _ _ _ _ H2) as (_ & Hframe).
  exists sd. split; [|exact Hgd].
  rewrite Hframe by exact Hnd. rewrite <- Heq. exact Hsd.
Qed.

Lemma configure_last_holder_witness :
  exists h' sd,
    configure (mkPointer 0 0) (mkPointer 1 0) 8 shared_blobs shared_heap = Ok h'
    /\ store h' !! 0%nat = Some sd
    /\ gpu_ptr_ sd = Some (mkPointer 0 4).
Proof.
  eexists.
  match goal with
  | |- exists sd, configure ?d ?g ?n ?net ?h = Ok ?h' /\ _ =>
      assert (Hc : configure d g n net h = Ok h') by (vm_compute; reflexivity);
      destruct (configure_last_holder d g n net h h' 0%nat 1%nat
                  (mkBlob 4 0 1) (mkBlob 4 0 2) Hc eq_refl eq_refl eq_refl)
        as (sd & Hsd & Hptr)
  end.
  - intros [|[|k]] bk Hlt Hk; try lia. simpl in Hk. discriminate.
  - simpl. lia.
  - exists sd. split; [exact Hc|]. split; [exact Hsd | exact Hptr].
Defined.

(** [configure] leaves device memory as it is. *)
Lemma configure_mem data_ diff_ size_ net h h' :
  configure data_ diff_ size_ net h = Ok h' -> mem h' = mem h.
Proof.
  unfold configure. intros H.
  apply rbind_Ok in H as (h1 & H1 & H2).
  apply apply_buffers_Ok in H1 as (p1 & H1).
  apply apply_buffers_Ok in H2 as (p2 & H2).
  apply (replace_gpu_loop_keeps replace_gpu data ltac:(reflexivity)) in H1
    as (E1 & _).
  apply (replace_gpu_loop_keeps replace_gpu_diff diff ltac:(reflexivity)) in H2
    as (E2 & _).
  congruence.
Qed.

End Mirror.

(** ** 4. The synchronisation worker: [P2PSync] *)

Module Sync.
Import Mirror.

(** *** State *)

(** [SolverParameter] and [Solver], reduced to what this file reads:
    [param().device_id()], [random_seed()], [max_iter()], [iter()] and
    [net()->params()]. *)
Record SolverParameter : Type :=
  mkSolverParameter { device_id : Z; random_seed : Z; max_iter : Z }.

Record Solver : Type :=
  mkSolver { param : SolverParameter; net_params : list Blob; iter : Z }.

(** A [P2PSync] object.  Objects live in the table [syncs] of the world; a
    [P2PSync*] is an index into it.  [size_], [data_] and [diff_] are the
    members inherited from [GPUParams].  [parent_grads_] is assigned in the
    constructor only when there is a parent. *)
Record P2PSync : Type :=
  mkP2PSync { size_ : Z;
              data_ : pointer;
              diff_ : pointer;
              parent_ : option nat;
              children_ : list nat;
              queue_ : list nat;
              initial_iter_ : Z;
              solver_ : Solver;
              parent_grads_ : option pointer }.

Definition set_queue (s : P2PSync) (q : list nat) : P2PSync :=
  {| size_ := size_ s; data_ := data_ s; diff_ := diff_ s;
     parent_ := parent_ s; children_ := children_ s; queue_ := q;
     initial_iter_ := initial_iter_ s; solver_ := solver_ s;
     parent_grads_ := parent_grads_ s |}.

(** What a thread does that other threads or the device can observe. *)
Inductive Event : Type :=
| EvSetDevice (thread : nat) (device : Z)
| EvQueuePop (self token : nat)        (* [self->queue_.pop()] gave [token] *)
| EvQueuePush (target token : nat)     (* [target->queue_.push(token)] *)
| EvMemcpyAsync (dst src : pointer) (n : Z)
| EvStreamSynchronize.

(** The world: device memory and host objects ([heap]); the CUDA runtime's
    per-thread active device, enabled peer accesses and the copies issued on
    the default stream and not yet waited for; the [P2PSync] objects; the
    two [Caffe] settings; and the events so far, oldest first. *)
Record World : Type :=
  mkWorld { heap : Heap;
            active_device : nat -> Z;
            peer_access : list (Z * Z);
            default_stream : list (pointer * pointer * Z);
            syncs : list P2PSync;
            root_solver : bool;
            solver_count : Z;
            trace : list Event }.

Definition with_heap (w : World) (h : Heap) : World :=
  {| heap := h; active_device := active_device w;
     peer_access := peer_access w; default_stream := default_stream w;
     syncs := syncs w; root_solver := root_solver w;
     solver_count := solver_count w; trace := trace w |}.
Definition with_mem (w : World) (m : memory) : World :=
  with_heap w {| mem := m; store := store (heap w) |}.
Definition with_active_device (w : World) (a : nat -> Z) : World :=
  {| heap := heap w; active_device := a;
     peer_access := peer_access w; default_stream := default_stream w;
     syncs := syncs w; root_solver := root_solver w;
     solver_count := solver_count w; trace := trace w |}.
Definition with_peer_access (w : World) (p : list (Z * Z)) : World :=
  {| heap := heap w; active_device := active_device w;
     peer_access := p; default_stream := default_stream w;
     syncs := syncs w; root_solver := root_solver w;
     solver_count := solver_count w; trace := trace w |}.
Definition with_default_stream (w : World) (s : list (pointer * pointer * Z))
  : World :=
  {| heap := heap w; active_device := active_device w;
     peer_access := peer_access w; default_stream := s;
     syncs := syncs w; root_solver := root_solver w;
     solver_count := solver_count w; trace := trace w |}.
Definition with_syncs (w : World) (s : list P2PSync) : World :=
  {| heap := heap w; active_device := active_device w;
     peer_access := peer_access w; default_stream := default_stream w;
     syncs := s; root_solver := root_solver w;
     solver_count := solver_count w; trace := trace w |}.
Definition with_root_solver (w : World) (b : bool) : World :=
  {| heap := heap w; active_device := active_device w;
     peer_access := peer_access w; default_stream := default_stream w;
     syncs := syncs w; root_solver := b;
     solver_count := solver_count w; trace := trace w |}.
Definition with_trace (w : World) (t : list Event) : World :=
  {| heap := heap w; active_device := active_device w;
     peer_access := peer_access w; default_stream := default_stream w;
     syncs := syncs w; root_solver := root_solver w;
     solver_count := solver_count w; trace := t |}.

(** *** The monad of calls: state, fatal errors, blocking *)

Definition M (A : Type) : Type := World -> result (A * World).

Definition ret {A} (a : A) : M A := fun w => Ok (a, w).

Definition bind {A B} (m : M A) (k : A -> M B) : M B :=
  fun w =>
    match m w with
    | Ok (a, w') => k a w'
    | Fatal f => Fatal f
    | Blocked => Blocked
    end.

Notation "'let!' x ':=' m 'in' k" := (bind m (fun x => k))
  (at level 10, x pattern, m at level 100, k at level 200, only parsing).

Definition fail {A} (f : fatal) : M A := fun _ => Fatal f.
Definition wait {A} : M A := fun _ => Blocked.
Definition get_world : M World := fun w => Ok (w, w).
Definition modify (f : World -> World) : M unit := fun w => Ok (tt, f w).
Definition emit (e : Event) : M unit :=
  modify (fun w => with_trace w (trace w ++ [e])).

(** [CHECK(cond)] *)
Definition check (cond : bool) : M unit :=
  if cond then ret tt else fail check_failed.

(** A value that is there unless a pointer is wild. *)
Definition valid {A} (o : option A) : M A :=
  match o with
  | Some a => ret a
  | None => fail memory_fault
  end.

(** A call on the heap alone. *)
Definition on_heap (f : Heap -> result Heap) : M unit :=
  fun w =>
    match f (heap w) with
    | Ok h => Ok (tt, with_heap w h)
    | Fatal e => Fatal e
    | Blocked => Blocked
    end.

(** [for (int i = 0; i < xs.size(); ++i) body(xs[i])] *)
Fixpoint for_each {A} (xs : list A) (body : A -> M unit) : M unit :=
  match xs with
  | [] => ret tt
  | x :: xs' => let! _ := body x in for_each xs' body
  end.

(** [for (int i = 0; i < n; ++i) body] *)
Fixpoint repeat_n (n : nat) (body : M unit) : M unit :=
  match n with
  | O => ret tt
  | S n' => let! _ := body in repeat_n n' body
  end.

Lemma bind_Ok {A B} (m : M A) (k : A -> M B) w b w' :
  bind m k w = Ok (b, w') ->
  exists a w1, m w = Ok (a, w1) /\ k a w1 = Ok (b, w').
Proof.
  unfold bind. destruct (m w) as [[a w1]| |]; intros; try discriminate. eauto.
Qed.

(** *** The CUDA runtime *)

(** The runtime calls of this file.  Whether a call reports an error is up
    to the runtime: [cuda_fails] below. *)
Inductive CudaCall : Type :=
| GetDevice
| SetDevice (device : Z)
| Malloc (n : Z)
| Free (p : pointer)
| DeviceCanAccessPeer (device peer : Z)
| DeviceEnablePeerAccess (peer : Z)
| DeviceDisablePeerAccess (peer : Z)
| MemcpyAsync (dst src : pointer) (n : Z)
| StreamSynchronize
| PointerGetAttributes (p : pointer).

(** *** The arithmetic of [Dtype] *)

(** The template argument [Dtype]: the precision and the exponent bound of
    its IEEE 754 binary format. *)
Class Dtype_format : Type := { prec : Z; emax : Z }.

(** [float] and [double] *)
Definition binary32 : Dtype_format := {| prec := 24; emax := 128 |}.
Definition binary64 : Dtype_format := {| prec := 53; emax := 1024 |}.

(** [a + b] and [a * b] in [Dtype], rounded to nearest. *)
Definition Dtype_add {format : Dtype_format} (a b : Dtype) : Dtype :=
  SFadd prec emax a b.
Definition Dtype_mul {format : Dtype_format} (a b : Dtype) : Dtype :=
  SFmul prec emax a b.

(** [1.0 / n] for an [int] [n]: a division of [double]s. *)
Definition double_reciprocal (n : Z) : spec_float :=
  SFdiv 53 1024 (binary_normalize 53 1024 1 0 false)
    (binary_normalize 53 1024 n 0 false).

(** [Dtype(x)] for a [double] [x]: rounded to the format of [Dtype]. *)
Definition Dtype_of_double {format : Dtype_format} (x : spec_float) : Dtype :=
  match x with
  | S754_finite s m e => binary_normalize prec emax (cond_Zopp s (Zpos m)) e s
  | _ => x
  end.

Section Runtime.

(** [Dtype] is [float] or [double]. *)
Context {format : Dtype_format}.
(** Whether the file is compiled with [DEBUG] defined. *)
Variable DEBUG : bool.
(** The runtime: which call reports an error in which world, whether a
    device can access a peer, and what freshly allocated memory holds. *)
Variable cuda_fails : CudaCall -> World -> bool.
Variable can_access_peer : Z -> Z -> Z.
Variable uninitialised : Dtype.
(** [new Solver<Dtype>(param)], defined outside this file. *)
Variable new_Solver : SolverParameter -> M Solver.

(** [CUDA_CHECK] of a call: fatal when the runtime reports an error. *)
Definition cuda (c : CudaCall) : M unit :=
  fun w => if cuda_fails c w then Fatal cuda_error else Ok (tt, w).

Definition cudaGetDevice (thread : nat) : M Z :=
  let! _ := cuda GetDevice in
  let! w := get_world in
  ret (active_device w thread).

Definition cudaSetDevice (thread : nat) (device : Z) : M unit :=
  let! _ := cuda (SetDevice device) in
  let! _ := modify (fun w =>
    with_active_device w
      (fun t => if (t =? thread)%nat then device else active_device w t)) in
  emit (EvSetDevice thread device).

(** [cudaMalloc(&p, n * sizeof(Dtype))]: a new allocation of [n] elements
    on the thread's active device. *)
Definition cudaMalloc (thread : nat) (n : Z) : M pointer :=
  let! _ := cuda (Malloc n) in
  let! w := get_world in
  let fresh := {| on_device := active_device w thread;
                  cells := repeat uninitialised (Z.to_nat n) |} in
  let! _ := modify (fun w => with_mem w (mem (heap w) ++ [Some fresh])) in
  ret (mkPointer (length (mem (heap w))) 0).

Definition cudaFree (p : pointer) : M unit :=
  let! _ := cuda (Free p) in
  let! w := get_world in
  match mem (heap w) !! block p with
  | Some (Some _) =>
      if offset p =? 0
      then modify (fun w => with_mem w (<[block p := None]> (mem (heap w))))
      else fail cuda_error
  | _ => fail cuda_error
  end.

Definition cudaDeviceCanAccessPeer (device peer : Z) : M Z :=
  let! _ := cuda (DeviceCanAccessPeer device peer) in
  ret (can_access_peer device peer).

Definition cudaDeviceEnablePeerAccess (thread : nat) (peer : Z) : M unit :=
  let! _ := cuda (DeviceEnablePeerAccess peer) in
  modify (fun w =>
    with_peer_access w ((active_device w thread, peer) :: peer_access w)).

Definition cudaDeviceDisablePeerAccess (thread : nat) (peer : Z) : M unit :=
  let! _ := cuda (DeviceDisablePeerAccess peer) in
  modify (fun w =>
    with_peer_access w
      (filter (fun dp => dp <> (active_device w thread, peer)) (peer_access w))).

(** [cudaMemcpyAsync(dst, src, n * sizeof(Dtype), cudaMemcpyDeviceToDevice,
    cudaStreamDefault)]: the copy is issued, not yet done. *)
Definition cudaMemcpyAsync (dst src : pointer) (n : Z) : M unit :=
  let! _ := cuda (MemcpyAsync dst src n) in
  let! _ := modify (fun w =>
    with_default_stream w (default_stream w ++ [(dst, src, n)])) in
  emit (EvMemcpyAsync dst src n).

(** One issued copy, carried out. *)
Definition do_copy (c : pointer * pointer * Z) (m : memory) : option memory :=
  let '(dst, src, n) := c in
  match mem_read m src n with
  | Some vals => mem_write m dst vals
  | None => None
  end.

Fixpoint do_copies (cs : list (pointer * pointer * Z)) (m : memory)
  : option memory :=
  match cs with
  | [] => Some m
  | c :: cs' =>
      match do_copy c m with
      | Some m' => do_copies cs' m'
      | None => None
      end
  end.

(** [cudaStreamSynchronize(cudaStreamDefault)]: when it returns, every copy
    issued on the stream has been carried out. *)
Definition cudaStreamSynchronize : M unit :=
  let! _ := cuda StreamSynchronize in
  let! w := get_world in
  let! m := valid (do_copies (default_stream w) (mem (heap w))) in
  let! _ := modify (fun w => with_default_stream (with_mem w m) []) in
  emit EvStreamSynchronize.

(** [cudaPointerGetAttributes(&attributes, p)], then [attributes.device] *)
Definition cudaPointerGetAttributes (p : pointer) : M Z :=
  let! _ := cuda (PointerGetAttributes p) in
  let! w := get_world in
  match mem (heap w) !! block p with
  | Some (Some a) => ret (on_device a)
  | _ => fail cuda_error
  end.

(** *** The math routines on device memory *)

Definition read (p : pointer) (n : Z) : M (list Dtype) :=
  let! w := get_world in valid (mem_read (mem (heap w)) p n).

Definition write (p : pointer) (vals : list Dtype) : M unit :=
  let! w := get_world in
  let! m := valid (mem_write (mem (heap w)) p vals) in
  modify (fun w => with_mem w m).

(** [caffe_gpu_set(n, alpha, y)] *)
Definition caffe_gpu_set (n : Z) (alpha : Dtype) (y : pointer) : M unit :=
  if 0 <=? n then write y (repeat alpha (Z.to_nat n)) else fail memory_fault.

(** [caffe_gpu_add(n, a, b, y)]: [y[k] = a[k] + b[k]] *)
Definition caffe_gpu_add (n : Z) (a b y : pointer) : M unit :=
  let! va := read a n in
  let! vb := read b n in
  write y (zip_with Dtype_add va vb).

(** [caffe_gpu_scal(n, alpha, x)]: [x[k] = alpha * x[k]] *)
Definition caffe_gpu_scal (n : Z) (alpha : Dtype) (x : pointer) : M unit :=
  let! vx := read x n in
  write x (map (Dtype_mul alpha) vx).

(** *** Objects and queues *)

(** Dereferencing a [P2PSync*]. *)
Definition get_sync (p : nat) : M P2PSync :=
  let! w := get_world in valid (syncs w !! p).

Definition put_sync (p : nat) (s : P2PSync) : M unit :=
  modify (fun w => with_syncs w (<[p := s]> (syncs w))).

(** [self->queue_.pop()]: waits while the queue is empty. *)
Definition queue_pop (self : nat) : M nat :=
  let! s := get_sync self in
  match queue_ s with
  | [] => wait
  | token :: q =>
      let! _ := put_sync self (set_queue s q) in
      let! _ := emit (EvQueuePop self token) in
      ret token
  end.

(** [target->queue_.push(token)] *)
Definition queue_push (target token : nat) : M unit :=
  let! s := get_sync target in
  let! _ := put_sync target (set_queue s (queue_ s ++ [token])) in
  emit (EvQueuePush target token).

(** *** Constructors and destructor *)

(** [GPUParams::GPUParams(root_solver, device)], with the [Params] base:
    yields [size_], [data_], [diff_]. *)
Definition GPUParams_ctor (thread : nat) (root : Solver) (device : Z)
  : M (Z * pointer * pointer) :=
  let size_ := total_size (net_params root) in
  let! initial_device := cudaGetDevice thread in
  let! _ := cudaSetDevice thread device in
  let! data_ := cudaMalloc thread size_ in
  let net := net_params root in
  let! _ := on_heap (apply_buffers net data_ size_ copy) in
  let! diff_ := cudaMalloc thread size_ in
  let! _ := caffe_gpu_set size_ Dtype_zero diff_ in
  let! _ := cudaSetDevice thread initial_device in
  ret (size_, data_, diff_).

(** Lines 214-228: the part of the constructor for a worker with a parent. *)
Definition alloc_parent_grads (thread : nat) (self : Z) (size_ : Z)
    (parent : nat) : M pointer :=
  let! parent_sync := get_sync parent in
  let peer := device_id (param (solver_ parent_sync)) in
  let! access := cudaDeviceCanAccessPeer self peer in
  let! _ := if negb (access =? 0)
            then cudaDeviceEnablePeerAccess thread peer
            else ret tt in
  let! _ := cudaSetDevice thread peer in
  let! parent_grads := cudaMalloc thread size_ in
  let! _ := cudaSetDevice thread self in
  ret parent_grads.

(** [P2PSync::P2PSync(root_solver, parent, param)]: yields the new object's
    address.  [solver_->add_callback(this)] registers the two callbacks
    below with the solver and changes nothing here. *)
Definition P2PSync_ctor (thread : nat) (root : Solver) (parent : option nat)
    (prm : SolverParameter) : M nat :=
  let! (size_, data_, diff_) := GPUParams_ctor thread root (device_id prm) in
  let! initial_device := cudaGetDevice thread in
  let self := device_id prm in
  let! _ := cudaSetDevice thread self in
  let! solver :=
    match parent with
    | None => ret root
    | Some _ =>
        let! _ := modify (fun w => with_root_solver w false) in
        let! s := new_Solver prm in
        let! _ := modify (fun w => with_root_solver w true) in
        ret s
    end in
  let! _ := on_heap (configure data_ diff_ size_ (net_params solver)) in
  let! parent_grads :=
    match parent with
    | Some p =>
        let! pg := alloc_parent_grads thread self size_ p in ret (Some pg)
    | None => ret None
    end in
  let! _ := cudaSetDevice thread initial_device in
  let! w := get_world in
  let this := length (syncs w) in
  let! _ := modify (fun w =>
    with_syncs w (syncs w ++ [ {| size_ := size_; data_ := data_;
                                  diff_ := diff_; parent_ := parent;
                                  children_ := []; queue_ := [];
                                  initial_iter_ := iter root;
                                  solver_ := solver;
                                  parent_grads_ := parent_grads |} ])) in
  ret this.

(** [P2PSync::~P2PSync()], followed by [GPUParams::~GPUParams()] *)
Definition P2PSync_dtor (thread : nat) (this : nat) : M unit :=
  let! s := get_sync this in
  let! initial_device := cudaGetDevice thread in
  let self := device_id (param (solver_ s)) in
  let! _ := cudaSetDevice thread self in
  let! _ :=
    match parent_ s with
    | Some p =>
        let! pg := valid (parent_grads_ s) in
        let! _ := cudaFree pg in
        let! parent_sync := get_sync p in
        let peer := device_id (param (solver_ parent_sync)) in
        let! access := cudaDeviceCanAccessPeer self peer in
        if negb (access =? 0)
        then cudaDeviceDisablePeerAccess thread peer
        else ret tt
    | None => ret tt
    end in
  let! _ := cudaSetDevice thread initial_device in
  let! _ := cudaFree (data_ s) in
  cudaFree (diff_ s).

(** *** The two solver callbacks *)

(** Lines 277-283 and 327-331: under [DEBUG], the calling thread's device
    must be the worker's.  Without [DEBUG] the variable [device] does not
    exist; 0 stands in for it and is never read. *)
Definition debug_device (thread : nat) (this : P2PSync) : M Z :=
  if DEBUG then
    let! device := cudaGetDevice thread in
    let! _ := check (device =? device_id (param (solver_ this))) in
    ret device
  else ret 0.

(** Under [DEBUG]: [cudaPointerGetAttributes(&attributes, p);
    CHECK(attributes.device == expected);] *)
Definition debug_pointer (p : pointer) (expected : Z) : M unit :=
  if DEBUG then
    let! device := cudaPointerGetAttributes p in
    check (device =? expected)
  else ret tt.

(** Lines 297-311, for [children_[i]]: one asynchronous copy. *)
Definition send_params (this : P2PSync) (device : Z) (c : nat) : M unit :=
  let! child := get_sync c in
  let src := data_ this in
  let dst := data_ child in
  let! _ := debug_pointer src device in
  let! _ := debug_pointer dst (device_id (param (solver_ child))) in
  cudaMemcpyAsync dst src (size_ this).

(** [P2PSync::on_start], called by the solver of worker [self] on thread
    [thread] before each step. *)
Definition on_start (thread : nat) (self : nat) : M unit :=
  let! this := get_sync self in
  let! device := debug_device thread this in
  (* Wait for update from parent *)
  let! _ :=
    match parent_ this with
    | Some p =>
        let! parent := queue_pop self in
        check (parent =? p)%nat
    | None => ret tt
    end in
  (* Update children *)
  let! _ := for_each (children_ this) (send_params this device) in
  let! _ := if negb (length (children_ this) =? 0)%nat
            then cudaStreamSynchronize
            else ret tt in
  for_each (children_ this) (fun c => queue_push c self).

(** Lines 334-357, one turn of the loop: take the next token, add that
    worker's staged gradients into [diff_]. *)
Definition reduce_child (self : nat) (device : Z) : M unit :=
  let! this := get_sync self in
  let! child := queue_pop self in
  let! child_sync := get_sync child in
  let dst := diff_ this in
  let! _ := if DEBUG
            then check (existsb (Nat.eqb child) (children_ this))
            else ret tt in
  let! src := valid (parent_grads_ child_sync) in
  let! _ := debug_pointer src device in
  let! _ := debug_pointer dst device in
  caffe_gpu_add (size_ this) src dst dst.

(** Lines 359-382: send the sum to the parent, or scale it at the root. *)
Definition send_or_scale (self : nat) (device : Z) : M unit :=
  let! this := get_sync self in
  match parent_ this with
  | Some p =>
      let src := diff_ this in
      let! dst := valid (parent_grads_ this) in
      let! _ := debug_pointer src device in
      let! _ := if DEBUG
                then
                  let! parent_sync := get_sync p in
                  debug_pointer dst (device_id (param (solver_ parent_sync)))
                else ret tt in
      let! _ := cudaMemcpyAsync dst src (size_ this) in
      let! _ := cudaStreamSynchronize in
      queue_push p self
  | None =>
      let! w := get_world in
      caffe_gpu_scal (size_ this)
        (Dtype_of_double (double_reciprocal (solver_count w))) (diff_ this)
  end.

(** [P2PSync::on_gradients_ready], called by the solver of worker [self] on
    thread [thread] once the step's gradients are in [diff_]. *)
Definition on_gradients_ready (thread : nat) (self : nat) : M unit :=
  let! this := get_sync self in
  let! device := debug_device thread this in
  let! _ := repeat_n (length (children_ this)) (reduce_child self device) in
  send_or_scale self device.

(** *** Worker threads in the reduction phase *)

(** Where a thread is inside [on_gradients_ready]: about to enter, at the
    head of the loop with [i] and the local [device], or back in the
    solver. *)
Inductive Location : Type :=
| AtEntry
| InLoop (i : nat) (device : Z)
| Returned.

(** The next atomic piece of [on_gradients_ready] for the thread of worker
    [t] (thread [t]): the prologue, one turn of the loop, or the part after
    the loop.  Each piece waits at most once, at its start. *)
Definition step (t : nat) (at_ : Location) : M Location :=
  match at_ with
  | AtEntry =>
      let! this := get_sync t in
      let! device := debug_device t this in
      ret (InLoop 0 device)
  | InLoop i device =>
      let! this := get_sync t in
      if (i <? length (children_ this))%nat
      then let! _ := reduce_child t device in ret (InLoop (S i) device)
      else let! _ := send_or_scale t device in ret Returned
  | Returned => ret Returned
  end.

(** An interleaving of the threads: [schedule] names the thread that moves
    next, one piece at a time. *)
Fixpoint run_threads (schedule : list nat) (locs : list Location)
  : M (list Location) :=
  match schedule with
  | [] => ret locs
  | t :: schedule' =>
      let! at_ := valid (locs !! t) in
      let! at' := step t at_ in
      run_threads schedule' (<[t := at']> locs)
  end.

End Runtime.

(** *** Calls that leave the active devices and the trace alone *)

Section RuntimeFacts.

Context {format : Dtype_format}.
Variable DEBUG : bool.
Variable cuda_fails : CudaCall -> World -> bool.
Variable can_access_peer : Z -> Z -> Z.
Variable uninitialised : Dtype.
Variable new_Solver : SolverParameter -> M Solver.

Create HintDb quiet.
Create HintDb nonblocking.

Definition quiet {A} (m : M A) : Prop :=
  forall w a w', m w = Ok (a, w') ->
    trace w' = trace w /\ active_device w' = active_device w
    /\ syncs w' = syncs w.

Lemma quiet_ret {A} (a : A) : quiet (ret a).
Proof. intros w b w' H. inversion H; subst. auto. Qed.

Lemma quiet_fail {A} f : quiet (@fail A f).
Proof. intros w b w' H. discriminate. Qed.

Lemma quiet_bind {A B} (m : M A) (k : A -> M B) :
  quiet m -> (forall a, quiet (k a)) -> quiet (bind m k).
Proof.
  intros Hm Hk w b w' H. apply bind_Ok in H as (a & w1 & H1 & H2).
  apply Hm in H1 as (Ht1 & Ha1 & Hs1). apply Hk in H2 as (Ht2 & Ha2 & Hs2).
  repeat split; congruence.
Qed.

Lemma quiet_check c : quiet (check c).
Proof. destruct c; [apply quiet_ret | apply quiet_fail]. Qed.

Lemma quiet_valid {A} (o : option A) : quiet (valid o).
Proof. destruct o; [apply quiet_ret | apply quiet_fail]. Qed.

Lemma quiet_get_world : quiet get_world.
Proof. intros w a w' H. inversion H; subst. auto. Qed.

Lemma quiet_modify f :
  (forall w, trace (f w) = trace w /\ active_device (f w) = active_device w
             /\ syncs (f w) = syncs w) ->
  quiet (modify f).
Proof. intros Hf w a w' H. inversion H; subst. apply Hf. Qed.

Lemma quiet_cuda c : quiet (cuda cuda_fails c).
Proof.
  intros w a w' H. unfold cuda in H. destruct (cuda_fails c w); inversion H.
  subst. auto.
Qed.

Lemma quiet_on_heap f : quiet (on_heap f).
Proof.
  intros w a w' H. unfold on_heap in H.
  destruct (f (heap w)); inversion H; subst. auto.
Qed.

Lemma quiet_if {A} (b : bool) (m1 m2 : M A) :
  quiet m1 -> quiet m2 -> quiet (if b then m1 else m2).
Proof. destruct b; auto. Qed.

Local Ltac quiet_tac :=
  repeat lazymatch goal with
    | |- quiet (bind _ _) => apply quiet_bind; [|intros; cbv beta]
    | |- quiet (if ?b then _ else _) => destruct b
    | |- quiet (ret _) => apply quiet_ret
    | |- quiet (fail _) => apply quiet_fail
    | |- quiet (check _) => apply quiet_check
    | |- quiet (valid _) => apply quiet_valid
    | |- quiet get_world => apply quiet_get_world
    | |- quiet (cuda _ _) => apply quiet_cuda
    | |- quiet (on_heap _) => apply quiet_on_heap
    | |- quiet (modify _) => apply quiet_modify; intros; repeat split; reflexivity
    | |- quiet (match ?x with _ => _ end) => destruct x
    | |- quiet _ => solve [auto with quiet]
    end.

Lemma quiet_cudaGetDevice t : quiet (cudaGetDevice cuda_fails t).
Proof. unfold cudaGetDevice. quiet_tac. Qed.

Lemma quiet_cudaMalloc t n :
  quiet (cudaMalloc cuda_fails uninitialised t n).
Proof. unfold cudaMalloc. quiet_tac. Qed.

Lemma quiet_cudaFree p : quiet (cudaFree cuda_fails p).
Proof. unfold cudaFree. quiet_tac. Qed.

Lemma quiet_cudaDeviceCanAccessPeer a b :
  quiet (cudaDeviceCanAccessPeer cuda_fails can_access_peer a b).
Proof. unfold cudaDeviceCanAccessPeer. quiet_tac. Qed.

Lemma quiet_cudaDeviceEnablePeerAccess t p :
  quiet (cudaDeviceEnablePeerAccess cuda_fails t p).
Proof. unfold cudaDeviceEnablePeerAccess. quiet_tac. Qed.

Lemma quiet_cudaDeviceDisablePeerAccess t p :
  quiet (cudaDeviceDisablePeerAccess cuda_fails t p).
Proof. unfold cudaDeviceDisablePeerAccess. quiet_tac. Qed.

Lemma quiet_read p n : quiet (read p n).
Proof. unfold read. quiet_tac. Qed.

Lemma quiet_write p vals : quiet (write p vals).
Proof. unfold write. quiet_tac. Qed.

#[local] Hint Resolve quiet_read quiet_write : quiet.

Lemma quiet_caffe_gpu_set n alpha y : quiet (caffe_gpu_set n alpha y).
Proof. unfold caffe_gpu_set. quiet_tac. Qed.

Lemma quiet_get_sync p : quiet (get_sync p).
Proof. unfold get_sync. quiet_tac. Qed.

#[local] Hint Resolve quiet_get_sync : quiet.

Lemma cudaGetDevice_Ok t w d w' :
  cudaGetDevice cuda_fails t w = Ok (d, w') ->
  w' = w /\ d = active_device w t.
Proof.
  unfold cudaGetDevice, bind, cuda, get_world, ret.
  destruct (cuda_fails GetDevice w); intros H; inversion H. auto.
Qed.

Lemma cudaSetDevice_Ok t d w u w' :
  cudaSetDevice cuda_fails t d w = Ok (u, w') ->
  active_device w' t = d
  /\ trace w' = trace w ++ [EvSetDevice t d]
  /\ syncs w' = syncs w.
Proof.
  unfold cudaSetDevice, bind, cuda, modify, emit.
  destruct (cuda_fails (SetDevice d) w); intros H; inversion H; subst; simpl.
  rewrite Nat.eqb_refl. auto.
Qed.

(** *** The constructors and the destructor restore the active device *)

Lemma GPUParams_ctor_device thread root device w r w' :
  GPUParams_ctor cuda_fails uninitialised thread root device w = Ok (r, w') ->
  active_device w' thread = active_device w thread
  /\ trace w' = trace w ++ [EvSetDevice thread device;
                            EvSetDevice thread (active_device w thread)]
  /\ syncs w' = syncs w.
Proof.
  unfold GPUParams_ctor. intros H.
  apply bind_Ok in H as (initial & w1 & H1 & H).
  apply cudaGetDevice_Ok in H1 as (-> & ->).
  apply bind_Ok in H as ([] & w2 & H2 & H).
  apply cudaSetDevice_Ok in H2 as (_ & Ht2 & Hs2).
  apply bind_Ok in H as (data & w3 & H3 & H).
  apply quiet_cudaMalloc in H3 as (Ht3 & _ & Hs3).
  apply bind_Ok in H as ([] & w4 & H4 & H).
  apply quiet_on_heap in H4 as (Ht4 & _ & Hs4).
  apply bind_Ok in H as (diff & w5 & H5 & H).
  apply quiet_cudaMalloc in H5 as (Ht5 & _ & Hs5).
  apply bind_Ok in H as ([] & w6 & H6 & H).
  apply quiet_caffe_gpu_set in H6 as (Ht6 & _ & Hs6).
  apply bind_Ok in H as ([] & w7 & H7 & H).
  apply cudaSetDevice_Ok in H7 as (Ha7 & Ht7 & Hs7).
  inversion H; subst. split; [exact Ha7|]. split; [|congruence].
  rewrite Ht7, Ht6, Ht5, Ht4, Ht3, Ht2, <- app_assoc. reflexivity.
Qed.

Lemma alloc_parent_grads_device thread self size parent w pg w' :
  alloc_parent_grads cuda_fails can_access_peer uninitialised
    thread self size parent w = Ok (pg, w') ->
  exists ps, syncs w !! parent = Some ps
    /\ syncs w' = syncs w
    /\ trace w' = trace w
         ++ [EvSetDevice thread (device_id (param (solver_ ps)));
             EvSetDevice thread self].
Proof.
  unfold alloc_parent_grads. intros H.
  apply bind_Ok in H as (ps & w1 & H1 & H).
  assert (Hps : syncs w !! parent = Some ps /\ w1 = w).
  { unfold get_sync, bind, get_world, valid in H1.
    destruct (syncs w !! parent); inversion H1; subst; auto. }
  destruct Hps as (Hps & ->). clear H1.
  apply bind_Ok in H as (access & w2 & H2 & H).
  apply quiet_cudaDeviceCanAccessPeer in H2 as (Ht2 & _ & Hs2).
  apply bind_Ok in H as ([] & w3 & H3 & H).
  assert (Hq3 : trace w3 = trace w2 /\ syncs w3 = syncs w2).
  { destruct (negb (access =? 0)).
    - apply quiet_cudaDeviceEnablePeerAccess in H3 as (? & _ & ?). auto.
    - inversion H3; subst. auto. }
  destruct Hq3 as (Ht3 & Hs3). clear H3.
  apply bind_Ok in H as ([] & w4 & H4 & H).
  apply cudaSetDevice_Ok in H4 as (_ & Ht4 & Hs4).
  apply bind_Ok in H as (p & w5 & H5 & H).
  apply quiet_cudaMalloc in H5 as (Ht5 & _ & Hs5).
  apply bind_Ok in H as ([] & w6 & H6 & H).
  apply cudaSetDevice_Ok in H6 as (_ & Ht6 & Hs6).
  inversion H; subst. exists ps. split; [exact Hps|]. split; [congruence|].
  rewrite Ht6, Ht5, Ht4, Ht3, Ht2, <- app_assoc. reflexivity.
Qed.

Lemma P2PSync_ctor_device thread root parent prm w this w' :
  P2PSync_ctor cuda_fails can_access_peer uninitialised new_Solver
    thread root parent prm w = Ok (this, w') ->
  active_device w' thread = active_device w thread
  /\ match parent with
     | None =>
         trace w' = trace w
           ++ [EvSetDevice thread (device_id prm);
               EvSetDevice thread (active_device w thread);
               EvSetDevice thread (device_id prm);
               EvSetDevice thread (active_device w thread)]
     | Some p =>
         exists before ps,
           syncs w' !! p = Some ps
           /\ trace w' = before
                ++ [EvSetDevice thread (device_id (param (solver_ ps)));
                    EvSetDevice thread (device_id prm);
                    EvSetDevice thread (active_device w thread)]
     end.
Proof.
  unfold P2PSync_ctor. intros H.
  apply bind_Ok in H as ([[size data] diff] & w1 & H1 & H).
  apply GPUParams_ctor_device in H1 as (Ha1 & Ht1 & Hs1).
  apply bind_Ok in H as (initial & w2 & H2 & H).
  apply cudaGetDevice_Ok in H2 as (-> & ->).
  apply bind_Ok in H as ([] & w3 & H3 & H).
  apply cudaSetDevice_Ok in H3 as (_ & Ht3 & Hs3).
  apply bind_Ok in H as (solver & w4 & H4 & H).
  apply bind_Ok in H as ([] & w5 & H5 & H).
  apply quiet_on_heap in H5 as (Ht5 & _ & Hs5).
  apply bind_Ok in H as (pg & w6 & H6 & H).
  apply bind_Ok in H as ([] & w7 & H7 & H).
  apply cudaSetDevice_Ok in H7 as (Ha7 & Ht7 & Hs7).
  apply bind_Ok in H as (w8 & w9 & H8 & H).
  inversion H8; subst w8 w9; clear H8.
  apply bind_Ok in H as ([] & w10 & H10 & H).
  inversion H10; subst w10; clear H10.
  inversion H; subst; clear H. simpl.
  split; [congruence|].
  destruct parent as [p|].
  - apply bind_Ok in H6 as (pg' & w6' & H6 & Hr).
    inversion Hr; subst; clear Hr.
    apply alloc_parent_grads_device in H6 as (ps & Hps & Hs6 & Ht6).
    exists (trace w5), ps. split.
    + rewrite Hs7, Hs6. apply lookup_app_l_Some. exact Hps.
    + rewrite Ht7, Ht6, <- app_assoc, Ha1. reflexivity.
  - inversion H4; subst w4; clear H4.
    inversion H6; subst w6; clear H6.
    rewrite Ht7, Ht5, Ht3, Ht1, Ha1, <- !app_assoc. reflexivity.
Qed.

Lemma P2PSync_dtor_device thread this w u w' :
  P2PSync_dtor cuda_fails can_access_peer thread this w = Ok (u, w') ->
  active_device w' thread = active_device w thread
  /\ exists s, syncs w !! this = Some s
       /\ trace w' = trace w
            ++ [EvSetDevice thread (device_id (param (solver_ s)));
                EvSetDevice thread (active_device w thread)].
Proof.
  unfold P2PSync_dtor. intros H.
  apply bind_Ok in H as (s & w1 & H1 & H).
  assert (Hs : syncs w !! this = Some s /\ w1 = w).
  { unfold get_sync, bind, get_world, valid in H1.
    destruct (syncs w !! this); inversion H1; subst; auto. }
  destruct Hs as (Hs & ->). clear H1.
  apply bind_Ok in H as (initial & w2 & H2 & H).
  apply cudaGetDevice_Ok in H2 as (-> & ->).
  apply bind_Ok in H as ([] & w3 & H3 & H).
  apply cudaSetDevice_Ok in H3 as (_ & Ht3 & _).
  apply bind_Ok in H as ([] & w4 & H4 & H).
  assert (Ht4 : trace w4 = trace w3).
  { destruct (parent_ s) as [p|].
    - apply bind_Ok in H4 as (pg & wa & Ha & H4).
      apply quiet_valid in Ha as (Hta & _).
      apply bind_Ok in H4 as ([] & wb & Hb & H4).
      apply quiet_cudaFree in Hb as (Htb & _).
      apply bind_Ok in H4 as (ps & wc & Hc & H4).
      apply quiet_get_sync in Hc as (Htc & _).
      apply bind_Ok in H4 as (access & wd & Hd & H4).
      apply quiet_cudaDeviceCanAccessPeer in Hd as (Htd & _).
      destruct (negb (access =? 0)).
      + apply quiet_cudaDeviceDisablePeerAccess in H4 as (Hte & _). congruence.
      + inversion H4; subst. congruence.
    - inversion H4; subst. reflexivity. }
  apply bind_Ok in H as ([] & w5 & H5 & H).
  apply cudaSetDevice_Ok in H5 as (Ha5 & Ht5 & _).
  apply bind_Ok in H as ([] & w6 & H6 & H).
  apply quiet_cudaFree in H6 as (Ht6 & Ha6 & _).
  apply quiet_cudaFree in H as (Ht7 & Ha7 & _).
  split; [congruence|]. exists s. split; [exact Hs|].
  rewrite Ht7, Ht6, Ht5, Ht4, Ht3, <- app_assoc. reflexivity.
Qed.

(** C9.  When the [GPUParams] constructor, the [P2PSync] constructor or the
    [P2PSync] destructor returns, the calling thread's active device is the
    one it was on entry.  In between the thread is switched: to the mirror's
    device by the [GPUParams] constructor; to the worker's own device and,
    for a worker with a parent, to the parent's device and back by the
    [P2PSync] constructor; to the worker's own device by the destructor.  The
    last switch of each is back to the device on entry. *)
Theorem constructors_restore_device (thread : nat) (w w' : World) :
  (forall root device r,
     GPUParams_ctor cuda_fails uninitialised thread root device w = Ok (r, w') ->
     active_device w' thread = active_device w thread
     /\ trace w' = trace w ++ [EvSetDevice thread device;
                               EvSetDevice thread (active_device w thread)])
  /\ (forall root parent prm this,
     P2PSync_ctor cuda_fails can_access_peer uninitialised new_Solver
       thread root parent prm w = Ok (this, w') ->
     active_device w' thread = active_device w thread
     /\ match parent with
        | None =>
            trace w' = trace w
              ++ [EvSetDevice thread (device_id prm);
                  EvSetDevice thread (active_device w thread);
                  EvSetDevice thread (device_id prm);
                  EvSetDevice thread (active_device w thread)]
        | Some p =>
            exists before ps,
              syncs w' !! p = Some ps
              /\ trace w' = before
                   ++ [EvSetDevice thread (device_id (param (solver_ ps)));
                       EvSetDevice thread (device_id prm);
                       EvSetDevice thread (active_device w thread)]
        end)
  /\ (forall this,
     P2PSync_dtor cuda_fails can_access_peer thread this w = Ok (tt, w') ->
     active_device w' thread = active_device w thread
     /\ exists s, syncs w !! this = Some s
          /\ trace w' = trace w
               ++ [EvSetDevice thread (device_id (param (solver_ s)));
                   EvSetDevice thread (active_device w thread)]).
Proof.
  split; [|split].
  - intros root device r H.
    apply GPUParams_ctor_device in H as (Ha & Ht & _). auto.
  - intros root parent prm this H. apply P2PSync_ctor_device in H. exact H.
  - intros this H. apply P2PSync_dtor_device in H. exact H.
Qed.

(** *** What the queue and stream calls do *)

Lemma get_sync_Ok p w s w' :
  get_sync p w = Ok (s, w') -> w' = w /\ syncs w !! p = Some s.
Proof.
  unfold get_sync, bind, get_world, valid.
  destruct (syncs w !! p); intros H; inversion H; subst; auto.
Qed.

Lemma check_Ok c w u w' : check c w = Ok (u, w') -> w' = w /\ c = true.
Proof. destruct c; intros H; inversion H; auto. Qed.

Lemma valid_Ok {A} (o : option A) w a w' :
  valid o w = Ok (a, w') -> w' = w /\ o = Some a.
Proof. destruct o; intros H; inversion H; auto. Qed.

Lemma cuda_Ok c w u w' : cuda cuda_fails c w = Ok (u, w') -> w' = w.
Proof. unfold cuda. destruct (cuda_fails c w); intros H; inversion H; auto. Qed.

Lemma queue_pop_Ok self w token w' :
  queue_pop self w = Ok (token, w') ->
  exists s q, syncs w !! self = Some s /\ queue_ s = token :: q
    /\ w' = with_trace (with_syncs w (<[self := set_queue s q]> (syncs w)))
              (trace w ++ [EvQueuePop self token]).
Proof.
  unfold queue_pop. intros H.
  apply bind_Ok in H as (s & w1 & H1 & H).
  apply get_sync_Ok in H1 as (-> & Hs).
  destruct (queue_ s) as [|t q] eqn:Hq; [discriminate|].
  inversion H; subst. eauto.
Qed.

Lemma queue_push_Ok target token w u w' :
  queue_push target token w = Ok (u, w') ->
  exists s, syncs w !! target = Some s
    /\ w' = with_trace
              (with_syncs w
                 (<[target := set_queue s (queue_ s ++ [token])]> (syncs w)))
              (trace w ++ [EvQueuePush target token]).
Proof.
  unfold queue_push. intros H.
  apply bind_Ok in H as (s & w1 & H1 & H).
  apply get_sync_Ok in H1 as (-> & Hs).
  inversion H; subst. eauto.
Qed.

Lemma cudaMemcpyAsync_Ok dst src n w u w' :
  cudaMemcpyAsync cuda_fails dst src n w = Ok (u, w') ->
  w' = with_trace (with_default_stream w (default_stream w ++ [(dst, src, n)]))
         (trace w ++ [EvMemcpyAsync dst src n]).
Proof.
  unfold cudaMemcpyAsync. intros H.
  apply bind_Ok in H as ([] & w1 & H1 & H). apply cuda_Ok in H1 as ->.
  inversion H; subst. reflexivity.
Qed.

Lemma cudaStreamSynchronize_Ok w u w' :
  cudaStreamSynchronize cuda_fails w = Ok (u, w') ->
  exists m, do_copies (default_stream w) (mem (heap w)) = Some m
    /\ w' = with_trace (with_default_stream (with_mem w m) [])
              (trace w ++ [EvStreamSynchronize]).
Proof.
  unfold cudaStreamSynchronize. intros H.
  apply bind_Ok in H as ([] & w1 & H1 & H). apply cuda_Ok in H1 as ->.
  apply bind_Ok in H as (w2 & w3 & H2 & H). inversion H2; subst w2 w3; clear H2.
  apply bind_Ok in H as (m & w4 & H4 & H). apply valid_Ok in H4 as (-> & Hm).
  inversion H; subst. eauto.
Qed.

Lemma debug_device_Ok t this w d w' :
  debug_device DEBUG cuda_fails t this w = Ok (d, w') -> w' = w.
Proof.
  unfold debug_device. destruct DEBUG; intros H.
  - apply bind_Ok in H as (d' & w1 & H1 & H).
    apply cudaGetDevice_Ok in H1 as (-> & _).
    apply bind_Ok in H as ([] & w2 & H2 & H). apply check_Ok in H2 as (-> & _).
    inversion H; auto.
  - inversion H; auto.
Qed.

Lemma debug_pointer_Ok p e w u w' :
  debug_pointer DEBUG cuda_fails p e w = Ok (u, w') -> w' = w.
Proof.
  unfold debug_pointer. destruct DEBUG; intros H.
  - apply bind_Ok in H as (d' & w1 & H1 & H).
    unfold cudaPointerGetAttributes in H1.
    apply bind_Ok in H1 as ([] & w2 & H2 & H1). apply cuda_Ok in H2 as ->.
    apply bind_Ok in H1 as (w3 & w4 & H3 & H1).
    inversion H3; subst w3 w4; clear H3.
    destruct (mem (heap w) !! block p) as [[a|]|]; inversion H1; subst.
    apply check_Ok in H as (-> & _). reflexivity.
  - inversion H; auto.
Qed.

(** *** The order of events in [on_start] *)

(** The parameter buffer of the worker at [c]. *)
Definition data_of (ss : list P2PSync) (c : nat) : pointer :=
  match ss !! c with
  | Some s => data_ s
  | None => mkPointer 0 0
  end.


Lemma data_of_set_queue ss self s q c :
  ss !! self = Some s ->
  data_of (<[self := set_queue s q]> ss) c = data_of ss c.
Proof.
  intros Hs. unfold data_of. destruct (decide (self = c)) as [->|Hne].
  - rewrite list_lookup_insert_eq by (apply lookup_lt_is_Some; eauto).
    rewrite Hs. reflexivity.
  - rewrite list_lookup_insert_ne by exact Hne. reflexivity.
Qed.

Lemma send_loop_Ok this device : forall cs w u w',
  for_each cs (send_params DEBUG cuda_fails this device) w = Ok (u, w') ->
  syncs w' = syncs w /\ heap w' = heap w
  /\ trace w' = trace w
       ++ map (fun c => EvMemcpyAsync (data_of (syncs w) c) (data_ this)
                          (size_ this)) cs.
Proof.
  induction cs as [|c cs IH]; intros w u w' H; simpl in H.
  - inversion H; subst. rewrite app_nil_r. auto.
  - apply bind_Ok in H as ([] & w1 & H1 & H). unfold send_params in H1.
    apply bind_Ok in H1 as (child & w2 & H2 & H1).
    apply get_sync_Ok in H2 as (-> & Hc).
    apply bind_Ok in H1 as ([] & w3 & H3 & H1).
    apply debug_pointer_Ok in H3 as ->.
    apply bind_Ok in H1 as ([] & w4 & H4 & H1).
    apply debug_pointer_Ok in H4 as ->.
    apply cudaMemcpyAsync_Ok in H1 as ->.
    apply IH in H as (Hs & Hh & Ht). simpl in *.
    split; [exact Hs|]. split; [exact Hh|].
    rewrite Ht, <- app_assoc. simpl. unfold data_of at 2. rewrite Hc.
    reflexivity.
Qed.

Lemma push_loop_Ok self : forall cs w u w',
  for_each cs (fun c => queue_push c self) w = Ok (u, w') ->
  heap w' = heap w
  /\ trace w' = trace w ++ map (fun c => EvQueuePush c self) cs.
Proof.
  induction cs as [|c cs IH]; intros w u w' H; simpl in H.
  - inversion H; subst. rewrite app_nil_r. auto.
  - apply bind_Ok in H as ([] & w1 & H1 & H).
    apply queue_push_Ok in H1 as (s & Hs & ->).
    apply IH in H as (Hh & Ht). simpl in *. split; [exact Hh|].
    rewrite Ht, <- app_assoc. reflexivity.
Qed.



(** *** Calls that never wait *)

Definition nonblocking {A} (m : M A) : Prop := forall w, m w <> Blocked.

Lemma nonblocking_ret {A} (a : A) : nonblocking (ret a).
Proof. intros w. discriminate. Qed.

Lemma nonblocking_fail {A} f : nonblocking (@fail A f).
Proof. intros w. discriminate. Qed.

Lemma nonblocking_bind {A B} (m : M A) (k : A -> M B) :
  nonblocking m -> (forall a, nonblocking (k a)) -> nonblocking (bind m k).
Proof.
  intros Hm Hk w. unfold bind. destruct (m w) as [[a w1]|f|] eqn:E.
  - apply Hk.
  - discriminate.
  - exfalso. eapply Hm, E.
Qed.

Lemma nonblocking_if {A} (b : bool) (m1 m2 : M A) :
  nonblocking m1 -> nonblocking m2 -> nonblocking (if b then m1 else m2).
Proof. destruct b; auto. Qed.

Lemma nonblocking_check c : nonblocking (check c).
Proof. destruct c; [apply nonblocking_ret | apply nonblocking_fail]. Qed.

Lemma nonblocking_valid {A} (o : option A) : nonblocking (valid o).
Proof. destruct o; [apply nonblocking_ret | apply nonblocking_fail]. Qed.

Lemma nonblocking_get_world : nonblocking get_world.
Proof. intros w. discriminate. Qed.

Lemma nonblocking_modify f : nonblocking (modify f).
Proof. intros w. discriminate. Qed.

Lemma nonblocking_cuda c : nonblocking (cuda cuda_fails c).
Proof. intros w. unfold cuda. destruct (cuda_fails c w); discriminate. Qed.

Local Ltac nonblocking_tac :=
  repeat lazymatch goal with
    | |- nonblocking (bind _ _) => apply nonblocking_bind; [|intros; cbv beta]
    | |- nonblocking (if ?b then _ else _) => destruct b
    | |- nonblocking (ret _) => apply nonblocking_ret
    | |- nonblocking (fail _) => apply nonblocking_fail
    | |- nonblocking (check _) => apply nonblocking_check
    | |- nonblocking (valid _) => apply nonblocking_valid
    | |- nonblocking get_world => apply nonblocking_get_world
    | |- nonblocking (cuda _ _) => apply nonblocking_cuda
    | |- nonblocking (modify _) => apply nonblocking_modify
    | |- nonblocking (match ?x with _ => _ end) => destruct x
    | |- nonblocking _ => solve [auto with nonblocking]
    end.

Lemma nonblocking_get_sync p : nonblocking (get_sync p).
Proof. unfold get_sync. nonblocking_tac. Qed.

Lemma nonblocking_debug_device t this :
  nonblocking (debug_device DEBUG cuda_fails t this).
Proof. unfold debug_device, cudaGetDevice. nonblocking_tac. Qed.

Lemma nonblocking_debug_pointer p e :
  nonblocking (debug_pointer DEBUG cuda_fails p e).
Proof. unfold debug_pointer, cudaPointerGetAttributes. nonblocking_tac. Qed.

Lemma nonblocking_caffe_gpu_add n a b y : nonblocking (caffe_gpu_add n a b y).
Proof. unfold caffe_gpu_add, read, write. nonblocking_tac. Qed.

#[local] Hint Resolve nonblocking_get_sync nonblocking_debug_device
  nonblocking_debug_pointer nonblocking_caffe_gpu_add : nonblocking.

Lemma quiet_debug_device t this : quiet (debug_device DEBUG cuda_fails t this).
Proof.
  intros w d w' H. apply debug_device_Ok in H as ->. auto.
Qed.

Lemma quiet_debug_pointer p e : quiet (debug_pointer DEBUG cuda_fails p e).
Proof.
  intros w d w' H. apply debug_pointer_Ok in H as ->. auto.
Qed.

Lemma quiet_caffe_gpu_add n a b y : quiet (caffe_gpu_add n a b y).
Proof. unfold caffe_gpu_add. quiet_tac. Qed.

#[local] Hint Resolve quiet_debug_device quiet_debug_pointer
  quiet_caffe_gpu_add : quiet.

(** *** Tokens from an unexpected sender *)

(** What follows the [pop] in one turn of the reduction loop. *)
Definition add_child (this : P2PSync) (device : Z) (child : nat) : M unit :=
  let! child_sync := get_sync child in
  let dst := diff_ this in
  let! _ := if DEBUG
            then check (existsb (Nat.eqb child) (children_ this))
            else ret tt in
  let! src := valid (parent_grads_ child_sync) in
  let! _ := debug_pointer DEBUG cuda_fails src device in
  let! _ := debug_pointer DEBUG cuda_fails dst device in
  caffe_gpu_add (size_ this) src dst dst.

Lemma reduce_child_unfold self device :
  reduce_child DEBUG cuda_fails self device
  = (let! this := get_sync self in
     let! child := queue_pop self in
     add_child this device child).
Proof. reflexivity. Qed.

Lemma nonblocking_add_child this device child :
  nonblocking (add_child this device child).
Proof. unfold add_child. nonblocking_tac. Qed.

Lemma quiet_add_child this device child : quiet (add_child this device child).
Proof. unfold add_child. quiet_tac. Qed.

Lemma queue_pop_head self this token q w :
  syncs w !! self = Some this ->
  queue_ this = token :: q ->
  queue_pop self w
  = Ok (token,
        with_trace (with_syncs w (<[self := set_queue this q]> (syncs w)))
          (trace w ++ [EvQueuePop self token])).
Proof.
  intros Hs Hq. unfold queue_pop, bind, get_sync, bind, get_world, valid.
  rewrite Hs. unfold ret. rewrite Hq. reflexivity.
Qed.

Lemma get_sync_Some p s w : syncs w !! p = Some s -> get_sync p w = Ok (s, w).
Proof.
  intros Hs. unfold get_sync, bind, get_world, valid. rewrite Hs. reflexivity.
Qed.

(** One turn of the loop with a token waiting takes the token and goes on
    to the addition. *)
Lemma reduce_child_head self device this token q w :
  syncs w !! self = Some this ->
  queue_ this = token :: q ->
  reduce_child DEBUG cuda_fails self device w
  = add_child this device token
      (with_trace (with_syncs w (<[self := set_queue this q]> (syncs w)))
         (trace w ++ [EvQueuePop self token])).
Proof.
  intros Hs Hq. rewrite reduce_child_unfold. unfold bind at 1.
  rewrite (get_sync_Some _ _ _ Hs). unfold bind at 1.
  rewrite (queue_pop_head _ _ _ _ _ Hs Hq). reflexivity.
Qed.

(** Such a turn aborts, or it returns with that token taken from the queue
    and the objects otherwise as they were. *)
Lemma reduce_child_cases self device this token q w :
  syncs w !! self = Some this ->
  queue_ this = token :: q ->
  (exists f, reduce_child DEBUG cuda_fails self device w = Fatal f)
  \/ (exists w1, reduce_child DEBUG cuda_fails self device w = Ok (tt, w1)
        /\ syncs w1 = <[self := set_queue this q]> (syncs w)).
Proof.
  intros Hs Hq. rewrite (reduce_child_head _ _ _ _ _ _ Hs Hq).
  match goal with |- context [add_child this device token ?w1] =>
    destruct (add_child this device token w1) as [[[] w2]|f|] eqn:E
  end.
  - right. eexists. split; [reflexivity|].
    apply quiet_add_child in E as (_ & _ & E). exact E.
  - left. eauto.
  - exfalso. eapply nonblocking_add_child, E.
Qed.

(** With [DEBUG], a token that does not name a child aborts the turn. *)
Lemma reduce_child_not_a_child self device this token q w :
  DEBUG = true ->
  syncs w !! self = Some this ->
  queue_ this = token :: q ->
  ~ In token (children_ this) ->
  exists f, reduce_child DEBUG cuda_fails self device w = Fatal f.
Proof.
  intros HD Hs Hq Hnot. rewrite (reduce_child_head _ _ _ _ _ _ Hs Hq).
  unfold add_child, bind at 1.
  match goal with |- context [get_sync token ?w1] =>
    destruct (get_sync token w1) as [[cs w2]|f|] eqn:E
  end; [|eauto|exfalso; eapply nonblocking_get_sync, E].
  rewrite HD. unfold bind at 1.
  replace (existsb (Nat.eqb token) (children_ this)) with false; [simpl; eauto|].
  symmetry. apply not_true_is_false. intros Hex.
  apply existsb_exists in Hex as (c & Hin & Heq).
  apply Nat.eqb_eq in Heq. subst c. contradiction.
Qed.

Lemma reduce_loop_not_a_child self device token rest :
  DEBUG = true ->
  forall good n this w,
    syncs w !! self = Some this ->
    queue_ this = good ++ token :: rest ->
    (length good < n)%nat ->
    ~ In token (children_ this) ->
    exists f, repeat_n n (reduce_child DEBUG cuda_fails self device) w = Fatal f.
Proof.
  intros HD. induction good as [|g good IH]; intros n this w Hs Hq Hn Hnot.
  - destruct n as [|n]; [simpl in Hn; lia|]. simpl. unfold bind.
    destruct (reduce_child_not_a_child self device this token rest w HD Hs Hq Hnot)
      as (f & ->). eauto.
  - destruct n as [|n]; [simpl in Hn; lia|]. simpl in Hn. simpl. unfold bind.
    destruct (reduce_child_cases self device this g (good ++ token :: rest) w Hs Hq)
      as [(f & ->)|(w1 & -> & Hs1)]; [eauto|].
    apply (IH n (set_queue this (good ++ token :: rest)) w1).
    + rewrite Hs1. apply list_lookup_insert_eq. apply lookup_lt_is_Some. eauto.
    + reflexivity.
    + lia.
    + exact Hnot.
Qed.

Lemma on_start_unexpected_token thread self this p token q w :
  syncs w !! self = Some this ->
  parent_ this = Some p ->
  queue_ this = token :: q ->
  token <> p ->
  exists f, on_start DEBUG cuda_fails thread self w = Fatal f.
Proof.
  intros Hs Hp Hq Hne. unfold on_start, bind at 1.
  rewrite (get_sync_Some _ _ _ Hs). unfold bind at 1.
  destruct (debug_device DEBUG cuda_fails thread this w) as [[d w1]|f|] eqn:Hd;
    [|eauto|exfalso; eapply nonblocking_debug_device, Hd].
  apply debug_device_Ok in Hd as ->. rewrite Hp.
  unfold bind at 1. unfold bind at 1.
  rewrite (queue_pop_head _ _ _ _ _ Hs Hq).
  replace (token =? p)%nat with false by (symmetry; apply Nat.eqb_neq; exact Hne).
  simpl. eauto.
Qed.

(** A worker with a parent and an empty queue does not get past the wait:
    the call does not return. *)
Lemma on_start_waits_for_parent thread self this p w :
  syncs w !! self = Some this ->
  parent_ this = Some p ->
  queue_ this = [] ->
  on_start DEBUG cuda_fails thread self w = Blocked
  \/ exists f, on_start DEBUG cuda_fails thread self w = Fatal f.
Proof.
  intros Hs Hp Hq.
  destruct (on_start DEBUG cuda_fails thread self w) as [[[] w']|f|] eqn:H;
    [exfalso | right; eauto | left; reflexivity].
  unfold on_start, bind at 1 in H.
  rewrite (get_sync_Some _ _ _ Hs) in H. unfold bind at 1 in H.
  destruct (debug_device DEBUG cuda_fails thread this w) as [[d w1]|f|] eqn:Hd;
    try discriminate.
  apply debug_device_Ok in Hd as ->. rewrite Hp in H.
  unfold bind at 1 in H. unfold bind at 1 in H.
  unfold queue_pop, bind at 1 in H.
  rewrite (get_sync_Some _ _ _ Hs), Hq in H. discriminate.
Qed.

Lemma on_gradients_ready_unexpected_token thread self this good token rest w :
  DEBUG = true ->
  syncs w !! self = Some this ->
  queue_ this = good ++ token :: rest ->
  (length good < length (children_ this))%nat ->
  ~ In token (children_ this) ->
  exists f, on_gradients_ready DEBUG cuda_fails thread self w = Fatal f.
Proof.
  intros HD Hs Hq Hn Hnot. unfold on_gradients_ready, bind at 1.
  rewrite (get_sync_Some _ _ _ Hs). unfold bind at 1.
  destruct (debug_device DEBUG cuda_fails thread this w) as [[d w1]|f|] eqn:Hd;
    [|eauto|exfalso; eapply nonblocking_debug_device, Hd].
  apply debug_device_Ok in Hd as ->. unfold bind at 1.
  destruct (reduce_loop_not_a_child self d token rest HD good
              (length (children_ this)) this w Hs Hq Hn Hnot) as (f & ->).
  eauto.
Qed.

(** C8 (as amended).  In [on_start], a token taken from the queue that is
    not the worker's parent aborts the run.  In [on_gradients_ready], when
    the file is compiled with [DEBUG], a token taken from the queue that
    names no child of the worker aborts the run. *)
Theorem unexpected_token_is_fatal (thread self : nat) (this : P2PSync)
    (w : World) :
  syncs w !! self = Some this ->
  (forall p token q,
     parent_ this = Some p -> queue_ this = token :: q -> token <> p ->
     exists f, on_start DEBUG cuda_fails thread self w = Fatal f)
  /\ (DEBUG = true ->
      forall good token rest,
        queue_ this = good ++ token :: rest ->
        (length good < length (children_ this))%nat ->
        ~ In token (children_ this) ->
        exists f, on_gradients_ready DEBUG cuda_fails thread self w = Fatal f).
Proof.
  intros Hs. split.
  - intros p token q Hp Hq Hne.
    eapply on_start_unexpected_token; eauto.
  - intros HD good token rest Hq Hn Hnot.
    eapply on_gradients_ready_unexpected_token; eauto.
Qed.

(** *** What the pieces of [on_gradients_ready] do *)

Lemma read_Ok p n w v w' :
  read p n w = Ok (v, w') -> w' = w /\ mem_read (mem (heap w)) p n = Some v.
Proof.
  unfold read. intros H. apply bind_Ok in H as (w1 & w2 & H1 & H).
  inversion H1; subst w1 w2. apply valid_Ok in H. exact H.
Qed.

Lemma write_Ok p vals w u w' :
  write p vals w = Ok (u, w') ->
  exists m', mem_write (mem (heap w)) p vals = Some m' /\ w' = with_mem w m'.
Proof.
  unfold write. intros H. apply bind_Ok in H as (w1 & w2 & H1 & H).
  inversion H1; subst w1 w2; clear H1.
  apply bind_Ok in H as (m' & w3 & H3 & H). apply valid_Ok in H3 as (-> & Hm).
  inversion H; subst. eauto.
Qed.

Lemma when_DEBUG_Ok (m : M unit) w u w' :
  (forall w u w', m w = Ok (u, w') -> w' = w) ->
  (if DEBUG then m else ret tt) w = Ok (u, w') -> w' = w.
Proof.
  intros Hm. destruct DEBUG; [apply Hm|]. intros H. inversion H; auto.
Qed.

Lemma add_child_Ok this device c w u w' :
  add_child this device c w = Ok (u, w') ->
  exists cs src vs vd m',
    syncs w !! c = Some cs
    /\ parent_grads_ cs = Some src
    /\ mem_read (mem (heap w)) src (size_ this) = Some vs
    /\ mem_read (mem (heap w)) (diff_ this) (size_ this) = Some vd
    /\ mem_write (mem (heap w)) (diff_ this) (zip_with Dtype_add vs vd) = Some m'
    /\ w' = with_mem w m'.
Proof.
  unfold add_child. intros H.
  apply bind_Ok in H as (cs & w1 & H1 & H).
  apply get_sync_Ok in H1 as (-> & Hcs).
  apply bind_Ok in H as ([] & w2 & H2 & H).
  apply when_DEBUG_Ok in H2 as ->;
    [|intros ? ? ? Hc; apply check_Ok in Hc as (-> & _); reflexivity].
  apply bind_Ok in H as (src & w3 & H3 & H). apply valid_Ok in H3 as (-> & Hsrc).
  apply bind_Ok in H as ([] & w4 & H4 & H). apply debug_pointer_Ok in H4 as ->.
  apply bind_Ok in H as ([] & w5 & H5 & H). apply debug_pointer_Ok in H5 as ->.
  unfold caffe_gpu_add in H.
  apply bind_Ok in H as (vs & w6 & H6 & H). apply read_Ok in H6 as (-> & Hvs).
  apply bind_Ok in H as (vd & w7 & H7 & H). apply read_Ok in H7 as (-> & Hvd).
  apply write_Ok in H as (m' & Hm' & ->).
  exists cs, src, vs, vd, m'. repeat split; auto.
Qed.

Lemma send_or_scale_Ok self device this w u w' :
  syncs w !! self = Some this ->
  default_stream w = [] ->
  send_or_scale DEBUG cuda_fails self device w = Ok (u, w') ->
  solver_count w' = solver_count w
  /\ default_stream w' = []
  /\ match parent_ this with
     | Some p =>
         exists dst vals m' ps,
           parent_grads_ this = Some dst
           /\ mem_read (mem (heap w)) (diff_ this) (size_ this) = Some vals
           /\ mem_write (mem (heap w)) dst vals = Some m'
           /\ syncs w !! p = Some ps
           /\ syncs w' = <[p := set_queue ps (queue_ ps ++ [self])]> (syncs w)
           /\ mem (heap w') = m'
     | None =>
         exists vx m',
           mem_read (mem (heap w)) (diff_ this) (size_ this) = Some vx
           /\ mem_write (mem (heap w)) (diff_ this)
                (map (Dtype_mul (Dtype_of_double (double_reciprocal (solver_count w)))) vx) = Some m'
           /\ syncs w' = syncs w
           /\ mem (heap w') = m'
     end.
Proof.
  intros Hs Hstream H. unfold send_or_scale in H.
  apply bind_Ok in H as (this' & w1 & H1 & H).
  apply get_sync_Ok in H1 as (-> & Hs'). rewrite Hs in Hs'.
  inversion Hs'; subst this'; clear Hs'.
  destruct (parent_ this) as [p|].
  - apply bind_Ok in H as (dst & w2 & H2 & H). apply valid_Ok in H2 as (-> & Hdst).
    apply bind_Ok in H as ([] & w3 & H3 & H). apply debug_pointer_Ok in H3 as ->.
    apply bind_Ok in H as ([] & w4 & H4 & H).
    apply when_DEBUG_Ok in H4 as ->.
    2:{ intros wa ua wb Hb. apply bind_Ok in Hb as (ps & wc & Hc & Hb).
        apply get_sync_Ok in Hc as (-> & _).
        apply debug_pointer_Ok in Hb. exact Hb. }
    apply bind_Ok in H as ([] & w5 & H5 & H).
    apply cudaMemcpyAsync_Ok in H5 as ->.
    apply bind_Ok in H as ([] & w6 & H6 & H).
    apply cudaStreamSynchronize_Ok in H6 as (m' & Hcopies & ->).
    apply queue_push_Ok in H as (ps & Hps & ->). simpl in *.
    rewrite Hstream in Hcopies. simpl in Hcopies.
    destruct (mem_read (mem (heap w)) (diff_ this) (size_ this)) as [vals|]
      eqn:Hvals; [|discriminate].
    destruct (mem_write (mem (heap w)) dst vals) as [m1|] eqn:Hm1;
      [|discriminate].
    inversion Hcopies; subst m1; clear Hcopies.
    split; [reflexivity|]. split; [reflexivity|].
    exists dst, vals, m', ps. repeat split; auto.
  - apply bind_Ok in H as (w1 & w2 & H1 & H). inversion H1; subst w1 w2; clear H1.
    unfold caffe_gpu_scal in H.
    apply bind_Ok in H as (vx & w3 & H3 & H). apply read_Ok in H3 as (-> & Hvx).
    apply write_Ok in H as (m' & Hm' & ->). simpl.
    split; [reflexivity|]. split; [exact Hstream|].
    exists vx, m'. repeat split; auto.
Qed.

End RuntimeFacts.

(** *** The reduction phase over the whole tree *)

(** The [n] elements at [p] ([[]] when they are not all there). *)
Definition buffer (w : World) (p : pointer) (n : Z) : list Dtype :=
  default [] (mem_read (mem (heap w)) p n).

(** The gradient buffer [diff_] of worker [i], and its staging buffer
    [parent_grads_]. *)
Definition gradient (w : World) (i : nat) : list Dtype :=
  match syncs w !! i with
  | Some s => buffer w (diff_ s) (size_ s)
  | None => []
  end.

Definition staged (w : World) (i : nat) : list Dtype :=
  match syncs w !! i with
  | Some s =>
      match parent_grads_ s with
      | Some g => buffer w g (size_ s)
      | None => []
      end
  | None => []
  end.

(** The workers that can be reached from the root through [children_]. *)
Inductive reachable (ss : list P2PSync) : nat -> Prop :=
| reach_root : reachable ss 0
| reach_child p s c :
    reachable ss p -> ss !! p = Some s -> c ∈ children_ s -> reachable ss c.

(** The allocations that hold the gradient and staging buffers of a
    worker. *)
Definition buffer_blocks (s : P2PSync) : list nat :=
  block (diff_ s)
  :: match parent_grads_ s with
     | Some g => [block g]
     | None => []
     end.

(** The workers of [w] as [P2PSync::run] builds them, at the start of the
    reduction phase of a step: worker 0 is the root; the [children_] of a
    worker are exactly the workers whose [parent_] it is; every worker hangs
    under the root; all mirrors have [size] elements; the gradient and
    staging buffers are [size] elements in allocations of their own; and no
    token or copy is pending. *)
Record tree (w : World) (size : Z) : Prop :=
  { tree_root : exists r, syncs w !! 0%nat = Some r /\ parent_ r = None;
    tree_children : forall i s, syncs w !! i = Some s ->
      NoDup (children_ s)
      /\ forall c, c ∈ children_ s
           <-> exists cs, syncs w !! c = Some cs /\ parent_ cs = Some i;
    tree_reachable : forall i,
      (i < length (syncs w))%nat -> reachable (syncs w) i;
    tree_size : forall i s, syncs w !! i = Some s -> size_ s = size;
    tree_buffers : NoDup (flat_map buffer_blocks (syncs w));
    tree_readable : forall i s, syncs w !! i = Some s ->
      is_Some (mem_read (mem (heap w)) (diff_ s) size)
      /\ forall g, parent_grads_ s = Some g ->
           is_Some (mem_read (mem (heap w)) g size);
    tree_idle : default_stream w = []
                /\ forall i s, syncs w !! i = Some s -> queue_ s = [] }.

(** **** Folding over tokens *)

Lemma fold_left_ext_in {A B} (f g : A -> B -> A) (l : list B) (a : A) :
  (forall x acc, x ∈ l -> f acc x = g acc x) ->
  fold_left f l a = fold_left g l a.
Proof.
  revert a. induction l as [|x l IH]; intros a H; simpl; [reflexivity|].
  rewrite (H x a) by left. apply IH. intros y acc Hy. apply H. right. exact Hy.
Qed.

(** **** Buffers in allocations of their own *)

Lemma flat_map_NoDup_apart {A B} (f : A -> list B) (l : list A) i j a b x :
  NoDup (flat_map f l) ->
  l !! i = Some a -> l !! j = Some b -> i <> j ->
  x ∈ f a -> x ∈ f b -> False.
Proof.
  revert i j. induction l as [|c l IH]; intros i j Hnd Hi Hj Hij Ha Hb.
  - discriminate.
  - simpl in Hnd. apply NoDup_app in Hnd as (_ & Hdis & Hnd).
    assert (Hin : forall n d, l !! n = Some d -> x ∈ f d -> x ∈ flat_map f l).
    { intros n d Hn Hx. apply list_elem_of_In, in_flat_map.
      exists d. split; apply list_elem_of_In; [|exact Hx].
      eapply list_elem_of_lookup_2, Hn. }
    destruct i as [|i], j as [|j]; simpl in Hi, Hj.
    + congruence.
    + inversion Hi; subst. eapply Hdis; eauto.
    + inversion Hj; subst. eapply Hdis; eauto.
    + eapply (IH i j); eauto.
Qed.

Lemma flat_map_NoDup_each {A B} (f : A -> list B) (l : list A) i a :
  NoDup (flat_map f l) -> l !! i = Some a -> NoDup (f a).
Proof.
  revert i. induction l as [|c l IH]; intros i Hnd Hi; [discriminate|].
  simpl in Hnd. apply NoDup_app in Hnd as (Hc & _ & Hnd).
  destruct i as [|i]; simpl in Hi; [inversion Hi; subst; exact Hc|].
  eapply IH; eauto.
Qed.

(** **** The invariant of the reduction phase *)

Section Reduction.

Context {format : Dtype_format}.
Variable DEBUG : bool.
Variable cuda_fails : CudaCall -> World -> bool.

(** The world at the start of the phase, with the local gradients in the
    [diff_] buffers. *)
Variable w0 : World.
Variable size : Z.
Hypothesis wf : tree w0 size.

Let N : nat := length (syncs w0).

(** The objects are those of [w0], up to their queues. *)
Definition same_objects (w : World) : Prop :=
  Forall2 (fun s0 s => exists q, s = set_queue s0 q) (syncs w0) (syncs w).

Definition readable (w : World) : Prop :=
  forall i s0, syncs w0 !! i = Some s0 ->
    is_Some (mem_read (mem (heap w)) (diff_ s0) size)
    /\ forall g, parent_grads_ s0 = Some g ->
         is_Some (mem_read (mem (heap w)) g size).

Definition queue_of (w : World) (i : nat) : list nat :=
  match syncs w !! i with
  | Some s => queue_ s
  | None => []
  end.

(** What worker [c] has handed up: the contents of its staging buffer. *)
Definition handed (w : World) (c : nat) : list Dtype :=
  match syncs w0 !! c with
  | Some c0 =>
      match parent_grads_ c0 with
      | Some g => buffer w g size
      | None => []
      end
  | None => []
  end.

(** The subtotal of worker [i]: its local gradient, to which what the
    children in [taken i] have handed up was added, one child after the
    other in the order of [taken i], each time as line 355 does:
    [dst[k] = src[k] + dst[k]] in [Dtype]. *)
Definition subtotal (w : World) (taken : nat -> list nat) (i : nat)
  : list Dtype :=
  fold_left (fun acc c => zip_with Dtype_add (handed w c) acc) (taken i)
    (gradient w0 i).

(** [Dtype(1.0 / Caffe::solver_count())] of line 381 *)
Definition scale : Dtype :=
  Dtype_of_double (double_reciprocal (solver_count w0)).

Definition inv (w : World) (locs : list Location) : Prop :=
  exists taken : nat -> list nat,
    length locs = N
    /\ same_objects w
    /\ readable w
    /\ default_stream w = []
    /\ solver_count w = solver_count w0
    /\ (forall i s0, syncs w0 !! i = Some s0 ->
          match locs !! i with
          | Some AtEntry => taken i = []
          | Some (InLoop j _) => length (taken i) = j
          | Some Returned => length (taken i) = length (children_ s0)
          | None => False
          end)
    /\ (forall i s0, syncs w0 !! i = Some s0 ->
          NoDup (taken i ++ queue_of w i)
          /\ forall c, c ∈ taken i ++ queue_of w i ->
               c ∈ children_ s0 /\ locs !! c = Some Returned)
    /\ (forall c s0 p, syncs w0 !! c = Some s0 ->
          locs !! c = Some Returned -> parent_ s0 = Some p ->
          c ∈ taken p ++ queue_of w p)
    /\ (forall i s0, syncs w0 !! i = Some s0 ->
          locs !! i <> Some Returned ->
          buffer w (diff_ s0) size = subtotal w taken i)
    /\ (forall i s0 p, syncs w0 !! i = Some s0 ->
          locs !! i = Some Returned -> parent_ s0 = Some p ->
          handed w i = subtotal w taken i)
    /\ (locs !! 0%nat = Some Returned ->
          forall r0, syncs w0 !! 0%nat = Some r0 ->
            buffer w (diff_ r0) size
            = map (Dtype_mul scale) (subtotal w taken 0)).

(** ***** Objects *)

Lemma same_objects_lookup w i s0 :
  same_objects w -> syncs w0 !! i = Some s0 ->
  exists q, syncs w !! i = Some (set_queue s0 q).
Proof.
  intros Hso Hi. destruct (Forall2_lookup_l _ _ _ _ _ Hso Hi) as (s & Hs & q & ->).
  eauto.
Qed.

Lemma same_objects_lookup_r w i s :
  same_objects w -> syncs w !! i = Some s ->
  exists s0 q, syncs w0 !! i = Some s0 /\ s = set_queue s0 q.
Proof.
  intros Hso Hi. destruct (Forall2_lookup_r _ _ _ _ _ Hso Hi) as (s0 & Hs & q & ->).
  eauto.
Qed.

Lemma same_objects_insert w i s0 q ss :
  same_objects w -> syncs w0 !! i = Some s0 ->
  ss = <[i := set_queue s0 q]> (syncs w) ->
  Forall2 (fun s0 s => exists q, s = set_queue s0 q) (syncs w0) ss.
Proof.
  intros Hso Hi ->. rewrite <- (list_insert_id (syncs w0) i s0 Hi).
  apply Forall2_insert; [exact Hso|]. eauto.
Qed.

Lemma queue_of_insert w i s q j :
  (i < length (syncs w))%nat ->
  queue_of (with_syncs w (<[i := set_queue s q]> (syncs w))) j
  = if decide (j = i) then q else queue_of w j.
Proof.
  intros Hi. unfold queue_of. simpl. destruct (decide (j = i)) as [->|Hne].
  - rewrite list_lookup_insert_eq by exact Hi. reflexivity.
  - rewrite list_lookup_insert_ne by auto. reflexivity.
Qed.

Lemma lookup_lt_N i s0 : syncs w0 !! i = Some s0 -> (i < N)%nat.
Proof. intros H. apply lookup_lt_Some in H. exact H. Qed.

(** ***** The tree *)

Lemma child_parent p s c :
  syncs w0 !! p = Some s -> c ∈ children_ s ->
  exists cs, syncs w0 !! c = Some cs /\ parent_ cs = Some p.
Proof.
  intros Hp Hc. destruct (tree_children _ _ wf p s Hp) as (_ & Hiff).
  apply Hiff, Hc.
Qed.

Lemma parent_child c cs p s :
  syncs w0 !! c = Some cs -> parent_ cs = Some p ->
  syncs w0 !! p = Some s -> c ∈ children_ s.
Proof.
  intros Hc Hpar Hp. destruct (tree_children _ _ wf p s Hp) as (_ & Hiff).
  apply Hiff. eauto.
Qed.

Lemma no_parent_root i s0 :
  syncs w0 !! i = Some s0 -> parent_ s0 = None -> i = 0%nat.
Proof.
  intros Hi Hpar.
  pose proof (tree_reachable _ _ wf i (lookup_lt_N _ _ Hi)) as Hr.
  destruct Hr as [|p s c _ Hp Hc]; [reflexivity|].
  destruct (child_parent _ _ _ Hp Hc) as (cs & Hcs & Hpc). congruence.
Qed.

Lemma root_no_parent r0 : syncs w0 !! 0%nat = Some r0 -> parent_ r0 = None.
Proof.
  intros Hr. destruct (tree_root _ _ wf) as (r & Hr' & Hp). congruence.
Qed.

(** ***** Writes to one buffer leave the others *)

Lemma diff_blocks_apart i j a b :
  syncs w0 !! i = Some a -> syncs w0 !! j = Some b -> i <> j ->
  block (diff_ a) <> block (diff_ b).
Proof.
  intros Hi Hj Hij Heq.
  eapply (flat_map_NoDup_apart buffer_blocks (syncs w0) i j a b
            (block (diff_ a)) (tree_buffers _ _ wf) Hi Hj Hij).
  - unfold buffer_blocks. left.
  - rewrite Heq. unfold buffer_blocks. left.
Qed.

Lemma diff_staging_apart i j a b g :
  syncs w0 !! i = Some a -> syncs w0 !! j = Some b ->
  parent_grads_ b = Some g ->
  block g <> block (diff_ a).
Proof.
  intros Hi Hj Hg Heq. destruct (decide (i = j)) as [->|Hij].
  - assert (a = b) by congruence. subst b.
    pose proof (flat_map_NoDup_each buffer_blocks _ _ _ (tree_buffers _ _ wf) Hi)
      as Hnd.
    unfold buffer_blocks in Hnd. rewrite Hg in Hnd.
    apply NoDup_cons in Hnd as (Hnin & _). apply Hnin. rewrite Heq. left.
  - eapply (flat_map_NoDup_apart buffer_blocks (syncs w0) i j a b
              (block (diff_ a)) (tree_buffers _ _ wf) Hi Hj Hij).
    + unfold buffer_blocks. left.
    + rewrite <- Heq. unfold buffer_blocks. rewrite Hg. right. left.
Qed.

Lemma staging_blocks_apart i j a b g h :
  syncs w0 !! i = Some a -> syncs w0 !! j = Some b -> i <> j ->
  parent_grads_ a = Some g -> parent_grads_ b = Some h ->
  block g <> block h.
Proof.
  intros Hi Hj Hij Hg Hh Heq.
  eapply (flat_map_NoDup_apart buffer_blocks (syncs w0) i j a b
            (block g) (tree_buffers _ _ wf) Hi Hj Hij).
  - unfold buffer_blocks. rewrite Hg. right. left.
  - rewrite Heq. unfold buffer_blocks. rewrite Hh. right. left.
Qed.

Lemma read_size m p v :
  mem_read m p size = Some v -> 0 <= size /\ length v = Z.to_nat size.
Proof.
  intros H. split; [|eapply mem_read_length, H].
  unfold mem_read in H. destruct (m !! block p) as [[a|]|]; try discriminate.
  destruct (0 <=? offset p); simpl in H; [|discriminate].
  destruct (0 <=? size) eqn:E; simpl in H; [|discriminate].
  apply Z.leb_le in E. exact E.
Qed.

(** ***** The invariant holds at the start *)

Lemma set_queue_same s : set_queue s (queue_ s) = s.
Proof. destruct s; reflexivity. Qed.

Lemma lookup_AtEntry i s0 :
  syncs w0 !! i = Some s0 -> replicate N AtEntry !! i = Some AtEntry.
Proof. intros H. apply lookup_replicate_2. eapply lookup_lt_N, H. Qed.

Lemma inv_init : inv w0 (replicate N AtEntry).
Proof.
  exists (fun _ => []). repeat apply conj.
  - apply length_replicate.
  - unfold same_objects. apply Forall2_same_length_lookup_2; [reflexivity|].
    intros i x y Hx Hy. rewrite Hx in Hy. inversion Hy; subst.
    exists (queue_ y). symmetry. apply set_queue_same.
  - intros i s0 Hi. apply (tree_readable _ _ wf i s0 Hi).
  - apply (tree_idle _ _ wf).
  - reflexivity.
  - intros i s0 Hi. rewrite (lookup_AtEntry _ _ Hi). reflexivity.
  - intros i s0 Hi. unfold queue_of. rewrite Hi.
    rewrite (proj2 (tree_idle _ _ wf) i s0 Hi). simpl.
    split; [constructor|]. intros c Hc. inversion Hc.
  - intros c s0 p Hc Hloc. rewrite (lookup_AtEntry _ _ Hc) in Hloc.
    discriminate.
  - intros i s0 Hi _. unfold subtotal, gradient. rewrite Hi. simpl.
    rewrite (tree_size _ _ wf i s0 Hi). reflexivity.
  - intros i s0 p Hi Hloc. rewrite (lookup_AtEntry _ _ Hi) in Hloc.
    discriminate.
  - intros Hloc. destruct (tree_root _ _ wf) as (r & Hr & _).
    rewrite (lookup_AtEntry _ _ Hr) in Hloc. discriminate.
Qed.

(** ***** What has been handed up stays *)

Lemma handed_of w c c0 g :
  syncs w0 !! c = Some c0 -> parent_grads_ c0 = Some g ->
  handed w c = buffer w g size.
Proof. intros Hc Hg. unfold handed. rewrite Hc, Hg. reflexivity. Qed.

Lemma subtotal_frame w w' (taken taken' : nat -> list nat) i :
  taken' i = taken i ->
  (forall c, c ∈ taken i -> handed w' c = handed w c) ->
  subtotal w' taken' i = subtotal w taken i.
Proof.
  intros Ht Hh. unfold subtotal. rewrite Ht. apply fold_left_ext_in.
  intros c acc Hc. rewrite (Hh c Hc). reflexivity.
Qed.

(** ***** The invariant is kept by every piece *)

Lemma lookup_insert_Returned (locs : list Location) t x c :
  locs !! t <> Some Returned ->
  locs !! c = Some Returned ->
  <[t := x]> locs !! c = Some Returned.
Proof.
  intros Ht Hc. rewrite list_lookup_insert_ne; [exact Hc|]. congruence.
Qed.

Lemma lookup_insert_Returned_inv (locs : list Location) t x c :
  x <> Returned ->
  <[t := x]> locs !! c = Some Returned ->
  c <> t /\ locs !! c = Some Returned.
Proof.
  intros Hx Hc. destruct (decide (c = t)) as [->|Hne].
  - destruct (decide (t < length locs)%nat) as [Hlt|Hge].
    + rewrite list_lookup_insert_eq in Hc by exact Hlt. congruence.
    + rewrite list_insert_ge in Hc by lia.
      rewrite lookup_ge_None_2 in Hc by lia. discriminate.
  - rewrite list_lookup_insert_ne in Hc by auto. auto.
Qed.

Lemma inv_entry w locs t d :
  inv w locs -> locs !! t = Some AtEntry ->
  inv w (<[t := InLoop 0 d]> locs).
Proof.
  intros (taken & Hlen & Hso & Hrd & Hst & Hsc & Hloc & Htok & Hsent & Hrun
          & Hup & Hdone) Ht.
  assert (Hnr : locs !! t <> Some Returned) by congruence.
  assert (Htlt : (t < length locs)%nat) by (eapply lookup_lt_Some, Ht).
  exists taken.
  split; [rewrite length_insert; exact Hlen|].
  split; [exact Hso|]. split; [exact Hrd|]. split; [exact Hst|].
  split; [exact Hsc|]. repeat apply conj.
  - intros i s0 Hi. specialize (Hloc i s0 Hi).
    destruct (decide (i = t)) as [->|Hne].
    + rewrite list_lookup_insert_eq by exact Htlt. rewrite Ht in Hloc.
      rewrite Hloc. reflexivity.
    + rewrite list_lookup_insert_ne by auto. exact Hloc.
  - intros i s0 Hi. destruct (Htok i s0 Hi) as (Hnd & Hin). split; [exact Hnd|].
    intros c Hc. destruct (Hin c Hc) as (Hch & Hr). split; [exact Hch|].
    apply lookup_insert_Returned; assumption.
  - intros c s0 p Hc Hr Hp.
    apply lookup_insert_Returned_inv in Hr as (_ & Hr); [|discriminate].
    eapply Hsent; eauto.
  - intros i s0 Hi Hnri. apply (Hrun i s0 Hi). intros Hr. apply Hnri.
    apply lookup_insert_Returned; assumption.
  - intros i s0 p Hi Hr Hp.
    apply lookup_insert_Returned_inv in Hr as (_ & Hr); [|discriminate].
    eapply Hup; eauto.
  - intros Hr. apply lookup_insert_Returned_inv in Hr as (_ & Hr);
      [|discriminate]. apply Hdone, Hr.
Qed.

Lemma syncs_length w : same_objects w -> length (syncs w) = N.
Proof. intros H. symmetry. eapply Forall2_length, H. Qed.

Lemma queue_of_syncs w w' i s q :
  same_objects w -> (i < N)%nat ->
  syncs w' = <[i := set_queue s q]> (syncs w) ->
  forall j, queue_of w' j = if decide (j = i) then q else queue_of w j.
Proof.
  intros Hso Hi Hs j. unfold queue_of. rewrite Hs.
  destruct (decide (j = i)) as [->|Hne].
  - rewrite list_lookup_insert_eq by (rewrite syncs_length; assumption).
    reflexivity.
  - rewrite list_lookup_insert_ne by auto. reflexivity.
Qed.

Lemma buffer_frame w w' m' p vals q :
  mem_write (mem (heap w)) p vals = Some m' ->
  mem (heap w') = m' ->
  block q <> block p ->
  buffer w' q size = buffer w q size.
Proof.
  intros Hw Hm Hne. unfold buffer. rewrite Hm.
  rewrite (mem_write_read_other _ _ _ _ q size Hw Hne). reflexivity.
Qed.

Lemma buffer_written w w' m' p vals :
  mem_write (mem (heap w)) p vals = Some m' ->
  mem (heap w') = m' ->
  0 <= size -> length vals = Z.to_nat size ->
  mem_read (mem (heap w')) p size = Some vals
  /\ buffer w' p size = vals.
Proof.
  intros Hw Hm Hs Hl. unfold buffer. rewrite Hm.
  pose proof (mem_write_read_same _ _ _ _ Hw) as Hr.
  rewrite Hl, Z2Nat.id in Hr by exact Hs. rewrite Hr. auto.
Qed.

Lemma inv_reduce w w' locs t j d s0 c q c0 src vs vd m' :
  inv w locs ->
  locs !! t = Some (InLoop j d) ->
  syncs w0 !! t = Some s0 ->
  queue_of w t = c :: q ->
  syncs w0 !! c = Some c0 ->
  parent_grads_ c0 = Some src ->
  mem_read (mem (heap w)) src size = Some vs ->
  mem_read (mem (heap w)) (diff_ s0) size = Some vd ->
  mem_write (mem (heap w)) (diff_ s0) (zip_with Dtype_add vs vd) = Some m' ->
  syncs w' = <[t := set_queue s0 q]> (syncs w) ->
  mem (heap w') = m' ->
  default_stream w' = default_stream w ->
  solver_count w' = solver_count w ->
  inv w' (<[t := InLoop (S j) d]> locs).
Proof.
  intros (taken & Hlen & Hso & Hrd & Hst & Hsc & Hloc & Htok & Hsent & Hrun
          & Hup & Hdone) Ht Hs0 Hq Hc0 Hsrc Hvs Hvd Hw Hsy Hm Hst' Hsc'.
  assert (Hnr : locs !! t <> Some Returned) by congruence.
  assert (Htlt : (t < length locs)%nat) by (eapply lookup_lt_Some, Ht).
  assert (HtN : (t < N)%nat) by lia.
  destruct (Htok t s0 Hs0) as (Hnd & Hmem). rewrite Hq in Hnd, Hmem.
  assert (Hcin : c ∈ taken t ++ c :: q) by (rewrite elem_of_app; right; left).
  destruct (Hmem c Hcin) as (Hcch & Hcr).
  destruct (child_parent _ _ _ Hs0 Hcch) as (c0' & Hc0' & Hcpar).
  rewrite Hc0 in Hc0'. inversion Hc0'; subst c0'; clear Hc0'.
  assert (Hct : c <> t) by congruence.
  assert (Hcnt : c ∉ taken t).
  { apply NoDup_app in Hnd as (_ & Hdis & _). intros Hin.
    apply (Hdis c Hin). left. }
  destruct (read_size _ _ _ Hvs) as (Hsz & Hlvs).
  destruct (read_size _ _ _ Hvd) as (_ & Hlvd).
  assert (Hlz : length (zip_with Dtype_add vs vd) = Z.to_nat size).
  { rewrite length_zip_with. lia. }
  destruct (buffer_written _ _ _ _ _ Hw Hm Hsz Hlz) as (Hrd' & Hbuf').
  pose proof (queue_of_syncs _ _ _ _ _ Hso HtN Hsy) as Hqo.
  set (taken' := fun i => if decide (i = t) then taken t ++ [c] else taken i).
  assert (Htq : forall i, taken' i ++ queue_of w' i = taken i ++ queue_of w i).
  { intros i. unfold taken'. rewrite (Hqo i).
    destruct (decide (i = t)) as [->|]; [|reflexivity].
    rewrite Hq, <- app_assoc. reflexivity. }
  assert (Hh : forall x, handed w' x = handed w x).
  { intros x. unfold handed. destruct (syncs w0 !! x) as [sx|] eqn:Hx; auto.
    destruct (parent_grads_ sx) as [gx|] eqn:Hgx; auto.
    apply (buffer_frame _ _ _ _ _ _ Hw Hm).
    eapply diff_staging_apart; eauto. }
  exists taken'. repeat apply conj.
  - rewrite length_insert. exact Hlen.
  - unfold same_objects.
    apply (same_objects_insert w t s0 q); [exact Hso | exact Hs0 | exact Hsy].
  - intros i si Hi. destruct (Hrd i si Hi) as (Hd & Hg). split.
    + destruct (decide (i = t)) as [->|Hne].
      * assert (si = s0) by congruence. subst si. eauto.
      * rewrite Hm, (mem_write_read_other _ _ _ _ _ size Hw); [exact Hd|].
        eapply diff_blocks_apart; eauto.
    + intros g Hgi. rewrite Hm, (mem_write_read_other _ _ _ _ _ size Hw);
        [apply Hg, Hgi|]. eapply diff_staging_apart; eauto.
  - congruence.
  - congruence.
  - intros i si Hi. specialize (Hloc i si Hi). unfold taken'.
    destruct (decide (i = t)) as [->|Hne].
    + rewrite list_lookup_insert_eq by exact Htlt. rewrite Ht in Hloc.
      rewrite length_app. simpl. lia.
    + rewrite list_lookup_insert_ne by auto. exact Hloc.
  - intros i si Hi. rewrite Htq. destruct (Htok i si Hi) as (Hndi & Hini).
    split; [exact Hndi|]. intros x Hx. destruct (Hini x Hx) as (Hch & Hr).
    split; [exact Hch|]. apply lookup_insert_Returned; assumption.
  - intros x sx p Hx Hr Hp.
    apply lookup_insert_Returned_inv in Hr as (_ & Hr); [|discriminate].
    rewrite Htq. eapply Hsent; eauto.
  - intros i si Hi Hnri. destruct (decide (i = t)) as [->|Hne].
    + assert (si = s0) by congruence. subst si.
      rewrite Hbuf'. unfold subtotal, taken'.
      destruct (decide (t = t)); [|congruence].
      rewrite fold_left_app. simpl. f_equal.
      * rewrite Hh, (handed_of _ _ _ _ Hc0 Hsrc). unfold buffer.
        rewrite Hvs. reflexivity.
      * change (fold_left _ (taken t) (gradient w0 t))
          with (subtotal w' taken t).
        rewrite (subtotal_frame w w' taken taken t eq_refl (fun x _ => Hh x)).
        rewrite <- (Hrun t s0 Hs0 Hnr). unfold buffer. rewrite Hvd.
        reflexivity.
    + rewrite list_lookup_insert_ne in Hnri by auto.
      rewrite (buffer_frame _ _ _ _ _ _ Hw Hm)
        by (eapply diff_blocks_apart; eauto).
      rewrite (subtotal_frame w w' taken taken' i); [apply Hrun; assumption| |].
      * unfold taken'. destruct (decide (i = t)); [contradiction|reflexivity].
      * intros x _. apply Hh.
  - intros i si p Hi Hr Hp.
    apply lookup_insert_Returned_inv in Hr as (Hit & Hr); [|discriminate].
    rewrite Hh, (subtotal_frame w w' taken taken' i); [eapply Hup; eauto| |].
    + unfold taken'. destruct (decide (i = t)); [contradiction|reflexivity].
    + intros x _. apply Hh.
  - intros Hr r0 Hr0.
    apply lookup_insert_Returned_inv in Hr as (H0t & Hr); [|discriminate].
    rewrite (buffer_frame _ _ _ _ _ _ Hw Hm)
      by (eapply diff_blocks_apart; eauto).
    rewrite (subtotal_frame w w' taken taken' 0%nat);
      [apply Hdone; assumption| |].
    + unfold taken'. destruct (decide (0%nat = t)); [contradiction|reflexivity].
    + intros x _. apply Hh.
Qed.

Lemma lookup_insert_Returned_keep (locs : list Location) t c :
  (t < length locs)%nat ->
  locs !! c = Some Returned ->
  <[t := Returned]> locs !! c = Some Returned.
Proof.
  intros Ht Hc. destruct (decide (c = t)) as [->|Hne].
  - apply list_lookup_insert_eq, Ht.
  - rewrite list_lookup_insert_ne by auto. exact Hc.
Qed.

Lemma lookup_insert_Returned_cases (locs : list Location) t c :
  <[t := Returned]> locs !! c = Some Returned ->
  c = t \/ (c <> t /\ locs !! c = Some Returned).
Proof.
  intros Hc. destruct (decide (c = t)) as [->|Hne]; [left; reflexivity|].
  right. rewrite list_lookup_insert_ne in Hc by auto. auto.
Qed.

(** A worker that has left the loop has taken one token per child. *)
Lemma taken_all (locs : list Location) (taken : nat -> list nat) w t j d s0 :
  (forall i s0, syncs w0 !! i = Some s0 ->
     NoDup (taken i ++ queue_of w i)
     /\ forall c, c ∈ taken i ++ queue_of w i ->
          c ∈ children_ s0 /\ locs !! c = Some Returned) ->
  syncs w0 !! t = Some s0 ->
  locs !! t = Some (InLoop j d) ->
  length (taken t) = j ->
  (length (children_ s0) <= j)%nat ->
  length (taken t) = length (children_ s0).
Proof.
  intros Htok Hs0 Ht Hj Hle. destruct (Htok t s0 Hs0) as (Hnd & Hin).
  apply NoDup_app in Hnd as (Hnd & _ & _).
  assert (Hincl : incl (taken t) (children_ s0)).
  { intros x Hx. apply list_elem_of_In. apply Hin. rewrite elem_of_app. left.
    apply list_elem_of_In. exact Hx. }
  pose proof (List.NoDup_incl_length (proj1 (NoDup_ListNoDup _) Hnd) Hincl). lia.
Qed.

Lemma inv_send w w' locs t j d s0 p dst vals m' ps :
  inv w locs ->
  locs !! t = Some (InLoop j d) ->
  syncs w0 !! t = Some s0 ->
  (length (children_ s0) <= j)%nat ->
  parent_ s0 = Some p ->
  parent_grads_ s0 = Some dst ->
  mem_read (mem (heap w)) (diff_ s0) size = Some vals ->
  mem_write (mem (heap w)) dst vals = Some m' ->
  syncs w !! p = Some ps ->
  syncs w' = <[p := set_queue ps (queue_ ps ++ [t])]> (syncs w) ->
  mem (heap w') = m' ->
  default_stream w' = [] ->
  solver_count w' = solver_count w ->
  inv w' (<[t := Returned]> locs).
Proof.
  intros (taken & Hlen & Hso & Hrd & Hst & Hsc & Hloc & Htok & Hsent & Hrun
          & Hup & Hdone) Ht Hs0 Hle Hpar Hdst Hvals Hw Hps Hsy Hm Hst' Hsc'.
  assert (Hnr : locs !! t <> Some Returned) by congruence.
  assert (Htlt : (t < length locs)%nat) by (eapply lookup_lt_Some, Ht).
  destruct (same_objects_lookup_r _ _ _ Hso Hps) as (sp & qp & Hsp & ->).
  assert (HpN : (p < N)%nat) by (eapply lookup_lt_N, Hsp).
  change (set_queue (set_queue sp qp) (queue_ (set_queue sp qp) ++ [t]))
    with (set_queue sp (qp ++ [t])) in Hsy.
  pose proof (queue_of_syncs _ _ _ _ _ Hso HpN Hsy) as Hqo.
  assert (Hqp : queue_of w p = qp) by (unfold queue_of; rewrite Hps; reflexivity).
  destruct (read_size _ _ _ Hvals) as (Hsz & Hlv).
  destruct (buffer_written _ _ _ _ _ Hw Hm Hsz Hlv) as (Hrd' & Hbuf').
  assert (Htnew : t ∉ taken p ++ queue_of w p).
  { intros Hin. destruct (Htok p sp Hsp) as (_ & Hmem).
    destruct (Hmem t Hin) as (_ & Hr). congruence. }
  assert (Hsub : forall i x, x ∈ taken i ++ queue_of w i ->
                             x ∈ taken i ++ queue_of w' i).
  { intros i x Hx. rewrite (Hqo i). destruct (decide (i = p)) as [->|]; [|exact Hx].
    rewrite Hqp in Hx. rewrite app_assoc, elem_of_app. left. exact Hx. }
  assert (Hfd : forall i si, syncs w0 !! i = Some si ->
                  buffer w' (diff_ si) size = buffer w (diff_ si) size).
  { intros i si Hi. apply (buffer_frame _ _ _ _ _ _ Hw Hm).
    intros Heq. eapply (diff_staging_apart i t si s0 dst); eauto. }
  assert (Hfg : forall i si g, syncs w0 !! i = Some si -> i <> t ->
                  parent_grads_ si = Some g ->
                  buffer w' g size = buffer w g size).
  { intros i si g Hi Hit Hg. apply (buffer_frame _ _ _ _ _ _ Hw Hm).
    apply (staging_blocks_apart i t si s0 g dst Hi Hs0 Hit Hg Hdst). }
  assert (Hh : forall c, c <> t -> handed w' c = handed w c).
  { intros c Hct. unfold handed. destruct (syncs w0 !! c) as [sc|] eqn:Hc; auto.
    destruct (parent_grads_ sc) as [gc|] eqn:Hgc; auto.
    apply (Hfg c sc gc Hc Hct Hgc). }
  assert (Hold : forall i si c, syncs w0 !! i = Some si -> c ∈ taken i ->
                   c <> t).
  { intros i si c Hi Hc ->. destruct (Htok i si Hi) as (_ & Hmem).
    destruct (Hmem t) as (_ & Hr); [rewrite elem_of_app; left; exact Hc|].
    congruence. }
  exists taken. repeat apply conj.
  - rewrite length_insert. exact Hlen.
  - unfold same_objects.
    apply (same_objects_insert w p sp (qp ++ [t])); [exact Hso | exact Hsp | exact Hsy].
  - intros i si Hi. destruct (Hrd i si Hi) as (Hd & Hg). split.
    + rewrite Hm, (mem_write_read_other _ _ _ _ _ size Hw); [exact Hd|].
      intros Heq. eapply (diff_staging_apart i t si s0 dst); eauto.
    + intros g Hgi. destruct (decide (i = t)) as [->|Hne].
      * assert (si = s0) by congruence. subst si.
        assert (g = dst) by congruence. subst g. eauto.
      * rewrite Hm, (mem_write_read_other _ _ _ _ _ size Hw); [apply Hg, Hgi|].
        apply (staging_blocks_apart i t si s0 g dst Hi Hs0 Hne Hgi Hdst).
  - exact Hst'.
  - congruence.
  - intros i si Hi. specialize (Hloc i si Hi).
    destruct (decide (i = t)) as [->|Hne].
    + rewrite list_lookup_insert_eq by exact Htlt. rewrite Ht in Hloc.
      assert (si = s0) by congruence. subst si.
      eapply taken_all; eauto.
    + rewrite list_lookup_insert_ne by auto. exact Hloc.
  - intros i si Hi. destruct (Htok i si Hi) as (Hndi & Hini).
    rewrite (Hqo i). destruct (decide (i = p)) as [->|Hne].
    + assert (si = sp) by congruence. subst si. rewrite Hqp in Hndi, Hini.
      rewrite Hqp in Htnew. rewrite app_assoc. split.
      * apply NoDup_app. split; [exact Hndi|]. split; [|apply NoDup_singleton].
        intros x Hx Hxt. apply list_elem_of_singleton in Hxt. subst x.
        contradiction.
      * intros x Hx. rewrite elem_of_app, list_elem_of_singleton in Hx.
        destruct Hx as [Hx| ->].
        -- destruct (Hini x Hx) as (Hch & Hr). split; [exact Hch|].
           apply lookup_insert_Returned_keep; assumption.
        -- split; [eapply parent_child; eauto|].
           apply list_lookup_insert_eq, Htlt.
    + split; [exact Hndi|]. intros x Hx. destruct (Hini x Hx) as (Hch & Hr).
      split; [exact Hch|]. apply lookup_insert_Returned_keep; assumption.
  - intros x sx p' Hx Hr Hp'.
    apply lookup_insert_Returned_cases in Hr as [->|(Hxt & Hr)].
    + assert (sx = s0) by congruence. subst sx.
      assert (p' = p) by congruence. subst p'.
      rewrite (Hqo p). destruct (decide (p = p)); [|congruence].
      rewrite !elem_of_app, list_elem_of_singleton. auto.
    + apply Hsub. eapply Hsent; eauto.
  - intros i si Hi Hnri.
    assert (Hit : i <> t).
    { intros ->. apply Hnri. apply list_lookup_insert_eq, Htlt. }
    rewrite list_lookup_insert_ne in Hnri by auto.
    rewrite (Hfd i si Hi), (subtotal_frame w w' taken taken i eq_refl);
      [apply Hrun; assumption|].
    intros c Hc. apply Hh. eapply Hold; eauto.
  - intros i si p' Hi Hr Hp'.
    rewrite (subtotal_frame w w' taken taken i eq_refl)
      by (intros c Hc; apply Hh; eapply Hold; eauto).
    apply lookup_insert_Returned_cases in Hr as [->|(Hit & Hr)].
    + assert (si = s0) by congruence. subst si.
      rewrite (handed_of _ _ _ _ Hs0 Hdst), Hbuf'.
      rewrite <- (Hrun t s0 Hs0 Hnr). unfold buffer. rewrite Hvals.
      reflexivity.
    + rewrite (Hh i Hit). eapply Hup; eauto.
  - intros Hr r0 Hr0.
    apply lookup_insert_Returned_cases in Hr as [H0t|(H0t & Hr)].
    + subst t. assert (r0 = s0) by congruence. subst r0.
      rewrite (root_no_parent _ Hs0) in Hpar. discriminate.
    + rewrite (Hfd 0%nat r0 Hr0), (subtotal_frame w w' taken taken 0%nat eq_refl);
        [apply Hdone; assumption|].
      intros c Hc. apply Hh. eapply Hold; eauto.
Qed.


Lemma inv_scale w w' locs j d r0 vx m' :
  inv w locs ->
  locs !! 0%nat = Some (InLoop j d) ->
  syncs w0 !! 0%nat = Some r0 ->
  (length (children_ r0) <= j)%nat ->
  mem_read (mem (heap w)) (diff_ r0) size = Some vx ->
  mem_write (mem (heap w)) (diff_ r0)
    (map (Dtype_mul (Dtype_of_double (double_reciprocal (solver_count w)))) vx) = Some m' ->
  syncs w' = syncs w ->
  mem (heap w') = m' ->
  default_stream w' = [] ->
  solver_count w' = solver_count w ->
  inv w' (<[0%nat := Returned]> locs).
Proof.
  intros (taken & Hlen & Hso & Hrd & Hst & Hsc & Hloc & Htok & Hsent & Hrun
          & Hup & Hdone) Ht Hr0 Hle Hvx Hw Hsy Hm Hst' Hsc'.
  assert (Hnr : locs !! 0%nat <> Some Returned) by congruence.
  assert (Htlt : (0 < length locs)%nat) by (eapply lookup_lt_Some, Ht).
  destruct (read_size _ _ _ Hvx) as (Hsz & Hlv).
  assert (Hlm : length (map (Dtype_mul (Dtype_of_double (double_reciprocal (solver_count w)))) vx)
                = Z.to_nat size) by (rewrite length_map; exact Hlv).
  destruct (buffer_written _ _ _ _ _ Hw Hm Hsz Hlm) as (Hrd' & Hbuf').
  assert (Hqo : forall i, queue_of w' i = queue_of w i).
  { intros i. unfold queue_of. rewrite Hsy. reflexivity. }
  assert (Hfull : length (taken 0%nat) = length (children_ r0)).
  { eapply taken_all; eauto. specialize (Hloc _ _ Hr0). rewrite Ht in Hloc.
    exact Hloc. }
  assert (Hh : forall x, handed w' x = handed w x).
  { intros x. unfold handed. destruct (syncs w0 !! x) as [sx|] eqn:Hx; auto.
    destruct (parent_grads_ sx) as [gx|] eqn:Hgx; auto.
    apply (buffer_frame _ _ _ _ _ _ Hw Hm).
    eapply diff_staging_apart; eauto. }
  exists taken. repeat apply conj.
  - rewrite length_insert. exact Hlen.
  - unfold same_objects. rewrite Hsy. exact Hso.
  - intros i si Hi. destruct (Hrd i si Hi) as (Hd & Hg). split.
    + destruct (decide (i = 0%nat)) as [->|Hne].
      * assert (si = r0) by congruence. subst si. eauto.
      * rewrite Hm, (mem_write_read_other _ _ _ _ _ size Hw); [exact Hd|].
        eapply diff_blocks_apart; eauto.
    + intros g Hgi. rewrite Hm, (mem_write_read_other _ _ _ _ _ size Hw);
        [apply Hg, Hgi|]. eapply diff_staging_apart; eauto.
  - exact Hst'.
  - congruence.
  - intros i si Hi. specialize (Hloc i si Hi).
    destruct (decide (i = 0%nat)) as [->|Hne].
    + rewrite list_lookup_insert_eq by exact Htlt.
      assert (si = r0) by congruence. subst si. exact Hfull.
    + rewrite list_lookup_insert_ne by auto. exact Hloc.
  - intros i si Hi. rewrite (Hqo i). destruct (Htok i si Hi) as (Hndi & Hini).
    split; [exact Hndi|]. intros x Hx. destruct (Hini x Hx) as (Hch & Hr).
    split; [exact Hch|]. apply lookup_insert_Returned_keep; assumption.
  - intros x sx p Hx Hr Hp. rewrite (Hqo p).
    apply lookup_insert_Returned_cases in Hr as [->|(Hxt & Hr)].
    + assert (sx = r0) by congruence. subst sx.
      rewrite (root_no_parent _ Hr0) in Hp. discriminate.
    + eapply Hsent; eauto.
  - intros i si Hi Hnri.
    assert (Hi0 : i <> 0%nat).
    { intros ->. apply Hnri. apply list_lookup_insert_eq, Htlt. }
    rewrite list_lookup_insert_ne in Hnri by auto.
    rewrite (buffer_frame _ _ _ _ _ _ Hw Hm)
      by (eapply diff_blocks_apart; eauto).
    rewrite (subtotal_frame w w' taken taken i eq_refl (fun x _ => Hh x)).
    apply Hrun; assumption.
  - intros i si p Hi Hr Hp.
    rewrite Hh, (subtotal_frame w w' taken taken i eq_refl (fun x _ => Hh x)).
    apply lookup_insert_Returned_cases in Hr as [->|(Hit & Hr)].
    + assert (si = r0) by congruence. subst si.
      rewrite (root_no_parent _ Hr0) in Hp. discriminate.
    + eapply Hup; eauto.
  - intros _ r0' Hr0'. assert (r0' = r0) by congruence. subst r0'.
    rewrite Hbuf'.
    rewrite (subtotal_frame w w' taken taken 0%nat eq_refl (fun x _ => Hh x)).
    rewrite <- (Hrun 0%nat r0 Hr0 Hnr). unfold buffer. rewrite Hvx.
    unfold scale. rewrite Hsc. reflexivity.
Qed.

Lemma inv_step w w' locs t at_ at' :
  inv w locs ->
  locs !! t = Some at_ ->
  step DEBUG cuda_fails t at_ w = Ok (at', w') ->
  inv w' (<[t := at']> locs).
Proof.
  intros Hinv Ht H.
  pose proof Hinv as (taken & Hlen & Hso & Hrd & Hst & Hsc & _).
  destruct at_ as [|j d|]; simpl in H.
  - apply bind_Ok in H as (this & w1 & H1 & H).
    apply get_sync_Ok in H1 as (-> & _).
    apply bind_Ok in H as (device & w2 & H2 & H).
    apply debug_device_Ok in H2 as ->. inversion H; subst.
    apply inv_entry; assumption.
  - apply bind_Ok in H as (this & w1 & H1 & H).
    apply get_sync_Ok in H1 as (-> & Hthis).
    destruct (same_objects_lookup_r _ _ _ Hso Hthis) as (s0 & qt & Hs0 & ->).
    pose proof (tree_size _ _ wf t s0 Hs0) as Hsize.
    change (children_ (set_queue s0 qt)) with (children_ s0) in H.
    destruct (j <? length (children_ s0))%nat eqn:Hj.
    + apply bind_Ok in H as ([] & w2 & H2 & H). inversion H; subst at' w2; clear H.
      rewrite reduce_child_unfold in H2.
      apply bind_Ok in H2 as (this' & w3 & H3 & H2).
      apply get_sync_Ok in H3 as (-> & Hthis'). rewrite Hthis in Hthis'.
      inversion Hthis'; subst this'; clear Hthis'.
      apply bind_Ok in H2 as (c & w4 & H4 & H2).
      apply queue_pop_Ok in H4 as (s & q & Hs & Hq & ->).
      rewrite Hthis in Hs. inversion Hs; subst s; clear Hs.
      apply add_child_Ok in H2 as (cs & src & vs & vd & m' & Hcs & Hsrc & Hvs
                                   & Hvd & Hw & ->).
      simpl in Hcs, Hvs, Hvd, Hw, Hq.
      assert (Hso1 : Forall2 (fun s0 s => exists q, s = set_queue s0 q)
                       (syncs w0) (<[t := set_queue s0 q]> (syncs w))).
      { apply (same_objects_insert w t s0 q); auto. }
      destruct (Forall2_lookup_r _ _ _ _ _ Hso1 Hcs) as (c0 & Hc0 & qc & ->).
      rewrite Hsize in Hvs, Hvd.
      eapply (inv_reduce w _ locs t j d s0 c q c0 src vs vd m'); eauto.
      unfold queue_of. rewrite Hthis. exact Hq.
    + apply Nat.ltb_ge in Hj.
      apply bind_Ok in H as ([] & w2 & H2 & H). inversion H; subst at' w2; clear H.
      destruct (send_or_scale_Ok _ _ _ _ _ _ _ _ Hthis Hst H2)
        as (Hsc' & Hst' & Hcase).
      change (parent_ (set_queue s0 qt)) with (parent_ s0) in Hcase.
      change (diff_ (set_queue s0 qt)) with (diff_ s0) in Hcase.
      change (size_ (set_queue s0 qt)) with (size_ s0) in Hcase.
      change (parent_grads_ (set_queue s0 qt)) with (parent_grads_ s0) in Hcase.
      rewrite Hsize in Hcase.
      destruct (parent_ s0) as [p|] eqn:Hpar.
      * destruct Hcase as (dst & vals & m' & ps & Hdst & Hvals & Hw & Hps & Hsy
                           & Hm).
        eapply (inv_send w w' locs t j d s0 p dst vals m' ps); eauto.
      * destruct Hcase as (vx & m' & Hvx & Hw & Hsy & Hm).
        pose proof (no_parent_root _ _ Hs0 Hpar) as ->.
        eapply (inv_scale w w' locs j d s0 vx m'); eauto.
  - inversion H; subst. rewrite list_insert_id by exact Ht. exact Hinv.
Qed.

Lemma inv_run_threads schedule : forall locs w locs' w',
  inv w locs ->
  run_threads DEBUG cuda_fails schedule locs w = Ok (locs', w') ->
  inv w' locs'.
Proof.
  induction schedule as [|t schedule IH]; intros locs w locs' w' Hinv H;
    simpl in H.
  - inversion H; subst. exact Hinv.
  - apply bind_Ok in H as (at_ & w1 & H1 & H). apply valid_Ok in H1 as (-> & Ht).
    apply bind_Ok in H as (at' & w2 & H2 & H).
    eapply IH; [|exact H]. eapply inv_step; eauto.
Qed.


End Reduction.

(** **** A thread that is never made to wait runs [on_gradients_ready] *)

Section StepsOfCall.

Context {format : Dtype_format}.
Variable DEBUG : bool.
Variable cuda_fails : CudaCall -> World -> bool.

Lemma bind_eq {A B} (m : M A) (k : A -> M B) w a w1 :
  m w = Ok (a, w1) -> bind m k w = k a w1.
Proof. intros H. unfold bind. rewrite H. reflexivity. Qed.

Lemma reduce_child_syncs t device this w w1 :
  syncs w !! t = Some this ->
  reduce_child DEBUG cuda_fails t device w = Ok (tt, w1) ->
  exists q, syncs w1 !! t = Some (set_queue this q).
Proof.
  intros Hs H. rewrite reduce_child_unfold in H.
  apply bind_Ok in H as (this' & w2 & H2 & H).
  apply get_sync_Ok in H2 as (-> & _).
  apply bind_Ok in H as (c & w3 & H3 & H).
  apply queue_pop_Ok in H3 as (s & q & Hs' & Hq & ->).
  rewrite Hs in Hs'. inversion Hs'; subst s; clear Hs'.
  apply quiet_add_child in H as (_ & _ & H). simpl in H.
  exists q. rewrite H. apply list_lookup_insert_eq. apply lookup_lt_is_Some.
  eauto.
Qed.

Lemma loop_as_steps t device rest : forall k i locs w w1 this,
  locs !! t = Some (InLoop i device) ->
  syncs w !! t = Some this ->
  (i + k = length (children_ this))%nat ->
  repeat_n k (reduce_child DEBUG cuda_fails t device) w = Ok (tt, w1) ->
  run_threads DEBUG cuda_fails (replicate k t ++ rest) locs w
  = run_threads DEBUG cuda_fails rest (<[t := InLoop (i + k) device]> locs) w1
  /\ exists q, syncs w1 !! t = Some (set_queue this q).
Proof.
  induction k as [|k IH]; intros i locs w w1 this Hloc Hs Hik H; simpl in H.
  - inversion H; subst. simpl. rewrite Nat.add_0_r, list_insert_id by exact Hloc.
    split; [reflexivity|]. exists (queue_ this). rewrite set_queue_same.
    exact Hs.
  - apply bind_Ok in H as ([] & w2 & H2 & H).
    destruct (reduce_child_syncs _ _ _ _ _ Hs H2) as (q & Hs2).
    assert (Hlt : (t < length locs)%nat) by (eapply lookup_lt_Some, Hloc).
    destruct (IH (S i) (<[t := InLoop (S i) device]> locs) w2 w1
                (set_queue this q)) as (Hrun & q' & Hs1).
    + apply list_lookup_insert_eq, Hlt.
    + exact Hs2.
    + simpl. lia.
    + exact H.
    + split.
      * simpl. unfold bind at 1. rewrite Hloc. simpl.
        unfold bind at 1. unfold bind at 1.
        rewrite (get_sync_Some _ _ _ Hs).
        replace (i <? length (children_ this))%nat with true
          by (symmetry; apply Nat.ltb_lt; lia).
        unfold bind at 1. rewrite H2. simpl.
        rewrite Hrun, list_insert_insert_eq.
        replace (S i + k)%nat with (i + S k)%nat by lia. reflexivity.
      * exists q'. exact Hs1.
Qed.

(** Running the thread of worker [t] alone, piece after piece, is calling
    [on_gradients_ready]. *)
Lemma on_gradients_ready_as_steps t locs w w' :
  locs !! t = Some AtEntry ->
  on_gradients_ready DEBUG cuda_fails t t w = Ok (tt, w') ->
  exists n, run_threads DEBUG cuda_fails (replicate n t) locs w
            = Ok (<[t := Returned]> locs, w').
Proof.
  intros Hloc H. unfold on_gradients_ready in H.
  apply bind_Ok in H as (this & w1 & H1 & H).
  apply get_sync_Ok in H1 as (-> & Hs).
  apply bind_Ok in H as (device & w2 & H2 & H).
  pose proof H2 as Hd. apply debug_device_Ok in Hd as ->.
  apply bind_Ok in H as ([] & w3 & H3 & H).
  assert (Hlt : (t < length locs)%nat) by (eapply lookup_lt_Some, Hloc).
  destruct (loop_as_steps t device [t] (length (children_ this)) 0%nat
              (<[t := InLoop 0 device]> locs) w w3 this) as (Hrun & q & Hs3).
  { apply list_lookup_insert_eq, Hlt. }
  { exact Hs. }
  { reflexivity. }
  { exact H3. }
  exists (S (length (children_ this) + 1)).
  rewrite replicate_S, replicate_add. simpl replicate.
  simpl run_threads at 1. unfold bind at 1. rewrite Hloc. simpl.
  unfold bind at 1. unfold bind at 1. rewrite (get_sync_Some _ _ _ Hs).
  unfold bind at 1. rewrite H2. simpl.
  rewrite Hrun. simpl. unfold bind at 1.
  rewrite list_lookup_insert_eq by (rewrite length_insert; exact Hlt). simpl.
  unfold bind at 1. unfold bind at 1. rewrite (get_sync_Some _ _ _ Hs3).
  change (children_ (set_queue this q)) with (children_ this).
  rewrite Nat.ltb_irrefl. unfold bind at 1. rewrite H. simpl.
  rewrite !list_insert_insert_eq. reflexivity.
Qed.

(** A thread that is back in the solver stays there. *)
Lemma returned_stays t : forall n locs w,
  locs !! t = Some Returned ->
  run_threads DEBUG cuda_fails (replicate n t) locs w = Ok (locs, w).
Proof.
  induction n as [|n IH]; intros locs w Hloc; simpl; [reflexivity|].
  unfold bind at 1. rewrite Hloc. simpl. unfold bind, ret.
  rewrite list_insert_id by exact Hloc. apply IH, Hloc.
Qed.

Lemma steps_as_loop t device : forall n i locs w locs' w' this,
  locs !! t = Some (InLoop i device) ->
  syncs w !! t = Some this ->
  run_threads DEBUG cuda_fails (replicate n t) locs w = Ok (locs', w') ->
  locs' !! t = Some Returned ->
  exists w1,
    repeat_n (length (children_ this) - i)
      (reduce_child DEBUG cuda_fails t device) w = Ok (tt, w1)
    /\ send_or_scale DEBUG cuda_fails t device w1 = Ok (tt, w').
Proof.
  induction n as [|n IH]; intros i locs w locs' w' this Hloc Hs H Hret;
    simpl in H.
  - inversion H; subst. rewrite Hloc in Hret. discriminate.
  - assert (Hlt : (t < length locs)%nat) by (eapply lookup_lt_Some, Hloc).
    unfold bind at 1 in H. rewrite Hloc in H. simpl in H.
    apply bind_Ok in H as (at' & w2 & H2 & H).
    apply bind_Ok in H2 as (this' & w3 & H3 & H2).
    apply get_sync_Ok in H3 as (-> & Hs').
    rewrite Hs in Hs'. inversion Hs'; subst this'; clear Hs'.
    destruct (i <? length (children_ this))%nat eqn:Hi.
    + apply Nat.ltb_lt in Hi.
      apply bind_Ok in H2 as ([] & w4 & H4 & H2).
      inversion H2; subst at' w4; clear H2.
      destruct (reduce_child_syncs _ _ _ _ _ Hs H4) as (q & Hs2).
      destruct (IH (S i) (<[t := InLoop (S i) device]> locs) w2 locs' w'
                  (set_queue this q)) as (w1 & Hl & Hr).
      * apply list_lookup_insert_eq, Hlt.
      * exact Hs2.
      * exact H.
      * exact Hret.
      * exists w1. split; [|exact Hr].
        change (children_ (set_queue this q)) with (children_ this) in Hl.
        replace (length (children_ this) - i)%nat
          with (S (length (children_ this) - S i)) by lia.
        simpl. unfold bind at 1. rewrite H4. exact Hl.
    + apply Nat.ltb_ge in Hi.
      apply bind_Ok in H2 as ([] & w4 & H4 & H2).
      inversion H2; subst at' w4; clear H2.
      rewrite returned_stays in H by (apply list_lookup_insert_eq, Hlt).
      inversion H; subst locs' w'; clear H.
      exists w. split; [|exact H4].
      replace (length (children_ this) - i)%nat with 0%nat by lia.
      reflexivity.
Qed.

(** And the other way round: if the thread of worker [t], running alone,
    has come back to the solver, then the pieces it ran are one call of
    [on_gradients_ready], with the same final state. *)
Lemma steps_as_on_gradients_ready t n locs w locs' w' :
  locs !! t = Some AtEntry ->
  run_threads DEBUG cuda_fails (replicate n t) locs w = Ok (locs', w') ->
  locs' !! t = Some Returned ->
  on_gradients_ready DEBUG cuda_fails t t w = Ok (tt, w').
Proof.
  intros Hloc H Hret. destruct n as [|n]; simpl in H.
  { inversion H; subst. rewrite Hloc in Hret. discriminate. }
  assert (Hlt : (t < length locs)%nat) by (eapply lookup_lt_Some, Hloc).
  unfold bind at 1 in H. rewrite Hloc in H. simpl in H.
  apply bind_Ok in H as (at' & w2 & H2 & H).
  apply bind_Ok in H2 as (this & w3 & H3 & H2).
  apply get_sync_Ok in H3 as (-> & Hs).
  apply bind_Ok in H2 as (device & w4 & H4 & H2).
  pose proof H4 as Hd. apply debug_device_Ok in Hd as ->.
  inversion H2; subst at' w2; clear H2.
  destruct (steps_as_loop t device n 0%nat (<[t := InLoop 0 device]> locs)
              w locs' w' this) as (w1 & Hl & Hr).
  { apply list_lookup_insert_eq, Hlt. }
  { exact Hs. }
  { exact H. }
  { exact Hret. }
  rewrite Nat.sub_0_r in Hl.
  unfold on_gradients_ready.
  rewrite (bind_eq _ _ _ _ _ (get_sync_Some _ _ _ Hs)).
  rewrite (bind_eq _ _ _ _ _ H4).
  rewrite (bind_eq _ _ _ _ _ Hl). exact Hr.
Qed.

End StepsOfCall.


(** *** An example: three workers, the root with two children *)

(** Devices 0, 1, 2; buffers of 4 elements.  Allocations 0-2 are the
    parameter buffers, 3-5 the gradient buffers holding the local gradients
    [1,1,1,1], [2,2,2,2] and [3,3,3,3], and 6-7 the staging buffers of
    workers 1 and 2, on the root's device. *)
Definition example_solver (device : Z) : Solver :=
  {| param := {| device_id := device; random_seed := -1; max_iter := 10 |};
     net_params := []; iter := 0 |}.

Definition example_worker (i : nat) (parent : option nat) (children : list nat)
    (staging : option nat) : P2PSync :=
  {| size_ := 4;
     data_ := mkPointer i 0;
     diff_ := mkPointer (3 + i) 0;
     parent_ := parent;
     children_ := children;
     queue_ := [];
     initial_iter_ := 0;
     solver_ := example_solver (Z.of_nat i);
     parent_grads_ := option_map (fun b => mkPointer b 0) staging |}.

Definition example_memory : memory :=
  [ Some (mkAllocation 0 (repeat (fl 7) 4));
    Some (mkAllocation 1 (repeat Dtype_zero 4));
    Some (mkAllocation 2 (repeat Dtype_zero 4));
    Some (mkAllocation 0 (repeat (fl 1) 4));
    Some (mkAllocation 1 (repeat (fl 2) 4));
    Some (mkAllocation 2 (repeat (fl 3) 4));
    Some (mkAllocation 0 (repeat Dtype_zero 4));
    Some (mkAllocation 0 (repeat Dtype_zero 4)) ].

Definition example_world : World :=
  {| heap := {| mem := example_memory; store := [] |};
     active_device := fun t => Z.of_nat t;
     peer_access := [];
     default_stream := [];
     syncs := [ example_worker 0 None [1; 2]%nat None;
                example_worker 1 (Some 0%nat) [] (Some 6%nat);
                example_worker 2 (Some 0%nat) [] (Some 7%nat) ];
     root_solver := true;
     solver_count := 3;
     trace := [] |}.

(** A runtime that reports no error. *)
Definition no_error (c : CudaCall) (w : World) : bool := false.

Lemma example_world_tree : tree example_world 4.
Proof.
  split.
  - eexists. split; reflexivity.
  - intros i s Hi. destruct i as [|[|[|i]]]; simpl in Hi; inversion Hi; subst;
      simpl; (split; [apply (bool_decide_unpack _); vm_compute; reflexivity|]);
      intros c; split.
    + intros Hc. apply elem_of_cons in Hc as [->|Hc];
        [eexists; split; reflexivity|].
      apply elem_of_cons in Hc as [->|Hc]; [eexists; split; reflexivity|].
      inversion Hc.
    + intros (cs & Hcs & Hp).
      destruct c as [|[|[|c]]]; simpl in Hcs; inversion Hcs; subst;
        simpl in Hp; try discriminate.
      * left.
      * right. left.
    + intros Hc. inversion Hc.
    + intros (cs & Hcs & Hp).
      destruct c as [|[|[|c]]]; simpl in Hcs; inversion Hcs; subst;
        simpl in Hp; discriminate.
    + intros Hc. inversion Hc.
    + intros (cs & Hcs & Hp).
      destruct c as [|[|[|c]]]; simpl in Hcs; inversion Hcs; subst;
        simpl in Hp; discriminate.
  - intros i Hi. simpl in Hi. destruct i as [|[|[|i]]]; [| | |lia].
    + constructor.
    + eapply (reach_child _ 0%nat); [constructor|reflexivity|]. simpl. left.
    + eapply (reach_child _ 0%nat); [constructor|reflexivity|]. simpl.
      right. left.
  - intros i s Hi. destruct i as [|[|[|i]]]; simpl in Hi; inversion Hi;
      reflexivity.
  - apply (bool_decide_unpack _). vm_compute. reflexivity.
  - intros i s Hi. destruct i as [|[|[|i]]]; simpl in Hi; inversion Hi; subst;
      simpl; (split; [eexists; reflexivity|]); intros g Hg; inversion Hg;
      subst; eexists; reflexivity.
  - split; [reflexivity|]. intros i s Hi.
    destruct i as [|[|[|i]]]; simpl in Hi; inversion Hi; reflexivity.
Qed.








(** The same three workers in a chain: 0 is the parent of 1, and 1 the
    parent of 2. *)
Definition example_chain : World :=
  with_syncs example_world
    [ example_worker 0 None [1%nat] None;
      example_worker 1 (Some 0%nat) [2%nat] (Some 6%nat);
      example_worker 2 (Some 1%nat) [] (Some 7%nat) ].

(** The world with the queue of worker [i] holding [q]. *)
Definition with_queue (w : World) (i : nat) (q : list nat) : World :=
  with_syncs w (alter (fun s => set_queue s q) i (syncs w)).


Lemma unexpected_token_is_fatal_witness :
  (exists f, on_start true no_error 2 2 (with_queue example_chain 2 [0%nat])
             = Fatal f)
  /\ (exists f, on_gradients_ready (format := binary32) true no_error 0 0
                  (with_queue example_chain 0 [2%nat]) = Fatal f).
Proof.
  split.
  - apply (proj1 (unexpected_token_is_fatal (format := binary32) true no_error 2 2
                    (set_queue (example_worker 2 (Some 1%nat) [] (Some 7%nat))
                       [0%nat])
                    (with_queue example_chain 2 [0%nat]) eq_refl)
             1%nat 0%nat []); [reflexivity | reflexivity | lia].
  - apply (proj2 (unexpected_token_is_fatal (format := binary32) true no_error 0 0
                    (set_queue (example_worker 0 None [1%nat] None) [2%nat])
                    (with_queue example_chain 0 [2%nat]) eq_refl)
             eq_refl [] 2%nat []); [reflexivity | simpl; lia |].
    simpl. lia.
Defined.

(** C8, as stated, fails for a build without [DEBUG]: the root of the chain
    has the one child 1; with the token of worker 2 in its queue,
    [on_gradients_ready] does not abort: it adds the staged gradients of
    worker 2 to its own, scales, and returns. *)
Lemma token_not_checked_without_DEBUG :
  exists this w',
    syncs (with_queue example_chain 0 [2%nat]) !! 0%nat = Some this
    /\ queue_ this = [2%nat]
    /\ ~ In 2%nat (children_ this)
    /\ on_gradients_ready (format := binary32) false no_error 0 0
         (with_queue example_chain 0 [2%nat])
       = Ok (tt, w')
    /\ mem_read (mem (heap w')) (diff_ this) 4
       = Some (repeat
                 (Dtype_mul (format := binary32)
                    (Dtype_of_double (format := binary32)
                       (double_reciprocal 3))
                    (Dtype_add (format := binary32) Dtype_zero (fl 1)))
                 4).
Proof.
  eexists _, _. split; [reflexivity|]. split; [reflexivity|].
  split; [simpl; lia|]. split; vm_compute; reflexivity.
Qed.

(** Building the first two workers of a run, then destroying the second.
    The controlling thread 0 starts on device 2; the root solver's net has
    the two tensors of [Mirror.example_blobs]; a new solver gets tensors of
    the same sizes on fresh storage. *)
Definition example_root_solver : Solver :=
  {| param := {| device_id := 0; random_seed := -1; max_iter := 10 |};
     net_params := example_blobs; iter := 0 |}.

Definition example_new_Solver (prm : SolverParameter) : M Solver :=
  fun w =>
    let n := length (store (heap w)) in
    let fresh := [ mkSyncedMemory (repeat (fl 1) 4) None None;
                   mkSyncedMemory (repeat Dtype_zero 4) None None;
                   mkSyncedMemory (repeat (fl 2) 6) None None;
                   mkSyncedMemory (repeat Dtype_zero 6) None None ] in
    Ok ({| param := prm;
           net_params := [mkBlob 4 n (n + 1); mkBlob 6 (n + 2) (n + 3)];
           iter := 0 |},
        with_heap w {| mem := mem (heap w);
                       store := store (heap w) ++ fresh |}).

Definition construction_world : World :=
  {| heap := {| mem := []; store := store example_heap |};
     active_device := fun t => 2;
     peer_access := [];
     default_stream := [];
     syncs := [];
     root_solver := true;
     solver_count := 2;
     trace := [] |}.

Lemma constructors_restore_device_witness :
  exists w1 w2 w3 root child,
    P2PSync_ctor no_error (fun _ _ => 1) Dtype_zero example_new_Solver 0
      example_root_solver None (param example_root_solver) construction_world
    = Ok (root, w1)
    /\ active_device w1 0%nat = 2
    /\ P2PSync_ctor no_error (fun _ _ => 1) Dtype_zero example_new_Solver 0
         example_root_solver (Some root)
         {| device_id := 1; random_seed := -1; max_iter := 10 |} w1
       = Ok (child, w2)
    /\ active_device w2 0%nat = 2
    /\ P2PSync_dtor no_error (fun _ _ => 1) 0 child w2 = Ok (tt, w3)
    /\ active_device w3 0%nat = 2.
Proof.
  eassert (H1 : P2PSync_ctor no_error (fun _ _ => 1) Dtype_zero example_new_Solver 0
                  example_root_solver None (param example_root_solver)
                  construction_world = Ok (_, _))
    by (vm_compute; reflexivity).
  match type of H1 with _ = Ok (?root, ?w1) =>
    eassert (H2 : P2PSync_ctor no_error (fun _ _ => 1) Dtype_zero example_new_Solver 0
                    example_root_solver (Some root)
                    {| device_id := 1; random_seed := -1; max_iter := 10 |} w1
                  = Ok (_, _))
      by (vm_compute; reflexivity)
  end.
  match type of H2 with _ = Ok (?child, ?w2) =>
    eassert (H3 : P2PSync_dtor no_error (fun _ _ => 1) 0 child w2 = Ok (tt, _))
      by (vm_compute; reflexivity)
  end.
  eexists _, _, _, _, _.
  split; [exact H1|]. split.
  { rewrite (proj1 (proj1 (proj2 (constructors_restore_device no_error
               (fun _ _ => 1) Dtype_zero example_new_Solver 0 _ _)) _ _ _ _ H1)).
    reflexivity. }
  split; [exact H2|]. split.
  { rewrite (proj1 (proj1 (proj2 (constructors_restore_device no_error
               (fun _ _ => 1) Dtype_zero example_new_Solver 0 _ _)) _ _ _ _ H2)).
    reflexivity. }
  split; [exact H3|].
  rewrite (proj1 (proj2 (proj2 (constructors_restore_device no_error
             (fun _ _ => 1) Dtype_zero example_new_Solver 0 _ _)) _ H3)).
  reflexivity.
Defined.

(** *** What the constructors build *)

(** The device an allocation lives on ([attributes.device] of a pointer into
    it). *)
Definition device_of (m : memory) (blk : nat) : option Z :=
  match m !! blk with
  | Some (Some a) => Some (on_device a)
  | _ => None
  end.

Ltac elems :=
  repeat (rewrite ?NoDup_cons, ?NoDup_nil, ?not_elem_of_cons, ?elem_of_cons,
            ?elem_of_nil in * );
  intuition (auto; congruence).

Section Construction.

Variable cuda_fails : CudaCall -> World -> bool.
Variable can_access_peer : Z -> Z -> Z.
Variable uninitialised : Dtype.
Variable new_Solver : SolverParameter -> M Solver.

Lemma cudaSetDevice_world t d w u w' :
  cudaSetDevice cuda_fails t d w = Ok (u, w') ->
  w' = with_trace
         (with_active_device w
            (fun t' => if (t' =? t)%nat then d else active_device w t'))
         (trace w ++ [EvSetDevice t d]).
Proof.
  unfold cudaSetDevice, bind, cuda, modify, emit, modify.
  destruct (cuda_fails _ w); [discriminate|]. intros H. inversion H.
  reflexivity.
Qed.

Lemma cudaMalloc_Ok t n w p w' :
  cudaMalloc cuda_fails uninitialised t n w = Ok (p, w') ->
  p = mkPointer (length (mem (heap w))) 0
  /\ w' = with_mem w
            (mem (heap w)
             ++ [Some {| on_device := active_device w t;
                         cells := repeat uninitialised (Z.to_nat n) |}]).
Proof.
  unfold cudaMalloc, bind, cuda, get_world, modify, ret.
  destruct (cuda_fails _ w); [discriminate|]. intros H. inversion H. auto.
Qed.

Lemma cudaFree_Ok p w u w' :
  cudaFree cuda_fails p w = Ok (u, w') ->
  (exists a, mem (heap w) !! block p = Some (Some a)) /\ offset p = 0
  /\ w' = with_mem w (<[block p := None]> (mem (heap w))).
Proof.
  unfold cudaFree, bind, cuda, get_world, modify, fail.
  destruct (cuda_fails _ w); [discriminate|].
  destruct (mem (heap w) !! block p) as [[a|]|]; try discriminate.
  destruct (offset p =? 0) eqn:E; [|discriminate].
  apply Z.eqb_eq in E. intros H. inversion H.
  split; [eauto|]. auto.
Qed.

Lemma on_heap_Ok f w u w' :
  on_heap f w = Ok (u, w') -> exists h, f (heap w) = Ok h /\ w' = with_heap w h.
Proof.
  unfold on_heap. destruct (f (heap w)) as [h| |]; try discriminate.
  intros H. inversion H. eauto.
Qed.

Lemma device_of_write m p vals m' blk :
  mem_write m p vals = Some m' -> device_of m' blk = device_of m blk.
Proof.
  unfold mem_write, device_of.
  destruct (m !! block p) as [[a|]|] eqn:Hm; try discriminate.
  destruct (_ && _); [|discriminate]. intros H. inversion H; subst.
  destruct (decide (blk = block p)) as [->|Hne].
  - rewrite list_lookup_insert_eq by (apply lookup_lt_is_Some; eauto).
    rewrite Hm. reflexivity.
  - rewrite list_lookup_insert_ne by auto. reflexivity.
Qed.

Lemma length_write m p vals m' :
  mem_write m p vals = Some m' -> length m' = length m.
Proof.
  unfold mem_write.
  destruct (m !! block p) as [[a|]|]; try discriminate.
  destruct (_ && _); [|discriminate]. intros H. inversion H.
  apply length_insert.
Qed.

Lemma copy_loop_devices : forall blobs ptr h ptr' h',
  apply_loop copy blobs ptr h = Ok (ptr', h') ->
  length (mem h') = length (mem h)
  /\ forall blk, device_of (mem h') blk = device_of (mem h) blk.
Proof.
  induction blobs as [|b rest IH]; intros ptr h ptr' h' H; simpl in H.
  - inversion H; subst. auto.
  - apply rbind_Ok in H as (h1 & H1 & H). simpl in H1.
    apply caffe_copy_Ok in H1 as (s0 & _ & _ & Hw & _).
    apply IH in H as (Hl & Hd). split.
    + rewrite Hl. eapply length_write, Hw.
    + intros blk. rewrite Hd. eapply device_of_write, Hw.
Qed.

Lemma mem_read_app_l (m extra : memory) q n :
  (block q < length m)%nat -> mem_read (m ++ extra) q n = mem_read m q n.
Proof.
  intros Hlt. unfold mem_read. rewrite lookup_app_l by exact Hlt. reflexivity.
Qed.

Lemma device_of_app_l (m extra : memory) blk :
  (blk < length m)%nat -> device_of (m ++ extra) blk = device_of m blk.
Proof.
  intros Hlt. unfold device_of. rewrite lookup_app_l by exact Hlt. reflexivity.
Qed.

Lemma device_of_fresh (m : memory) a :
  device_of (m ++ [Some a]) (length m) = Some (on_device a).
Proof.
  unfold device_of. rewrite lookup_app_r by lia. rewrite Nat.sub_diag.
  reflexivity.
Qed.

(** X14.  What the [GPUParams] constructor builds.  When it returns, [size_]
    is [total_size] of the root solver's tensors and equals the sum of their
    counts; [data_] and [diff_] point to the start of two new allocations on
    the requested device; the parameter buffer holds the current host values
    of every tensor at the tensor's offset; the gradient buffer is [size_]
    zeros; the storage objects are not rewired; and every allocation that
    existed before is as it was. *)
Theorem GPUParams_ctor_contents (thread : nat) (root : Solver) (device : Z)
    (w w' : World) (size : Z) (d_ g_ : pointer) :
  GPUParams_ctor cuda_fails uninitialised thread root device w
  = Ok ((size, d_, g_), w') ->
  size = total_size (net_params root)
  /\ sum_counts (net_params root) = size
  /\ d_ = mkPointer (length (mem (heap w))) 0
  /\ g_ = mkPointer (S (length (mem (heap w)))) 0
  /\ device_of (mem (heap w')) (block d_) = Some device
  /\ device_of (mem (heap w')) (block g_) = Some device
  /\ (forall i b s, net_params root !! i = Some b ->
        store (heap w) !! data b = Some s ->
        mem_read (mem (heap w')) (ptr_add d_ (offset_of (net_params root) i))
          (count b)
        = Some (take (Z.to_nat (count b)) (host s)))
  /\ mem_read (mem (heap w')) g_ size = Some (repeat Dtype_zero (Z.to_nat size))
  /\ store (heap w') = store (heap w)
  /\ (forall q n, (block q < length (mem (heap w)))%nat ->
        mem_read (mem (heap w')) q n = mem_read (mem (heap w)) q n).
Proof.
  unfold GPUParams_ctor. intros H.
  apply bind_Ok in H as (d0 & w1 & H1 & H).
  apply cudaGetDevice_Ok in H1 as (-> & ->).
  apply bind_Ok in H as ([] & w2 & H2 & H).
  apply cudaSetDevice_world in H2.
  apply bind_Ok in H as (p1 & w3 & H3 & H).
  apply cudaMalloc_Ok in H3 as (-> & Hw3).
  apply bind_Ok in H as ([] & w4 & H4 & H).
  apply on_heap_Ok in H4 as (h4 & Hcopy & Hw4).
  apply bind_Ok in H as (p2 & w5 & H5 & H).
  apply cudaMalloc_Ok in H5 as (-> & Hw5).
  apply bind_Ok in H as ([] & w6 & H6 & H).
  apply bind_Ok in H as ([] & w7 & H7 & H).
  apply cudaSetDevice_world in H7.
  inversion H; subst size d_ g_ w'; clear H.
  unfold caffe_gpu_set in H6.
  destruct (0 <=? total_size (net_params root)) eqn:Hsz; [|discriminate].
  apply Z.leb_le in Hsz.
  apply write_Ok in H6 as (m6 & Hw6 & Hw6').
  set (size := total_size (net_params root)) in *.
  set (m := mem (heap w)) in *.
  assert (Hm2 : mem (heap w2) = m /\ store (heap w2) = store (heap w)
                /\ active_device w2 thread = device).
  { subst w2. simpl. rewrite Nat.eqb_refl. auto. }
  destruct Hm2 as (Hm2 & Hs2 & Ha2).
  assert (Hm3 : mem (heap w3)
                = m ++ [Some {| on_device := device;
                                cells := repeat uninitialised (Z.to_nat size) |}]
                /\ store (heap w3) = store (heap w)
                /\ active_device w3 thread = device).
  { subst w3. simpl. rewrite Hm2, Ha2. auto. }
  destruct Hm3 as (Hm3 & Hs3 & Ha3).
  assert (Hsum : sum_counts (net_params root) = size).
  { unfold apply_buffers in Hcopy.
    apply rbind_Ok in Hcopy as ([p h] & Hloop & Hc).
    apply rbind_Ok in Hc as ([] & Hchk & _).
    apply CHECK_Ok, Z.eqb_eq in Hchk.
    apply apply_loop_ptr in Hloop as ->. rewrite ptr_diff_add in Hchk. auto. }
  apply apply_buffers_Ok in Hcopy as (ptr' & Hloop).
  pose proof (copy_loop_devices _ _ _ _ _ Hloop) as (Hlen4 & Hdev4).
  apply copy_loop_content in Hloop as (Hst4 & Hread4 & _ & Hother4).
  rewrite Hm2 in Hw3. fold m in Hw3.
  assert (Hlen3 : length (mem (heap w3)) = S (length m)).
  { rewrite Hm3, length_app. simpl. lia. }
  assert (Hm5 : mem (heap w5)
                = mem h4 ++ [Some {| on_device := device;
                                     cells := repeat uninitialised (Z.to_nat size) |}]
                /\ store (heap w5) = store (heap w)).
  { subst w5 w4. simpl. rewrite Ha3. split; [reflexivity|]. congruence. }
  destruct Hm5 as (Hm5 & Hs5).
  assert (Hp2 : length (mem (heap w4)) = S (length m)).
  { subst w4. simpl. rewrite Hlen4. exact Hlen3. }
  rewrite Hp2 in *.
  assert (Hfinal : mem (heap w7) = m6 /\ store (heap w7) = store (heap w)).
  { subst w7 w6. simpl. auto. }
  destruct Hfinal as (Hm7 & Hs7).
  assert (Hl4 : length (mem h4) = S (length m)) by congruence.
  rewrite Hm2 in Hread4, Hother4 |- *.
  repeat split; auto.
  - rewrite Hm7. simpl. rewrite (device_of_write _ _ _ _ _ Hw6), Hm5.
    rewrite device_of_app_l by lia. rewrite Hdev4, Hm3.
    apply device_of_fresh.
  - rewrite Hm7. simpl. rewrite (device_of_write _ _ _ _ _ Hw6), Hm5.
    rewrite <- Hl4. apply device_of_fresh.
  - intros i b s Hi Hs. rewrite Hm7.
    rewrite (mem_write_read_other _ _ _ _ _ _ Hw6) by (simpl; lia).
    rewrite Hm5, mem_read_app_l by (simpl; lia).
    apply Hread4; [exact Hi|]. rewrite Hs3. exact Hs.
  - rewrite Hm7.
    replace size with (Z.of_nat (length (repeat Dtype_zero (Z.to_nat size)))) at 1
      by (rewrite repeat_length; lia).
    eapply mem_write_read_same, Hw6.
  - intros q n Hq. rewrite Hm7.
    rewrite (mem_write_read_other _ _ _ _ _ _ Hw6) by (simpl; lia).
    rewrite Hm5, mem_read_app_l by lia.
    rewrite Hother4 by (simpl; lia).
    rewrite Hm3. apply mem_read_app_l. exact Hq.
Qed.

Lemma cudaDeviceCanAccessPeer_Ok a b w access w' :
  cudaDeviceCanAccessPeer cuda_fails can_access_peer a b w = Ok (access, w') ->
  w' = w /\ access = can_access_peer a b.
Proof.
  unfold cudaDeviceCanAccessPeer, bind, cuda, ret.
  destruct (cuda_fails _ w); [discriminate|]. intros H. inversion H. auto.
Qed.

Lemma cudaDeviceEnablePeerAccess_Ok t peer w u w' :
  cudaDeviceEnablePeerAccess cuda_fails t peer w = Ok (u, w') ->
  w' = with_peer_access w ((active_device w t, peer) :: peer_access w).
Proof.
  unfold cudaDeviceEnablePeerAccess, bind, cuda, modify.
  destruct (cuda_fails _ w); [discriminate|]. intros H. inversion H. auto.
Qed.

Lemma cudaDeviceDisablePeerAccess_Ok t peer w u w' :
  cudaDeviceDisablePeerAccess cuda_fails t peer w = Ok (u, w') ->
  w' = with_peer_access w
         (filter (fun dp => dp <> (active_device w t, peer)) (peer_access w)).
Proof.
  unfold cudaDeviceDisablePeerAccess, bind, cuda, modify.
  destruct (cuda_fails _ w); [discriminate|]. intros H. inversion H. auto.
Qed.

(** The receiving buffer: a new allocation of [size] elements on the
    parent's device. *)
Lemma alloc_parent_grads_Ok thread self size parent w pg w' :
  alloc_parent_grads cuda_fails can_access_peer uninitialised
    thread self size parent w = Ok (pg, w') ->
  exists ps,
    syncs w !! parent = Some ps
    /\ syncs w' = syncs w
    /\ store (heap w') = store (heap w)
    /\ pg = mkPointer (length (mem (heap w))) 0
    /\ mem (heap w')
       = mem (heap w)
         ++ [Some {| on_device := device_id (param (solver_ ps));
                     cells := repeat uninitialised (Z.to_nat size) |}]
    /\ (can_access_peer self (device_id (param (solver_ ps))) <> 0 ->
        (active_device w thread, device_id (param (solver_ ps)))
        ∈ peer_access w').
Proof.
  unfold alloc_parent_grads. intros H.
  apply bind_Ok in H as (ps & w1 & H1 & H).
  apply get_sync_Ok in H1 as (-> & Hps).
  apply bind_Ok in H as (access & w2 & H2 & H).
  apply cudaDeviceCanAccessPeer_Ok in H2 as (-> & ->).
  apply bind_Ok in H as ([] & w3 & H3 & H).
  apply bind_Ok in H as ([] & w4 & H4 & H).
  apply cudaSetDevice_world in H4.
  apply bind_Ok in H as (p & w5 & H5 & H).
  apply cudaMalloc_Ok in H5 as (-> & Hw5).
  apply bind_Ok in H as ([] & w6 & H6 & H).
  apply cudaSetDevice_world in H6.
  inversion H; subst pg w'; clear H.
  set (peer := device_id (param (solver_ ps))) in *.
  assert (H3' : heap w3 = heap w /\ syncs w3 = syncs w
                /\ (can_access_peer self peer <> 0 ->
                    (active_device w thread, peer) ∈ peer_access w3)).
  { destruct (can_access_peer self peer =? 0) eqn:E; simpl in H3.
    - inversion H3; subst w3. repeat split; auto.
      intros Hne. apply Z.eqb_eq in E. contradiction.
    - apply cudaDeviceEnablePeerAccess_Ok in H3 as ->. simpl.
      repeat split; auto. intros _. apply list_elem_of_here. }
  destruct H3' as (Hh3 & Hs3 & Hp3).
  exists ps. subst w6 w5 w4. simpl. rewrite Nat.eqb_refl, Hh3, Hs3.
  repeat split; auto.
Qed.

(** The buffers of the [GPUParams] constructor are the next two
    allocations. *)
Lemma GPUParams_ctor_pointers thread root device w size d_ g_ w' :
  GPUParams_ctor cuda_fails uninitialised thread root device w
  = Ok ((size, d_, g_), w') ->
  size = total_size (net_params root)
  /\ d_ = mkPointer (length (mem (heap w))) 0
  /\ g_ = mkPointer (S (length (mem (heap w)))) 0
  /\ length (mem (heap w')) = S (S (length (mem (heap w)))).
Proof.
  unfold GPUParams_ctor. intros H.
  apply bind_Ok in H as (d0 & w1 & H1 & H).
  apply cudaGetDevice_Ok in H1 as (-> & ->).
  apply bind_Ok in H as ([] & w2 & H2 & H).
  apply cudaSetDevice_world in H2.
  apply bind_Ok in H as (p1 & w3 & H3 & H).
  apply cudaMalloc_Ok in H3 as (-> & Hw3).
  apply bind_Ok in H as ([] & w4 & H4 & H).
  apply on_heap_Ok in H4 as (h4 & Hcopy & Hw4).
  apply bind_Ok in H as (p2 & w5 & H5 & H).
  apply cudaMalloc_Ok in H5 as (-> & Hw5).
  apply bind_Ok in H as ([] & w6 & H6 & H).
  apply bind_Ok in H as ([] & w7 & H7 & H).
  apply cudaSetDevice_world in H7.
  inversion H; subst size d_ g_ w'; clear H.
  unfold caffe_gpu_set in H6.
  destruct (0 <=? total_size (net_params root)); [|discriminate].
  apply write_Ok in H6 as (m6 & Hw6 & Hw6').
  apply apply_buffers_Ok in Hcopy as (ptr' & Hloop).
  pose proof (copy_loop_devices _ _ _ _ _ Hloop) as (Hlen4 & _).
  assert (Hl3 : length (mem (heap w3)) = S (length (mem (heap w)))).
  { subst w3 w2. simpl. rewrite length_app. simpl. lia. }
  assert (Hl4 : length (mem (heap w4)) = S (length (mem (heap w)))).
  { subst w4. simpl. rewrite Hlen4. exact Hl3. }
  assert (Hl5 : length (mem (heap w5)) = S (S (length (mem (heap w))))).
  { subst w5. simpl. rewrite length_app, Hl4. simpl. lia. }
  split; [reflexivity|]. split; [subst w2; reflexivity|].
  split; [rewrite Hl4; reflexivity|].
  subst w7 w6. simpl. rewrite (length_write _ _ _ _ Hw6). exact Hl5.
Qed.

(** X15.  The object a [P2PSync] constructor builds.  The new worker has
    the parent it was given, no children yet and an empty queue, the root
    solver's iteration count and the mirror size of the root solver's
    tensors; its parameter and gradient buffers are the two allocations that
    follow those of the heap before the call.  Without a parent it runs the
    root solver itself, has no receiving buffer, and the workers built before
    are untouched.  With a parent, its receiving buffer [parent_grads_] is
    the last allocation of the heap after the call, of [size_] elements on
    the device of the parent's solver, and peer access to that device is
    enabled when the runtime reports it possible; and if [new Solver] never
    shortens the table of allocations, the receiving buffer is a new
    allocation: no allocation of the heap before the call, live or freed, has
    its address, and it is neither the parameter nor the gradient buffer. *)
Theorem P2PSync_ctor_object (thread : nat) (root : Solver)
    (parent : option nat) (prm : SolverParameter) (w w' : World) (this : nat) :
  P2PSync_ctor cuda_fails can_access_peer uninitialised new_Solver
    thread root parent prm w = Ok (this, w') ->
  exists ss obj,
    syncs w' = ss ++ [obj] /\ this = length ss
    /\ parent_ obj = parent /\ children_ obj = [] /\ queue_ obj = []
    /\ initial_iter_ obj = iter root
    /\ size_ obj = total_size (net_params root)
    /\ data_ obj = mkPointer (length (mem (heap w))) 0
    /\ diff_ obj = mkPointer (S (length (mem (heap w)))) 0
    /\ match parent with
       | None =>
           ss = syncs w /\ solver_ obj = root /\ parent_grads_ obj = None
       | Some p =>
           exists ps pg a,
             ss !! p = Some ps
             /\ parent_grads_ obj = Some pg /\ offset pg = 0
             /\ mem (heap w') !! block pg = Some (Some a)
             /\ on_device a = device_id (param (solver_ ps))
             /\ length (cells a) = Z.to_nat (size_ obj)
             /\ (can_access_peer (device_id prm) (device_id (param (solver_ ps)))
                 <> 0 ->
                 exists d, (d, device_id (param (solver_ ps))) ∈ peer_access w')
             /\ length (mem (heap w')) = S (block pg)
             /\ ((forall q v s v', new_Solver q v = Ok (s, v') ->
                    (length (mem (heap v)) <= length (mem (heap v')))%nat) ->
                 mem (heap w) !! block pg = None
                 /\ block pg <> block (data_ obj)
                 /\ block pg <> block (diff_ obj))
       end.
Proof.
  unfold P2PSync_ctor. intros H.
  apply bind_Ok in H as ([[size d_] g_] & w1 & H1 & H).
  pose proof (GPUParams_ctor_device _ _ _ _ _ _ _ _ H1) as (_ & _ & Hs1).
  apply GPUParams_ctor_pointers in H1 as (Hsize & Hd_ & Hg_ & Hl1).
  apply bind_Ok in H as (initial & w2 & H2 & H).
  apply cudaGetDevice_Ok in H2 as (-> & ->).
  apply bind_Ok in H as ([] & w3 & H3 & H).
  apply cudaSetDevice_world in H3.
  apply bind_Ok in H as (solver & w4 & H4 & H).
  apply bind_Ok in H as ([] & w5 & H5 & H).
  apply on_heap_Ok in H5 as (h5 & Hcfg & Hw5).
  apply configure_mem in Hcfg.
  apply bind_Ok in H as (pg & w6 & H6 & H).
  apply bind_Ok in H as ([] & w7 & H7 & H).
  apply cudaSetDevice_world in H7.
  apply bind_Ok in H as (w8 & w9 & H8 & H).
  inversion H8; subst w8 w9; clear H8.
  apply bind_Ok in H as ([] & w10 & H10 & H).
  inversion H10; subst w10; clear H10.
  inversion H; subst this w'; clear H. simpl.
  eexists _, _. split; [reflexivity|]. split; [reflexivity|]. simpl.
  do 7 (split; [auto|]).
  destruct parent as [p|].
  - apply bind_Ok in H6 as (pg' & w6' & H6 & Hr).
    inversion Hr; subst pg w6'; clear Hr.
    apply alloc_parent_grads_Ok in H6 as (ps & Hps & Hs6 & _ & -> & Hm6 & Hp6).
    exists ps. eexists _, _. subst w7. simpl. rewrite Hs6.
    split; [exact Hps|]. split; [reflexivity|]. split; [reflexivity|].
    simpl. rewrite Hm6. split.
    { rewrite lookup_app_r by lia. rewrite Nat.sub_diag. reflexivity. }
    simpl. rewrite repeat_length.
    split; [reflexivity|]. split; [auto|]. split.
    { intros Hne. eexists. apply Hp6. exact Hne. }
    split; [rewrite length_app; simpl; lia|].
    intros Hgrow.
    apply bind_Ok in H4 as ([] & wa & Ha & H4).
    inversion Ha; subst wa; clear Ha.
    apply bind_Ok in H4 as (s & wb & Hb & H4).
    apply Hgrow in Hb.
    apply bind_Ok in H4 as ([] & wc & Hc & H4).
    inversion Hc; subst wc; clear Hc.
    inversion H4; subst solver w4; clear H4.
    assert (Hl5 : (S (S (length (mem (heap w)))) <= length (mem (heap w5)))%nat).
    { subst w5. simpl. rewrite Hcfg. simpl. subst w3. simpl in Hb. lia. }
    subst d_ g_. simpl. repeat split; try lia.
    apply lookup_ge_None. lia.
  - inversion H4; subst solver w4; clear H4.
    inversion H6; subst pg w6; clear H6.
    subst w7 w5 w3. simpl. auto.
Qed.

(** X16.  What the destructor frees.  When [~P2PSync] and [~GPUParams] have
    run, the worker's parameter and gradient buffers are freed, and so is its
    receiving buffer when it has a parent; these were live allocations in
    different blocks; no other allocation, no storage object and no worker
    object has changed. *)
Theorem P2PSync_dtor_frees (thread this : nat) (w w' : World) :
  P2PSync_dtor cuda_fails can_access_peer thread this w = Ok (tt, w') ->
  exists s freed,
    syncs w !! this = Some s
    /\ freed = match parent_ s, parent_grads_ s with
               | Some _, Some pg => [block pg]
               | _, _ => []
               end ++ [block (data_ s); block (diff_ s)]
    /\ (parent_ s <> None -> is_Some (parent_grads_ s))
    /\ NoDup freed
    /\ (forall blk, blk ∈ freed ->
          (exists a, mem (heap w) !! blk = Some (Some a))
          /\ mem (heap w') !! blk = Some None)
    /\ (forall blk, blk ∉ freed -> mem (heap w') !! blk = mem (heap w) !! blk)
    /\ store (heap w') = store (heap w)
    /\ syncs w' = syncs w.
Proof.
  unfold P2PSync_dtor. intros H.
  apply bind_Ok in H as (s & w1 & H1 & H).
  apply get_sync_Ok in H1 as (-> & Hs).
  apply bind_Ok in H as (initial & w2 & H2 & H).
  apply cudaGetDevice_Ok in H2 as (-> & ->).
  apply bind_Ok in H as ([] & w3 & H3 & H).
  apply cudaSetDevice_world in H3.
  apply bind_Ok in H as ([] & w4 & H4 & H).
  apply bind_Ok in H as ([] & w5 & H5 & H).
  apply cudaSetDevice_world in H5.
  apply bind_Ok in H as ([] & w6 & H6 & H).
  apply cudaFree_Ok in H6 as ((a6 & Ha6) & _ & Hw6).
  apply cudaFree_Ok in H as ((a7 & Ha7) & _ & Hw7).
  set (m := mem (heap w)) in *.
  assert (H4' : store (heap w4) = store (heap w) /\ syncs w4 = syncs w
                /\ (parent_ s <> None -> is_Some (parent_grads_ s))
                /\ match parent_ s, parent_grads_ s with
                   | Some _, Some pg =>
                       (exists a, m !! block pg = Some (Some a))
                       /\ mem (heap w4) = <[block pg := None]> m
                   | Some _, None => False
                   | None, _ => mem (heap w4) = m
                   end).
  { destruct (parent_ s) as [p|].
    - apply bind_Ok in H4 as (pg & wa & Ha & H4).
      apply valid_Ok in Ha as (-> & Hpg). rewrite Hpg.
      apply bind_Ok in H4 as ([] & wb & Hb & H4).
      apply cudaFree_Ok in Hb as (Hlive & _ & Hwb).
      apply bind_Ok in H4 as (ps & wc & Hc & H4).
      apply get_sync_Ok in Hc as (-> & _).
      apply bind_Ok in H4 as (access & wd & Hd & H4).
      apply cudaDeviceCanAccessPeer_Ok in Hd as (-> & _).
      assert (Hw4 : heap w4 = heap wb /\ syncs w4 = syncs wb).
      { destruct (negb (access =? 0)).
        - apply cudaDeviceDisablePeerAccess_Ok in H4 as ->. auto.
        - inversion H4; subst. auto. }
      destruct Hw4 as (Hh4 & Hs4). rewrite Hh4, Hs4. subst wb w3. simpl.
      repeat split; eauto.
    - inversion H4; subst w4. subst w3. simpl. repeat split; auto.
      intros Hne. contradiction. }
  destruct H4' as (Hst4 & Hsy4 & Hsome & Hm4).
  assert (Hm5 : mem (heap w5) = mem (heap w4)) by (subst w5; reflexivity).
  assert (Hm6 : mem (heap w6) = <[block (data_ s) := None]> (mem (heap w4))).
  { subst w6. simpl. rewrite Hm5. reflexivity. }
  assert (Hm7 : mem (heap w') = <[block (diff_ s) := None]> (mem (heap w6))).
  { subst w'. reflexivity. }
  rewrite Hm5 in Ha6. rewrite Hm6 in Ha7.
  assert (Hdg : block (diff_ s) <> block (data_ s)).
  { intros E. rewrite E, list_lookup_insert_eq in Ha7
      by (apply lookup_lt_is_Some; eauto). discriminate. }
  rewrite list_lookup_insert_ne in Ha7 by auto.
  exists s. eexists. split; [exact Hs|]. split; [reflexivity|].
  split; [exact Hsome|].
  assert (Hrest : store (heap w') = store (heap w) /\ syncs w' = syncs w).
  { subst w' w6 w5. simpl. auto. }
  destruct (parent_ s) as [p|], (parent_grads_ s) as [pg|];
    try contradiction; try destruct Hm4 as ((a4 & Ha4) & Hm4);
    rewrite Hm7, Hm6, Hm4; rewrite Hm4 in Ha6, Ha7.
  - assert (Hdp : block (data_ s) <> block pg).
    { intros E. rewrite E, list_lookup_insert_eq in Ha6
        by (apply lookup_lt_is_Some; eauto). discriminate. }
    assert (Hgp : block (diff_ s) <> block pg).
    { intros E. rewrite E, list_lookup_insert_eq in Ha7
        by (apply lookup_lt_is_Some; eauto). discriminate. }
    rewrite list_lookup_insert_ne in Ha6, Ha7 by auto.
    simpl. split; [|split; [|split; [|exact Hrest]]].
    + elems.
    + intros blk Hin.
      assert (Hc : blk = block pg \/ blk = block (data_ s)
                   \/ blk = block (diff_ s)) by elems.
      destruct Hc as [->|[->| ->]]; (split; [eauto|]).
      * rewrite !list_lookup_insert_ne by auto.
        apply list_lookup_insert_eq. apply lookup_lt_is_Some. eauto.
      * rewrite list_lookup_insert_ne by auto.
        apply list_lookup_insert_eq. rewrite length_insert.
        apply lookup_lt_is_Some. eauto.
      * apply list_lookup_insert_eq. rewrite !length_insert.
        apply lookup_lt_is_Some. eauto.
    + intros blk Hnot. rewrite !list_lookup_insert_ne by elems.
      reflexivity.
  - simpl. split; [|split; [|split; [|exact Hrest]]].
    + elems.
    + intros blk Hin.
      assert (Hc : blk = block (data_ s) \/ blk = block (diff_ s))
        by elems.
      destruct Hc as [->| ->]; (split; [eauto|]).
      * rewrite list_lookup_insert_ne by auto.
        apply list_lookup_insert_eq. apply lookup_lt_is_Some. eauto.
      * apply list_lookup_insert_eq. rewrite !length_insert.
        apply lookup_lt_is_Some. eauto.
    + intros blk Hnot. rewrite !list_lookup_insert_ne by elems.
      reflexivity.
  - simpl. split; [|split; [|split; [|exact Hrest]]].
    + elems.
    + intros blk Hin.
      assert (Hc : blk = block (data_ s) \/ blk = block (diff_ s))
        by elems.
      destruct Hc as [->| ->]; (split; [eauto|]).
      * rewrite list_lookup_insert_ne by auto.
        apply list_lookup_insert_eq. apply lookup_lt_is_Some. eauto.
      * apply list_lookup_insert_eq. rewrite !length_insert.
        apply lookup_lt_is_Some. eauto.
    + intros blk Hnot. rewrite !list_lookup_insert_ne by elems.
      reflexivity.
Qed.

End Construction.

(** A mirror for the two tensors of [example_blobs] built on device 1, by a
    thread whose active device is 2. *)
Lemma GPUParams_ctor_contents_witness :
  exists w',
    GPUParams_ctor no_error Dtype_zero 0 example_root_solver 1 construction_world
    = Ok ((10, mkPointer 0 0, mkPointer 1 0), w')
    /\ device_of (mem (heap w')) 0 = Some 1
    /\ device_of (mem (heap w')) 1 = Some 1
    /\ mem_read (mem (heap w')) (mkPointer 0 0) 4 = Some (repeat (fl 1) 4)
    /\ mem_read (mem (heap w')) (mkPointer 0 4) 6 = Some (repeat (fl 2) 6)
    /\ mem_read (mem (heap w')) (mkPointer 1 0) 10 = Some (repeat Dtype_zero 10).
Proof.
  eassert (H : GPUParams_ctor no_error Dtype_zero 0 example_root_solver 1
                 construction_world = Ok ((_, _, _), _))
    by (vm_compute; reflexivity).
  destruct (GPUParams_ctor_contents no_error Dtype_zero 0 example_root_solver 1
              _ _ _ _ _ H) as (_ & _ & _ & _ & Hd & Hg & Hdata & Hzero & _).
  eexists. split; [exact H|].
  split; [exact Hd|]. split; [exact Hg|]. split; [|split; [|exact Hzero]].
  - exact (Hdata 0%nat (mkBlob 4 0 1) (mkSyncedMemory (repeat (fl 1) 4) None None)
             eq_refl eq_refl).
  - exact (Hdata 1%nat (mkBlob 6 2 3) (mkSyncedMemory (repeat (fl 2) 6) None None)
             eq_refl eq_refl).
Defined.

(** The root worker on device 0 and a second worker on device 1 under it. *)
Lemma P2PSync_ctor_object_witness :
  exists w1 w2 root child obj,
    P2PSync_ctor no_error (fun _ _ => 1) Dtype_zero example_new_Solver 0
      example_root_solver None (param example_root_solver) construction_world
    = Ok (root, w1)
    /\ P2PSync_ctor no_error (fun _ _ => 1) Dtype_zero example_new_Solver 0
         example_root_solver (Some root)
         {| device_id := 1; random_seed := -1; max_iter := 10 |} w1
       = Ok (child, w2)
    /\ syncs w2 !! child = Some obj
    /\ parent_ obj = Some root /\ children_ obj = [] /\ queue_ obj = []
    /\ exists pg a, parent_grads_ obj = Some pg
         /\ mem (heap w2) !! block pg = Some (Some a)
         /\ on_device a = 0
         /\ length (mem (heap w2)) = S (block pg)
         /\ mem (heap w1) !! block pg = None
         /\ block pg <> block (data_ obj)
         /\ block pg <> block (diff_ obj).
Proof.
  eassert (H1 : P2PSync_ctor no_error (fun _ _ => 1) Dtype_zero example_new_Solver 0
                  example_root_solver None (param example_root_solver)
                  construction_world = Ok (_, _))
    by (vm_compute; reflexivity).
  match type of H1 with _ = Ok (?root, ?w1) =>
    eassert (H2 : P2PSync_ctor no_error (fun _ _ => 1) Dtype_zero example_new_Solver 0
                    example_root_solver (Some root)
                    {| device_id := 1; random_seed := -1; max_iter := 10 |} w1
                  = Ok (_, _))
      by (vm_compute; reflexivity)
  end.
  destruct (P2PSync_ctor_object no_error (fun _ _ => 1) Dtype_zero example_new_Solver
              0 _ _ _ _ _ _ H2)
    as (ss & obj & Hss & Hthis & Hp & Hc & Hq & _ & _ & _ & _ & ps & pg & a
        & Hps & Hpg & _ & Ha & Hdev & _ & _ & Hlast & Hnew).
  assert (Hgrow : forall q v s v', example_new_Solver q v = Ok (s, v') ->
            (length (mem (heap v)) <= length (mem (heap v')))%nat).
  { intros q v s v' Hv. unfold example_new_Solver in Hv.
    inversion Hv. simpl. lia. }
  destruct (Hnew Hgrow) as (Hfresh & Hd & Hg).
  eexists _, _, _, _, obj. split; [exact H1|]. split; [exact H2|].
  split; [rewrite Hss, Hthis; apply list_lookup_middle; reflexivity|].
  split; [exact Hp|]. split; [exact Hc|]. split; [exact Hq|].
  exists pg, a. split; [exact Hpg|]. split; [exact Ha|].
  split; [|split; [exact Hlast|]; split; [exact Hfresh|];
           split; [exact Hd|exact Hg]].
  rewrite Hdev.
  assert (Hlook : ss !! 0%nat = Some ps) by exact Hps.
  assert (Hss0 : (ss ++ [obj]) !! 0%nat = Some ps)
    by (apply lookup_app_l_Some; exact Hlook).
  rewrite <- Hss in Hss0. vm_compute in Hss0. inversion Hss0. reflexivity.
Defined.

Lemma P2PSync_dtor_frees_witness :
  exists w1 w2 w3 root child s,
    P2PSync_ctor no_error (fun _ _ => 1) Dtype_zero example_new_Solver 0
      example_root_solver None (param example_root_solver) construction_world
    = Ok (root, w1)
    /\ P2PSync_ctor no_error (fun _ _ => 1) Dtype_zero example_new_Solver 0
         example_root_solver (Some root)
         {| device_id := 1; random_seed := -1; max_iter := 10 |} w1
       = Ok (child, w2)
    /\ P2PSync_dtor no_error (fun _ _ => 1) 0 child w2 = Ok (tt, w3)
    /\ syncs w2 !! child = Some s
    /\ mem (heap w3) !! block (data_ s) = Some None
    /\ mem (heap w3) !! block (diff_ s) = Some None
    /\ syncs w3 = syncs w2.
Proof.
  eassert (H1 : P2PSync_ctor no_error (fun _ _ => 1) Dtype_zero example_new_Solver 0
                  example_root_solver None (param example_root_solver)
                  construction_world = Ok (_, _))
    by (vm_compute; reflexivity).
  match type of H1 with _ = Ok (?root, ?w1) =>
    eassert (H2 : P2PSync_ctor no_error (fun _ _ => 1) Dtype_zero example_new_Solver 0
                    example_root_solver (Some root)
                    {| device_id := 1; random_seed := -1; max_iter := 10 |} w1
                  = Ok (_, _))
      by (vm_compute; reflexivity)
  end.
  match type of H2 with _ = Ok (?child, ?w2) =>
    eassert (H3 : P2PSync_dtor no_error (fun _ _ => 1) 0 child w2 = Ok (tt, _))
      by (vm_compute; reflexivity)
  end.
  destruct (P2PSync_dtor_frees no_error (fun _ _ => 1) 0 _ _ _ H3)
    as (s & freed & Hs & -> & _ & _ & Hfreed & _ & _ & Hsy).
  eexists _, _, _, _, _, s. split; [exact H1|]. split; [exact H2|].
  split; [exact H3|]. split; [exact Hs|].
  split; [|split; [|exact Hsy]].
  - apply Hfreed. apply elem_of_app. right. apply list_elem_of_here.
  - apply Hfreed. apply elem_of_app. right. rewrite !elem_of_cons. auto.
Defined.

(** *** What the two callbacks do to memory and queues *)

Section Callbacks.

Context {format : Dtype_format}.
Variable DEBUG : bool.
Variable cuda_fails : CudaCall -> World -> bool.

Lemma mem_read_nonneg m p n v :
  mem_read m p n = Some v -> 0 <= n /\ Z.of_nat (length v) = n.
Proof.
  intros H. pose proof (mem_read_length _ _ _ _ H) as Hlen.
  unfold mem_read in H. destruct (m !! block p) as [[a|]|]; try discriminate.
  destruct (_ && _) eqn:E; [|discriminate].
  apply andb_true_iff in E as (E & _). apply andb_true_iff in E as (_ & E).
  apply Z.leb_le in E. lia.
Qed.

Lemma set_queue_queue s : set_queue s (queue_ s) = s.
Proof. destruct s. reflexivity. Qed.

(** The copies that the send loop of [on_start] issues. *)
Lemma send_loop_stream this device : forall cs w u w',
  for_each cs (send_params DEBUG cuda_fails this device) w = Ok (u, w') ->
  default_stream w'
  = default_stream w
    ++ map (fun c => (data_of (syncs w) c, data_ this, size_ this)) cs.
Proof.
  induction cs as [|c cs IH]; intros w u w' H; simpl in H.
  - inversion H; subst. rewrite app_nil_r. reflexivity.
  - apply bind_Ok in H as ([] & w1 & H1 & H). unfold send_params in H1.
    apply bind_Ok in H1 as (child & w2 & H2 & H1).
    apply get_sync_Ok in H2 as (-> & Hc).
    apply bind_Ok in H1 as ([] & w3 & H3 & H1).
    apply debug_pointer_Ok in H3 as ->.
    apply bind_Ok in H1 as ([] & w4 & H4 & H1).
    apply debug_pointer_Ok in H4 as ->.
    apply cudaMemcpyAsync_Ok in H1 as ->.
    apply IH in H. rewrite H. simpl. rewrite <- app_assoc. simpl.
    assert (Hd : data_of (syncs w) c = data_ child)
      by (unfold data_of; rewrite Hc; reflexivity).
    rewrite Hd. reflexivity.
Qed.

(** Copies of one source into destinations in allocations of their own. *)
Lemma do_copies_broadcast (dst : nat -> pointer) (src : pointer) (n : Z) :
  forall cs m m',
    do_copies (map (fun c => (dst c, src, n)) cs) m = Some m' ->
    NoDup (map (fun c => block (dst c)) cs) ->
    (forall c, c ∈ cs -> block (dst c) <> block src) ->
    (forall c, c ∈ cs -> mem_read m' (dst c) n = mem_read m src n)
    /\ (cs <> [] -> is_Some (mem_read m src n))
    /\ (forall q k, (forall c, c ∈ cs -> block q <> block (dst c)) ->
          mem_read m' q k = mem_read m q k).
Proof.
  induction cs as [|c cs IH]; intros m m' H Hnd Hsrc; simpl in H.
  - inversion H; subst. split; [|split]; auto.
    + intros c Hc. apply elem_of_nil in Hc. contradiction.
    + intros Hne. contradiction.
  - destruct (mem_read m src n) as [vals|] eqn:Hr; [|discriminate].
    destruct (mem_write m (dst c) vals) as [m1|] eqn:Hw; [|discriminate].
    simpl in Hnd. apply NoDup_cons in Hnd as (Hnin & Hnd).
    destruct (IH m1 m' H Hnd) as (Hall & _ & Hframe).
    { intros c' Hc'. apply Hsrc. apply elem_of_cons. auto. }
    assert (Hsrc1 : mem_read m1 src n = Some vals).
    { rewrite (mem_write_read_other _ _ _ _ _ _ Hw); [exact Hr|].
      intros E. apply (Hsrc c); [apply list_elem_of_here | symmetry; exact E]. }
    split; [|split].
    + intros c' Hc'. apply elem_of_cons in Hc' as [->|Hc'].
      * rewrite Hframe.
        -- destruct (mem_read_nonneg _ _ _ _ Hr) as (_ & <-).
           eapply mem_write_read_same, Hw.
        -- intros c' Hc' E. apply Hnin. rewrite E.
           apply list_elem_of_fmap. exists c'. auto.
      * rewrite (Hall c' Hc'). exact Hsrc1.
    + intros _. eauto.
    + intros q k Hq. rewrite Hframe.
      * apply (mem_write_read_other _ _ _ _ _ _ Hw).
        apply Hq. apply list_elem_of_here.
      * intros c' Hc'. apply Hq. apply elem_of_cons. auto.
Qed.

(** The tokens that the push loop of [on_start] leaves. *)
Lemma push_loop_queues self : forall cs w u w',
  for_each cs (fun c => queue_push c self) w = Ok (u, w') ->
  NoDup cs ->
  length (syncs w') = length (syncs w)
  /\ (forall c, c ∈ cs ->
        exists s, syncs w !! c = Some s
          /\ syncs w' !! c = Some (set_queue s (queue_ s ++ [self])))
  /\ (forall i, i ∉ cs -> syncs w' !! i = syncs w !! i).
Proof.
  induction cs as [|c cs IH]; intros w u w' H Hnd; simpl in H.
  - inversion H; subst. split; [|split]; auto.
    intros c Hc. apply elem_of_nil in Hc. contradiction.
  - apply bind_Ok in H as ([] & w1 & H1 & H).
    apply queue_push_Ok in H1 as (s & Hs & ->).
    apply NoDup_cons in Hnd as (Hnin & Hnd).
    apply IH in H as (Hlen & Hin & Hout); [|exact Hnd]. simpl in *.
    split; [|split].
    + rewrite Hlen. apply length_insert.
    + intros c' Hc'. apply elem_of_cons in Hc' as [->|Hc'].
      * exists s. split; [exact Hs|]. rewrite (Hout c Hnin).
        apply list_lookup_insert_eq. apply lookup_lt_is_Some. eauto.
      * destruct (Hin c' Hc') as (s' & Hs' & Hq).
        assert (c <> c') by (intros ->; contradiction).
        rewrite list_lookup_insert_ne in Hs' by auto. eauto.
    + intros i Hi. apply not_elem_of_cons in Hi as (Hne & Hi).
      rewrite (Hout i Hi). apply list_lookup_insert_ne. auto.
Qed.

(** The worlds a returning [on_start] goes through: [wp] after the wait for
    the parent, [ws] after the copies and the wait for the stream. *)
Lemma on_start_world thread self this w w' :
  syncs w !! self = Some this ->
  on_start DEBUG cuda_fails thread self w = Ok (tt, w') ->
  exists wp ws,
    match parent_ this with
    | Some p =>
        exists q, queue_ this = p :: q
          /\ syncs wp = <[self := set_queue this q]> (syncs w)
    | None => syncs wp = syncs w
    end
    /\ syncs ws = syncs wp
    /\ store (heap ws) = store (heap w)
    /\ (if negb (length (children_ this) =? 0)%nat
        then do_copies
               (default_stream w
                ++ map (fun c => (data_of (syncs w) c, data_ this, size_ this))
                     (children_ this))
               (mem (heap w)) = Some (mem (heap ws))
             /\ default_stream ws = []
        else heap ws = heap w /\ default_stream ws = default_stream w)
    /\ for_each (children_ this) (fun c => queue_push c self) ws = Ok (tt, w').
Proof.
  intros Hthis H. unfold on_start in H.
  apply bind_Ok in H as (this' & w1 & H1 & H).
  apply get_sync_Ok in H1 as (-> & Hthis'). rewrite Hthis in Hthis'.
  inversion Hthis'; subst this'; clear Hthis'.
  apply bind_Ok in H as (device & w2 & H2 & H).
  apply debug_device_Ok in H2 as ->.
  apply bind_Ok in H as ([] & w3 & H3 & H).
  apply bind_Ok in H as ([] & w4 & H4 & H).
  pose proof (send_loop_stream _ _ _ _ _ _ H4) as Hst4.
  apply send_loop_Ok in H4 as (Hs4 & Hh4 & _).
  apply bind_Ok in H as ([] & w5 & H5 & H).
  exists w3, w5.
  assert (H3' : heap w3 = heap w /\ default_stream w3 = default_stream w
                /\ (forall c, data_of (syncs w3) c = data_of (syncs w) c)
                /\ match parent_ this with
                   | Some p =>
                       exists q, queue_ this = p :: q
                         /\ syncs w3 = <[self := set_queue this q]> (syncs w)
                   | None => syncs w3 = syncs w
                   end).
  { destruct (parent_ this) as [p|].
    - apply bind_Ok in H3 as (token & w3' & Hpop & Hchk).
      apply queue_pop_Ok in Hpop as (s & q & Hs & Hq & ->).
      apply check_Ok in Hchk as (-> & Heq). apply Nat.eqb_eq in Heq.
      subst token. rewrite Hthis in Hs. inversion Hs; subst s; clear Hs.
      simpl. repeat split; auto.
      + intros c. apply data_of_set_queue. exact Hthis.
      + eauto.
    - inversion H3; subst w3. auto. }
  destruct H3' as (Hh3 & Hst3 & Hdata & Hp3).
  split; [exact Hp3|].
  rewrite Hst3 in Hst4.
  rewrite (map_ext _ (fun c => (data_of (syncs w) c, data_ this, size_ this)))
    in Hst4 by (intros c; rewrite Hdata; reflexivity).
  destruct (negb (length (children_ this) =? 0)%nat) eqn:E.
  - apply cudaStreamSynchronize_Ok in H5 as (m & Hcopies & ->). simpl.
    rewrite Hst4, Hh4, Hh3 in Hcopies.
    split; [exact Hs4|]. split; [rewrite Hh4, Hh3; reflexivity|].
    split; [auto|]. exact H.
  - inversion H5; subst w5.
    split; [exact Hs4|]. split; [rewrite Hh4, Hh3; reflexivity|].
    split; [|exact H].
    split; [congruence|].
    apply negb_false_iff, Nat.eqb_eq, length_zero_iff_nil in E.
    rewrite Hst4, E. apply app_nil_r.
Qed.

(** X17.  The broadcast of [on_start].  Let no copy be pending when a
    worker enters [on_start], and let the parameter buffers of its children
    lie in allocations of their own, different from each other and from the
    worker's.  When the call returns, every child's parameter buffer holds
    what the worker's parameter buffer held on entry, the worker has these
    parameters itself when it has a child, no copy is pending, and nothing
    else in device memory has changed. *)
Theorem on_start_broadcasts (thread self : nat) (this : P2PSync)
    (w w' : World) :
  syncs w !! self = Some this ->
  default_stream w = [] ->
  NoDup (map (fun c => block (data_of (syncs w) c)) (children_ this)) ->
  (forall c, c ∈ children_ this ->
     block (data_of (syncs w) c) <> block (data_ this)) ->
  on_start DEBUG cuda_fails thread self w = Ok (tt, w') ->
  (forall c, c ∈ children_ this ->
     mem_read (mem (heap w')) (data_of (syncs w) c) (size_ this)
     = mem_read (mem (heap w)) (data_ this) (size_ this))
  /\ (children_ this <> [] ->
      is_Some (mem_read (mem (heap w)) (data_ this) (size_ this)))
  /\ (forall q k,
        (forall c, c ∈ children_ this -> block q <> block (data_of (syncs w) c)) ->
        mem_read (mem (heap w')) q k = mem_read (mem (heap w)) q k)
  /\ default_stream w' = []
  /\ store (heap w') = store (heap w).
Proof.
  intros Hthis Hidle Hnd Hsrc H.
  destruct (on_start_world _ _ _ _ _ Hthis H)
    as (wp & ws & _ & _ & Hst & Hsync & Hpush).
  pose proof (push_loop_Ok _ _ _ _ _ Hpush) as (Hheap & _).
  assert (Hstream : default_stream w' = default_stream ws).
  { clear -Hpush. revert ws Hpush.
    induction (children_ this) as [|c cs IH]; intros ws H; simpl in H.
    - inversion H; reflexivity.
    - apply bind_Ok in H as ([] & w1 & H1 & H).
      apply queue_push_Ok in H1 as (s & _ & ->). apply IH in H. exact H. }
  rewrite Hheap, Hstream. rewrite Hidle in Hsync. simpl in Hsync.
  destruct (negb (length (children_ this) =? 0)%nat) eqn:E.
  - destruct Hsync as (Hcopies & Hs).
    destruct (do_copies_broadcast (data_of (syncs w)) (data_ this) (size_ this)
                _ _ _ Hcopies Hnd Hsrc) as (Hall & Hsome & Hframe).
    repeat split; auto.
  - destruct Hsync as (-> & Hs).
    apply negb_false_iff, Nat.eqb_eq, length_zero_iff_nil in E.
    rewrite E. repeat split; auto; try congruence.
    intros c Hc. apply elem_of_nil in Hc. contradiction.
Qed.

(** X18.  The tokens of [on_start].  Let the children of a worker be
    pairwise different and the worker not be its own child.  When [on_start]
    returns, the worker's token is the last entry of every child's queue, the
    worker's own queue has lost its first entry (the parent's token) when it
    has a parent and is unchanged otherwise, and every other worker object is
    as before. *)
Theorem on_start_tokens (thread self : nat) (this : P2PSync) (w w' : World) :
  syncs w !! self = Some this ->
  NoDup (children_ this) ->
  self ∉ children_ this ->
  on_start DEBUG cuda_fails thread self w = Ok (tt, w') ->
  (forall c, c ∈ children_ this ->
     exists s, syncs w !! c = Some s
       /\ syncs w' !! c = Some (set_queue s (queue_ s ++ [self])))
  /\ syncs w' !! self
     = Some match parent_ this with
            | Some _ => set_queue this (tail (queue_ this))
            | None => this
            end
  /\ (forall i, i <> self -> i ∉ children_ this ->
        syncs w' !! i = syncs w !! i)
  /\ length (syncs w') = length (syncs w).
Proof.
  intros Hthis Hnd Hself H.
  destruct (on_start_world _ _ _ _ _ Hthis H)
    as (wp & ws & Hpop & Hsy & _ & _ & Hpush).
  destruct (push_loop_queues _ _ _ _ _ Hpush Hnd) as (Hlen & Hin & Hout).
  rewrite Hsy in *.
  assert (Hlt : (self < length (syncs w))%nat)
    by (apply lookup_lt_is_Some; eauto).
  destruct (parent_ this) as [p|].
  - destruct Hpop as (q & Hq & Hpop). rewrite Hpop in *. rewrite Hq. simpl.
    repeat split.
    + intros c Hc. destruct (Hin c Hc) as (s & Hs & Hs').
      assert (self <> c) by (intros ->; contradiction).
      rewrite list_lookup_insert_ne in Hs by auto. eauto.
    + rewrite (Hout self Hself). apply list_lookup_insert_eq. exact Hlt.
    + intros i Hne Hi. rewrite (Hout i Hi).
      apply list_lookup_insert_ne. auto.
    + rewrite Hlen. apply length_insert.
  - rewrite Hpop in *. repeat split; auto.
    rewrite (Hout self Hself). exact Hthis.
Qed.

(** X19.  [on_start] waits for the parent.  A worker with a parent whose
    queue is empty does not return from [on_start]: the call waits in
    [queue_.pop()] (or, compiled with [DEBUG], may abort on a failed device
    check before it).  Without [DEBUG] it waits, whatever the runtime
    does. *)
Theorem on_start_waits (thread self : nat) (this : P2PSync) (p : nat)
    (w : World) :
  syncs w !! self = Some this ->
  parent_ this = Some p ->
  queue_ this = [] ->
  (forall r, on_start DEBUG cuda_fails thread self w <> Ok r)
  /\ (DEBUG = false -> on_start DEBUG cuda_fails thread self w = Blocked).
Proof.
  intros Hs Hp Hq. split.
  - intros r Hr.
    destruct (on_start_waits_for_parent DEBUG cuda_fails thread self this p w
                Hs Hp Hq) as [Hb|(f & Hf)]; congruence.
  - intros HD. unfold on_start, bind at 1.
    rewrite (get_sync_Some _ _ _ Hs). unfold bind at 1, debug_device.
    rewrite HD. unfold ret at 1. rewrite Hp.
    unfold bind at 1. unfold bind at 1.
    unfold queue_pop, bind at 1. rewrite (get_sync_Some _ _ _ Hs), Hq.
    reflexivity.
Qed.

(** *** The reduction loop of one worker *)

Lemma add_child_DEBUG this device c w u w' :
  DEBUG = true ->
  add_child DEBUG cuda_fails this device c w = Ok (u, w') ->
  c ∈ children_ this.
Proof.
  intros HD H. unfold add_child in H.
  apply bind_Ok in H as (cs & w1 & H1 & H).
  apply bind_Ok in H as ([] & w2 & H2 & _).
  rewrite HD in H2. apply check_Ok in H2 as (_ & Hex).
  apply existsb_exists in Hex as (x & Hx & Heq).
  apply Nat.eqb_eq in Heq. subst x. apply list_elem_of_In. exact Hx.
Qed.

Lemma reduce_child_empty self device this w :
  syncs w !! self = Some this -> queue_ this = [] ->
  reduce_child DEBUG cuda_fails self device w = Blocked.
Proof.
  intros Hs Hq. rewrite reduce_child_unfold. unfold bind at 1.
  rewrite (get_sync_Some _ _ _ Hs). unfold bind at 1.
  unfold queue_pop, bind at 1. rewrite (get_sync_Some _ _ _ Hs), Hq.
  reflexivity.
Qed.

(** [n] turns of the loop that all return take the first [n] tokens of the
    queue, in order, and touch nothing but the worker's queue and device
    memory. *)
Lemma reduce_loop_Ok self device : forall n this w u w',
  syncs w !! self = Some this ->
  repeat_n n (reduce_child DEBUG cuda_fails self device) w = Ok (u, w') ->
  (n <= length (queue_ this))%nat
  /\ syncs w' = <[self := set_queue this (drop n (queue_ this))]> (syncs w)
  /\ trace w' = trace w ++ map (EvQueuePop self) (take n (queue_ this))
  /\ default_stream w' = default_stream w
  /\ solver_count w' = solver_count w
  /\ store (heap w') = store (heap w)
  /\ (DEBUG = true ->
      forall c, c ∈ take n (queue_ this) -> c ∈ children_ this).
Proof.
  induction n as [|n IH]; intros this w u w' Hs H; simpl in H.
  - inversion H; subst. rewrite drop_0, set_queue_queue, app_nil_r.
    rewrite (list_insert_id _ _ _ Hs). repeat split; auto; try lia.
    intros _ c Hc. apply elem_of_nil in Hc. contradiction.
  - apply bind_Ok in H as ([] & w1 & H1 & H).
    destruct (queue_ this) as [|token q] eqn:Hq.
    { rewrite (reduce_child_empty _ _ _ _ Hs Hq) in H1. discriminate. }
    rewrite (reduce_child_head _ _ _ _ _ _ _ _ Hs Hq) in H1.
    pose proof H1 as Hadd.
    apply add_child_Ok in H1 as (cs & src & vs & vd & m' & _ & _ & _ & _ & _ & ->).
    assert (Hs1 : syncs (with_mem
                    (with_trace
                       (with_syncs w (<[self := set_queue this q]> (syncs w)))
                       (trace w ++ [EvQueuePop self token])) m')
                  !! self = Some (set_queue this q)).
    { simpl. apply list_lookup_insert_eq. apply lookup_lt_is_Some. eauto. }
    destruct (IH _ _ _ _ Hs1 H) as (Hle & Hsy & Htr & Hst & Hsc & Hsto & Hdbg).
    simpl in *. split; [lia|]. split; [|split; [|split; [|split; [|split]]]]; auto.
    + rewrite Hsy, list_insert_insert_eq. reflexivity.
    + rewrite Htr, <- app_assoc. reflexivity.
    + intros HD c Hc. apply elem_of_cons in Hc as [->|Hc]; [|auto].
      eapply add_child_DEBUG; eauto.
Qed.

Lemma send_or_scale_trace self device this w u w' :
  syncs w !! self = Some this ->
  send_or_scale DEBUG cuda_fails self device w = Ok (u, w') ->
  (parent_ this <> None -> is_Some (parent_grads_ this))
  /\ trace w' = trace w
       ++ match parent_ this, parent_grads_ this with
          | Some p, Some g =>
              [EvMemcpyAsync g (diff_ this) (size_ this);
               EvStreamSynchronize;
               EvQueuePush p self]
          | _, _ => []
          end.
Proof.
  intros Hs H. unfold send_or_scale in H.
  apply bind_Ok in H as (this' & w1 & H1 & H).
  apply get_sync_Ok in H1 as (-> & Hs'). rewrite Hs in Hs'.
  inversion Hs'; subst this'; clear Hs'.
  destruct (parent_ this) as [p|].
  - apply bind_Ok in H as (dst & w2 & H2 & H). apply valid_Ok in H2 as (-> & Hdst).
    apply bind_Ok in H as ([] & w3 & H3 & H). apply debug_pointer_Ok in H3 as ->.
    apply bind_Ok in H as ([] & w4 & H4 & H).
    apply when_DEBUG_Ok in H4 as ->.
    2:{ intros wa ua wb Hb. apply bind_Ok in Hb as (ps & wc & Hc & Hb).
        apply get_sync_Ok in Hc as (-> & _).
        apply debug_pointer_Ok in Hb. exact Hb. }
    apply bind_Ok in H as ([] & w5 & H5 & H).
    apply cudaMemcpyAsync_Ok in H5 as ->.
    apply bind_Ok in H as ([] & w6 & H6 & H).
    apply cudaStreamSynchronize_Ok in H6 as (m' & _ & ->).
    apply queue_push_Ok in H as (ps & _ & ->). simpl.
    rewrite Hdst. split; [eauto|]. rewrite <- !app_assoc. reflexivity.
  - apply bind_Ok in H as (w1 & w2 & H1 & H). inversion H1; subst w1 w2; clear H1.
    unfold caffe_gpu_scal in H.
    apply bind_Ok in H as (vx & w3 & H3 & H). apply read_Ok in H3 as (-> & _).
    apply write_Ok in H as (m' & _ & ->). simpl.
    split; [intros Hne; contradiction|]. rewrite app_nil_r. reflexivity.
Qed.

(** The worlds a returning [on_gradients_ready] goes through: [wl] when the
    loop is done. *)
Lemma on_gradients_ready_world thread self this w w' :
  syncs w !! self = Some this ->
  on_gradients_ready DEBUG cuda_fails thread self w = Ok (tt, w') ->
  exists device wl,
    repeat_n (length (children_ this))
      (reduce_child DEBUG cuda_fails self device) w = Ok (tt, wl)
    /\ send_or_scale DEBUG cuda_fails self device wl = Ok (tt, w').
Proof.
  intros Hs H. unfold on_gradients_ready in H.
  apply bind_Ok in H as (this' & w1 & H1 & H).
  apply get_sync_Ok in H1 as (-> & Hs'). rewrite Hs in Hs'.
  inversion Hs'; subst this'; clear Hs'.
  apply bind_Ok in H as (device & w2 & H2 & H).
  apply debug_device_Ok in H2 as ->.
  apply bind_Ok in H as ([] & wl & Hl & H). eauto.
Qed.

(** X20.  The events of [on_gradients_ready].  A call that returns has
    taken exactly one token per child from the worker's queue, the first
    tokens of the queue in their order (with [DEBUG], each names a child);
    after the last of them a worker with a parent has issued one copy of its
    gradient buffer into its receiving buffer, waited for the stream, and
    only then pushed its own token on the parent's queue; the root issues no
    copy and pushes nothing. *)
Theorem on_gradients_ready_events (thread self : nat) (this : P2PSync)
    (w w' : World) :
  syncs w !! self = Some this ->
  on_gradients_ready DEBUG cuda_fails thread self w = Ok (tt, w') ->
  (length (children_ this) <= length (queue_ this))%nat
  /\ (parent_ this <> None -> is_Some (parent_grads_ this))
  /\ (DEBUG = true ->
      forall c, c ∈ take (length (children_ this)) (queue_ this) ->
        c ∈ children_ this)
  /\ trace w'
     = trace w
       ++ map (EvQueuePop self) (take (length (children_ this)) (queue_ this))
       ++ match parent_ this, parent_grads_ this with
          | Some p, Some g =>
              [EvMemcpyAsync g (diff_ this) (size_ this);
               EvStreamSynchronize;
               EvQueuePush p self]
          | _, _ => []
          end.
Proof.
  intros Hs H.
  destruct (on_gradients_ready_world _ _ _ _ _ Hs H) as (device & wl & Hl & Hsend).
  destruct (reduce_loop_Ok _ _ _ _ _ _ _ Hs Hl)
    as (Hle & Hsy & Htr & _ & _ & _ & Hdbg).
  assert (Hsl : syncs wl !! self
                = Some (set_queue this
                          (drop (length (children_ this)) (queue_ this)))).
  { rewrite Hsy. apply list_lookup_insert_eq. apply lookup_lt_is_Some. eauto. }
  destruct (send_or_scale_trace _ _ _ _ _ _ Hsl Hsend) as (Hsome & Htr').
  simpl in Hsome, Htr'.
  repeat split; auto.
  rewrite Htr', Htr, <- app_assoc. reflexivity.
Qed.

(** X21.  [on_gradients_ready] waits for every child.  With fewer tokens in
    its queue than it has children, a worker does not return from
    [on_gradients_ready]: it waits in [queue_.pop()] or has aborted
    before. *)
Theorem on_gradients_ready_waits (thread self : nat) (this : P2PSync)
    (w : World) :
  syncs w !! self = Some this ->
  (length (queue_ this) < length (children_ this))%nat ->
  on_gradients_ready DEBUG cuda_fails thread self w = Blocked
  \/ exists f, on_gradients_ready DEBUG cuda_fails thread self w = Fatal f.
Proof.
  intros Hs Hlt.
  destruct (on_gradients_ready DEBUG cuda_fails thread self w)
    as [[[] w']|f|] eqn:H; [exfalso | right; eauto | left; reflexivity].
  destruct (on_gradients_ready_world _ _ _ _ _ Hs H) as (device & wl & Hl & _).
  destruct (reduce_loop_Ok _ _ _ _ _ _ _ Hs Hl) as (Hle & _). lia.
Qed.

(** X22.  What a worker with a parent hands up.  Let no copy be pending on
    entry and the worker's receiving buffer lie in another allocation than
    its gradient buffer.  When [on_gradients_ready] returns, the receiving
    buffer [parent_grads_] holds a copy of the worker's gradient buffer as it
    is then (its own gradients plus those taken from its children), no copy
    is pending, and the worker's token is the last entry of its parent's
    queue. *)
Theorem on_gradients_ready_sends (thread self : nat) (this : P2PSync)
    (p : nat) (g : pointer) (w w' : World) :
  syncs w !! self = Some this ->
  parent_ this = Some p ->
  parent_grads_ this = Some g ->
  block g <> block (diff_ this) ->
  default_stream w = [] ->
  on_gradients_ready DEBUG cuda_fails thread self w = Ok (tt, w') ->
  mem_read (mem (heap w')) g (size_ this)
  = mem_read (mem (heap w')) (diff_ this) (size_ this)
  /\ is_Some (mem_read (mem (heap w')) (diff_ this) (size_ this))
  /\ default_stream w' = []
  /\ exists ps q, syncs w' !! p = Some ps /\ queue_ ps = q ++ [self].
Proof.
  intros Hs Hp Hg Hne Hidle H.
  destruct (on_gradients_ready_world _ _ _ _ _ Hs H) as (device & wl & Hl & Hsend).
  destruct (reduce_loop_Ok _ _ _ _ _ _ _ Hs Hl)
    as (_ & Hsy & _ & Hst & _ & _ & _).
  assert (Hsl : syncs wl !! self
                = Some (set_queue this
                          (drop (length (children_ this)) (queue_ this)))).
  { rewrite Hsy. apply list_lookup_insert_eq. apply lookup_lt_is_Some. eauto. }
  rewrite Hidle in Hst.
  destruct (send_or_scale_Ok DEBUG cuda_fails _ _ _ _ _ _ Hsl Hst Hsend)
    as (_ & Hidle' & Hcase).
  simpl in Hcase. rewrite Hp in Hcase.
  destruct Hcase as (dst & vals & m' & ps & Hdst & Hread & Hwrite & Hps & Hsy'
                     & Hm').
  rewrite Hg in Hdst. inversion Hdst; subst dst; clear Hdst.
  rewrite Hm'.
  assert (Hdiff : mem_read m' (diff_ this) (size_ this) = Some vals).
  { rewrite (mem_write_read_other _ _ _ _ _ _ Hwrite) by auto. exact Hread. }
  split; [|split; [|split]].
  - rewrite Hdiff. destruct (mem_read_nonneg _ _ _ _ Hread) as (_ & <-).
    eapply mem_write_read_same, Hwrite.
  - rewrite Hdiff. eauto.
  - exact Hidle'.
  - exists (set_queue ps (queue_ ps ++ [self])), (queue_ ps).
    split; [|reflexivity]. rewrite Hsy'.
    apply list_lookup_insert_eq. apply lookup_lt_is_Some. eauto.
Qed.

End Callbacks.

(** The root of [example_chain] sends its parameters (four times 7) to its
    child, worker 1. *)
Lemma on_start_broadcasts_witness :
  exists w1,
    on_start true no_error 0 0 example_chain = Ok (tt, w1)
    /\ mem_read (mem (heap w1)) (mkPointer 1 0) 4 = Some (repeat (fl 7) 4)
    /\ default_stream w1 = [].
Proof.
  eassert (H : on_start true no_error 0 0 example_chain = Ok (tt, _))
    by (vm_compute; reflexivity).
  match type of H with _ = Ok (_, ?w1) =>
    destruct (on_start_broadcasts true no_error 0 0
                (example_worker 0 None [1%nat] None) example_chain w1
                eq_refl eq_refl) as (Hall & _ & _ & Hidle & _); [| |exact H|]
  end.
  - apply (bool_decide_unpack _). vm_compute. reflexivity.
  - intros c Hc. apply list_elem_of_singleton in Hc. subst c.
    vm_compute. discriminate.
  - eexists. split; [exact H|]. split; [|exact Hidle].
    etrans; [exact (Hall 1%nat (list_elem_of_here _ _)) | reflexivity].
Defined.

Lemma on_start_tokens_witness :
  exists w1 s,
    on_start true no_error 0 0 example_chain = Ok (tt, w1)
    /\ syncs w1 !! 1%nat = Some s
    /\ queue_ s = [0%nat].
Proof.
  eassert (H : on_start true no_error 0 0 example_chain = Ok (tt, _))
    by (vm_compute; reflexivity).
  match type of H with _ = Ok (_, ?w1) =>
    destruct (on_start_tokens true no_error 0 0
                (example_worker 0 None [1%nat] None) example_chain w1 eq_refl)
      as (Hin & _); [| |exact H|]
  end.
  - apply (bool_decide_unpack _). vm_compute. reflexivity.
  - intros Hc. apply list_elem_of_singleton in Hc. discriminate.
  - destruct (Hin 1%nat (list_elem_of_here _ _)) as (s & Hs & Hs').
    eexists _, _. split; [exact H|]. split; [exact Hs'|].
    vm_compute in Hs. inversion Hs. reflexivity.
Defined.

(** Worker 1 of [example_chain] before its parent has sent anything. *)
Lemma on_start_waits_witness :
  (forall r, on_start true no_error 1 1 example_chain <> Ok r)
  /\ on_start false no_error 1 1 example_chain = Blocked.
Proof.
  split.
  - apply (on_start_waits true no_error 1 1
             (example_worker 1 (Some 0%nat) [2%nat] (Some 6%nat)) 0 example_chain);
      reflexivity.
  - apply (on_start_waits false no_error 1 1
             (example_worker 1 (Some 0%nat) [2%nat] (Some 6%nat)) 0 example_chain);
      reflexivity.
Defined.

(** The reduction phase of [example_world]: workers 1 and 2, then the
    root. *)
Lemma on_gradients_ready_events_witness :
  exists w1 w2 w3,
    on_gradients_ready (format := binary32) true no_error 1 1 example_world = Ok (tt, w1)
    /\ trace w1 = [EvMemcpyAsync (mkPointer 6 0) (mkPointer 4 0) 4;
                   EvStreamSynchronize; EvQueuePush 0 1]
    /\ on_gradients_ready (format := binary32) true no_error 2 2 w1 = Ok (tt, w2)
    /\ on_gradients_ready (format := binary32) true no_error 0 0 w2 = Ok (tt, w3)
    /\ trace w3 = trace w2 ++ [EvQueuePop 0 1; EvQueuePop 0 2].
Proof.
  eassert (H1 : on_gradients_ready (format := binary32) true no_error 1 1 example_world = Ok (tt, _))
    by (vm_compute; reflexivity).
  match type of H1 with _ = Ok (_, ?w1) =>
    eassert (H2 : on_gradients_ready (format := binary32) true no_error 2 2 w1 = Ok (tt, _))
      by (vm_compute; reflexivity)
  end.
  match type of H2 with _ = Ok (_, ?w2) =>
    eassert (H3 : on_gradients_ready (format := binary32) true no_error 0 0 w2 = Ok (tt, _))
      by (vm_compute; reflexivity)
  end.
  match type of H1 with _ = Ok (_, ?w1) =>
    destruct (on_gradients_ready_events (format := binary32) true no_error 1 1
                (example_worker 1 (Some 0%nat) [] (Some 6%nat)) example_world w1
                eq_refl H1) as (_ & _ & _ & Ht1)
  end.
  eexists _, _, _. split; [exact H1|]. split; [exact Ht1|].
  split; [exact H2|]. split; [exact H3|].
  match type of H3 with on_gradients_ready _ _ _ _ ?w2 = Ok (_, ?w3) =>
    destruct (on_gradients_ready_events (format := binary32) true no_error 0 0
                (set_queue (example_worker 0 None [1; 2]%nat None) [1; 2]%nat)
                w2 w3 eq_refl H3) as (_ & _ & _ & Ht3)
  end.
  rewrite Ht3. reflexivity.
Defined.

(** The root of [example_world] before any child has sent its gradients. *)
Lemma on_gradients_ready_waits_witness :
  on_gradients_ready (format := binary32) true no_error 0 0 example_world = Blocked
  \/ exists f, on_gradients_ready (format := binary32) true no_error 0 0 example_world = Fatal f.
Proof.
  apply (on_gradients_ready_waits (format := binary32) true no_error 0 0
           (example_worker 0 None [1; 2]%nat None) example_world).
  - reflexivity.
  - simpl. lia.
Defined.

Lemma on_gradients_ready_sends_witness :
  exists w1,
    on_gradients_ready (format := binary32) true no_error 1 1 example_world = Ok (tt, w1)
    /\ mem_read (mem (heap w1)) (mkPointer 6 0) 4
       = mem_read (mem (heap w1)) (mkPointer 4 0) 4
    /\ mem_read (mem (heap w1)) (mkPointer 6 0) 4 = Some (repeat (fl 2) 4).
Proof.
  eassert (H1 : on_gradients_ready (format := binary32) true no_error 1 1 example_world = Ok (tt, _))
    by (vm_compute; reflexivity).
  match type of H1 with _ = Ok (_, ?w1) =>
    destruct (on_gradients_ready_sends (format := binary32) true no_error 1 1
                (example_worker 1 (Some 0%nat) [] (Some 6%nat)) 0 (mkPointer 6 0)
                example_world w1 eq_refl eq_refl eq_refl) as (Heq & _);
      [|reflexivity|exact H1|]
  end.
  - vm_compute. discriminate.
  - eexists. split; [exact H1|]. split; [exact Heq|]. reflexivity.
Defined.

(** *** After the reduction phase *)

(** X23.  The reduction phase ends where it began.  Start it in a worker
    tree with empty queues and no pending copy.  Once every thread has
    returned from [on_gradients_ready], in whatever order they ran, every
    token that was pushed has been taken: all queues are empty again, no copy
    is pending, the worker objects are exactly as before, and all buffers are
    still there; the workers form a tree of the same kind, ready for the next
    step. *)
Theorem reduction_leaves_tree {format : Dtype_format} (DEBUG : bool)
    (cuda_fails : CudaCall -> World -> bool) (w0 w : World) (size : Z)
    (schedule : list nat) (locs : list Location) :
  tree w0 size ->
  run_threads DEBUG cuda_fails schedule
    (replicate (length (syncs w0)) AtEntry) w0 = Ok (locs, w) ->
  (forall i, (i < length (syncs w0))%nat -> locs !! i = Some Returned) ->
  syncs w = syncs w0 /\ tree w size.
Proof.
  intros wf Hrun Hall.
  pose proof (inv_run_threads DEBUG cuda_fails w0 size wf _ _ _ _ _
                (inv_init w0 size wf) Hrun)
    as (taken & Hlen & Hsame & Hread & Hstream & _ & Hloc & Hq & _).
  assert (Hempty : forall i s0, syncs w0 !! i = Some s0 -> queue_of w i = []).
  { intros i s0 Hs0. specialize (Hloc i s0 Hs0).
    rewrite (Hall i (lookup_lt_N _ _ _ Hs0)) in Hloc.
    destruct (Hq i s0 Hs0) as (Hnd & Hin).
    destruct (tree_children _ _ wf i s0 Hs0) as (Hndc & _).
    assert (Hle : (length (taken i ++ queue_of w i) <= length (children_ s0))%nat).
    { apply List.NoDup_incl_length; [apply NoDup_ListNoDup, Hnd|].
      intros c Hc. apply list_elem_of_In. apply Hin. apply list_elem_of_In, Hc. }
    rewrite length_app in Hle. apply length_zero_iff_nil. lia. }
  assert (Hsyncs : syncs w = syncs w0).
  { apply list_eq. intros i. destruct (syncs w0 !! i) as [s0|] eqn:Hs0.
    - destruct (same_objects_lookup _ _ _ _ Hsame Hs0) as (q & Hs).
      pose proof (Hempty i s0 Hs0) as Hqi. unfold queue_of in Hqi.
      rewrite Hs in Hqi. simpl in Hqi. subst q. rewrite Hs. f_equal.
      destruct (tree_idle _ _ wf) as (_ & Hidle).
      rewrite <- (Hidle i s0 Hs0). apply set_queue_queue.
    - apply lookup_ge_None. apply lookup_ge_None in Hs0.
      unfold same_objects in Hsame. apply Forall2_length in Hsame. lia. }
  split; [exact Hsyncs|].
  destruct wf as [Hroot Hch Hreach Hsize Hbuf Hrd Hidle].
  constructor; rewrite ?Hsyncs; auto.
  destruct Hidle as (_ & Hidle). split; [exact Hstream | exact Hidle].
Qed.

Lemma reduction_leaves_tree_witness :
  exists locs w,
    run_threads (format := binary32) true no_error [1; 1; 0; 2; 2; 0; 0; 0]%nat
      (replicate 3 AtEntry) example_world = Ok (locs, w)
    /\ locs = [Returned; Returned; Returned]
    /\ syncs w = syncs example_world
    /\ tree w 4.
Proof.
  eassert (H : run_threads (format := binary32) true no_error [1; 1; 0; 2; 2; 0; 0; 0]%nat
                 (replicate 3 AtEntry) example_world = Ok (_, _))
    by (vm_compute; reflexivity).
  eexists _, _. split; [exact H|]. split; [reflexivity|].
  apply (reduction_leaves_tree (format := binary32) true no_error example_world _ 4 _ _
           example_world_tree H).
  intros [|[|[|i]]] Hi; try reflexivity. simpl in Hi. lia.
Defined.

(** *** The broadcast phase over the whole tree *)

Section Broadcast.

Variable DEBUG : bool.
Variable cuda_fails : CudaCall -> World -> bool.

(** The solvers call [on_start] at the beginning of a step: the workers
    named by [schedule], one after the other, worker [t] on thread [t].  A
    call waits at most once, at its start, so a schedule on which a call
    would wait is one that does not occur. *)
Fixpoint run_starts (schedule : list nat) : M unit :=
  match schedule with
  | [] => ret tt
  | t :: rest =>
      let! _ := on_start DEBUG cuda_fails t t in
      run_starts rest
  end.

Variable w0 : World.
Variable size : Z.
Hypothesis wf : tree w0 size.
Hypothesis data_apart : NoDup (map (fun s => block (data_ s)) (syncs w0)).

(** The workers that have the root's parameters, and why the others will
    get them: a token in a queue was pushed after the copy. *)
Definition binv (w : World) (informed : nat -> Prop) : Prop :=
  same_objects w0 w
  /\ default_stream w = []
  /\ informed 0%nat
  /\ (forall i s r, informed i ->
        syncs w0 !! i = Some s -> syncs w0 !! 0%nat = Some r ->
        mem_read (mem (heap w)) (data_ s) size
        = mem_read (mem (heap w0)) (data_ r) size)
  /\ (forall i, queue_of w i <> [] -> informed i).

Lemma binv_init : binv w0 (fun i => i = 0%nat).
Proof.
  destruct (tree_idle _ _ wf) as (Hstream & Hq).
  split; [|split; [|split; [|split]]]; auto.
  - apply Forall2_same_length_lookup_2; [reflexivity|].
    intros i x y Hx Hy. rewrite Hx in Hy. inversion Hy; subst y.
    exists (queue_ x). symmetry. apply set_queue_queue.
  - intros i s r -> Hs Hr. congruence.
  - intros i Hne. exfalso. apply Hne. unfold queue_of.
    destruct (syncs w0 !! i) eqn:E; [eauto|reflexivity].
Qed.

Lemma not_own_child t s0 : syncs w0 !! t = Some s0 -> t ∉ children_ s0.
Proof.
  intros Hs Hin.
  assert (Hloop : forall i, reachable (syncs w0) i ->
            forall s, syncs w0 !! i = Some s -> parent_ s = Some i -> False).
  { induction 1 as [|p s c Hp IH Hsp Hc]; intros s1 Hs1 Hpar.
    - destruct (tree_root _ _ wf) as (r & Hr & Hnone). congruence.
    - destruct (proj1 (proj2 (tree_children _ _ wf p s Hsp) c) Hc)
        as (cs & Hcs & Hcp).
      assert (p = c) by congruence. subst p. eapply IH; eauto. }
  destruct (proj1 (proj2 (tree_children _ _ wf t s0 Hs) t) Hin)
    as (cs & Hcs & Hcp).
  refine (Hloop t _ cs Hcs Hcp).
  apply (tree_reachable _ _ wf). apply lookup_lt_is_Some. eauto.
Qed.

Lemma data_block_inj i j si sj :
  syncs w0 !! i = Some si -> syncs w0 !! j = Some sj ->
  block (data_ si) = block (data_ sj) -> i = j.
Proof.
  intros Hi Hj Heq. eapply NoDup_lookup; [exact data_apart| |].
  - rewrite list_lookup_fmap, Hi. reflexivity.
  - rewrite list_lookup_fmap, Hj. simpl. f_equal. symmetry. exact Heq.
Qed.

Lemma data_of_same w c sc :
  same_objects w0 w -> syncs w0 !! c = Some sc ->
  data_of (syncs w) c = data_ sc.
Proof.
  intros Hsame Hc. destruct (same_objects_lookup _ _ _ _ Hsame Hc) as (q & Hq).
  unfold data_of. rewrite Hq. reflexivity.
Qed.

Lemma push_loop_same self : forall cs w u w',
  for_each cs (fun c => queue_push c self) w = Ok (u, w') ->
  same_objects w0 w ->
  same_objects w0 w' /\ default_stream w' = default_stream w.
Proof.
  induction cs as [|c cs IH]; intros w u w' H Hsame; simpl in H.
  - inversion H; subst. auto.
  - apply bind_Ok in H as ([] & w1 & H1 & H).
    apply queue_push_Ok in H1 as (s & Hs & ->).
    destruct (same_objects_lookup_r _ _ _ _ Hsame Hs) as (s0 & q & Hs0 & ->).
    apply IH in H; [exact H|].
    unfold same_objects. simpl.
    eapply (same_objects_insert w0 w c s0 (q ++ [self])); eauto.
Qed.

Lemma on_start_this thread t w r :
  on_start DEBUG cuda_fails thread t w = Ok r ->
  exists this, syncs w !! t = Some this.
Proof.
  destruct r as [u w']. unfold on_start. intros H.
  apply bind_Ok in H as (this & w1 & H1 & _).
  apply get_sync_Ok in H1 as (_ & H1). eauto.
Qed.

Lemma binv_step w informed t w' :
  binv w informed ->
  on_start DEBUG cuda_fails t t w = Ok (tt, w') ->
  exists s0,
    syncs w0 !! t = Some s0
    /\ informed t
    /\ binv w' (fun i => informed i \/ i ∈ children_ s0).
Proof.
  intros (Hsame & Hidle & Hroot & Hdata & Hqueue) H.
  destruct (on_start_this _ _ _ _ H) as (this & Hthis).
  destruct (same_objects_lookup_r _ _ _ _ Hsame Hthis) as (s0 & q0 & Hs0 & ->).
  exists s0. split; [exact Hs0|].
  destruct (on_start_world DEBUG cuda_fails _ _ _ _ _ Hthis H)
    as (wp & ws & Hpop & Hsy & _ & Hsync & Hpush).
  simpl in Hpop, Hsync, Hpush.
  assert (Hinf : informed t).
  { destruct (parent_ s0) as [p|] eqn:Hp.
    - destruct Hpop as (q & Hq & _). apply Hqueue. unfold queue_of.
      rewrite Hthis. simpl. rewrite Hq. discriminate.
    - rewrite (no_parent_root _ _ wf t s0 Hs0 Hp). exact Hroot. }
  split; [exact Hinf|].
  destruct (tree_children _ _ wf t s0 Hs0) as (Hndc & Hch).
  pose proof (not_own_child t s0 Hs0) as Hself.
  pose proof (tree_size _ _ wf t s0 Hs0) as Hsize.
  assert (Hchild : forall c, c ∈ children_ s0 ->
            exists sc, syncs w0 !! c = Some sc
              /\ data_of (syncs w) c = data_ sc).
  { intros c Hc. destruct (proj1 (Hch c) Hc) as (sc & Hsc & _).
    exists sc. split; [exact Hsc|]. eapply data_of_same; eauto. }
  (* the copies *)
  assert (Hcopies :
    (forall c, c ∈ children_ s0 ->
       mem_read (mem (heap ws)) (data_of (syncs w) c) size
       = mem_read (mem (heap w)) (data_ s0) size)
    /\ (forall q k,
          (forall c, c ∈ children_ s0 -> block q <> block (data_of (syncs w) c)) ->
          mem_read (mem (heap ws)) q k = mem_read (mem (heap w)) q k)
    /\ default_stream ws = []).
  { destruct (negb (length (children_ s0) =? 0)%nat) eqn:E.
    - destruct Hsync as (Hcp & Hst). rewrite Hidle in Hcp. simpl in Hcp.
      rewrite Hsize in Hcp.
      destruct (do_copies_broadcast (data_of (syncs w)) (data_ s0) size
                  _ _ _ Hcp) as (Hall & _ & Hframe); auto.
      + apply NoDup_fmap_2_strong; [|exact Hndc].
        intros x y Hx Hy Heq.
        destruct (Hchild x Hx) as (sx & Hox & Hdx).
        destruct (Hchild y Hy) as (sy & Hoy & Hdy).
        rewrite Hdx, Hdy in Heq. eapply data_block_inj; eauto.
      + intros c Hc Heq. destruct (Hchild c Hc) as (sc & Hsc & Hdc).
        rewrite Hdc in Heq.
        assert (c = t) by (eapply data_block_inj; eauto). subst c.
        contradiction.
    - destruct Hsync as (-> & Hst).
      apply negb_false_iff, Nat.eqb_eq, length_zero_iff_nil in E.
      rewrite E. repeat split; auto; try congruence.
      intros c Hc. apply elem_of_nil in Hc. contradiction. }
  destruct Hcopies as (Hall & Hframe & Hst).
  (* the objects *)
  assert (Hsame_p : same_objects w0 wp).
  { unfold same_objects. destruct (parent_ s0) as [p|].
    - destruct Hpop as (q & _ & ->).
      eapply (same_objects_insert w0 w t s0 q); eauto.
    - rewrite Hpop. exact Hsame. }
  assert (Hsame_s : same_objects w0 ws)
    by (unfold same_objects; rewrite Hsy; exact Hsame_p).
  destruct (push_loop_same _ _ _ _ _ Hpush Hsame_s) as (Hsame' & Hst').
  pose proof (push_loop_Ok _ _ _ _ _ Hpush) as (Hheap & _).
  destruct (push_loop_queues _ _ _ _ _ Hpush Hndc) as (_ & _ & Hout).
  split; [exact Hsame'|]. split; [congruence|]. split; [auto|]. split.
  - intros i si r Hi Hsi Hr. rewrite Hheap.
    destruct (decide (i ∈ children_ s0)) as [Hc|Hnc].
    + destruct (Hchild i Hc) as (sc & Hsc & Hdc).
      rewrite Hsi in Hsc. inversion Hsc; subst sc; clear Hsc.
      rewrite <- Hdc, (Hall i Hc). eapply Hdata; eauto.
    + destruct Hi as [Hi|Hi]; [|contradiction].
      rewrite Hframe; [eapply Hdata; eauto|].
      intros c Hc Heq. destruct (Hchild c Hc) as (sc & Hsc & Hdc).
      rewrite Hdc in Heq.
      assert (i = c) by (eapply data_block_inj; eauto). subst c.
      contradiction.
  - intros i Hne.
    destruct (decide (i ∈ children_ s0)) as [Hc|Hnc]; [right; exact Hc|].
    left. destruct (decide (i = t)) as [->|Hit]; [exact Hinf|].
    apply Hqueue. intros Hempty. apply Hne. unfold queue_of in *.
    rewrite (Hout i Hnc), Hsy.
    assert (Hsame_i : syncs wp !! i = syncs w !! i).
    { destruct (parent_ s0) as [p|].
      - destruct Hpop as (q & _ & ->). apply list_lookup_insert_ne. auto.
      - rewrite Hpop. reflexivity. }
    rewrite Hsame_i. exact Hempty.
Qed.

Lemma binv_run schedule : forall w informed w',
  binv w informed ->
  run_starts schedule w = Ok (tt, w') ->
  exists informed',
    binv w' informed'
    /\ (forall i, informed i -> informed' i)
    /\ (forall t, t ∈ schedule -> informed' t).
Proof.
  induction schedule as [|t rest IH]; intros w informed w' Hinv H; simpl in H.
  - inversion H; subst. exists informed. split; [exact Hinv|].
    split; [auto|]. intros t Ht. apply elem_of_nil in Ht. contradiction.
  - apply bind_Ok in H as ([] & w1 & H1 & H).
    destruct (binv_step _ _ _ _ Hinv H1) as (s0 & Hs0 & Hinf & Hinv1).
    destruct (IH _ _ _ Hinv1 H) as (informed' & Hinv' & Hmono & Hran).
    exists informed'. split; [exact Hinv'|]. split.
    + intros i Hi. apply Hmono. left. exact Hi.
    + intros t' Ht'. apply elem_of_cons in Ht' as [->|Ht']; [|auto].
      apply Hmono. left. exact Hinf.
Qed.

(** X24.  The broadcast reaches every worker.  Start a step in a worker
    tree with empty queues and no pending copy, the parameter buffers of the
    workers lying in allocations of their own.  Let workers enter [on_start]
    in any order, each call running when its wait is over.  Then every worker
    whose [on_start] has returned holds, in its parameter buffer, the
    parameters that the root had at the start of the step, and so does the
    root; so all solvers compute the step on the same parameters. *)
Theorem broadcast_reaches_workers (schedule : list nat) (w : World) :
  run_starts schedule w0 = Ok (tt, w) ->
  forall t s r,
    t = 0%nat \/ t ∈ schedule ->
    syncs w0 !! t = Some s ->
    syncs w0 !! 0%nat = Some r ->
    mem_read (mem (heap w)) (data_ s) size
    = mem_read (mem (heap w0)) (data_ r) size.
Proof.
  intros H t s r Ht Hs Hr.
  destruct (binv_run _ _ _ _ binv_init H)
    as (informed & (_ & _ & _ & Hdata & _) & Hmono & Hran).
  apply (Hdata t s r); [|exact Hs|exact Hr].
  destruct Ht as [->|Ht]; [apply Hmono; reflexivity | apply Hran; exact Ht].
Qed.

End Broadcast.

Lemma example_chain_tree : tree example_chain 4.
Proof.
  constructor.
  - eexists. split; reflexivity.
  - intros [|[|[|i]]] s Hs; inversion Hs; subst s; simpl.
    + split; [apply NoDup_singleton|]. intros c. split.
      * intros Hc. apply list_elem_of_singleton in Hc. subst c.
        eexists. split; reflexivity.
      * intros (cs & Hcs & Hp). destruct c as [|[|[|c]]]; inversion Hcs;
          subst cs; simpl in Hp; try discriminate.
        apply list_elem_of_here.
    + split; [apply NoDup_singleton|]. intros c. split.
      * intros Hc. apply list_elem_of_singleton in Hc. subst c.
        eexists. split; reflexivity.
      * intros (cs & Hcs & Hp). destruct c as [|[|[|c]]]; inversion Hcs;
          subst cs; simpl in Hp; try discriminate.
        apply list_elem_of_here.
    + split; [apply NoDup_nil; exact I|]. intros c. split.
      * intros Hc. apply elem_of_nil in Hc. contradiction.
      * intros (cs & Hcs & Hp). destruct c as [|[|[|c]]]; inversion Hcs;
          subst cs; simpl in Hp; discriminate.
  - assert (R0 : reachable (syncs example_chain) 0) by constructor.
    assert (R1 : reachable (syncs example_chain) 1).
    { eapply reach_child; [exact R0|reflexivity|]. apply list_elem_of_here. }
    assert (R2 : reachable (syncs example_chain) 2).
    { eapply reach_child; [exact R1|reflexivity|]. apply list_elem_of_here. }
    intros [|[|[|i]]] Hi; auto. simpl in Hi. lia.
  - intros [|[|[|i]]] s Hs; inversion Hs; reflexivity.
  - apply (bool_decide_unpack _). vm_compute. reflexivity.
  - intros [|[|[|i]]] s Hs; inversion Hs; subst s; simpl;
      (split; [eexists; reflexivity|]);
      intros g Hg; inversion Hg; subst g; eexists; reflexivity.
  - split; [reflexivity|].
    intros [|[|[|i]]] s Hs; inversion Hs; reflexivity.
Qed.

(** The three workers of [example_chain], root first: all three end with
    the root's parameters, four times 7. *)
Lemma broadcast_reaches_workers_witness :
  exists w,
    run_starts true no_error [0; 1; 2]%nat example_chain = Ok (tt, w)
    /\ mem_read (mem (heap w)) (mkPointer 1 0) 4 = Some (repeat (fl 7) 4)
    /\ mem_read (mem (heap w)) (mkPointer 2 0) 4 = Some (repeat (fl 7) 4).
Proof.
  eassert (H : run_starts true no_error [0; 1; 2]%nat example_chain = Ok (tt, _))
    by (vm_compute; reflexivity).
  assert (Hnd : NoDup (map (fun s => block (data_ s)) (syncs example_chain)))
    by (apply (bool_decide_unpack _); vm_compute; reflexivity).
  eexists. split; [exact H|]. split.
  - etrans; [|reflexivity].
    refine (broadcast_reaches_workers true no_error example_chain 4
              example_chain_tree Hnd _ _ H 1%nat _ _ _ eq_refl eq_refl).
    right. rewrite !elem_of_cons. auto.
  - etrans; [|reflexivity].
    refine (broadcast_reaches_workers true no_error example_chain 4
              example_chain_tree Hnd _ _ H 2%nat _ _ _ eq_refl eq_refl).
    right. rewrite !elem_of_cons. auto.
Defined.

(** *** The reduction phase can always be completed *)

Section Completion.

Context {format : Dtype_format}.
Variable cuda_fails : CudaCall -> World -> bool.
Variable w0 : World.
Variable size : Z.
Hypothesis wf : tree w0 size.

(** The runtime reports no error. *)
Hypothesis no_cuda_error : forall c w, cuda_fails c w = false.
(** Every worker with a parent has its receiving buffer, as the constructor
    leaves it. *)
Hypothesis staging : forall i s,
  syncs w0 !! i = Some s -> parent_ s <> None -> is_Some (parent_grads_ s).
(** A worker is built after its parent. *)
Hypothesis parents_first : forall i s p,
  syncs w0 !! i = Some s -> parent_ s = Some p -> (p < i)%nat.

Lemma mem_write_after_read m p n v vals :
  mem_read m p n = Some v -> length vals = Z.to_nat n ->
  exists m', mem_write m p vals = Some m'.
Proof.
  unfold mem_read, mem_write. intros H Hlen.
  destruct (m !! block p) as [[a|]|]; try discriminate.
  destruct (_ && _) eqn:E; [|discriminate].
  apply andb_true_iff in E as (E & E3). apply andb_true_iff in E as (E1 & E2).
  apply Z.leb_le in E1, E2, E3.
  replace (0 <=? offset p) with true by (symmetry; apply Z.leb_le; lia).
  replace (_ <=? _) with true by (symmetry; apply Z.leb_le; lia).
  simpl. eauto.
Qed.

Lemma add_child_runs this d c cs src w vs vd :
  syncs w !! c = Some cs ->
  parent_grads_ cs = Some src ->
  mem_read (mem (heap w)) src (size_ this) = Some vs ->
  mem_read (mem (heap w)) (diff_ this) (size_ this) = Some vd ->
  exists w', add_child false cuda_fails this d c w = Ok (tt, w').
Proof.
  intros Hc Hsrc Hvs Hvd.
  destruct (mem_write_after_read _ _ _ _ (zip_with Dtype_add vs vd) Hvd)
    as (m' & Hm').
  { rewrite length_zip_with.
    rewrite (mem_read_length _ _ _ _ Hvs), (mem_read_length _ _ _ _ Hvd). lia. }
  unfold add_child.
  rewrite (bind_eq _ _ _ _ _ (get_sync_Some _ _ _ Hc)).
  unfold bind at 1. unfold ret at 1.
  unfold bind at 1. unfold valid at 1. rewrite Hsrc. unfold ret at 1.
  unfold debug_pointer. unfold bind at 1. unfold ret at 1.
  unfold bind at 1. unfold ret at 1.
  unfold caffe_gpu_add, read, write, bind, get_world, valid, ret, modify.
  rewrite Hvs, Hvd, Hm'. eauto.
Qed.

Lemma send_runs t d this p dst ps w vals :
  syncs w !! t = Some this ->
  parent_ this = Some p ->
  parent_grads_ this = Some dst ->
  syncs w !! p = Some ps ->
  default_stream w = [] ->
  mem_read (mem (heap w)) (diff_ this) (size_ this) = Some vals ->
  is_Some (mem_read (mem (heap w)) dst (size_ this)) ->
  exists w', send_or_scale false cuda_fails t d w = Ok (tt, w').
Proof.
  intros Ht Hp Hdst Hps Hidle Hvals (vdst & Hvdst).
  destruct (mem_write_after_read _ _ _ _ vals Hvdst) as (m' & Hm').
  { apply (mem_read_length _ _ _ _ Hvals). }
  unfold send_or_scale.
  rewrite (bind_eq _ _ _ _ _ (get_sync_Some _ _ _ Ht)). rewrite Hp.
  unfold bind at 1. unfold valid at 1. rewrite Hdst. unfold ret at 1.
  unfold debug_pointer. unfold bind at 1. unfold ret at 1.
  unfold bind at 1. unfold ret at 1.
  unfold cudaMemcpyAsync, cudaStreamSynchronize, queue_push, get_sync, cuda,
    emit, bind, get_world, valid, ret, modify.
  rewrite !no_cuda_error. simpl. rewrite Hidle. simpl. rewrite Hvals, Hm'.
  simpl. rewrite Hps. eauto.
Qed.

Lemma scale_runs d this w vx :
  syncs w !! 0%nat = Some this ->
  parent_ this = None ->
  mem_read (mem (heap w)) (diff_ this) (size_ this) = Some vx ->
  exists w', send_or_scale false cuda_fails 0 d w = Ok (tt, w').
Proof.
  intros Ht Hp Hvx.
  destruct (mem_write_after_read _ _ _ _
              (map (Dtype_mul (Dtype_of_double (double_reciprocal (solver_count w)))) vx) Hvx)
    as (m' & Hm').
  { rewrite length_map. apply (mem_read_length _ _ _ _ Hvx). }
  unfold send_or_scale.
  rewrite (bind_eq _ _ _ _ _ (get_sync_Some _ _ _ Ht)). rewrite Hp.
  unfold caffe_gpu_scal, read, write, bind, get_world, valid, ret, modify.
  rewrite Hvx, Hm'. eauto.
Qed.

(** A list without repetition that is shorter than another leaves out one
    of its elements. *)
Lemma one_is_missing (l k : list nat) :
  NoDup l -> NoDup k -> (forall x, x ∈ l -> x ∈ k) ->
  (length l < length k)%nat ->
  exists x, x ∈ k /\ x ∉ l.
Proof.
  intros Hl Hk Hsub Hlen.
  destruct (decide (Forall (fun x => x ∈ l) k)) as [Hall|Hnot].
  - exfalso. rewrite Forall_forall in Hall.
    assert (length k <= length l)%nat; [|lia].
    apply List.NoDup_incl_length; [apply NoDup_ListNoDup, Hk|].
    intros x Hx. apply list_elem_of_In, Hall, list_elem_of_In, Hx.
  - apply not_Forall_Exists in Hnot; [|intros x; apply _].
    apply Exists_exists in Hnot as (x & Hx & Hnx). eauto.
Qed.

Lemma Returned_dec (x : Location) : {x = Returned} + {x <> Returned}.
Proof. destruct x; [right|right|left]; congruence. Qed.

(** The thread with the largest number among those that have not
    returned. *)
Lemma last_unreturned (locs : list Location) :
  (exists i, (i < length locs)%nat /\ locs !! i <> Some Returned) ->
  exists t at_,
    locs !! t = Some at_ /\ at_ <> Returned
    /\ forall i, (t < i)%nat -> (i < length locs)%nat ->
         locs !! i = Some Returned.
Proof.
  induction locs as [|x l IH] using rev_ind; intros (i & Hi & Hne).
  - simpl in Hi. lia.
  - destruct (Returned_dec x) as [->|Hx].
    + destruct IH as (t & at_ & Hat & Hnr & Hlater).
      { rewrite length_app in Hi. simpl in Hi.
        destruct (decide (i = length l)) as [->|Hil].
        - exfalso. apply Hne. rewrite lookup_app_r by lia.
          rewrite Nat.sub_diag. reflexivity.
        - exists i. split; [lia|]. rewrite lookup_app_l in Hne by lia.
          exact Hne. }
      exists t, at_. split; [apply lookup_app_l_Some; exact Hat|].
      split; [exact Hnr|]. intros j Htj Hj.
      rewrite length_app in Hj. simpl in Hj.
      destruct (decide (j = length l)) as [->|Hjl].
      * rewrite lookup_app_r by lia. rewrite Nat.sub_diag. reflexivity.
      * rewrite lookup_app_l by lia. apply Hlater; lia.
    + exists (length l), x. split; [|split; [exact Hx|]].
      * rewrite lookup_app_r by lia. rewrite Nat.sub_diag. reflexivity.
      * intros j Htj Hj. rewrite length_app in Hj. simpl in Hj. lia.
Qed.

(** What a thread still has to do: the prologue, one turn per child that is
    left, and the part after the loop. *)
Definition todo (C : nat) (at_ : Location) : nat :=
  match at_ with
  | AtEntry => 2 + C
  | InLoop i _ => 1 + (C - i)
  | Returned => 0
  end.

Fixpoint work (ss : list P2PSync) (locs : list Location) : nat :=
  match ss, locs with
  | s :: ss', at_ :: locs' => todo (length (children_ s)) at_ + work ss' locs'
  | _, _ => 0
  end.

Lemma work_insert : forall ss locs t s at_ at',
  ss !! t = Some s -> locs !! t = Some at_ ->
  (todo (length (children_ s)) at' < todo (length (children_ s)) at_)%nat ->
  (work ss (<[t := at']> locs) < work ss locs)%nat.
Proof.
  induction ss as [|s0 ss IH]; intros locs t s at_ at' Hs Hat Hlt.
  - discriminate.
  - destruct locs as [|a locs]; [discriminate|]. destruct t as [|t]; simpl in *.
    + inversion Hs; inversion Hat; subst. lia.
    + specialize (IH locs t s at_ at' Hs Hat Hlt). lia.
Qed.

(** Some thread that has not returned can take its next step. *)
Lemma progress w locs :
  inv w0 size w locs ->
  (exists i, (i < length locs)%nat /\ locs !! i <> Some Returned) ->
  exists t s0 at_ at' w',
    syncs w0 !! t = Some s0
    /\ locs !! t = Some at_
    /\ (todo (length (children_ s0)) at' < todo (length (children_ s0)) at_)%nat
    /\ step false cuda_fails t at_ w = Ok (at', w').
Proof.
  intros (taken & Hlen & Hsame & Hread & Hstream & _ & Hloc & Hq & Hret & _) Hex.
  destruct (last_unreturned locs Hex) as (t & at_ & Hat & Hne & Hlater).
  assert (HtN : (t < length (syncs w0))%nat).
  { rewrite <- Hlen. apply lookup_lt_is_Some. eauto. }
  destruct (lookup_lt_is_Some_2 _ _ HtN) as (s0 & Hs0).
  destruct (same_objects_lookup _ _ _ _ Hsame Hs0) as (q & Hs).
  pose proof (Hloc t s0 Hs0) as Hlt. rewrite Hat in Hlt.
  pose proof (tree_size _ _ wf t s0 Hs0) as Hsize.
  destruct (Hread t s0 Hs0) as ((vd & Hvd) & Hstg).
  assert (Hqt : queue_of w t = q) by (unfold queue_of; rewrite Hs; reflexivity).
  exists t, s0, at_.
  destruct at_ as [|j d|]; [| |contradiction].
  - exists (InLoop 0 0), w. repeat split; auto; [simpl; lia|].
    unfold step. rewrite (bind_eq _ _ _ _ _ (get_sync_Some _ _ _ Hs)).
    reflexivity.
  - destruct (tree_children _ _ wf t s0 Hs0) as (Hndc & _).
    destruct (Hq t s0 Hs0) as (Hnd & Hin). rewrite Hqt in Hnd, Hin.
    destruct (lt_dec j (length (children_ s0))) as [Hj|Hj].
    + (* one more turn of the loop *)
      destruct q as [|token q'].
      { exfalso. rewrite app_nil_r in Hnd, Hin.
        destruct (one_is_missing (taken t) (children_ s0) Hnd Hndc)
          as (c & Hc & Hnc); [intros x Hx; apply Hin, Hx | lia |].
        destruct (child_parent _ _ wf _ _ _ Hs0 Hc) as (cs & Hcs & Hpar).
        pose proof (parents_first _ _ _ Hcs Hpar) as Htc.
        apply Hnc. specialize (Hret c cs t Hcs).
        rewrite Hqt, app_nil_r in Hret. apply Hret; [|exact Hpar].
        apply Hlater; [exact Htc|]. rewrite Hlen.
        apply (lookup_lt_N _ _ _ Hcs). }
      assert (Htok : token ∈ children_ s0).
      { apply Hin. apply elem_of_app. right. apply list_elem_of_here. }
      destruct (child_parent _ _ wf _ _ _ Hs0 Htok) as (cs & Hcs & Hpar).
      pose proof (parents_first _ _ _ Hcs Hpar) as Htc.
      destruct (staging _ _ Hcs) as (src & Hsrc); [congruence|].
      destruct (Hread token cs Hcs) as (_ & Hrs).
      destruct (Hrs src Hsrc) as (vs & Hvs).
      destruct (same_objects_lookup _ _ _ _ Hsame Hcs) as (qc & Hc).
      destruct (add_child_runs (set_queue s0 (token :: q')) d token
                  (set_queue cs qc) src
                  (with_trace
                     (with_syncs w (<[t := set_queue (set_queue s0 (token :: q')) q']>
                                      (syncs w)))
                     (trace w ++ [EvQueuePop t token])) vs vd) as (w' & Hadd).
      { simpl. rewrite list_lookup_insert_ne by lia. exact Hc. }
      { exact Hsrc. }
      { simpl. rewrite Hsize. exact Hvs. }
      { simpl. rewrite Hsize. exact Hvd. }
      exists (InLoop (S j) d), w'. repeat split; auto; [simpl; lia|].
      unfold step. rewrite (bind_eq _ _ _ _ _ (get_sync_Some _ _ _ Hs)).
      cbn [children_ set_queue].
      rewrite (proj2 (Nat.ltb_lt _ _) Hj). unfold bind at 1.
      rewrite (reduce_child_head false cuda_fails t d _ token q' w Hs eq_refl).
      rewrite Hadd. reflexivity.
    + (* after the loop *)
      assert (Hstep : exists w', send_or_scale false cuda_fails t d w = Ok (tt, w')).
      { destruct (parent_ s0) as [p|] eqn:Hp.
        - destruct (staging _ _ Hs0) as (dst & Hdst); [congruence|].
          pose proof (parents_first _ _ _ Hs0 Hp) as Hpt.
          destruct (lookup_lt_is_Some_2 (syncs w0) p) as (ps0 & Hps0); [lia|].
          destruct (same_objects_lookup _ _ _ _ Hsame Hps0) as (qp & Hps).
          eapply (send_runs t d (set_queue s0 q) p dst); eauto.
          + simpl. rewrite Hsize. exact Hvd.
          + simpl. rewrite Hsize. apply Hstg. exact Hdst.
        - pose proof (no_parent_root _ _ wf t s0 Hs0 Hp) as ->.
          eapply (scale_runs d (set_queue s0 q)); eauto.
          simpl. rewrite Hsize. exact Hvd. }
      destruct Hstep as (w' & Hsend).
      exists Returned, w'. repeat split; auto; [simpl; lia|].
      unfold step. rewrite (bind_eq _ _ _ _ _ (get_sync_Some _ _ _ Hs)).
      cbn [children_ set_queue].
      rewrite (proj2 (Nat.ltb_ge j (length (children_ s0))) ltac:(lia)).
      unfold bind at 1.
      rewrite Hsend. reflexivity.
Qed.

Lemma all_returned_dec (locs : list Location) :
  (forall i, (i < length locs)%nat -> locs !! i = Some Returned)
  \/ exists i, (i < length locs)%nat /\ locs !! i <> Some Returned.
Proof.
  induction locs as [|x l IH].
  - left. intros i Hi. simpl in Hi. lia.
  - destruct (Returned_dec x) as [->|Hx].
    + destruct IH as [IH|(i & Hi & Hne)].
      * left. intros [|i] Hi; [reflexivity|]. simpl in *. apply IH. lia.
      * right. exists (S i). simpl. split; [lia|exact Hne].
    + right. exists 0%nat. simpl. split; [lia|]. congruence.
Qed.

Lemma completion_from n : forall w locs,
  (work (syncs w0) locs <= n)%nat ->
  inv w0 size w locs ->
  exists schedule locs' w',
    run_threads false cuda_fails schedule locs w = Ok (locs', w')
    /\ forall i, (i < length (syncs w0))%nat -> locs' !! i = Some Returned.
Proof.
  induction n as [|n IH]; intros w locs Hwork Hinv.
  - destruct (all_returned_dec locs) as [Hall|Hex].
    + exists [], locs, w. split; [reflexivity|].
      destruct Hinv as (taken & Hlen & _). rewrite <- Hlen. exact Hall.
    + exfalso.
      destruct (progress w locs Hinv Hex)
        as (t & s0 & at_ & at' & w' & Hs0 & Hat & Hlt & _).
      pose proof (work_insert _ _ _ _ _ _ Hs0 Hat Hlt). lia.
  - destruct (all_returned_dec locs) as [Hall|Hex].
    + exists [], locs, w. split; [reflexivity|].
      destruct Hinv as (taken & Hlen & _). rewrite <- Hlen. exact Hall.
    + destruct (progress w locs Hinv Hex)
        as (t & s0 & at_ & at' & w1 & Hs0 & Hat & Hlt & Hstep).
      pose proof (work_insert _ _ _ _ _ _ Hs0 Hat Hlt) as Hless.
      pose proof (inv_step false cuda_fails w0 size wf _ _ _ _ _ _ Hinv Hat Hstep)
        as Hinv1.
      destruct (IH w1 (<[t := at']> locs) ltac:(lia) Hinv1)
        as (schedule & locs' & w' & Hrun & Hall).
      exists (t :: schedule), locs', w'. split; [|exact Hall].
      simpl. unfold bind at 1. unfold valid. rewrite Hat. unfold ret at 1.
      unfold bind at 1. rewrite Hstep. exact Hrun.
Qed.

(** X25.  The reduction phase can always be completed.  Take a worker
    tree with empty queues in which every worker was built after its parent
    and every worker with a parent has its receiving buffer, a runtime that
    reports no error, and a build without [DEBUG].  Then the threads can run
    [on_gradients_ready] to the end: there is an interleaving in which no
    call aborts and every thread returns.  More is true on the way: in every
    state the threads can reach, as long as some thread has not returned,
    one of those threads can take its next step. *)
Theorem reduction_completes :
  (exists schedule locs w,
     run_threads false cuda_fails schedule
       (replicate (length (syncs w0)) AtEntry) w0 = Ok (locs, w)
     /\ forall i, (i < length (syncs w0))%nat -> locs !! i = Some Returned)
  /\ forall schedule locs w,
       run_threads false cuda_fails schedule
         (replicate (length (syncs w0)) AtEntry) w0 = Ok (locs, w) ->
       (exists i, (i < length (syncs w0))%nat /\ locs !! i <> Some Returned) ->
       exists t at_ at' w',
         locs !! t = Some at_ /\ at_ <> Returned
         /\ step false cuda_fails t at_ w = Ok (at', w').
Proof.
  split.
  - eapply completion_from; [reflexivity|]. apply inv_init. exact wf.
  - intros schedule locs w Hrun Hex.
    pose proof (inv_run_threads false cuda_fails w0 size wf _ _ _ _ _
                  (inv_init w0 size wf) Hrun) as Hinv.
    assert (Hlen : length locs = length (syncs w0))
      by (destruct Hinv as (taken & Hlen & _); exact Hlen).
    rewrite <- Hlen in Hex.
    destruct (progress w locs Hinv Hex)
      as (t & s0 & at_ & at' & w' & _ & Hat & Hlt & Hstep).
    exists t, at_, at', w'. split; [exact Hat|]. split; [|exact Hstep].
    intros ->. simpl in Hlt. lia.
Qed.

End Completion.

Lemma reduction_completes_witness :
  exists schedule locs w,
    run_threads (format := binary32) false no_error schedule (replicate 3 AtEntry) example_world
    = Ok (locs, w)
    /\ forall i, (i < 3)%nat -> locs !! i = Some Returned.
Proof.
  apply (proj1 (reduction_completes (format := binary32) no_error example_world 4
                  example_world_tree (fun _ _ => eq_refl) ltac:(
                    intros [|[|[|i]]] s Hs Hp; inversion Hs; subst s;
                    simpl in *; try congruence; eauto) ltac:(
                    intros [|[|[|i]]] s p Hs Hp; inversion Hs; subst s;
                    simpl in Hp; inversion Hp; lia))).
Defined.


(** *** [P2PSync::run]: building the worker tree *)

(** [s->children_ = cs] *)
Definition set_children (s : P2PSync) (cs : list nat) : P2PSync :=
  {| size_ := size_ s; data_ := data_ s; diff_ := diff_ s;
     parent_ := parent_ s; children_ := cs; queue_ := queue_ s;
     initial_iter_ := initial_iter_ s; solver_ := solver_ s;
     parent_grads_ := parent_grads_ s |}.

(** [param.set_device_id(d)] *)
Definition set_device_id (prm : SolverParameter) (d : Z) : SolverParameter :=
  {| device_id := d; random_seed := random_seed prm;
     max_iter := max_iter prm |}.

(** A loop whose body updates local variables [st]. *)
Fixpoint for_state {A S} (xs : list A) (body : A -> S -> M S) (st : S)
  : M S :=
  match xs with
  | [] => ret st
  | x :: xs' => let! st' := body x st in for_state xs' body st'
  end.

Section Run.

Variable cuda_fails : CudaCall -> World -> bool.
Variable can_access_peer : Z -> Z -> Z.
Variable uninitialised : Dtype.
Variable new_Solver : SolverParameter -> M Solver.

(** Lines 407-414: the loop over [syncs[j]]; [parent] ends as the last
    worker built so far whose solver runs on [device]. *)
Fixpoint find_parent (built : list (option nat)) (device : Z)
    (parent : option nat) : M (option nat) :=
  match built with
  | [] => ret parent
  | None :: rest => find_parent rest device parent
  | Some a :: rest =>
      let! s := get_sync a in
      if device_id (param (solver_ s)) =? device
      then find_parent rest device (Some a)
      else find_parent rest device parent
  end.

(** Lines 405-420, the body of the loop over [i].  The local variables are
    the vector [syncs] (here [built]: null or the address of a worker) and
    [param]. *)
Definition build_worker (thread : nat) (root : Solver)
    (pairs : list Pairing.DevicePair) (i : nat)
    (st : list (option nat) * SolverParameter)
  : M (list (option nat) * SolverParameter) :=
  let '(built, prm) := st in
  let! slot := valid (built !! i) in
  match slot with
  | Some _ => ret st
  | None =>
      let! p := valid (pairs !! i) in
      let! parent := find_parent built (Pairing.parent p) None in
      match parent with
      | None => ret st
      | Some a =>
          let prm' := set_device_id prm (Pairing.device p) in
          let! this :=
            P2PSync_ctor cuda_fails can_access_peer uninitialised new_Solver
              thread root (Some a) prm' in
          let! ps := get_sync a in
          let! _ := put_sync a (set_children ps (children_ ps ++ [this])) in
          ret (<[i := Some this]> built, prm')
      end
  end.

(** Lines 398-422 of [P2PSync::run]: the root worker, then
    [pairs.size()] attempts to give every other pair its worker.  Yields
    the vector [syncs], which has [gpus.size()] slots, all null at first;
    [syncs[0]] of an empty vector, like [syncs[i]] beyond its end, is a
    memory fault. *)
Definition build_tree (thread : nat) (root : Solver) (gpus : list Z)
    (pairs : list Pairing.DevicePair) : M (list (option nat)) :=
  let prm := param root in
  let built := replicate (length gpus) None in
  let! _ := valid (built !! 0%nat) in
  let! r :=
    P2PSync_ctor cuda_fails can_access_peer uninitialised new_Solver
      thread root None prm in
  let! st :=
    for_state (seq 0 (length pairs))
      (fun attempts st =>
         for_state (seq 1 (length pairs - 1))
           (build_worker thread root pairs) st)
      (<[0%nat := Some r]> built, prm) in
  ret (fst st).

(** **** What the loops keep *)

Lemma for_state_inv {A S} (I : S -> World -> Prop) (body : A -> S -> M S) :
  (forall x st w st' w', I st w -> body x st w = Ok (st', w') -> I st' w') ->
  forall xs st w st' w',
    I st w -> for_state xs body st w = Ok (st', w') -> I st' w'.
Proof.
  intros Hbody. induction xs as [|x xs IH]; intros st w st' w' HI H; simpl in H.
  - inversion H; subst. exact HI.
  - apply bind_Ok in H as (st1 & w1 & H1 & H). eauto.
Qed.

(** The device of the solver of the worker at [a], and its parent. *)
Definition device_at (ss : list P2PSync) (a : nat) : option Z :=
  (fun s => device_id (param (solver_ s))) <$> ss !! a.

Definition parent_at (ss : list P2PSync) (a : nat) : option (option nat) :=
  parent_ <$> ss !! a.

Lemma find_parent_Ok : forall built device parent w r w',
  find_parent built device parent w = Ok (r, w') ->
  w' = w
  /\ (r = parent
      \/ exists j a, built !! j = Some (Some a)
           /\ device_at (syncs w) a = Some device /\ r = Some a).
Proof.
  induction built as [|[a|] rest IH]; intros device parent w r w' H;
    simpl in H.
  - inversion H; subst. auto.
  - apply bind_Ok in H as (s & w1 & H1 & H).
    apply get_sync_Ok in H1 as (-> & Hs).
    destruct (device_id (param (solver_ s)) =? device) eqn:E.
    + apply Z.eqb_eq in E. apply IH in H as (-> & [->|(j & b & Hj & Hd & ->)]).
      * split; [reflexivity|]. right. exists 0%nat, a.
        unfold device_at. rewrite Hs. simpl. rewrite E. auto.
      * split; [reflexivity|]. right. exists (S j), b. auto.
    + apply IH in H as (-> & [->|(j & b & Hj & Hd & ->)]); [auto|].
      split; [reflexivity|]. right. exists (S j), b. auto.
  - apply IH in H as (-> & [->|(j & b & Hj & Hd & ->)]); [auto|].
    split; [reflexivity|]. right. exists (S j), b. auto.
Qed.

(** The shape of a worker tree: a worker without parent is worker 0, a
    parent was built before its children, and [children_] lists exactly the
    workers whose [parent_] the worker is. *)
Definition shape (ss : list P2PSync) : Prop :=
  (forall a s, ss !! a = Some s ->
     match parent_ s with
     | None => a = 0%nat
     | Some b => (b < a)%nat
     end)
  /\ (forall b sb, ss !! b = Some sb ->
        NoDup (children_ sb)
        /\ forall c, c ∈ children_ sb
             <-> exists sc, ss !! c = Some sc /\ parent_ sc = Some b).

Lemma lookup_added (ss : list P2PSync) a ps' obj x s :
  (a < length ss)%nat ->
  <[a := ps']> (ss ++ [obj]) !! x = Some s ->
  (x = a /\ s = ps')
  \/ (x <> a /\ ss !! x = Some s)
  \/ (x = length ss /\ s = obj).
Proof.
  intros Ha H. destruct (decide (x = a)) as [->|Hne].
  - rewrite list_lookup_insert_eq in H by (rewrite length_app; simpl; lia).
    inversion H. auto.
  - rewrite list_lookup_insert_ne in H by auto.
    destruct (decide (x < length ss)%nat) as [Hlt|Hge].
    + rewrite lookup_app_l in H by exact Hlt. auto.
    + rewrite lookup_app_r in H by lia.
      destruct (x - length ss)%nat as [|k] eqn:E; simpl in H; [|discriminate].
      inversion H. right. right. split; [lia|reflexivity].
Qed.

Lemma lookup_added_old (ss : list P2PSync) a ps' obj x s :
  x <> a -> ss !! x = Some s -> <[a := ps']> (ss ++ [obj]) !! x = Some s.
Proof.
  intros Hne H. rewrite list_lookup_insert_ne by auto.
  apply lookup_app_l_Some. exact H.
Qed.

Lemma lookup_added_parent (ss : list P2PSync) a ps' obj :
  (a < length ss)%nat -> <[a := ps']> (ss ++ [obj]) !! a = Some ps'.
Proof.
  intros Ha. apply list_lookup_insert_eq. rewrite length_app. simpl. lia.
Qed.

Lemma lookup_added_new (ss : list P2PSync) a ps' obj :
  (a < length ss)%nat ->
  <[a := ps']> (ss ++ [obj]) !! length ss = Some obj.
Proof.
  intros Ha. rewrite list_lookup_insert_ne by lia.
  rewrite lookup_app_r by lia. rewrite Nat.sub_diag. reflexivity.
Qed.

(** A new worker under [a] keeps the shape. *)
Lemma shape_add (ss : list P2PSync) a ps obj :
  shape ss -> ss !! a = Some ps ->
  parent_ obj = Some a -> children_ obj = [] ->
  shape (<[a := set_children ps (children_ ps ++ [length ss])]>
           (ss ++ [obj])).
Proof.
  intros (K1 & K2) Hps Hpar Hch.
  assert (Ha : (a < length ss)%nat) by (apply lookup_lt_is_Some; eauto).
  set (ps' := set_children ps (children_ ps ++ [length ss])).
  assert (Hself : parent_ ps <> Some a).
  { intros E. specialize (K1 a ps Hps). rewrite E in K1. lia. }
  assert (K1' : forall x s, <[a := ps']> (ss ++ [obj]) !! x = Some s ->
            match parent_ s with
            | None => x = 0%nat
            | Some b => (b < x)%nat
            end).
  { intros x s Hx.
    apply lookup_added in Hx as [(-> & ->)|[(Hne & Hx)|(-> & ->)]];
      [exact (K1 a ps Hps) | exact (K1 x s Hx) | | exact Ha].
    rewrite Hpar. exact Ha. }
  split; [exact K1'|].
  intros b sb Hb.
  apply lookup_added in Hb as [(-> & ->)|[(Hne & Hb)|(-> & ->)]];
    [| | |exact Ha].
  - (* the parent *)
    destruct (K2 a ps Hps) as (Hnd & Hiff). simpl. split.
    + apply NoDup_app. split; [exact Hnd|]. split; [|apply NoDup_singleton].
      intros c Hc Hc'. apply list_elem_of_singleton in Hc'. subst c.
      apply Hiff in Hc as (sc & Hsc & _).
      apply lookup_lt_Some in Hsc. lia.
    + intros c. rewrite elem_of_app, list_elem_of_singleton. split.
      * intros [Hc| ->].
        -- apply Hiff in Hc as (sc & Hsc & Hp). exists sc. split; [|exact Hp].
           apply lookup_added_old; [|exact Hsc].
           intros ->. rewrite Hps in Hsc. inversion Hsc; subst sc. auto.
        -- exists obj. split; [apply lookup_added_new; exact Ha | exact Hpar].
      * intros (sc & Hsc & Hp).
        apply lookup_added in Hsc as [(-> & ->)|[(Hne & Hsc)|(-> & ->)]];
          [| | |exact Ha].
        -- simpl in Hp. contradiction.
        -- left. apply Hiff. eauto.
        -- right. reflexivity.
  - (* another worker *)
    destruct (K2 b sb Hb) as (Hnd & Hiff). split; [exact Hnd|].
    intros c. rewrite Hiff. split.
    + intros (sc & Hsc & Hp). destruct (decide (c = a)) as [->|Hca].
      * rewrite Hps in Hsc. inversion Hsc; subst sc.
        exists ps'. split; [apply lookup_added_parent; exact Ha | exact Hp].
      * exists sc. split; [apply lookup_added_old; auto | exact Hp].
    + intros (sc & Hsc & Hp).
      apply lookup_added in Hsc as [(-> & ->)|[(Hca & Hsc)|(-> & ->)]];
        [| | |exact Ha].
      * exists ps. auto.
      * eauto.
      * rewrite Hpar in Hp. inversion Hp. congruence.
  - (* the new worker *)
    rewrite Hch. split; [apply NoDup_nil_2|].
    intros c. split; [intros Hc; apply elem_of_nil in Hc; contradiction|].
    intros (sc & Hsc & Hp). pose proof (lookup_lt_Some _ _ _ Hsc) as Hlt.
    rewrite length_insert, length_app in Hlt. simpl in Hlt.
    specialize (K1' c sc Hsc). rewrite Hp in K1'. lia.
Qed.

Lemma shape_root (obj : P2PSync) :
  parent_ obj = None -> children_ obj = [] -> shape [obj].
Proof.
  intros Hpar Hch. split.
  - intros [|a] s Hs; simpl in Hs; [|discriminate].
    inversion Hs; subst s. rewrite Hpar. reflexivity.
  - intros [|b] sb Hb; simpl in Hb; [|discriminate].
    inversion Hb; subst sb. rewrite Hch. split; [apply NoDup_nil_2|].
    intros c. split; [intros Hc; apply elem_of_nil in Hc; contradiction|].
    intros (sc & Hsc & Hp). destruct c as [|c]; simpl in Hsc; [|discriminate].
    inversion Hsc; subst sc. congruence.
Qed.

(** **** What a constructor call does to the world *)

(** Calls that issue no copy and wait for none. *)
Definition calm {A} (m : M A) : Prop :=
  forall w a w', m w = Ok (a, w') -> default_stream w' = default_stream w.

Lemma calm_ret {A} (a : A) : calm (ret a).
Proof. intros w b w' H. inversion H; subst. reflexivity. Qed.

Lemma calm_fail {A} f : calm (@fail A f).
Proof. intros w b w' H. discriminate. Qed.

Lemma calm_bind {A B} (m : M A) (k : A -> M B) :
  calm m -> (forall a, calm (k a)) -> calm (bind m k).
Proof.
  intros Hm Hk w b w' H. apply bind_Ok in H as (a & w1 & H1 & H2).
  apply Hm in H1. apply Hk in H2. congruence.
Qed.

Lemma calm_modify f :
  (forall w, default_stream (f w) = default_stream w) -> calm (modify f).
Proof. intros Hf w a w' H. inversion H; subst. apply Hf. Qed.

Lemma calm_cuda c : calm (cuda cuda_fails c).
Proof.
  intros w a w' H. unfold cuda in H. destruct (cuda_fails c w); inversion H.
  reflexivity.
Qed.

Lemma calm_on_heap f : calm (on_heap f).
Proof.
  intros w a w' H. unfold on_heap in H.
  destruct (f (heap w)); inversion H; subst. reflexivity.
Qed.

Local Ltac calm_tac :=
  repeat lazymatch goal with
    | |- calm (bind _ _) => apply calm_bind; [|intros; cbv beta]
    | |- calm (if ?b then _ else _) => destruct b
    | |- calm (ret _) => apply calm_ret
    | |- calm (fail _) => apply calm_fail
    | |- calm (valid ?o) => destruct o; [apply calm_ret | apply calm_fail]
    | |- calm get_world => intros ? ? ? H; inversion H; reflexivity
    | |- calm (cuda _ _) => apply calm_cuda
    | |- calm (on_heap _) => apply calm_on_heap
    | |- calm (emit _) => apply calm_modify; intros; reflexivity
    | |- calm (modify _) => apply calm_modify; intros; reflexivity
    | |- calm (match ?x with _ => _ end) => destruct x
    end.

Lemma calm_cudaSetDevice t d : calm (cudaSetDevice cuda_fails t d).
Proof. unfold cudaSetDevice. calm_tac. Qed.

Lemma calm_cudaMalloc t n : calm (cudaMalloc cuda_fails uninitialised t n).
Proof. unfold cudaMalloc. calm_tac. Qed.

Lemma calm_GPUParams_ctor t root d :
  calm (GPUParams_ctor cuda_fails uninitialised t root d).
Proof.
  unfold GPUParams_ctor, cudaGetDevice, caffe_gpu_set, write.
  calm_tac; first [apply calm_cudaSetDevice | apply calm_cudaMalloc].
Qed.

Lemma calm_alloc_parent_grads t self size parent :
  calm (alloc_parent_grads cuda_fails can_access_peer uninitialised
          t self size parent).
Proof.
  unfold alloc_parent_grads, get_sync, cudaDeviceCanAccessPeer,
    cudaDeviceEnablePeerAccess.
  calm_tac; first [apply calm_cudaSetDevice | apply calm_cudaMalloc].
Qed.

(** Device memory [m'] has every allocation of [m] as it was, and maybe
    more. *)
Definition extends (m m' : memory) : Prop :=
  (length m <= length m')%nat
  /\ forall q n, (block q < length m)%nat -> mem_read m' q n = mem_read m q n.

Lemma extends_refl m : extends m m.
Proof. split; auto. Qed.

Lemma extends_trans m1 m2 m3 : extends m1 m2 -> extends m2 m3 -> extends m1 m3.
Proof.
  intros (L1 & R1) (L2 & R2). split; [lia|].
  intros q n Hq. rewrite R2 by lia. apply R1. exact Hq.
Qed.

Lemma extends_app m ext : extends m (m ++ ext).
Proof.
  split; [rewrite length_app; lia|]. intros q n Hq. apply mem_read_app_l.
  exact Hq.
Qed.

Lemma GPUParams_ctor_memory thread root device w size d_ g_ w' :
  GPUParams_ctor cuda_fails uninitialised thread root device w
  = Ok ((size, d_, g_), w') ->
  size = total_size (net_params root)
  /\ g_ = mkPointer (S (length (mem (heap w)))) 0
  /\ length (mem (heap w')) = S (S (length (mem (heap w))))
  /\ is_Some (mem_read (mem (heap w')) g_ size)
  /\ extends (mem (heap w)) (mem (heap w')).
Proof.
  unfold GPUParams_ctor. intros H.
  apply bind_Ok in H as (d0 & w1 & H1 & H).
  apply cudaGetDevice_Ok in H1 as (-> & ->).
  apply bind_Ok in H as ([] & w2 & H2 & H).
  apply cudaSetDevice_world in H2.
  apply bind_Ok in H as (p1 & w3 & H3 & H).
  apply cudaMalloc_Ok in H3 as (-> & Hw3).
  apply bind_Ok in H as ([] & w4 & H4 & H).
  apply on_heap_Ok in H4 as (h4 & Hcopy & Hw4).
  apply bind_Ok in H as (p2 & w5 & H5 & H).
  apply cudaMalloc_Ok in H5 as (-> & Hw5).
  apply bind_Ok in H as ([] & w6 & H6 & H).
  apply bind_Ok in H as ([] & w7 & H7 & H).
  apply cudaSetDevice_world in H7.
  inversion H; subst size d_ g_ w'; clear H.
  unfold caffe_gpu_set in H6.
  destruct (0 <=? total_size (net_params root)) eqn:Hsz; [|discriminate].
  apply Z.leb_le in Hsz.
  apply write_Ok in H6 as (m6 & Hw6 & Hw6').
  set (size := total_size (net_params root)) in *.
  set (m := mem (heap w)) in *.
  assert (Hm2 : mem (heap w2) = m) by (subst w2; reflexivity).
  assert (Hm3 : exists a, mem (heap w3) = m ++ [a]).
  { subst w3. simpl. rewrite Hm2. eauto. }
  destruct Hm3 as (a3 & Hm3).
  apply apply_buffers_Ok in Hcopy as (ptr' & Hloop).
  pose proof (copy_loop_devices _ _ _ _ _ Hloop) as (Hlen4 & _).
  apply copy_loop_content in Hloop as (_ & _ & _ & Hother4).
  assert (Hlen3 : length (mem (heap w3)) = S (length m)).
  { rewrite Hm3, length_app. simpl. lia. }
  assert (Hm5 : exists a, mem (heap w5) = mem h4 ++ [a]).
  { subst w5 w4. simpl. eauto. }
  destruct Hm5 as (a5 & Hm5).
  assert (Hp2 : length (mem (heap w4)) = S (length m)).
  { subst w4. simpl. rewrite Hlen4. exact Hlen3. }
  rewrite Hp2 in *. rewrite Hm2 in *.
  assert (Hm7 : mem (heap w7) = m6) by (subst w7 w6; reflexivity).
  assert (Hl4 : length (mem h4) = S (length m)) by congruence.
  rewrite Hm7. split; [reflexivity|]. split; [reflexivity|]. split; [|split].
  - rewrite (length_write _ _ _ _ Hw6), Hm5, length_app. simpl. lia.
  - replace size with (Z.of_nat (length (repeat Dtype_zero (Z.to_nat size))))
      by (rewrite repeat_length; lia).
    rewrite (mem_write_read_same _ _ _ _ Hw6). eauto.
  - split.
    + rewrite (length_write _ _ _ _ Hw6), Hm5, length_app. simpl. lia.
    + intros q n Hq.
      rewrite (mem_write_read_other _ _ _ _ _ _ Hw6) by (simpl; lia).
      rewrite Hm5, mem_read_app_l by lia.
      rewrite Hother4 by (simpl; lia).
      rewrite Hm3. apply mem_read_app_l. exact Hq.
Qed.

(** [new Solver<Dtype>(param)] yields a solver with these parameters and
    leaves the workers alone. *)
Hypothesis new_Solver_param : forall prm w s w',
  new_Solver prm w = Ok (s, w') -> param s = prm /\ syncs w' = syncs w.

(** The object a constructor call adds to the workers. *)
Lemma P2PSync_ctor_appends thread root parent prm w this w' :
  P2PSync_ctor cuda_fails can_access_peer uninitialised new_Solver
    thread root parent prm w = Ok (this, w') ->
  exists obj,
    this = length (syncs w) /\ syncs w' = syncs w ++ [obj]
    /\ parent_ obj = parent /\ children_ obj = [] /\ queue_ obj = []
    /\ size_ obj = total_size (net_params root)
    /\ match parent with
       | None => solver_ obj = root /\ parent_grads_ obj = None
       | Some _ => param (solver_ obj) = prm /\ is_Some (parent_grads_ obj)
       end.
Proof.
  unfold P2PSync_ctor. intros H.
  apply bind_Ok in H as ([[size d_] g_] & w1 & H1 & H).
  pose proof (GPUParams_ctor_device _ _ _ _ _ _ _ _ H1) as (_ & _ & Hs1).
  apply GPUParams_ctor_memory in H1 as (Hsize & _).
  apply bind_Ok in H as (initial & w2 & H2 & H).
  apply cudaGetDevice_Ok in H2 as (-> & ->).
  apply bind_Ok in H as ([] & w3 & H3 & H).
  apply cudaSetDevice_world in H3.
  apply bind_Ok in H as (solver & w4 & H4 & H).
  apply bind_Ok in H as ([] & w5 & H5 & H).
  apply on_heap_Ok in H5 as (h5 & _ & Hw5).
  apply bind_Ok in H as (pg & w6 & H6 & H).
  apply bind_Ok in H as ([] & w7 & H7 & H).
  apply cudaSetDevice_world in H7.
  apply bind_Ok in H as (w8 & w9 & H8 & H).
  inversion H8; subst w8 w9; clear H8.
  apply bind_Ok in H as ([] & w10 & H10 & H).
  inversion H10; subst w10; clear H10.
  inversion H; subst this w'; clear H. simpl.
  assert (Hs4 : syncs w4 = syncs w
                /\ match parent with
                   | None => solver = root
                   | Some _ => param solver = prm
                   end).
  { destruct parent as [p|].
    - apply bind_Ok in H4 as ([] & wa & Ha & H4).
      inversion Ha; subst wa; clear Ha.
      apply bind_Ok in H4 as (s & wb & Hb & H4).
      apply new_Solver_param in Hb as (Hprm & Hsb).
      apply bind_Ok in H4 as ([] & wc & Hc & H4).
      inversion Hc; subst wc; clear Hc.
      inversion H4; subst solver w4; clear H4. simpl.
      split; [|exact Hprm]. rewrite Hsb. subst w3. simpl. exact Hs1.
    - inversion H4; subst solver w4; clear H4. subst w3. simpl. auto. }
  destruct Hs4 as (Hs4 & Hsolver).
  assert (Hs6 : syncs w6 = syncs w
                /\ match parent with
                   | None => pg = None
                   | Some _ => is_Some pg
                   end).
  { destruct parent as [p|].
    - apply bind_Ok in H6 as (pg' & w6' & H6 & Hr).
      inversion Hr; subst pg w6'; clear Hr.
      apply alloc_parent_grads_Ok in H6 as (ps & _ & Hs6 & _).
      split; [|eauto]. rewrite Hs6. subst w5. simpl. exact Hs4.
    - inversion H6; subst pg w6; clear H6. subst w5. simpl. auto. }
  destruct Hs6 as (Hs6 & Hpg).
  eexists. subst w7. simpl. rewrite Hs6.
  split; [reflexivity|]. split; [reflexivity|]. simpl.
  do 4 (split; [auto|]).
  destruct parent; auto.
Qed.

(** The root worker, for which no solver is made. *)
Lemma P2PSync_ctor_root thread root prm w this w' :
  P2PSync_ctor cuda_fails can_access_peer uninitialised new_Solver
    thread root None prm w = Ok (this, w') ->
  exists obj,
    this = length (syncs w) /\ syncs w' = syncs w ++ [obj]
    /\ parent_ obj = None /\ children_ obj = [] /\ queue_ obj = []
    /\ size_ obj = total_size (net_params root)
    /\ solver_ obj = root /\ parent_grads_ obj = None.
Proof.
  unfold P2PSync_ctor. intros H.
  apply bind_Ok in H as ([[size d_] g_] & w1 & H1 & H).
  pose proof (GPUParams_ctor_device _ _ _ _ _ _ _ _ H1) as (_ & _ & Hs1).
  apply GPUParams_ctor_memory in H1 as (Hsize & _).
  apply bind_Ok in H as (initial & w2 & H2 & H).
  apply cudaGetDevice_Ok in H2 as (-> & ->).
  apply bind_Ok in H as ([] & w3 & H3 & H).
  apply cudaSetDevice_world in H3.
  apply bind_Ok in H as (solver & w4 & H4 & H).
  inversion H4; subst solver w4; clear H4.
  apply bind_Ok in H as ([] & w5 & H5 & H).
  apply on_heap_Ok in H5 as (h5 & _ & Hw5).
  apply bind_Ok in H as (pg & w6 & H6 & H).
  inversion H6; subst pg w6; clear H6.
  apply bind_Ok in H as ([] & w7 & H7 & H).
  apply cudaSetDevice_world in H7.
  apply bind_Ok in H as (w8 & w9 & H8 & H).
  inversion H8; subst w8 w9; clear H8.
  apply bind_Ok in H as ([] & w10 & H10 & H).
  inversion H10; subst w10; clear H10.
  inversion H; subst this w'; clear H.
  eexists. subst w7 w5 w3. simpl. rewrite Hs1.
  split; [reflexivity|]. split; [reflexivity|]. simpl. repeat split.
  exact Hsize.
Qed.

(** **** The workers follow the pairs *)

Lemma proj_added {B} (f : P2PSync -> B) (ss : list P2PSync) a ps cs obj x :
  ss !! a = Some ps -> f (set_children ps cs) = f ps -> (x < length ss)%nat ->
  f <$> <[a := set_children ps cs]> (ss ++ [obj]) !! x = f <$> ss !! x.
Proof.
  intros Hps Hf Hx. destruct (decide (x = a)) as [->|Hne].
  - rewrite list_lookup_insert_eq
      by (rewrite length_app; simpl; lia).
    rewrite Hps. simpl. rewrite Hf. reflexivity.
  - rewrite list_lookup_insert_ne by auto.
    rewrite lookup_app_l by exact Hx. reflexivity.
Qed.

Lemma device_at_lt ss a d : device_at ss a = Some d -> (a < length ss)%nat.
Proof.
  unfold device_at. destruct (ss !! a) eqn:E; [|discriminate].
  intros _. eapply lookup_lt_Some, E.
Qed.

(** Which slot of [syncs] (here [built]) holds which worker: slot 0 the
    root worker with the root solver; a later slot [i], once filled, a
    worker on [pairs[i].device()] whose parent is a worker on
    [pairs[i].parent()]. *)
Definition linked (root : Solver) (pairs : list Pairing.DevicePair)
    (built : list (option nat)) (ss : list P2PSync) : Prop :=
  built !! 0%nat = Some (Some 0%nat)
  /\ solver_ <$> ss !! 0%nat = Some root
  /\ (forall i a, built !! i = Some (Some a) -> (a < length ss)%nat)
  /\ (forall i a, (0 < i)%nat -> built !! i = Some (Some a) ->
        exists p b, pairs !! i = Some p
          /\ device_at ss a = Some (Pairing.device p)
          /\ parent_at ss a = Some (Some b)
          /\ device_at ss b = Some (Pairing.parent p)).

Lemma build_worker_world thread root pairs i built prm w st' w' :
  build_worker thread root pairs i (built, prm) w = Ok (st', w') ->
  (st' = (built, prm) /\ w' = w)
  \/ exists p a ps obj w1,
       built !! i = Some None /\ pairs !! i = Some p
       /\ device_at (syncs w) a = Some (Pairing.parent p)
       /\ (exists j, built !! j = Some (Some a))
       /\ syncs w !! a = Some ps
       /\ P2PSync_ctor cuda_fails can_access_peer uninitialised new_Solver
            thread root (Some a) (set_device_id prm (Pairing.device p)) w
          = Ok (length (syncs w), w1)
       /\ syncs w1 = syncs w ++ [obj]
       /\ parent_ obj = Some a /\ children_ obj = [] /\ queue_ obj = []
       /\ size_ obj = total_size (net_params root)
       /\ device_id (param (solver_ obj)) = Pairing.device p
       /\ is_Some (parent_grads_ obj)
       /\ st' = (<[i := Some (length (syncs w))]> built,
                 set_device_id prm (Pairing.device p))
       /\ w' = with_syncs w1
                 (<[a := set_children ps (children_ ps ++ [length (syncs w)])]>
                    (syncs w ++ [obj])).
Proof.
  unfold build_worker. intros H.
  apply bind_Ok in H as (slot & w0 & H0 & H).
  apply valid_Ok in H0 as (-> & Hslot).
  destruct slot as [a0|]; [inversion H; auto|].
  apply bind_Ok in H as (p & w0 & H0 & H).
  apply valid_Ok in H0 as (-> & Hp).
  apply bind_Ok in H as (parent & w0 & H0 & H).
  apply find_parent_Ok in H0 as (-> & Hfound).
  destruct parent as [a|]; [|inversion H; auto].
  destruct Hfound as [Hfound|(j & a' & Hj & Hd & Ha')]; [discriminate|].
  inversion Ha'; subst a'; clear Ha'.
  apply bind_Ok in H as (this & w1 & H1 & H).
  pose proof H1 as Hctor.
  apply P2PSync_ctor_appends in H1
    as (obj & -> & Hs1 & Hpar & Hch & Hq & Hsz & Hprm & Hpg).
  apply bind_Ok in H as (ps & w2 & H2 & H).
  apply get_sync_Ok in H2 as (-> & Hps).
  apply bind_Ok in H as ([] & w3 & H3 & H).
  inversion H3; subst w3; clear H3. inversion H; subst st' w'; clear H.
  pose proof (device_at_lt _ _ _ Hd) as Hlt.
  rewrite Hs1, lookup_app_l in Hps by exact Hlt.
  right. exists p, a, ps, obj, w1. rewrite Hs1.
  repeat (split; [solve [eauto]|]).
  split; [rewrite Hprm; reflexivity|]. auto.
Qed.

Lemma build_worker_keeps thread root pairs i st w st' w' :
  shape (syncs w) -> linked root pairs (fst st) (syncs w) ->
  build_worker thread root pairs i st w = Ok (st', w') ->
  shape (syncs w') /\ linked root pairs (fst st') (syncs w').
Proof.
  intros Hshape (L1 & L2 & L3 & L4) H. destruct st as [built prm].
  simpl in L1, L3, L4.
  apply build_worker_world in H
    as [(-> & ->)|(p & a & ps & obj & w1 & Hi & Hp & Hd & _ & Hps & _ & Hs1
                   & Hpar & Hch & _ & _ & Hdev & _ & -> & ->)].
  { split; [exact Hshape|]. repeat split; auto. }
  simpl. set (n := length (syncs w)).
  set (cs := children_ ps ++ [n]).
  assert (Ha : (a < n)%nat) by (eapply lookup_lt_Some, Hps).
  assert (Hi0 : i <> 0%nat) by (intros ->; congruence).
  assert (Hlen : length (<[a := set_children ps cs]> (syncs w ++ [obj]))
                 = S n).
  { rewrite length_insert, length_app. simpl. lia. }
  split; [apply shape_add; auto|].
  split; [rewrite list_lookup_insert_ne by auto; exact L1|].
  split; [rewrite (proj_added solver_) by (auto; lia); exact L2|].
  split.
  - intros k b Hk. rewrite Hlen.
    destruct (decide (k = i)) as [->|Hne].
    + rewrite list_lookup_insert_eq in Hk
        by (apply lookup_lt_is_Some; eauto).
      inversion Hk. lia.
    + rewrite list_lookup_insert_ne in Hk by auto.
      specialize (L3 k b Hk). fold n in L3. lia.
  - intros k b Hk0 Hk. unfold device_at, parent_at.
    destruct (decide (k = i)) as [->|Hne].
    + rewrite list_lookup_insert_eq in Hk
        by (apply lookup_lt_is_Some; eauto).
      inversion Hk; subst b; clear Hk.
      exists p, a. split; [exact Hp|].
      unfold n at 1 2. rewrite lookup_added_new by exact Ha.
      simpl. rewrite Hdev, Hpar.
      split; [reflexivity|]. split; [reflexivity|].
      rewrite (proj_added (fun s => device_id (param (solver_ s))))
        by auto.
      exact Hd.
    + rewrite list_lookup_insert_ne in Hk by auto.
      destruct (L4 k b Hk0 Hk) as (q & c & Hq & Hdb & Hpb & Hdc).
      exists q, c. split; [exact Hq|].
      pose proof (L3 k b Hk) as Hb. fold n in Hb.
      pose proof (device_at_lt _ _ _ Hdc) as Hc. fold n in Hc.
      rewrite !(proj_added (fun s => device_id (param (solver_ s)))) by auto.
      rewrite (proj_added parent_) by auto.
      auto.
Qed.

Lemma loops_keep thread root pairs (attempts sweep : list nat) st w st' w' :
  shape (syncs w) -> linked root pairs (fst st) (syncs w) ->
  for_state attempts
    (fun _ st => for_state sweep (build_worker thread root pairs) st) st w
  = Ok (st', w') ->
  shape (syncs w') /\ linked root pairs (fst st') (syncs w').
Proof.
  intros Hs Hl H.
  refine (for_state_inv
            (fun st w => shape (syncs w) /\ linked root pairs (fst st) (syncs w))
            _ _ attempts st w st' w' (conj Hs Hl) H).
  clear Hs Hl H st w st' w'. intros _ st w st' w' HI H.
  refine (for_state_inv
            (fun st w => shape (syncs w) /\ linked root pairs (fst st) (syncs w))
            _ _ sweep st w st' w' HI H).
  clear HI H st w st' w'. intros i st w st' w' (Hs & Hl) H.
  eapply build_worker_keeps; eauto.
Qed.

(** The state in which the loops start. *)
Lemma build_tree_loops thread root gpus pairs w built w' :
  syncs w = [] ->
  build_tree thread root gpus pairs w = Ok (built, w') ->
  exists obj w1 prm',
    P2PSync_ctor cuda_fails can_access_peer uninitialised new_Solver
      thread root None (param root) w = Ok (0%nat, w1)
    /\ syncs w1 = [obj]
    /\ parent_ obj = None /\ children_ obj = [] /\ queue_ obj = []
    /\ size_ obj = total_size (net_params root)
    /\ solver_ obj = root /\ parent_grads_ obj = None
    /\ (0 < length gpus)%nat
    /\ for_state (seq 0 (length pairs))
         (fun _ st =>
            for_state (seq 1 (length pairs - 1))
              (build_worker thread root pairs) st)
         (<[0%nat := Some 0%nat]> (replicate (length gpus) None), param root)
         w1
       = Ok ((built, prm'), w').
Proof.
  intros Hw H. unfold build_tree in H.
  apply bind_Ok in H as (slot & w2 & H2 & H).
  apply valid_Ok in H2 as (-> & Hslot).
  apply lookup_lt_Some in Hslot. rewrite length_replicate in Hslot.
  apply bind_Ok in H as (r & w1 & H1 & H).
  pose proof H1 as Hctor.
  apply P2PSync_ctor_root in H1
    as (obj & -> & Hs1 & Hpar & Hch & Hq & Hsz & Hsolver & Hpg).
  rewrite Hw in Hs1, Hctor, H. simpl in Hs1, Hctor, H.
  apply bind_Ok in H as ([built' prm'] & w3 & H3 & H).
  inversion H; subst built w3; clear H.
  exists obj, w1, prm'. repeat (split; [assumption|]). exact H3.
Qed.

Lemma linked_start root pairs n obj :
  (0 < n)%nat -> solver_ obj = root ->
  linked root pairs (<[0%nat := Some 0%nat]> (replicate n None)) [obj].
Proof.
  intros Hn Hsolver. split.
  { apply list_lookup_insert_eq. rewrite length_replicate. exact Hn. }
  split; [simpl; rewrite Hsolver; reflexivity|]. split.
  - intros i a Hi. destruct (decide (i = 0%nat)) as [->|Hne].
    + rewrite list_lookup_insert_eq in Hi by (rewrite length_replicate; lia).
      inversion Hi. simpl. lia.
    + rewrite list_lookup_insert_ne in Hi by auto.
      apply lookup_replicate in Hi as (Hi & _). discriminate.
  - intros i a Hi0 Hi.
    rewrite list_lookup_insert_ne in Hi by lia.
    apply lookup_replicate in Hi as (Hi & _). discriminate.
Qed.

(** X26.  The workers that [run] builds follow the pair list.  Called when
    no worker exists yet, lines 398-422 leave in slot 0 of [syncs] the root
    worker, which has no parent and runs the root solver; and every other
    slot [i] that is filled holds a worker whose solver has the device
    [pairs[i].device()], whose [parent_] is a worker with a solver on
    [pairs[i].parent()], and which that parent lists in its [children_]. *)
Theorem build_tree_follows_pairs (thread : nat) (root : Solver)
    (gpus : list Z) (pairs : list Pairing.DevicePair) (w w' : World)
    (built : list (option nat)) :
  syncs w = [] ->
  build_tree thread root gpus pairs w = Ok (built, w') ->
  (exists r, built !! 0%nat = Some (Some 0%nat)
     /\ syncs w' !! 0%nat = Some r
     /\ solver_ r = root /\ parent_ r = None)
  /\ forall i a, (0 < i)%nat -> built !! i = Some (Some a) ->
       exists p s b sb,
         pairs !! i = Some p
         /\ syncs w' !! a = Some s
         /\ device_id (param (solver_ s)) = Pairing.device p
         /\ parent_ s = Some b
         /\ syncs w' !! b = Some sb
         /\ device_id (param (solver_ sb)) = Pairing.parent p
         /\ a ∈ children_ sb.
Proof.
  intros Hw H.
  apply build_tree_loops in H
    as (obj & w1 & prm' & _ & Hs1 & Hpar & Hch & _ & _ & Hsolver & _ & Hn & H);
    [|exact Hw].
  apply loops_keep in H as ((K1 & K2) & L1 & L2 & L3 & L4).
  - simpl in L1, L3, L4. split.
    + destruct (syncs w' !! 0%nat) as [r|] eqn:Hr; [|discriminate].
      exists r. inversion L2. repeat split; auto.
      specialize (K1 0%nat r Hr). destruct (parent_ r); [lia|reflexivity].
    + intros i a Hi0 Hi.
      destruct (L4 i a Hi0 Hi) as (p & b & Hp & Hda & Hpa & Hdb).
      unfold device_at, parent_at in Hda, Hpa, Hdb.
      destruct (syncs w' !! a) as [s|] eqn:Hs; [|discriminate].
      destruct (syncs w' !! b) as [sb|] eqn:Hsb; [|discriminate].
      simpl in Hda, Hpa, Hdb. inversion Hda. inversion Hpa. inversion Hdb.
      exists p, s, b, sb. repeat split; auto.
      apply (K2 b sb Hsb). eauto.
  - rewrite Hs1. apply shape_root; assumption.
  - rewrite Hs1. apply linked_start; assumption.
Qed.

(** **** The workers form a tree *)

(** [new Solver<Dtype>(param)] issues no copy and leaves the device
    allocations that exist as they are. *)
Hypothesis new_Solver_memory : forall prm w s w',
  new_Solver prm w = Ok (s, w') ->
  default_stream w' = default_stream w
  /\ extends (mem (heap w)) (mem (heap w')).

Lemma fresh_readable (m : memory) dev size :
  0 <= size ->
  is_Some (mem_read
             (m ++ [Some {| on_device := dev;
                            cells := repeat uninitialised (Z.to_nat size) |}])
             (mkPointer (length m) 0) size).
Proof.
  intros Hsize. unfold mem_read. simpl.
  rewrite lookup_app_r by lia. rewrite Nat.sub_diag. simpl.
  rewrite repeat_length.
  replace (0 <=? size) with true by (symmetry; apply Z.leb_le; lia).
  replace (0 + size <=? Z.of_nat (Z.to_nat size)) with true
    by (symmetry; apply Z.leb_le; lia).
  simpl. eauto.
Qed.

(** The buffers of the object a constructor call adds. *)
Lemma P2PSync_ctor_buffers thread root parent prm w this w' obj :
  P2PSync_ctor cuda_fails can_access_peer uninitialised new_Solver
    thread root parent prm w = Ok (this, w') ->
  syncs w' = syncs w ++ [obj] ->
  default_stream w' = default_stream w
  /\ extends (mem (heap w)) (mem (heap w'))
  /\ (length (mem (heap w)) <= block (diff_ obj) < length (mem (heap w')))%nat
  /\ is_Some (mem_read (mem (heap w')) (diff_ obj)
                (total_size (net_params root)))
  /\ forall g, parent_grads_ obj = Some g ->
       (length (mem (heap w)) <= block g < length (mem (heap w')))%nat
       /\ block g <> block (diff_ obj)
       /\ is_Some (mem_read (mem (heap w')) g (total_size (net_params root))).
Proof.
  unfold P2PSync_ctor. intros H Hobj.
  apply bind_Ok in H as ([[size d_] g_] & w1 & H1 & H).
  pose proof (calm_GPUParams_ctor _ _ _ _ _ _ H1) as Hd1.
  apply GPUParams_ctor_memory in H1 as (-> & -> & Hl1 & Hr1 & He1).
  set (size := total_size (net_params root)) in *.
  assert (Hsize : 0 <= size).
  { destruct Hr1 as (v & Hv). apply mem_read_nonneg in Hv. lia. }
  apply bind_Ok in H as (initial & w2 & H2 & H).
  apply cudaGetDevice_Ok in H2 as (-> & ->).
  apply bind_Ok in H as ([] & w3 & H3 & H).
  apply cudaSetDevice_world in H3.
  apply bind_Ok in H as (solver & w4 & H4 & H).
  apply bind_Ok in H as ([] & w5 & H5 & H).
  apply on_heap_Ok in H5 as (h5 & Hcfg & Hw5).
  apply configure_mem in Hcfg.
  apply bind_Ok in H as (pg & w6 & H6 & H).
  apply bind_Ok in H as ([] & w7 & H7 & H).
  apply cudaSetDevice_world in H7.
  apply bind_Ok in H as (w8 & w9 & H8 & H).
  inversion H8; subst w8 w9; clear H8.
  apply bind_Ok in H as ([] & w10 & H10 & H).
  inversion H10; subst w10; clear H10.
  inversion H; subst this w'; clear H. simpl in Hobj |- *.
  assert (H4' : default_stream w4 = default_stream w
                /\ extends (mem (heap w1)) (mem (heap w4))).
  { destruct parent as [p|].
    - apply bind_Ok in H4 as ([] & wa & Ha & H4).
      inversion Ha; subst wa; clear Ha.
      apply bind_Ok in H4 as (s & wb & Hb & H4).
      apply new_Solver_memory in Hb as (Hdb & Heb).
      apply bind_Ok in H4 as ([] & wc & Hc & H4).
      inversion Hc; subst wc; clear Hc.
      inversion H4; subst solver w4; clear H4. simpl in *.
      subst w3. simpl in *. split; [congruence|exact Heb].
    - inversion H4; subst solver w4; clear H4. subst w3. simpl.
      split; [exact Hd1|apply extends_refl]. }
  destruct H4' as (Hd4 & He4).
  assert (Hm5 : mem (heap w5) = mem (heap w4)
                /\ default_stream w5 = default_stream w).
  { subst w5. simpl. auto. }
  destruct Hm5 as (Hm5 & Hd5).
  assert (H6' : default_stream w6 = default_stream w
                /\ extends (mem (heap w5)) (mem (heap w6))
                /\ forall g, pg = Some g ->
                     (length (mem (heap w5)) <= block g
                      < length (mem (heap w6)))%nat
                     /\ is_Some (mem_read (mem (heap w6)) g size)).
  { destruct parent as [p|].
    - apply bind_Ok in H6 as (pg' & w6' & H6 & Hr).
      inversion Hr; subst pg w6'; clear Hr.
      pose proof (calm_alloc_parent_grads _ _ _ _ _ _ _ H6) as Hd6.
      apply alloc_parent_grads_Ok in H6 as (ps & _ & _ & _ & -> & Hm6 & _).
      rewrite Hm6. split; [congruence|]. split; [apply extends_app|].
      intros g Hg. inversion Hg; subst g; clear Hg. simpl.
      split; [rewrite length_app; simpl; lia|].
      apply fresh_readable. exact Hsize.
    - inversion H6; subst pg w6; clear H6.
      split; [exact Hd5|]. split; [apply extends_refl|]. discriminate. }
  destruct H6' as (Hd6 & He6 & Hpg).
  apply app_inj_tail in Hobj as (_ & <-). simpl.
  subst w7. simpl.
  assert (He : extends (mem (heap w1)) (mem (heap w6))).
  { eapply extends_trans; [exact He4|]. rewrite <- Hm5. exact He6. }
  destruct He as (Hl & Hr).
  split; [exact Hd6|]. split; [|split; [|split]].
  - eapply extends_trans; [exact He1|]. split; assumption.
  - lia.
  - rewrite Hr by (simpl; lia). exact Hr1.
  - intros g Hg. destruct (Hpg g Hg) as (Hb & Hread).
    destruct He4 as (Hl4 & _). rewrite Hm5 in Hb.
    split; [lia|]. split; [lia|exact Hread].
Qed.

(** Every worker has mirrors of [size] elements, an empty queue, a
    receiving buffer if it has a parent, and readable gradient and receiving
    buffers in allocations of their own; no copy is pending. *)
Definition sound (size : Z) (w : World) : Prop :=
  default_stream w = []
  /\ NoDup (flat_map buffer_blocks (syncs w))
  /\ forall a s, syncs w !! a = Some s ->
       size_ s = size /\ queue_ s = []
       /\ (parent_ s <> None -> is_Some (parent_grads_ s))
       /\ (block (diff_ s) < length (mem (heap w)))%nat
       /\ is_Some (mem_read (mem (heap w)) (diff_ s) size)
       /\ forall g, parent_grads_ s = Some g ->
            (block g < length (mem (heap w)))%nat
            /\ is_Some (mem_read (mem (heap w)) g size).

Lemma flat_map_insert_same {A B} (f : A -> list B) (l : list A) i x y :
  l !! i = Some x -> f y = f x -> flat_map f (<[i := y]> l) = flat_map f l.
Proof.
  revert i. induction l as [|z l IH]; intros [|i] Hi Hf; simpl in *;
    try discriminate.
  - inversion Hi; subst z. rewrite Hf. reflexivity.
  - rewrite (IH i) by assumption. reflexivity.
Qed.

Lemma buffer_block_cases s blk :
  blk ∈ buffer_blocks s ->
  blk = block (diff_ s) \/ exists g, parent_grads_ s = Some g /\ blk = block g.
Proof.
  unfold buffer_blocks. intros H. apply elem_of_cons in H as [->|H]; [auto|].
  destruct (parent_grads_ s) as [g|].
  - apply list_elem_of_singleton in H. eauto.
  - apply elem_of_nil in H. contradiction.
Qed.

Lemma build_worker_sound thread root pairs i st w st' w' :
  sound (total_size (net_params root)) w ->
  build_worker thread root pairs i st w = Ok (st', w') ->
  sound (total_size (net_params root)) w'.
Proof.
  intros (Hd & Hnd & Hall) H. destruct st as [built prm].
  apply build_worker_world in H
    as [(-> & ->)|(p & a & ps & obj & w1 & _ & _ & _ & _ & Hps & Hctor & Hs1
                   & Hpar & _ & Hq & Hsz & _ & Hpg & -> & ->)].
  { split; [exact Hd|]. split; [exact Hnd|exact Hall]. }
  destruct (P2PSync_ctor_buffers _ _ _ _ _ _ _ _ Hctor Hs1)
    as (Hd1 & (Hl1 & Hr1) & Hdiff & Hrdiff & Hg).
  set (size := total_size (net_params root)) in *.
  set (n := length (syncs w)) in *.
  assert (Ha : (a < n)%nat) by (eapply lookup_lt_Some, Hps).
  assert (Hold : forall blk, blk ∈ flat_map buffer_blocks (syncs w) ->
                   (blk < length (mem (heap w)))%nat).
  { intros blk Hin. apply list_elem_of_In, in_flat_map in Hin
      as (s & Hs & Hin).
    apply list_elem_of_In, list_elem_of_lookup in Hs as (k & Hk).
    apply list_elem_of_In in Hin.
    destruct (Hall k s Hk) as (_ & _ & _ & Hb & _ & Hgs).
    apply buffer_block_cases in Hin as [->|(g & Hgg & ->)]; [exact Hb|].
    apply (Hgs g Hgg). }
  split; [simpl; congruence|]. split.
  - simpl. rewrite (flat_map_insert_same _ _ a ps)
      by (try reflexivity; apply lookup_app_l_Some; exact Hps).
    rewrite flat_map_app. simpl. rewrite app_nil_r.
    apply NoDup_app. split; [exact Hnd|]. split.
    + intros blk Hin Hin'. apply Hold in Hin.
      apply buffer_block_cases in Hin' as [->|(g & Hgg & ->)]; [lia|].
      destruct (Hg g Hgg) as (Hb & _). lia.
    + unfold buffer_blocks. destruct (parent_grads_ obj) as [g|] eqn:Hgg.
      * destruct (Hg g eq_refl) as (_ & Hne & _).
        apply NoDup_cons. split; [|apply NoDup_singleton].
        intros Hin. apply list_elem_of_singleton in Hin. congruence.
      * apply NoDup_singleton.
  - simpl. intros x s Hx.
    assert (Hlift : forall s0, syncs w !! x = Some s0 ->
              size_ s0 = size /\ queue_ s0 = []
              /\ (parent_ s0 <> None -> is_Some (parent_grads_ s0))
              /\ (block (diff_ s0) < length (mem (heap w1)))%nat
              /\ is_Some (mem_read (mem (heap w1)) (diff_ s0) size)
              /\ forall g, parent_grads_ s0 = Some g ->
                   (block g < length (mem (heap w1)))%nat
                   /\ is_Some (mem_read (mem (heap w1)) g size)).
    { intros s0 Hs0.
      destruct (Hall x s0 Hs0) as (E1 & E2 & E3 & E4 & E5 & E6).
      split; [exact E1|]. split; [exact E2|]. split; [exact E3|].
      split; [lia|]. split; [rewrite Hr1 by exact E4; exact E5|].
      intros g Hgg. destruct (E6 g Hgg) as (E7 & E8).
      split; [lia|]. rewrite Hr1 by exact E7. exact E8. }
    apply lookup_added in Hx as [(-> & ->)|[(Hne & Hx)|(-> & ->)]];
      [| | |exact Ha].
    + exact (Hlift ps Hps).
    + exact (Hlift s Hx).
    + split; [exact Hsz|]. split; [exact Hq|]. split; [intros _; exact Hpg|].
      split; [lia|]. split; [exact Hrdiff|].
      intros g Hgg. destruct (Hg g Hgg) as (Hb & _ & Hread).
      split; [lia|exact Hread].
Qed.

Lemma shape_reachable ss :
  shape ss -> forall i, (i < length ss)%nat -> reachable ss i.
Proof.
  intros (K1 & K2) i. induction i as [i IH] using lt_wf_ind. intros Hi.
  destruct (lookup_lt_is_Some_2 ss i Hi) as (s & Hs).
  pose proof (K1 i s Hs) as Hp. destruct (parent_ s) as [b|] eqn:Hpar.
  - assert (Hb : (b < length ss)%nat) by lia.
    destruct (lookup_lt_is_Some_2 ss b Hb) as (sb & Hsb).
    apply (reach_child ss b sb); [apply IH; lia | exact Hsb |].
    apply (K2 b sb Hsb). eauto.
  - subst i. apply reach_root.
Qed.

(** X27.  What [run] builds is a worker tree.  Called when no worker exists
    and no copy is pending, lines 398-422 leave workers that form a tree as
    the reduction phase needs it: worker 0 is the root, [children_] and
    [parent_] agree, every worker hangs under the root, all mirrors have the
    size of the root solver's tensors, gradient and receiving buffers are
    readable allocations of their own, all queues are empty and no copy is
    pending.  Moreover every worker with a parent has a receiving buffer and
    was built after its parent. *)
Theorem build_tree_makes_tree (thread : nat) (root : Solver)
    (gpus : list Z) (pairs : list Pairing.DevicePair) (w w' : World)
    (built : list (option nat)) :
  syncs w = [] -> default_stream w = [] ->
  build_tree thread root gpus pairs w = Ok (built, w') ->
  tree w' (total_size (net_params root))
  /\ (forall i s, syncs w' !! i = Some s ->
        parent_ s <> None -> is_Some (parent_grads_ s))
  /\ (forall i s p, syncs w' !! i = Some s -> parent_ s = Some p ->
        (p < i)%nat).
Proof.
  intros Hw Hd H.
  apply build_tree_loops in H
    as (obj & w1 & prm' & Hctor & Hs1 & Hpar & Hch & Hq & Hsz & Hsolver & Hpg
        & Hn & H); [|exact Hw].
  set (size := total_size (net_params root)) in *.
  assert (Hsound1 : sound size w1).
  { assert (Hobj : syncs w1 = syncs w ++ [obj]) by (rewrite Hw; exact Hs1).
    destruct (P2PSync_ctor_buffers _ _ _ _ _ _ _ _ Hctor Hobj)
      as (Hd1 & _ & Hdiff & Hrdiff & _).
    split; [congruence|]. rewrite Hs1. split.
    - simpl. unfold buffer_blocks. rewrite Hpg. simpl.
      apply NoDup_singleton.
    - intros [|a] s Hs; simpl in Hs; [|discriminate].
      inversion Hs; subst s. rewrite Hpar, Hpg.
      split; [exact Hsz|]. split; [exact Hq|].
      split; [intros E; contradiction|]. split; [lia|].
      split; [exact Hrdiff|]. discriminate. }
  assert (Hinv : (shape (syncs w') /\ linked root pairs built (syncs w'))
                 /\ sound size w').
  { refine (for_state_inv
              (fun st w => (shape (syncs w)
                            /\ linked root pairs (fst st) (syncs w))
                           /\ sound size w)
              _ _ _ _ _ (built, prm') w' _ H).
    - clear H. intros _ st v st' v' HI H.
      refine (for_state_inv
                (fun st w => (shape (syncs w)
                              /\ linked root pairs (fst st) (syncs w))
                             /\ sound size w)
                _ _ _ _ _ st' v' HI H).
      clear HI H st v st' v'. intros i st v st' v' ((Hs & Hl) & Hso) H.
      split; [eapply build_worker_keeps; eauto|].
      eapply build_worker_sound; eauto.
    - split; [|exact Hsound1]. rewrite Hs1.
      split; [apply shape_root; assumption|].
      apply linked_start; assumption. }
  destruct Hinv as (((K1 & K2) & _ & L2 & _) & Hd' & Hnd' & Hall).
  split; [|split].
  - constructor.
    + destruct (syncs w' !! 0%nat) as [r|] eqn:Hr; [|discriminate].
      exists r. split; [reflexivity|].
      specialize (K1 0%nat r Hr). destruct (parent_ r); [lia|reflexivity].
    + exact K2.
    + apply shape_reachable. split; assumption.
    + intros i s Hs. apply (Hall i s Hs).
    + exact Hnd'.
    + intros i s Hs. destruct (Hall i s Hs) as (_ & _ & _ & _ & Hr & Hg).
      split; [exact Hr|]. intros g Hgg. apply (Hg g Hgg).
    + split; [exact Hd'|]. intros i s Hs. apply (Hall i s Hs).
  - intros i s Hs. apply (Hall i s Hs).
  - intros i s p Hs Hp. specialize (K1 i s Hs). rewrite Hp in K1. exact K1.
Qed.

(** **** The attempts fill every slot *)

Lemma for_state_app {A S} (xs ys : list A) (body : A -> S -> M S) st w :
  for_state (xs ++ ys) body st w
  = bind (for_state xs body st) (fun st' => for_state ys body st') w.
Proof.
  revert st w. induction xs as [|x xs IH]; intros st w; simpl.
  - reflexivity.
  - unfold bind. destruct (body x st w) as [[st1 w1]| |];
      [apply IH | reflexivity | reflexivity].
Qed.

Lemma for_state_inv_in {A S} (I : S -> World -> Prop) (body : A -> S -> M S) :
  forall xs,
    (forall x st w st' w',
       x ∈ xs -> I st w -> body x st w = Ok (st', w') -> I st' w') ->
    forall st w st' w',
      I st w -> for_state xs body st w = Ok (st', w') -> I st' w'.
Proof.
  induction xs as [|x xs IH]; intros Hbody st w st' w' HI H; simpl in H.
  - inversion H; subst. exact HI.
  - apply bind_Ok in H as (st1 & w1 & H1 & H).
    apply (IH (fun y s v s' v' Hy =>
                 Hbody y s v s' v' (list_elem_of_further _ _ _ Hy)) st1 w1);
      [|exact H].
    eapply Hbody; [apply list_elem_of_here|exact HI|exact H1].
Qed.

(** The number of null slots. *)
Fixpoint holes (built : list (option nat)) : nat :=
  match built with
  | [] => 0
  | None :: rest => S (holes rest)
  | Some _ :: rest => holes rest
  end.

Lemma holes_bound built : (holes built <= length built)%nat.
Proof. induction built as [|[a|] rest IH]; simpl; lia. Qed.

Lemma holes_zero built :
  holes built = 0%nat ->
  forall i, (i < length built)%nat -> exists a, built !! i = Some (Some a).
Proof.
  induction built as [|[a|] rest IH]; simpl; intros H i Hi; try lia.
  destruct i as [|i]; simpl; [eauto|]. apply IH; [exact H|lia].
Qed.

Lemma holes_pos built :
  (0 < holes built)%nat -> exists j, built !! j = Some None.
Proof.
  induction built as [|[a|] rest IH]; simpl; intros H; try lia.
  - destruct (IH H) as (j & Hj). exists (S j). exact Hj.
  - exists 0%nat. reflexivity.
Qed.

Lemma holes_mono : forall b b',
  length b = length b' ->
  (forall k a, b !! k = Some (Some a) -> exists a', b' !! k = Some (Some a')) ->
  (holes b' <= holes b)%nat
  /\ ((exists j a', b !! j = Some None /\ b' !! j = Some (Some a')) ->
      (holes b' < holes b)%nat).
Proof.
  induction b as [|x b IH]; intros [|y b'] Hlen Hmono; simpl in Hlen;
    try discriminate.
  - split; [simpl; lia|]. intros (j & a' & Hj & _). discriminate.
  - destruct (IH b' ltac:(lia) (fun k a H => Hmono (S k) a H)) as (Hle & Hlt).
    destruct x as [a|], y as [a'|]; simpl.
    + split; [exact Hle|]. intros ([|j] & c & Hj & Hj'); simpl in *;
        [discriminate|]. apply Hlt. eauto.
    + destruct (Hmono 0%nat a eq_refl) as (c & Hc). discriminate.
    + split; [lia|]. intros _. lia.
    + split; [lia|]. intros ([|j] & c & Hj & Hj'); simpl in *;
        [discriminate|]. assert (holes b' < holes b)%nat by (apply Hlt; eauto).
      lia.
Qed.

Lemma find_parent_complete : forall built device parent w r w',
  find_parent built device parent w = Ok (r, w') ->
  is_Some parent
  \/ (exists j a, built !! j = Some (Some a)
        /\ device_at (syncs w) a = Some device) ->
  is_Some r.
Proof.
  induction built as [|[a|] rest IH]; intros device parent w r w' H Hex;
    simpl in H.
  - inversion H; subst. destruct Hex as [Hp|(j & a & Hj & _)];
      [exact Hp|discriminate].
  - apply bind_Ok in H as (s & w1 & H1 & H).
    apply get_sync_Ok in H1 as (-> & Hs).
    destruct (device_id (param (solver_ s)) =? device) eqn:E.
    + eapply IH; [exact H|]. left. eauto.
    + eapply IH; [exact H|].
      destruct Hex as [Hp|([|j] & b & Hj & Hd)]; [auto| |right; eauto].
      simpl in Hj. inversion Hj; subst b. unfold device_at in Hd.
      rewrite Hs in Hd. simpl in Hd. inversion Hd.
      apply Z.eqb_neq in E. contradiction.
  - eapply IH; [exact H|].
    destruct Hex as [Hp|([|j] & b & Hj & Hd)]; [auto|discriminate|].
    right. eauto.
Qed.

(** A null slot whose pair has a parent among the workers is filled. *)
Lemma build_worker_fills thread root pairs i built prm p w st' w' :
  built !! i = Some None -> pairs !! i = Some p ->
  (exists j a, built !! j = Some (Some a)
     /\ device_at (syncs w) a = Some (Pairing.parent p)) ->
  build_worker thread root pairs i (built, prm) w = Ok (st', w') ->
  exists this, fst st' !! i = Some (Some this).
Proof.
  intros Hi Hp Hex H. unfold build_worker in H. rewrite Hi, Hp in H.
  simpl in H.
  apply bind_Ok in H as (slot & w0 & H0 & H).
  inversion H0; subst slot w0; clear H0.
  apply bind_Ok in H as (p' & w0 & H0 & H).
  inversion H0; subst p' w0; clear H0.
  apply bind_Ok in H as (parent & w0 & H0 & H).
  pose proof (find_parent_complete _ _ _ _ _ _ H0 (or_intror Hex))
    as (a & ->).
  apply find_parent_Ok in H0 as (-> & _).
  apply bind_Ok in H as (this & w1 & H1 & H).
  apply bind_Ok in H as (ps & w2 & H2 & H).
  apply bind_Ok in H as ([] & w3 & H3 & H).
  inversion H; subst st' w'. simpl. exists this.
  apply list_lookup_insert_eq. eapply lookup_lt_Some, Hi.
Qed.

(** A call of the loop body changes at most slot [i], and only if it was
    null. *)
Lemma build_worker_slots thread root pairs i st w st' w' :
  build_worker thread root pairs i st w = Ok (st', w') ->
  length (fst st') = length (fst st)
  /\ (forall k, k <> i -> fst st' !! k = fst st !! k)
  /\ (forall k a, fst st !! k = Some (Some a) -> fst st' !! k = Some (Some a)).
Proof.
  destruct st as [built prm]. intros H.
  apply build_worker_world in H
    as [(-> & ->)|(p & a & ps & obj & w1 & Hi & _ & _ & _ & _ & _ & _
                   & _ & _ & _ & _ & _ & _ & -> & ->)]; simpl.
  { auto. }
  split; [apply length_insert|]. split.
  - intros k Hk. apply list_lookup_insert_ne. auto.
  - intros k b Hk. rewrite list_lookup_insert_ne; [exact Hk|].
    intros ->. congruence.
Qed.

(** The state of the loops. *)
Definition building (root : Solver) (pairs : list Pairing.DevicePair)
    (st : list (option nat) * SolverParameter) (w : World) : Prop :=
  shape (syncs w) /\ linked root pairs (fst st) (syncs w)
  /\ length (fst st) = length pairs.

Lemma build_worker_building thread root pairs i st w st' w' :
  building root pairs st w ->
  build_worker thread root pairs i st w = Ok (st', w') ->
  building root pairs st' w'.
Proof.
  intros (Hs & Hl & Hlen) H.
  destruct (build_worker_keeps _ _ _ _ _ _ _ _ Hs Hl H) as (Hs' & Hl').
  apply build_worker_slots in H as (Hlen' & _).
  split; [exact Hs'|]. split; [exact Hl'|]. congruence.
Qed.

Section Ranked.

Variable thread : nat.
Variable root : Solver.
Variable pairs : list Pairing.DevicePair.

(** The root solver runs on the device of the first pair, and every later
    pair names as parent the device of a pair of smaller [rank]: the pair
    list describes a tree under its first pair. *)
Variable rank : nat -> nat.
Hypothesis root_device : exists p0,
  pairs !! 0%nat = Some p0 /\ Pairing.device p0 = device_id (param root).
Hypothesis ranked : forall i p, (0 < i)%nat -> pairs !! i = Some p ->
  exists j q, pairs !! j = Some q
    /\ Pairing.device q = Pairing.parent p /\ (rank j < rank i)%nat.

Lemma linked_device built ss j a q :
  linked root pairs built ss ->
  built !! j = Some (Some a) -> pairs !! j = Some q ->
  device_at ss a = Some (Pairing.device q).
Proof.
  intros (L1 & L2 & L3 & L4) Hj Hq. destruct j as [|j].
  - rewrite L1 in Hj. inversion Hj; subst a.
    destruct root_device as (p0 & Hp0 & Hd0).
    rewrite Hp0 in Hq. inversion Hq; subst q. rewrite Hd0.
    unfold device_at. destruct (ss !! 0%nat) as [s|]; [|discriminate].
    simpl in *. inversion L2. reflexivity.
  - destruct (L4 (S j) a ltac:(lia) Hj) as (p & b & Hp & Hd & _).
    rewrite Hq in Hp. inversion Hp; subst p. exact Hd.
Qed.

Definition sweep (n : nat) (st : list (option nat) * SolverParameter)
  : M (list (option nat) * SolverParameter) :=
  for_state (seq 1 (n - 1)) (build_worker thread root pairs) st.

Lemma sweep_building n st w st' w' :
  building root pairs st w -> sweep n st w = Ok (st', w') ->
  building root pairs st' w'
  /\ forall k a, fst st !! k = Some (Some a) -> fst st' !! k = Some (Some a).
Proof.
  intros HI H.
  refine (for_state_inv
            (fun s v => building root pairs s v
                        /\ forall k a, fst st !! k = Some (Some a) ->
                             fst s !! k = Some (Some a))
            (build_worker thread root pairs) _ _ st w st' w' _ H).
  - clear H. intros i s v s' v' (Hb & Hm) H. split.
    + eapply build_worker_building; eauto.
    + intros k a Hk. apply build_worker_slots in H as (_ & _ & Hkeep).
      apply Hkeep, Hm, Hk.
  - split; [exact HI|auto].
Qed.

(** A null slot whose parent is among the workers when a sweep starts is
    filled when the sweep ends. *)
Lemma sweep_fills st w st' w' j p j' a q :
  building root pairs st w ->
  sweep (length pairs) st w = Ok (st', w') ->
  fst st !! j = Some None -> pairs !! j = Some p ->
  fst st !! j' = Some (Some a) -> pairs !! j' = Some q ->
  Pairing.device q = Pairing.parent p ->
  exists this, fst st' !! j = Some (Some this).
Proof.
  intros HI H Hj Hp Hj' Hq Hdev.
  set (n := length pairs) in *.
  assert (Hjn : (j < n)%nat) by (eapply lookup_lt_Some, Hp).
  assert (Hj0 : (0 < j)%nat).
  { destruct j as [|j]; [|lia]. destruct HI as (_ & (L1 & _) & _).
    congruence. }
  unfold sweep in H.
  replace (n - 1)%nat with ((j - 1) + S (n - 1 - j))%nat in H by lia.
  rewrite seq_app in H. simpl seq in H.
  replace (S (j - 1)) with j in H by lia.
  rewrite for_state_app in H.
  apply bind_Ok in H as (stA & wA & HA & H). simpl in H.
  apply bind_Ok in H as (stB & wB & HB & HC).
  (* before slot [j] *)
  assert (IA : building root pairs stA wA
               /\ fst stA !! j = Some None
               /\ fst stA !! j' = Some (Some a)).
  { refine (for_state_inv_in
              (fun s v => building root pairs s v
                          /\ fst s !! j = Some None
                          /\ fst s !! j' = Some (Some a))
              (build_worker thread root pairs) _ _ st w stA wA _ HA).
    - intros x s v s' v' Hx (Hb & Hsj & Hsj') Hx'.
      apply list_elem_of_In, in_seq in Hx.
      split; [eapply build_worker_building; eauto|].
      apply build_worker_slots in Hx' as (_ & Hother & Hkeep).
      split; [rewrite Hother by lia; exact Hsj|].
      apply Hkeep, Hsj'.
    - auto. }
  destruct IA as (HbA & HjA & HjA').
  (* slot [j] *)
  destruct stA as [builtA prmA]. simpl in HjA, HjA'.
  assert (HjB : exists this, fst stB !! j = Some (Some this)).
  { eapply build_worker_fills; [exact HjA|exact Hp| |exact HB].
    exists j', a. split; [exact HjA'|]. rewrite <- Hdev.
    destruct HbA as (_ & Hl & _). eapply linked_device; eauto. }
  destruct HjB as (this & HjB). exists this.
  (* after slot [j] *)
  refine (for_state_inv
            (fun s v => fst s !! j = Some (Some this))
            (build_worker thread root pairs) _ _ stB wB st' w' HjB HC).
  intros x s v s' v' Hs Hx.
  apply build_worker_slots in Hx as (_ & _ & Hkeep). apply Hkeep, Hs.
Qed.

(** While a slot is null, a sweep fills one. *)
Lemma sweep_progress st w st' w' :
  building root pairs st w ->
  sweep (length pairs) st w = Ok (st', w') ->
  forall r j, (rank j <= r)%nat -> fst st !! j = Some None ->
    exists j0 a, fst st !! j0 = Some None /\ fst st' !! j0 = Some (Some a).
Proof.
  intros HI H. induction r as [|r IH]; intros j Hr Hj.
  - pose proof HI as (_ & (L1 & _) & Hlen).
    assert (Hjn : (j < length pairs)%nat)
      by (rewrite <- Hlen; eapply lookup_lt_Some, Hj).
    destruct (lookup_lt_is_Some_2 pairs j Hjn) as (p & Hp).
    destruct j as [|j]; [congruence|].
    destruct (ranked (S j) p ltac:(lia) Hp) as (j' & q & _ & _ & Hlt). lia.
  - pose proof HI as (_ & (L1 & _) & Hlen).
    assert (Hjn : (j < length pairs)%nat)
      by (rewrite <- Hlen; eapply lookup_lt_Some, Hj).
    destruct (lookup_lt_is_Some_2 pairs j Hjn) as (p & Hp).
    destruct j as [|j]; [congruence|].
    destruct (ranked (S j) p ltac:(lia) Hp) as (j' & q & Hq & Hdev & Hlt).
    assert (Hj'n : (j' < length (fst st))%nat)
      by (rewrite Hlen; eapply lookup_lt_Some, Hq).
    destruct (lookup_lt_is_Some_2 _ _ Hj'n) as ([a|] & Hj').
    + destruct (sweep_fills _ _ _ _ _ _ _ _ _ HI H Hj Hp Hj' Hq Hdev)
        as (this & Hthis).
      exists (S j), this. auto.
    + apply (IH j'); [lia|exact Hj'].
Qed.

Lemma attempts_fill : forall (attempts : list nat) st w st' w',
  building root pairs st w ->
  for_state attempts (fun _ st => sweep (length pairs) st) st w
  = Ok (st', w') ->
  building root pairs st' w'
  /\ (holes (fst st') <= holes (fst st) - length attempts)%nat.
Proof.
  induction attempts as [|x attempts IH]; intros st w st' w' HI H; simpl in H.
  - inversion H; subst. split; [exact HI|simpl; lia].
  - apply bind_Ok in H as (st1 & w1 & H1 & H).
    destruct (sweep_building _ _ _ _ _ HI H1) as (HI1 & Hm).
    destruct (IH _ _ _ _ HI1 H) as (HI' & Hle).
    split; [exact HI'|]. simpl.
    assert (Hlen : length (fst st) = length (fst st1)).
    { destruct HI as (_ & _ & E), HI1 as (_ & _ & E1). congruence. }
    destruct (holes_mono (fst st) (fst st1) Hlen) as (Hle1 & Hlt1).
    { intros k a Hk. exists a. apply Hm, Hk. }
    destruct (Nat.eq_dec (holes (fst st)) 0%nat) as [E|E]; [lia|].
    destruct (holes_pos (fst st) ltac:(lia)) as (j & Hj).
    destruct (sweep_progress _ _ _ _ HI H1 (rank j) j (Nat.le_refl _) Hj)
      as (j0 & a & Hj0 & Hj0').
    specialize (Hlt1 ltac:(eauto)). lia.
Qed.

End Ranked.

Lemma build_tree_fills thread root gpus pairs (rank : nat -> nat) w w' built :
  (exists p0, pairs !! 0%nat = Some p0
     /\ Pairing.device p0 = device_id (param root)) ->
  (forall i p, (0 < i)%nat -> pairs !! i = Some p ->
     exists j q, pairs !! j = Some q
       /\ Pairing.device q = Pairing.parent p /\ (rank j < rank i)%nat) ->
  length pairs = length gpus ->
  syncs w = [] ->
  build_tree thread root gpus pairs w = Ok (built, w') ->
  length built = length gpus
  /\ forall i, (i < length gpus)%nat ->
       exists a, built !! i = Some (Some a) /\ (a < length (syncs w'))%nat.
Proof.
  intros Hroot Hranked Hlen Hw H.
  apply build_tree_loops in H
    as (obj & w1 & prm' & _ & Hs1 & Hpar & Hch & _ & _ & Hsolver & _ & Hn & H);
    [|exact Hw].
  apply (attempts_fill thread root pairs rank Hroot Hranked) in H
    as ((_ & Hl & Hlen') & Hholes).
  - simpl in Hlen', Hholes, Hl. rewrite length_seq in Hholes.
    pose proof (holes_bound
                  (<[0%nat := Some 0%nat]> (replicate (length gpus) None)))
      as Hb.
    rewrite length_insert, length_replicate in Hb.
    split; [congruence|]. intros i Hi.
    destruct (holes_zero built ltac:(lia) i ltac:(lia)) as (a & Ha).
    exists a. split; [exact Ha|].
    destruct Hl as (_ & _ & L3 & _). eapply L3, Ha.
  - split; [rewrite Hs1; apply shape_root; assumption|].
    split; [rewrite Hs1; apply linked_start; assumption|].
    simpl. rewrite length_insert, length_replicate. congruence.
Qed.

Local Ltac compare_nats :=
  repeat match goal with
         | |- context [Nat.eqb ?a ?b] => destruct (Nat.eqb_spec a b); try lia
         | |- context [Nat.leb ?a ?b] => destruct (Nat.leb_spec a b); try lia
         end;
  try reflexivity.

(** The pairs of [DevicePair::compute] describe a tree under the first
    pair, which names the first device. *)
Lemma compute_ranked props access devices pairs :
  Pairing.compute props access devices [] = Ok pairs ->
  length pairs = length devices
  /\ (exists p0, pairs !! 0%nat = Some p0
        /\ hd_error devices = Some (Pairing.device p0))
  /\ exists rank : nat -> nat,
       forall i p, (0 < i)%nat -> pairs !! i = Some p ->
         exists j q, pairs !! j = Some q
           /\ Pairing.device q = Pairing.parent p /\ (rank j < rank i)%nat.
Proof.
  intros H.
  apply Pairing.compute_Ok in H as (ps & root & Hpass & -> & Hlen & _).
  destruct (Pairing.pairing_passes_Ok _ _ _ _ _ _ Hpass)
    as (p1 & r1 & p2 & r2 & p3 & H1 & H2 & H3 & ->).
  simpl app in *.
  apply Pairing.pass_pass_effect in H1, H2, H3.
  destruct H1 as (_ & _ & Hd1 & F1), H2 as (P2 & _ & Hd2 & F2),
    H3 as (P3 & _ & Hd3 & F3).
  split; [exact Hlen|]. split.
  { eexists. split; [reflexivity|]. simpl in Hd3 |- *. congruence. }
  set (R := Pairing.mkDevicePair (-1) root).
  set (rank := fun j : nat =>
         if (j =? 0)%nat then 0%nat
         else if (j <=? length p1)%nat then 3%nat
         else if (j <=? length p1 + length p2)%nat then 2%nat
         else 1%nat).
  exists rank.
  assert (T0 : (R :: p1 ++ p2 ++ p3) !! 0%nat = Some R
               /\ Pairing.device R = root /\ rank 0%nat = 0%nat)
    by (repeat split).
  assert (T2 : forall k q, p2 !! k = Some q ->
            (R :: p1 ++ p2 ++ p3) !! S (length p1 + k) = Some q
            /\ rank (S (length p1 + k)) = 2%nat).
  { intros k q Hk. pose proof (lookup_lt_Some _ _ _ Hk) as Hlt. split.
    - simpl. rewrite lookup_app_r by lia.
      replace (length p1 + k - length p1)%nat with k by lia.
      apply lookup_app_l_Some, Hk.
    - unfold rank. compare_nats. }
  assert (T3 : forall k q, p3 !! k = Some q ->
            (R :: p1 ++ p2 ++ p3) !! S (length p1 + length p2 + k) = Some q
            /\ rank (S (length p1 + length p2 + k)) = 1%nat).
  { intros k q Hk. split.
    - simpl. rewrite lookup_app_r by lia. rewrite lookup_app_r by lia.
      replace (length p1 + length p2 + k - length p1 - length p2)%nat
        with k by lia.
      exact Hk.
    - unfold rank. compare_nats. }
  assert (In_lookup : forall (l : list Pairing.DevicePair) x,
            In x (map Pairing.device l) ->
            exists k q, l !! k = Some q /\ Pairing.device q = x).
  { intros l x Hx. apply in_map_iff in Hx as (q & Hq & Hin).
    apply list_elem_of_In, list_elem_of_lookup in Hin as (k & Hk). eauto. }
  assert (S3 : forall x, In x [root] ->
            exists j q, (R :: p1 ++ p2 ++ p3) !! j = Some q
              /\ Pairing.device q = x /\ (rank j < 1)%nat).
  { intros x [<-|[]]. exists 0%nat, R. repeat split. unfold rank. simpl. lia. }
  assert (S2 : forall x, In x r2 ->
            exists j q, (R :: p1 ++ p2 ++ p3) !! j = Some q
              /\ Pairing.device q = x /\ (rank j < 2)%nat).
  { intros x Hx. eapply Permutation_in in Hx; [|exact P3].
    apply in_app_or in Hx as [Hx|Hx].
    - destruct (S3 x Hx) as (j & q & Hj & Hq & Hr). exists j, q.
      repeat split; auto.
    - apply In_lookup in Hx as (k & q & Hk & Hq).
      destruct (T3 k q Hk) as (Hj & Hr).
      exists (S (length p1 + length p2 + k)), q. rewrite Hr. auto. }
  assert (S1 : forall x, In x r1 ->
            exists j q, (R :: p1 ++ p2 ++ p3) !! j = Some q
              /\ Pairing.device q = x /\ (rank j < 3)%nat).
  { intros x Hx. eapply Permutation_in in Hx; [|exact P2].
    apply in_app_or in Hx as [Hx|Hx].
    - destruct (S2 x Hx) as (j & q & Hj & Hq & Hr). exists j, q.
      repeat split; auto.
    - apply In_lookup in Hx as (k & q & Hk & Hq).
      destruct (T2 k q Hk) as (Hj & Hr).
      exists (S (length p1 + k)), q. rewrite Hr. auto. }
  intros [|i] p Hi Hp; [lia|]. simpl in Hp.
  rewrite Forall_forall in F1, F2, F3.
  apply lookup_app_Some in Hp as [Hp|(Hge1 & Hp)].
  - (* a pair of the board pass *)
    assert (Hr : rank (S i) = 3%nat).
    { pose proof (lookup_lt_Some _ _ _ Hp). unfold rank. compare_nats. }
    rewrite Hr. apply S1, F1. eapply list_elem_of_lookup_2, Hp.
  - apply lookup_app_Some in Hp as [Hp|(Hge2 & Hp)].
    + (* a pair of the P2P pass *)
      assert (Hr : rank (S i) = 2%nat).
      { pose proof (lookup_lt_Some _ _ _ Hp). unfold rank. compare_nats. }
      rewrite Hr. apply S2, F2. eapply list_elem_of_lookup_2, Hp.
    + (* a pair of the last pass *)
      assert (Hr : rank (S i) = 1%nat).
      { unfold rank. compare_nats. }
      rewrite Hr. apply S3, F3. eapply list_elem_of_lookup_2, Hp.
Qed.

(** X28.  The attempts suffice.  With the pair list of
    [DevicePair::compute] for [gpus] and the root solver on [gpus[0]],
    lines 398-422, called when no worker exists, leave no slot of [syncs]
    null: every slot holds the address of a worker, so the loop of line 426
    that starts the threads dereferences no null pointer. *)
Theorem build_tree_fills_every_slot
    (props : Z -> option Pairing.cudaDeviceProp)
    (access : Z -> Z -> option Z)
    (thread : nat) (root : Solver) (gpus : list Z)
    (pairs : list Pairing.DevicePair) (w w' : World)
    (built : list (option nat)) :
  Pairing.compute props access gpus [] = Ok pairs ->
  hd_error gpus = Some (device_id (param root)) ->
  syncs w = [] ->
  build_tree thread root gpus pairs w = Ok (built, w') ->
  length built = length gpus
  /\ forall i, (i < length gpus)%nat ->
       exists a, built !! i = Some (Some a) /\ (a < length (syncs w'))%nat.
Proof.
  intros Hc Hhd Hw H.
  apply compute_ranked in Hc as (Hlen & (p0 & Hp0 & Hd0) & rank & Hranked).
  apply (build_tree_fills thread root gpus pairs rank w w' built);
    try assumption.
  exists p0. split; [exact Hp0|]. congruence.
Qed.

(** X29.  [run] relies on the root solver's device.  If no pair names the
    device of the root solver as parent (the root solver is not on
    [gpus[0]], say), lines 398-422 build the root worker and nothing else:
    every other slot of [syncs] is still null when the loops end, whatever
    the number of attempts. *)
Theorem build_tree_root_elsewhere (thread : nat) (root : Solver)
    (gpus : list Z) (pairs : list Pairing.DevicePair) (w w' : World)
    (built : list (option nat)) :
  syncs w = [] ->
  (forall p, p ∈ pairs -> Pairing.parent p <> device_id (param root)) ->
  build_tree thread root gpus pairs w = Ok (built, w') ->
  built = <[0%nat := Some 0%nat]> (replicate (length gpus) None)
  /\ length (syncs w') = 1%nat.
Proof.
  intros Hw Hno H.
  apply build_tree_loops in H
    as (obj & w1 & prm' & _ & Hs1 & _ & _ & _ & _ & Hsolver & _ & _ & H);
    [|exact Hw].
  set (built0 := <[0%nat := Some 0%nat]> (replicate (length gpus) None)) in *.
  assert (Hinv : fst (built, prm') = built0 /\ syncs w' = [obj]).
  { refine (for_state_inv
              (fun st w => fst st = built0 /\ syncs w = [obj])
              _ _ _ _ _ (built, prm') w' _ H); [|auto].
    clear H. intros _ st v st' v' HI H.
    refine (for_state_inv
              (fun st w => fst st = built0 /\ syncs w = [obj])
              _ _ _ _ _ st' v' HI H).
    clear HI H st v st' v'. intros i [b prm] v st' v' (Hb & Hs) H.
    simpl in Hb. subst b. unfold build_worker in H.
    apply bind_Ok in H as (slot & v0 & H0 & H).
    apply valid_Ok in H0 as (-> & Hslot).
    destruct slot as [a0|]; [inversion H; subst; auto|].
    apply bind_Ok in H as (p & v0 & H0 & H).
    apply valid_Ok in H0 as (-> & Hp).
    apply bind_Ok in H as (parent & v0 & H0 & H).
    apply find_parent_Ok in H0 as (-> & [->|(j & a & _ & Hd & _)]).
    - inversion H; subst; auto.
    - exfalso. apply (Hno p); [eapply list_elem_of_lookup_2, Hp|].
      unfold device_at in Hd. rewrite Hs in Hd.
      destruct a as [|a]; simpl in Hd; [|discriminate].
      inversion Hd. rewrite Hsolver. reflexivity. }
  destruct Hinv as (Hb & Hs). simpl in Hb. rewrite Hs. auto.
Qed.

End Run.

(** **** An example: four devices that are all peers *)

Definition example_gpus : list Z := [0; 1; 2; 3].

Definition example_pairs : list Pairing.DevicePair :=
  [ Pairing.mkDevicePair (-1) 0; Pairing.mkDevicePair 0 1;
    Pairing.mkDevicePair 2 3; Pairing.mkDevicePair 0 2 ].

Lemma example_pairs_computed :
  Pairing.compute Pairing.plain_props Pairing.all_peers example_gpus []
  = Ok example_pairs.
Proof. vm_compute. reflexivity. Qed.

Lemma example_new_Solver_param prm w s w' :
  example_new_Solver prm w = Ok (s, w') -> param s = prm /\ syncs w' = syncs w.
Proof. intros H. inversion H; subst. auto. Qed.

Lemma example_new_Solver_memory prm w s w' :
  example_new_Solver prm w = Ok (s, w') ->
  default_stream w' = default_stream w
  /\ extends (mem (heap w)) (mem (heap w')).
Proof.
  intros H. inversion H; subst. split; [reflexivity|apply extends_refl].
Qed.

Lemma build_tree_follows_pairs_witness :
  exists built w',
    build_tree no_error (fun _ _ => 1) Dtype_zero example_new_Solver 0
      example_root_solver example_gpus example_pairs construction_world
    = Ok (built, w')
    /\ built = [Some 0; Some 1; Some 3; Some 2]%nat
    /\ (exists r, built !! 0%nat = Some (Some 0%nat)
          /\ syncs w' !! 0%nat = Some r
          /\ solver_ r = example_root_solver /\ parent_ r = None)
    /\ forall i a, (0 < i)%nat -> built !! i = Some (Some a) ->
         exists p s b sb,
           example_pairs !! i = Some p
           /\ syncs w' !! a = Some s
           /\ device_id (param (solver_ s)) = Pairing.device p
           /\ parent_ s = Some b
           /\ syncs w' !! b = Some sb
           /\ device_id (param (solver_ sb)) = Pairing.parent p
           /\ a ∈ children_ sb.
Proof.
  eassert (H : build_tree no_error (fun _ _ => 1) Dtype_zero example_new_Solver 0
                 example_root_solver example_gpus example_pairs
                 construction_world = Ok (_, _))
    by (vm_compute; reflexivity).
  eexists _, _. split; [exact H|]. split; [reflexivity|].
  exact (build_tree_follows_pairs no_error (fun _ _ => 1) Dtype_zero
           example_new_Solver example_new_Solver_param 0 example_root_solver
           example_gpus example_pairs construction_world _ _ eq_refl H).
Defined.

Lemma build_tree_makes_tree_witness :
  exists built w',
    build_tree no_error (fun _ _ => 1) Dtype_zero example_new_Solver 0
      example_root_solver example_gpus example_pairs construction_world
    = Ok (built, w')
    /\ length (syncs w') = 4%nat
    /\ tree w' 10
    /\ (forall i s, syncs w' !! i = Some s ->
          parent_ s <> None -> is_Some (parent_grads_ s))
    /\ (forall i s p, syncs w' !! i = Some s -> parent_ s = Some p ->
          (p < i)%nat).
Proof.
  eassert (H : build_tree no_error (fun _ _ => 1) Dtype_zero example_new_Solver 0
                 example_root_solver example_gpus example_pairs
                 construction_world = Ok (_, _))
    by (vm_compute; reflexivity).
  eexists _, _. split; [exact H|]. split; [reflexivity|].
  exact (build_tree_makes_tree no_error (fun _ _ => 1) Dtype_zero
           example_new_Solver example_new_Solver_param
           example_new_Solver_memory 0 example_root_solver
           example_gpus example_pairs construction_world _ _
           eq_refl eq_refl H).
Defined.

Lemma build_tree_fills_every_slot_witness :
  exists built w',
    build_tree no_error (fun _ _ => 1) Dtype_zero example_new_Solver 0
      example_root_solver example_gpus example_pairs construction_world
    = Ok (built, w')
    /\ length built = 4%nat
    /\ forall i, (i < 4)%nat ->
         exists a, built !! i = Some (Some a) /\ (a < length (syncs w'))%nat.
Proof.
  eassert (H : build_tree no_error (fun _ _ => 1) Dtype_zero example_new_Solver 0
                 example_root_solver example_gpus example_pairs
                 construction_world = Ok (_, _))
    by (vm_compute; reflexivity).
  eexists _, _. split; [exact H|].
  exact (build_tree_fills_every_slot no_error (fun _ _ => 1) Dtype_zero
           example_new_Solver example_new_Solver_param
           Pairing.plain_props Pairing.all_peers 0 example_root_solver
           example_gpus example_pairs construction_world _ _
           example_pairs_computed eq_refl eq_refl H).
Defined.

Lemma build_tree_root_elsewhere_witness :
  exists built w',
    build_tree no_error (fun _ _ => 1) Dtype_zero example_new_Solver 0
      example_root_solver [1; 2]
      [Pairing.mkDevicePair (-1) 1; Pairing.mkDevicePair 1 2]
      construction_world
    = Ok (built, w')
    /\ built = [Some 0%nat; None] /\ length (syncs w') = 1%nat.
Proof.
  eassert (H : build_tree no_error (fun _ _ => 1) Dtype_zero example_new_Solver 0
                 example_root_solver [1; 2]
                 [Pairing.mkDevicePair (-1) 1; Pairing.mkDevicePair 1 2]
                 construction_world = Ok (_, _))
    by (vm_compute; reflexivity).
  eexists _, _. split; [exact H|].
  refine (build_tree_root_elsewhere no_error (fun _ _ => 1) Dtype_zero
            example_new_Solver 0 example_root_solver [1; 2]
            [Pairing.mkDevicePair (-1) 1; Pairing.mkDevicePair 1 2]
            construction_world _ _ eq_refl _ H).
  intros p Hp. simpl.
  apply elem_of_cons in Hp as [->|Hp]; [simpl; lia|].
  apply elem_of_cons in Hp as [->|Hp]; [simpl; lia|].
  apply elem_of_nil in Hp. contradiction.
Defined.

End Sync.
